(** * The validator agent of the task orchestrator (src/agents/validator.js)

    A shallow embedding of [ValidatorAgent] and of the JavaScript
    primitives it relies on, followed by the properties of its
    dependency-graph, risk and scoring logic.

    Modelling conventions.
    - Strings are [string]s of ASCII characters; [length] counts characters.
    - Numbers are IEEE 754 double-precision values: [NaN], the two
      infinities and the finite doubles, each given by the rational it
      denotes, in lowest terms.  Every arithmetic operation computes the
      exact result and rounds it to the nearest double ([JsNumber.of_Q]:
      53 binary digits, ties to the even mantissa, gradual underflow,
      overflow to an infinity).  The sign of a zero is not kept; nothing in
      the validator depends on it.
    - [parseInt] reads decimal digits and returns the double nearest to
      the integer they spell; [String(x)], which a template literal also
      applies, prints the shortest decimal that reads back as [x], in
      exponent notation from [1e21] on.
    - An array has fewer than [2^32] elements.  The properties that depend
      on the arithmetic of a sum or a ratio over the plan state this bound
      on the length of the plan.
    - Step ids and dependency ids are integers that a double holds exactly.
      An object indexed by them is an insertion-ordered association list
      whose keys stand for the strings [String(id)]; [Object_keys] restores
      the order in which JavaScript enumerates such keys.
    - A [Set] distinguishes the string ["1"] (a key returned by
      [Object.keys]) from the number [1] (an element of a dependency
      array); a plain object used as a map does not.
    - A thrown exception is the [Throw] case of [result]; an [async]
      function returns a [promise]. *)

From Stdlib Require Import ZArith QArith Qround Qabs Qpower String Ascii List Bool Lia Lqa.
From Stdlib Require Import DecimalString DecimalPos DecimalNat.
From Stdlib Require Qcanon.
From stdpp Require Import base decidable option list gmap sets fin_sets strings.

Local Open Scope string_scope.
Local Open Scope list_scope.
Local Open Scope Z_scope.

#[local] Set Warnings "-clear-no-such-hyp".

(** ** JavaScript strings *)

Module JsString.

(** [s.startsWith(t)] *)
Fixpoint startsWith (s t : string) {struct t} : bool :=
  match t, s with
  | EmptyString, _ => true
  | String c t', String d s' => if Ascii.eqb c d then startsWith s' t' else false
  | String _ _, EmptyString => false
  end.

(** [s.includes(t)] *)
Fixpoint includes (s t : string) : bool :=
  startsWith s t ||
  match s with
  | EmptyString => false
  | String _ s' => includes s' t
  end.

Definition lower_char (c : ascii) : ascii :=
  let n := N_of_ascii c in
  if ((65 <=? n) && (n <=? 90))%N then ascii_of_N (n + 32) else c.

(** [s.toLowerCase()] *)
Fixpoint toLowerCase (s : string) : string :=
  match s with
  | EmptyString => EmptyString
  | String c s' => String (lower_char c) (toLowerCase s')
  end.

Definition is_digit (c : ascii) : bool :=
  let n := N_of_ascii c in ((48 <=? n) && (n <=? 57))%N.

(** [\s], on ASCII *)
Definition is_space (c : ascii) : bool :=
  let n := N_of_ascii c in ((n =? 32) || ((9 <=? n) && (n <=? 13)))%N.

(** The longest prefix of digits, as the number it denotes, with the
    number of digits read and the rest of the string. *)
Fixpoint digits_from (acc : Z) (count : nat) (s : string) : Z * nat * string :=
  match s with
  | String c s' =>
      if is_digit c
      then digits_from (10 * acc + (Z.of_N (N_of_ascii c) - 48)) (S count) s'
      else (acc, count, s)
  | EmptyString => (acc, count, s)
  end.

Fixpoint skip_spaces (s : string) : string :=
  match s with
  | String c s' => if is_space c then skip_spaces s' else s
  | EmptyString => s
  end.

(** The template literal [`${n}`] of a length or an index, and the decimal
    digits of an integer. *)
Definition of_nat (n : nat) : string := NilZero.string_of_uint (Nat.to_uint n).
Definition of_Z (z : Z) : string := NilZero.string_of_int (Z.to_int z).

(** [s.substring(0, n)] and [s.substring(n)] *)
Fixpoint first_chars (n : nat) (s : string) : string :=
  match n, s with
  | S n', String c s' => String c (first_chars n' s')
  | _, _ => EmptyString
  end.

Fixpoint skip_chars (n : nat) (s : string) : string :=
  match n, s with
  | S n', String _ s' => skip_chars n' s'
  | _, _ => s
  end.

(** ["0".repeat(n)] *)
Fixpoint zeros (n : nat) : string :=
  match n with
  | O => EmptyString
  | S n' => String "0"%char (zeros n')
  end.

End JsString.

Import JsString.

(** ** JavaScript numbers *)

Inductive number : Type :=
| NaN
| Infinity (negative : bool)
| Num (q : Q).

Module JsNumber.

(** *** Rounding to a double *)

(** The integer nearest to [x], the even one of two that are equally near. *)
Definition round_nearest_even (x : Q) : Z :=
  let f := Qfloor x in
  match (x - inject_Z f ?= 1 # 2)%Q with
  | Lt => f
  | Gt => f + 1
  | Eq => if Z.even f then f else f + 1
  end.

(** [floor (log2 q)] for a positive [q]. *)
Definition log2_floor (q : Q) : Z :=
  let e := Z.log2 (Qnum q) - Z.log2 (Zpos (Qden q)) in
  if Qle_bool (2 ^ e) q then e else e - 1.

(** The exponent of the unit in the last place of the double nearest to a
    positive [a]: 53 binary digits, and no unit below [2^-1074]. *)
Definition exponent (a : Q) : Z := Z.max (log2_floor a - 52) (-1074).

(** The multiple of that unit nearest to a positive [a]. *)
Definition nearest (a : Q) : Q :=
  (inject_Z (round_nearest_even (a / 2 ^ exponent a)) * 2 ^ exponent a)%Q.

(** The number a real value is stored as: the nearest double, the one of
    even mantissa when two are equally near, and an infinity from [2^1024]
    on. *)
Definition of_Q (q : Q) : number :=
  let q := Qred q in
  if Qeq_bool q 0 then Num 0
  else
    let r := nearest (Qabs q) in
    if Qle_bool (2 ^ 1024) r then Infinity (negb (Qle_bool 0 q))
    else Num (Qred (if Qle_bool 0 q then r else - r)).

Definition of_Z (z : Z) : number := of_Q (inject_Z z).

(** The length of an array, or an index, as a number. *)
Definition of_nat (n : nat) : number := of_Z (Z.of_nat n).

(** *** Arithmetic *)

Definition is_negative (q : Q) : bool := negb (Qle_bool 0 q).

(** [x + y] *)
Definition add (x y : number) : number :=
  match x, y with
  | NaN, _ | _, NaN => NaN
  | Infinity a, Infinity b => if Bool.eqb a b then Infinity a else NaN
  | Infinity a, Num _ | Num _, Infinity a => Infinity a
  | Num a, Num b => of_Q (a + b)
  end.

(** [x - y] *)
Definition sub (x y : number) : number :=
  match x, y with
  | NaN, _ | _, NaN => NaN
  | Infinity a, Infinity b => if Bool.eqb a b then NaN else Infinity a
  | Infinity a, Num _ => Infinity a
  | Num _, Infinity b => Infinity (negb b)
  | Num a, Num b => of_Q (a - b)
  end.

(** [x * y] *)
Definition mul (x y : number) : number :=
  match x, y with
  | NaN, _ | _, NaN => NaN
  | Infinity a, Infinity b => Infinity (xorb a b)
  | Infinity a, Num q | Num q, Infinity a =>
      if Qeq_bool q 0 then NaN else Infinity (xorb a (is_negative q))
  | Num a, Num b => of_Q (a * b)
  end.

(** [x / y] *)
Definition div (x y : number) : number :=
  match x, y with
  | NaN, _ | _, NaN => NaN
  | Infinity _, Infinity _ => NaN
  | Infinity a, Num q => Infinity (xorb a (is_negative q))
  | Num _, Infinity _ => Num 0
  | Num a, Num b =>
      if Qeq_bool b 0
      then (if Qeq_bool a 0 then NaN else Infinity (is_negative a))
      else of_Q (a / b)
  end.

(** [Math.round]: the nearest integer, the greater of two that are equally
    near *)
Definition round_half_up (q : Q) : Z := Qfloor (q + (1 # 2)).

Definition Math_round (x : number) : number :=
  match x with
  | Num q => Num (inject_Z (round_half_up q))
  | other => other
  end.

(** [Math.ceil] *)
Definition Math_ceil (x : number) : number :=
  match x with
  | Num q => Num (inject_Z (Qceiling q))
  | other => other
  end.

(** [Math.abs] *)
Definition Math_abs (x : number) : number :=
  match x with
  | NaN => NaN
  | Infinity _ => Infinity false
  | Num q => Num (Qabs q)
  end.

(** [x <= y] and [x < y]; a comparison with [NaN] is false. *)
Definition leb (x y : number) : bool :=
  match x, y with
  | NaN, _ | _, NaN => false
  | Infinity a, Infinity b => a || negb b
  | Infinity a, Num _ => a
  | Num _, Infinity b => negb b
  | Num a, Num b => Qle_bool a b
  end.

Definition ltb (x y : number) : bool :=
  match x, y with
  | NaN, _ | _, NaN => false
  | Infinity a, Infinity b => a && negb b
  | Infinity a, Num _ => a
  | Num _, Infinity b => negb b
  | Num a, Num b => negb (Qle_bool b a)
  end.

(** [x > y] and [x >= y] *)
Definition gtb (x y : number) : bool := ltb y x.
Definition geb (x y : number) : bool := leb y x.

(** [Math.min(x, y)] *)
Definition Math_min (x y : number) : number :=
  match x, y with
  | NaN, _ | _, NaN => NaN
  | _, _ => if leb x y then x else y
  end.

(** A number in a condition: [0] and [NaN] count as false. *)
Definition truthy (x : number) : bool :=
  match x with
  | NaN => false
  | Infinity _ => true
  | Num q => negb (Qeq_bool q 0)
  end.

(** *** Reading and printing *)

(** [parseInt(s)] of decimal digits or of a printed number: blanks, a sign,
    then the digits up to the first other character; [NaN] without a
    digit. *)
Definition parseInt (s : string) : number :=
  let s := skip_spaces s in
  let '(negative, s) :=
    match s with
    | String "-"%char s' => (true, s')
    | String "+"%char s' => (false, s')
    | _ => (false, s)
    end in
  let '(z, count, _) := digits_from 0 0 s in
  match count with
  | O => NaN
  | S _ => of_Z (if negative : bool then - z else z)
  end.

Definition pow10 (n : Z) : Q := (10 ^ n)%Q.

(** The [n] with [10^(n-1) <= q < 10^n], for a positive [q]. *)
Definition decade (q : Q) : Z :=
  if Qle_bool 1 q
  then Z.of_nat (String.length (JsString.of_Z (Qfloor q)))
  else
    let d := Z.of_nat (String.length (JsString.of_Z (Qfloor (/ q)))) in
    if Qeq_bool q (pow10 (1 - d)) then 2 - d else 1 - d.

(** Whether the decimal [s * scale] reads back as the double [q]. *)
Definition reads_back (q : Q) (s : Z) (scale : Q) : bool :=
  match of_Q (inject_Z s * scale) with
  | Num r => Qeq_bool r q
  | _ => false
  end.

(** The digits of [q] with [k] digits, if [k] digits can tell [q] from the
    other doubles: the nearer of the two [k]-digit decimals around [q] that
    read back as [q], the even one when both do and are equally near. *)
Definition digits_of_length (q : Q) (n : Z) (k : Z) : option Z :=
  let scale := pow10 (n - k) in
  let low := Qfloor (q / scale) in
  let high := low + 1 in
  match reads_back q low scale, reads_back q high scale with
  | true, true =>
      match (q - inject_Z low * scale ?= inject_Z high * scale - q)%Q with
      | Lt => Some low
      | Gt => Some high
      | Eq => Some (if Z.even low then low else high)
      end
  | true, false => Some low
  | false, true => Some high
  | false, false => None
  end.

(** The shortest digits that tell [q] from the other doubles, from [k]
    digits on, and how many they are. *)
Fixpoint shortest_digits (fuel : nat) (q : Q) (n : Z) (k : Z) : Z * Z :=
  match fuel with
  | O => (Qfloor (q / pow10 (n - k)), k)
  | S fuel' =>
      match digits_of_length q n k with
      | Some s => (s, k)
      | None => shortest_digits fuel' q n (k + 1)
      end
  end.

(** [Number::toString] of a positive double.  An integer below [2^53]
    needs all its digits.  Otherwise the shortest digits [s], their number
    [k] and the exponent [n] with [q] nearest to [s * 10^(n-k)] are laid
    out as the language prescribes; 17 digits always suffice, and the
    search also stops at the digits of the integer part. *)
Definition positive_toString (q : Q) : string :=
  let q := Qred q in
  if ((Qden q =? 1)%positive && (Qnum q <? 2 ^ 53)%Z)%bool
  then JsString.of_Z (Qnum q)
  else
    let n0 := decade q in
    let '(s0, k) := shortest_digits (17 + Z.to_nat n0) q n0 1 in
    let '(s, n) := if (s0 =? 10 ^ k)%Z then (10 ^ (k - 1), n0 + 1)%Z else (s0, n0) in
    let digits := JsString.of_Z s in
    if ((k <=? n) && (n <=? 21))%Z%bool
    then digits +:+ zeros (Z.to_nat (n - k))
    else if ((0 <? n) && (n <=? 21))%Z%bool
    then first_chars (Z.to_nat n) digits +:+ "." +:+ skip_chars (Z.to_nat n) digits
    else if ((-6 <? n) && (n <=? 0))%Z%bool
    then "0." +:+ zeros (Z.to_nat (- n)) +:+ digits
    else
      let e := (n - 1)%Z in
      let exp := (if (e <? 0)%Z then "e-" else "e+") +:+ JsString.of_Z (Z.abs e) in
      if (k =? 1)%Z then digits +:+ exp
      else first_chars 1 digits +:+ "." +:+ skip_chars 1 digits +:+ exp.

(** [String(x)], also what a template literal prints *)
Definition toString (x : number) : string :=
  match x with
  | NaN => "NaN"
  | Infinity negative => if negative then "-Infinity" else "Infinity"
  | Num q =>
      if Qeq_bool q 0 then "0"
      else if Qle_bool 0 q then positive_toString q
      else "-" +:+ positive_toString (- q)
  end.

End JsNumber.


(** ** Exceptions and promises *)

Inductive result (A : Type) : Type :=
| Ok (a : A)
| Throw (message : string).
Arguments Ok {A} a.
Arguments Throw {A} message.

Definition bind {A B : Type} (m : result A) (k : A -> result B) : result B :=
  match m with
  | Ok a => k a
  | Throw e => Throw e
  end.

Notation "'run' x <- m 'in' k" := (bind m (fun x => k))
  (at level 10, x name, m at level 100, k at level 200).

Inductive promise (A : Type) : Type :=
| Resolved (a : A)
| Rejected (message : string).
Arguments Resolved {A} a.
Arguments Rejected {A} message.

(** ** Data model *)

Module Step.
(** A plan step.  The fields the validator tests for presence before
    use are optional; an absent one is [undefined]. *)
Record t : Type := make {
  id : Z;
  title : string;
  description : option string;
  duration : option string;
  resources : option (list string);
  dependencies : option (list Z)
}.
End Step.

Inductive finding_type : Type := passed | warning | failed.

(** A member of a [Set], or an element of a reported path: the key of an
    object (a string) or an element of a dependency array (a number). *)
Inductive jskey : Type :=
| KeyStr (k : Z)
| KeyNum (k : Z).

(** The property a key designates: ["1"] and [1] name the same one. *)
Definition property (k : jskey) : Z :=
  match k with KeyStr z => z | KeyNum z => z end.

Record feasibility_factors : Type := {
  hasDuration : bool;
  hasResources : option bool;
  descriptionLength : nat;
  hasDependencies : option bool
}.

Record unbalanced_entry : Type := {
  ub_step : nat;
  ub_title : string;
  ub_duration : string;
  ub_difference : number
}.

Record complex_entry : Type := {
  cx_step : number;
  cx_dependencies : nat;
  cx_assessment : string
}.

Inductive risk_level : Type := high | medium.

Record risk_entry : Type := {
  rk_step : nat;
  rk_title : string;
  rk_risk : string;
  rk_level : risk_level;
  rk_impact : string
}.

(** The [details] payload of a finding, one shape per evaluator. *)
Inductive details : Type :=
| StepFeasibility (stepId : Z) (assessment : string) (factors : feasibility_factors)
| OverallFeasibility (assessment : string) (percentage : number)
| ResourceCount (totalResources : nat) (assessment recommendation : string)
| CriticalResources (resources : list string) (recommendation : string)
| TimelineAssessment (totalDuration : string) (steps : nat)
    (assessment recommendation : string)
| DurationBalance (steps : list unbalanced_entry) (recommendation : string)
| CircularChains (chains : list (list jskey)) (recommendation : string)
| ComplexSteps (steps : list complex_entry) (recommendation : string)
| DependencyOverview (totalDependencies : nat) (maxDepth : Z) (assessment : string)
| RiskList (risks : list risk_entry) (recommendation : string)
| MitigationDetails (score : number) (assessment recommendation : string)
| NoDetails.

Module Finding.
Record t : Type := make {
  id : string;
  type : finding_type;
  title : string;
  message : string;
  details : details
}.
End Finding.

#[global] Instance finding_type_eq_dec : EqDecision finding_type.
Proof. solve_decision. Defined.

#[global] Instance risk_level_eq_dec : EqDecision risk_level.
Proof. solve_decision. Defined.

#[global] Instance jskey_eq_dec : EqDecision jskey.
Proof. solve_decision. Defined.

#[global] Instance jskey_countable : Countable jskey.
Proof.
  refine (inj_countable'
            (fun k => match k with KeyStr z => inl z | KeyNum z => inr z end)
            (fun s => match s with inl z => KeyStr z | inr z => KeyNum z end) _).
  intros []; reflexivity.
Defined.

(** ** The agent *)

Module RiskFactors.
Record t : Type := make {
  high : list string;
  medium : list string;
  low : list string
}.
End RiskFactors.

(** The keys of [validationRules]. *)
Module Rule.
Inductive name : Type :=
| feasibility | resources | timeline | dependencies | risks.
End Rule.

(** The state of a [ValidatorAgent] instance: its two tables. *)
Record ValidatorAgent : Type := {
  validationRules : list Rule.name;
  riskFactors : RiskFactors.t
}.

(** [new ValidatorAgent()] *)
Definition constructor : ValidatorAgent :=
  {| validationRules :=
       [Rule.feasibility; Rule.resources; Rule.timeline; Rule.dependencies; Rule.risks];
     riskFactors :=
       {| RiskFactors.high :=
            ["tight timeline"; "complex dependencies"; "unknown technology";
             "limited resources"; "multiple stakeholders"];
          RiskFactors.medium :=
            ["moderate complexity"; "some dependencies"; "limited expertise";
             "budget constraints"];
          RiskFactors.low :=
            ["well-defined"; "experienced team"; "ample resources";
             "clear requirements"] |} |}.

(** ** Small helpers for the JavaScript idioms of the module *)

Definition dquote : string := String "034"%char EmptyString.

(** A non-empty string is truthy. *)
Definition truthy (s : string) : bool := negb (String.eqb s "").

Definition is_type (t : finding_type) (v : Finding.t) : bool :=
  bool_decide (Finding.type v = t).

(** [set.add(x)] on a [Set] of strings kept in insertion order *)
Definition Set_add (set : list string) (x : string) : list string :=
  if bool_decide (x ∈ set) then set else set ++ [x].

(** [list.forEach((x, index) => ...)] over a body that may throw, threading
    the variables the body assigns. *)
Fixpoint forEach {A St : Type} (body : St -> nat -> A -> result St)
    (index : nat) (l : list A) (s : St) : result St :=
  match l with
  | [] => Ok s
  | x :: l' => run s' <- body s index x in forEach body (S index) l' s'
  end.

(** ** Feasibility *)

Definition assessStepFeasibility (step : Step.t) : bool :=
  let factors : list (option bool) :=
    [ match Step.duration step with
      | Some d => if truthy d then Some (includes d "hours") else None
      | None => None
      end;
      match Step.resources step with
      | Some r => Some (0 <? length r)%nat
      | None => None
      end;
      match Step.description step with
      | Some d => if truthy d then Some (20 <? String.length d)%nat else None
      | None => None
      end ] in
  forallb (fun f => match f with Some true => true | _ => false end) factors.

Definition getFeasibilityFactors (step : Step.t) : feasibility_factors :=
  {| hasDuration := match Step.duration step with Some d => truthy d | None => false end;
     hasResources := (fun r : list string => (0 <? length r)%nat) <$> Step.resources step;
     descriptionLength :=
       match Step.description step with
       | Some d => String.length d
       | None => 0%nat
       end;
     hasDependencies := (fun d : list Z => (0 <? length d)%nat) <$> Step.dependencies step |}.

Definition validateFeasibility (task : string) (plan : list Step.t) : list Finding.t :=
  let validations :=
    imap (fun index step =>
      let isFeasible := assessStepFeasibility step in
      {| Finding.id := "feasibility-" +:+ of_nat (index + 1);
         Finding.type := if isFeasible then passed else warning;
         Finding.title := "Step " +:+ of_nat (index + 1) +:+ " Feasibility";
         Finding.message :=
           if isFeasible
           then dquote +:+ Step.title step +:+ dquote +:+ " appears feasible"
           else dquote +:+ Step.title step +:+ dquote
                +:+ " may require additional resources or expertise";
         Finding.details :=
           StepFeasibility (Step.id step)
             (if isFeasible then "Feasible" else "Needs Review")
             (getFeasibilityFactors step) |}) plan in
  let overallFeasible := forallb (is_type passed) validations in
  validations ++
  [ {| Finding.id := "overall-feasibility";
       Finding.type := if overallFeasible then passed else warning;
       Finding.title := "Overall Feasibility";
       Finding.message :=
         if overallFeasible
         then "The overall plan appears feasible"
         else "Some steps may require adjustment for full feasibility";
       Finding.details :=
         OverallFeasibility
           (if overallFeasible then "Good" else "Needs Attention")
           (JsNumber.Math_round
              (JsNumber.mul
                 (JsNumber.div
                    (JsNumber.of_nat (length (List.filter (is_type passed) validations)))
                    (JsNumber.of_nat (length plan)))
                 (Num 100))) |} ].

(** ** Resources *)

Definition identifyCriticalResources (plan : list Step.t) : list string :=
  let criticalKeywords :=
    ["specialized"; "expert"; "licensed"; "premium"; "custom"; "rare"] in
  foldl (fun criticalResources step =>
      match Step.resources step with
      | Some rs =>
          foldl (fun acc resource =>
              if existsb (fun keyword => includes (toLowerCase resource) keyword)
                   criticalKeywords
              then Set_add acc resource
              else acc) criticalResources rs
      | None => criticalResources
      end) [] plan.

Definition validateResources (task : string) (plan : list Step.t) : list Finding.t :=
  let totalResources :=
    foldl (fun set step =>
        match Step.resources step with
        | Some rs => foldl Set_add set rs
        | None => set
        end) [] plan in
  let resourceCount := length totalResources in
  let resourceStatus := if (resourceCount <=? 10)%nat then passed else warning in
  let criticalResources := identifyCriticalResources plan in
  [ {| Finding.id := "resource-count";
       Finding.type := resourceStatus;
       Finding.title := "Resource Requirements";
       Finding.message :=
         if bool_decide (resourceStatus = passed)
         then "Plan requires " +:+ of_nat resourceCount
              +:+ " distinct resources (manageable)"
         else "Plan requires " +:+ of_nat resourceCount
              +:+ " distinct resources (consider consolidation)";
       Finding.details :=
         ResourceCount resourceCount
           (if (resourceCount <=? 10)%nat then "Reasonable" else "High")
           (if (10 <? resourceCount)%nat
            then "Consider resource consolidation" else "Good") |} ]
  ++
  (if (0 <? length criticalResources)%nat
   then [ {| Finding.id := "critical-resources";
             Finding.type := warning;
             Finding.title := "Critical Resources";
             Finding.message :=
               "Identified " +:+ of_nat (length criticalResources)
               +:+ " potentially critical resources";
             Finding.details :=
               CriticalResources criticalResources
                 "Ensure availability of critical resources before starting" |} ]
   else []).

(** ** Timeline *)

(** [/(\d+)-(\d+)/] tried at the start of [s]: the two captures, the
    longest runs of digits on either side of the dash. *)
Definition range_here (s : string) : option (string * string) :=
  let '(_, count_a, rest) := digits_from 0 0 s in
  match count_a, rest with
  | S _, String "-"%char rest' =>
      let '(_, count_b, _) := digits_from 0 0 rest' in
      match count_b with
      | S _ => Some (first_chars count_a s, first_chars count_b rest')
      | O => None
      end
  | _, _ => None
  end.

(** [s.match(/(\d+)-(\d+)/)]: the captures of the leftmost match *)
Fixpoint range_match (s : string) : option (string * string) :=
  match range_here s with
  | Some m => Some m
  | None =>
      match s with
      | String _ s' => range_match s'
      | EmptyString => None
      end
  end.

(** [/(\d+)\s*weeks/] tried at the start of [s]: the capture *)
Definition weeks_here (s : string) : option string :=
  let '(_, count, rest) := digits_from 0 0 s in
  match count with
  | S _ => if startsWith (skip_spaces rest) "weeks" then Some (first_chars count s) else None
  | O => None
  end.

(** [s.match(/(\d+)\s*weeks/)] *)
Fixpoint weeks_match (s : string) : option string :=
  match weeks_here s with
  | Some n => Some n
  | None =>
      match s with
      | String _ s' => weeks_match s'
      | EmptyString => None
      end
  end.

(** [step.duration.match(...)]: reading [match] off an absent duration
    throws a [TypeError]. *)
Definition duration_match (step : Step.t) : result (option (string * string)) :=
  match Step.duration step with
  | Some d => Ok (range_match d)
  | None => Throw "Cannot read properties of undefined (reading 'match')"
  end.

(** The midpoint [(parseInt(match[1]) + parseInt(match[2])) / 2] *)
Definition midpoint (m : string * string) : number :=
  JsNumber.div (JsNumber.add (JsNumber.parseInt (fst m)) (JsNumber.parseInt (snd m)))
    (Num 2).

Definition calculatePlanDuration (plan : list Step.t) : result string :=
  run totalHours <-
    forEach (fun totalHours _ step =>
        run m <- duration_match step in
        match m with
        | Some m => Ok (JsNumber.add totalHours (midpoint m))
        | None => Ok (JsNumber.add totalHours (Num 2))
        end) 0 plan (Num 0) in
  if JsNumber.leb totalHours (Num 8)
  then Ok (JsNumber.toString (JsNumber.Math_ceil totalHours) +:+ " hours")
  else if JsNumber.leb totalHours (Num 40)
  then Ok (JsNumber.toString (JsNumber.Math_ceil (JsNumber.div totalHours (Num 8)))
           +:+ " days")
  else Ok (JsNumber.toString (JsNumber.Math_ceil (JsNumber.div totalHours (Num 40)))
           +:+ " weeks").

Record timeline_status : Type := {
  status : finding_type;
  ts_message : string;
  ts_assessment : string;
  ts_recommendation : string
}.

Definition assessTimeline (duration : string) (stepCount : nat) : timeline_status :=
  let weeksMatch := weeks_match duration in
  if match weeksMatch with
     | Some w => JsNumber.gtb (JsNumber.parseInt w) (Num 4)
     | None => false
     end
  then {| status := warning;
          ts_message := "Timeline may be too long for effective execution";
          ts_assessment := "Long";
          ts_recommendation := "Consider breaking into phases or reducing scope" |}
  else if (10 <? stepCount)%nat
  then {| status := warning;
          ts_message := "Many steps may complicate timeline management";
          ts_assessment := "Complex";
          ts_recommendation := "Consider consolidating or parallelizing steps" |}
  else {| status := passed;
          ts_message := "Timeline appears reasonable";
          ts_assessment := "Good";
          ts_recommendation := "Monitor progress regularly" |}.

(** [previousDuration] in the condition of the [if]: [null] until a
    duration has parsed, and a midpoint of 0 counts as false as well. *)
Definition previous_truthy (previousDuration : option number) : option number :=
  match previousDuration with
  | Some p => if JsNumber.truthy p then Some p else None
  | None => None
  end.

Definition identifyUnbalancedDurations (plan : list Step.t)
  : result (list unbalanced_entry) :=
  run final <-
    forEach (fun (state : list unbalanced_entry * option number) index step =>
        let '(unbalanced, previousDuration) := state in
        run m <- duration_match step in
        match m, Step.duration step with
        | Some m, Some d =>
            let avgDuration := midpoint m in
            let unbalanced :=
              match previous_truthy previousDuration with
              | Some p =>
                  if JsNumber.gtb (JsNumber.Math_abs (JsNumber.sub avgDuration p)) (Num 4)
                  then unbalanced ++
                       [ {| ub_step := index + 1;
                            ub_title := Step.title step;
                            ub_duration := d;
                            ub_difference :=
                              JsNumber.Math_abs (JsNumber.sub avgDuration p) |} ]
                  else unbalanced
              | None => unbalanced
              end in
            Ok (unbalanced, Some avgDuration)
        | _, _ => Ok (unbalanced, previousDuration)
        end) 0 plan ([], None) in
  Ok (fst final).

Definition validateTimeline (task : string) (plan : list Step.t)
  : result (list Finding.t) :=
  run totalDuration <- calculatePlanDuration plan in
  let timelineStatus := assessTimeline totalDuration (length plan) in
  run unbalancedSteps <- identifyUnbalancedDurations plan in
  Ok ([ {| Finding.id := "timeline-assessment";
           Finding.type := status timelineStatus;
           Finding.title := "Timeline Assessment";
           Finding.message := ts_message timelineStatus;
           Finding.details :=
             TimelineAssessment totalDuration (length plan)
               (ts_assessment timelineStatus) (ts_recommendation timelineStatus) |} ]
      ++
      (if (0 <? length unbalancedSteps)%nat
       then [ {| Finding.id := "duration-balance";
                 Finding.type := warning;
                 Finding.title := "Duration Balance";
                 Finding.message :=
                   "Found " +:+ of_nat (length unbalancedSteps)
                   +:+ " steps with potentially unbalanced durations";
                 Finding.details :=
                   DurationBalance unbalancedSteps
                     "Consider rebalancing durations for better workflow" |} ]
       else [])).

(** ** The dependency graph *)

(** The object [graph]: its own properties in insertion order. *)
Abbreviation graph := (list (Z * list Z)).

(** [graph[k] = v]: an existing property keeps its place. *)
Fixpoint graph_set (g : graph) (k : Z) (v : list Z) : graph :=
  match g with
  | [] => [(k, v)]
  | (k', v') :: g' => if k =? k' then (k, v) :: g' else (k', v') :: graph_set g' k v
  end.

(** [graph[k]] *)
Fixpoint graph_get (g : graph) (k : Z) : option (list Z) :=
  match g with
  | [] => None
  | (k', v) :: g' => if k =? k' then Some v else graph_get g' k
  end.

(** [graph[node] || []] *)
Definition neighbors_of (g : graph) (node : jskey) : list Z :=
  default [] (graph_get g (property node)).

(** Integer keys from 0 to 2^32 - 2 are array indices. *)
Definition is_array_index (k : Z) : bool := (0 <=? k) && (k <? 4294967295).

Fixpoint insert_sorted (k : Z) (l : list Z) : list Z :=
  match l with
  | [] => [k]
  | x :: l' => if k <=? x then k :: l else x :: insert_sorted k l'
  end.

Definition sort_ascending (l : list Z) : list Z := foldr insert_sorted [] l.

(** [Object.keys(graph)]: array indices in ascending order, then the other
    keys in insertion order. *)
Definition Object_keys (g : graph) : list Z :=
  sort_ascending (List.filter is_array_index (map fst g))
  ++ List.filter (fun k => negb (is_array_index k)) (map fst g).

(** [Object.entries(graph)] *)
Definition Object_entries (g : graph) : list (Z * list Z) :=
  map (fun k => (k, default [] (graph_get g k))) (Object_keys g).

Definition buildDependencyGraph (plan : list Step.t) : graph :=
  foldl (fun g step => graph_set g (Step.id step) (default [] (Step.dependencies step)))
    [] plan.

(** The variables [dfs] closes over. *)
Record dfs_state : Type := {
  cycles : list (list jskey);
  visited : gset Z;
  recursionStack : gset Z
}.

Definition mark (node : jskey) (st : dfs_state) : dfs_state :=
  {| cycles := cycles st;
     visited := {[property node]} ∪ visited st;
     recursionStack := {[property node]} ∪ recursionStack st |}.

Definition unstack (node : jskey) (st : dfs_state) : dfs_state :=
  {| cycles := cycles st;
     visited := visited st;
     recursionStack := recursionStack st ∖ {[property node]} |}.

Definition push_cycle (c : list jskey) (st : dfs_state) : dfs_state :=
  {| cycles := cycles st ++ [c];
     visited := visited st;
     recursionStack := recursionStack st |}.

(** The loop [for (const neighbor of neighbors)] in the body of [dfs];
    [recur neighbor] is the call [dfs(neighbor, [...path, node])]. *)
Fixpoint dfs_neighbors (recur : Z -> dfs_state -> option (bool * dfs_state))
    (node : jskey) (path : list jskey) (neighbors : list Z) (st : dfs_state)
  : option (bool * dfs_state) :=
  match neighbors with
  | [] => Some (false, unstack node st)
  | neighbor :: rest =>
      if bool_decide (neighbor ∉ visited st)
      then match recur neighbor st with
           | None => None
           | Some (true, st') => Some (true, st')
           | Some (false, st') => dfs_neighbors recur node path rest st'
           end
      else if bool_decide (neighbor ∈ recursionStack st)
      then Some (true, push_cycle (path ++ [node; KeyNum neighbor]) st)
      else dfs_neighbors recur node path rest st
  end.

(** The closure [dfs(node, path)].  The fuel bounds the depth of the
    recursion; [detectCircularDependencies_total] shows that the bound used
    by [detectCircularDependencies] is never reached. *)
Fixpoint dfs (fuel : nat) (g : graph) (node : jskey) (path : list jskey)
    (st : dfs_state) : option (bool * dfs_state) :=
  match fuel with
  | O => None
  | S fuel' =>
      if bool_decide (property node ∈ visited st)
      then Some (false, unstack node st)
      else dfs_neighbors
             (fun neighbor => dfs fuel' g (KeyNum neighbor) (path ++ [node]))
             node path (neighbors_of g node) (mark node st)
  end.

(** [Object.keys(graph).forEach(node => { if (!visited[node]) dfs(node, []) })] *)
Fixpoint dfs_roots (fuel : nat) (g : graph) (keys : list Z) (st : dfs_state)
  : option dfs_state :=
  match keys with
  | [] => Some st
  | node :: rest =>
      if bool_decide (node ∉ visited st)
      then match dfs fuel g (KeyStr node) [] st with
           | None => None
           | Some (_, st') => dfs_roots fuel g rest st'
           end
      else dfs_roots fuel g rest st
  end.

Definition detectCircularDependencies_fuel (fuel : nat) (g : graph)
  : option (list (list jskey)) :=
  cycles <$> dfs_roots fuel g (Object_keys g)
               {| cycles := []; visited := ∅; recursionStack := ∅ |}.

Definition detectCircularDependencies (g : graph) : list (list jskey) :=
  default [] (detectCircularDependencies_fuel (S (length g)) g).

(** The string a key of the graph stands for: [String(id)]. *)
Definition key_text (k : Z) : string := JsNumber.toString (JsNumber.of_Z k).

Definition identifyComplexDependencies (g : graph) : list complex_entry :=
  foldl (fun complex '(node, deps) =>
      if (2 <? length deps)%nat
      then complex ++ [ {| cx_step := JsNumber.parseInt (key_text node);
                           cx_dependencies := length deps;
                           cx_assessment := "Complex" |} ]
      else complex) [] (Object_entries g).

Definition countTotalDependencies (plan : list Step.t) : nat :=
  foldl (fun total step =>
      (total + match Step.dependencies step with
               | Some d => length d
               | None => 0
               end)%nat) 0%nat plan.

(** [neighbors.forEach(neighbor => calculateDepth(neighbor, ...))], threading
    the variable [maxDepth]; [recur neighbor] is the call on [neighbor]. *)
Fixpoint depth_neighbors (recur : Z -> Z -> option Z) (neighbors : list Z)
    (maxDepth : Z) : option Z :=
  match neighbors with
  | [] => Some maxDepth
  | neighbor :: rest =>
      match recur neighbor maxDepth with
      | None => None
      | Some maxDepth' => depth_neighbors recur rest maxDepth'
      end
  end.

(** The closure [calculateDepth(node, depth, visited)], returning the value
    of [maxDepth] after the call.  [visited] is a [Set]; every recursive
    call receives a copy of it. *)
Fixpoint calculateDepth (fuel : nat) (g : graph) (node : jskey) (depth : Z)
    (visited : gset jskey) (maxDepth : Z) : option Z :=
  match fuel with
  | O => None
  | S fuel' =>
      if bool_decide (node ∈ visited)
      then Some maxDepth
      else depth_neighbors
             (fun neighbor =>
                calculateDepth fuel' g (KeyNum neighbor) (depth + 1)
                  ({[node]} ∪ visited))
             (neighbors_of g node) (Z.max maxDepth depth)
  end.

Fixpoint depth_roots (fuel : nat) (g : graph) (keys : list Z) (maxDepth : Z)
  : option Z :=
  match keys with
  | [] => Some maxDepth
  | node :: rest =>
      match calculateDepth fuel g (KeyStr node) 1 ∅ maxDepth with
      | None => None
      | Some maxDepth' => depth_roots fuel g rest maxDepth'
      end
  end.

Definition calculateMaxDependencyDepth_fuel (fuel : nat) (g : graph) : option Z :=
  depth_roots fuel g (Object_keys g) 0.

Definition calculateMaxDependencyDepth (g : graph) : Z :=
  default 0 (calculateMaxDependencyDepth_fuel (length g + 2) g).

Definition validateDependencies (task : string) (plan : list Step.t) : list Finding.t :=
  let dependencyGraph := buildDependencyGraph plan in
  let circularDeps := detectCircularDependencies dependencyGraph in
  let complexDeps := identifyComplexDependencies dependencyGraph in
  let depStatus :=
    if ((length complexDeps =? 0)%nat && (length circularDeps =? 0)%nat)
    then passed else warning in
  (if (0 <? length circularDeps)%nat
   then [ {| Finding.id := "circular-dependencies";
             Finding.type := failed;
             Finding.title := "Circular Dependencies";
             Finding.message :=
               "Found " +:+ of_nat (length circularDeps)
               +:+ " circular dependency chains";
             Finding.details :=
               CircularChains circularDeps
                 "Resolve circular dependencies before proceeding" |} ]
   else [])
  ++
  (if (0 <? length complexDeps)%nat
   then [ {| Finding.id := "complex-dependencies";
             Finding.type := warning;
             Finding.title := "Complex Dependencies";
             Finding.message :=
               "Found " +:+ of_nat (length complexDeps)
               +:+ " steps with complex dependencies";
             Finding.details :=
               ComplexSteps complexDeps "Consider simplifying dependency structure" |} ]
   else [])
  ++
  [ {| Finding.id := "dependency-overview";
       Finding.type := depStatus;
       Finding.title := "Dependency Structure";
       Finding.message :=
         if bool_decide (depStatus = passed)
         then "Dependency structure is clean and manageable"
         else "Some dependency issues need attention";
       Finding.details :=
         DependencyOverview (countTotalDependencies plan)
           (calculateMaxDependencyDepth dependencyGraph)
           (if bool_decide (depStatus = passed) then "Good" else "Needs Review") |} ].

(** ** Risks *)

(** [`${step.title} ${step.description}`]: an absent description prints
    as [undefined]. *)
Definition stepText (step : Step.t) : string :=
  toLowerCase (Step.title step +:+ " " +:+ default "undefined" (Step.description step)).

Definition analyzeStepRisks (this : ValidatorAgent) (step : Step.t) (index : nat)
  : list risk_entry :=
  let risks :=
    foldl (fun risks factor =>
        if includes (stepText step) factor
        then risks ++ [ {| rk_step := index + 1;
                           rk_title := Step.title step;
                           rk_risk := factor;
                           rk_level := high;
                           rk_impact := "Significant delay or failure risk" |} ]
        else risks) [] (RiskFactors.high (riskFactors this)) in
  foldl (fun risks factor =>
      if includes (stepText step) factor
      then risks ++ [ {| rk_step := index + 1;
                         rk_title := Step.title step;
                         rk_risk := factor;
                         rk_level := medium;
                         rk_impact := "Moderate delay or quality risk" |} ]
      else risks) risks (RiskFactors.medium (riskFactors this)).

Definition identifyRisks (this : ValidatorAgent) (plan : list Step.t) : list risk_entry :=
  snd (foldl (fun '(index, risks) step =>
      let stepRisks := analyzeStepRisks this step index in
      (S index, if (0 <? length stepRisks)%nat then risks ++ stepRisks else risks))
    (0%nat, []) plan).

(** The three mitigation indicators of a step. *)
Definition mentions_mitigation (step : Step.t) : bool :=
  match Step.description step with
  | Some d => truthy d && includes (toLowerCase d) "mitigat"
  | None => false
  end.

Definition names_backup (step : Step.t) : bool :=
  match Step.resources step with
  | Some rs => existsb (fun r => includes (toLowerCase r) "backup") rs
  | None => false
  end.

Definition few_dependencies (step : Step.t) : bool :=
  match Step.dependencies step with
  | Some ds => (length ds <? 3)%nat
  | None => false
  end.

Definition assessRiskMitigation (plan : list Step.t) : number :=
  let '(mitigationScore, totalFactors) :=
    foldl (fun '(mitigationScore, totalFactors) step =>
        let mitigationScore :=
          if mentions_mitigation step
          then JsNumber.add mitigationScore (Num 20) else mitigationScore in
        let mitigationScore :=
          if names_backup step
          then JsNumber.add mitigationScore (Num 15) else mitigationScore in
        let mitigationScore :=
          if few_dependencies step
          then JsNumber.add mitigationScore (Num 10) else mitigationScore in
        (mitigationScore, JsNumber.add totalFactors (Num 3)))
      (Num 0, Num 0) plan in
  JsNumber.Math_min (Num 100)
    (JsNumber.Math_round
       (JsNumber.mul
          (JsNumber.div mitigationScore (JsNumber.mul totalFactors (Num 10)))
          (Num 100))).

Definition validateRisks (this : ValidatorAgent) (task : string) (plan : list Step.t)
  : list Finding.t :=
  let risks := identifyRisks this plan in
  let highRisks := List.filter (fun r => bool_decide (rk_level r = high)) risks in
  let mediumRisks := List.filter (fun r => bool_decide (rk_level r = medium)) risks in
  let mitigationScore := assessRiskMitigation plan in
  (if (0 <? length highRisks)%nat
   then [ {| Finding.id := "high-risks";
             Finding.type := warning;
             Finding.title := "High Risks Identified";
             Finding.message :=
               "Found " +:+ of_nat (length highRisks) +:+ " high-risk areas";
             Finding.details :=
               RiskList highRisks
                 "Address high risks before proceeding with implementation" |} ]
   else [])
  ++
  (if (0 <? length mediumRisks)%nat
   then [ {| Finding.id := "medium-risks";
             Finding.type := warning;
             Finding.title := "Medium Risks";
             Finding.message :=
               "Found " +:+ of_nat (length mediumRisks)
               +:+ " medium-risk areas to monitor";
             Finding.details :=
               RiskList mediumRisks "Monitor these risks throughout implementation" |} ]
   else [])
  ++
  [ {| Finding.id := "risk-mitigation";
       Finding.type := if JsNumber.geb mitigationScore (Num 70) then passed else warning;
       Finding.title := "Risk Mitigation";
       Finding.message :=
         if JsNumber.geb mitigationScore (Num 70)
         then "Good risk mitigation planning"
         else "Consider enhancing risk mitigation strategies";
       Finding.details :=
         MitigationDetails mitigationScore
           (if JsNumber.geb mitigationScore (Num 70) then "Good" else "Needs Improvement")
           "Add specific mitigation strategies for identified risks" |} ].

(** ** Score, summary and recommendations *)

(** [weights[validation.type] || 0] *)
Definition weight (t : finding_type) : number :=
  match t with
  | passed => Num 1
  | warning => Num (1 # 2)
  | failed => Num 0
  end.

Definition calculateValidationScore (validations : list Finding.t) : number :=
  let totalScore :=
    foldl (fun score validation => JsNumber.add score (weight (Finding.type validation)))
      (Num 0) validations in
  let maxScore := JsNumber.of_nat (length validations) in
  JsNumber.Math_round
    (JsNumber.mul (JsNumber.div totalScore maxScore) (Num 100)).

Record breakdown : Type := {
  bd_passed : nat;
  bd_warnings : nat;
  bd_failed : nat
}.

Record summary : Type := {
  sm_score : number;
  sm_status : string;
  sm_breakdown : breakdown;
  sm_overall : string
}.

Definition generateValidationSummary (validations : list Finding.t) (score : number)
  : summary :=
  let passed_count := length (List.filter (is_type passed) validations) in
  let warnings := length (List.filter (is_type warning) validations) in
  let failed_count := length (List.filter (is_type failed) validations) in
  let status :=
    if JsNumber.ltb score (Num 60) then "Needs Major Improvements"
    else if JsNumber.ltb score (Num 80) then "Needs Some Improvements"
    else if JsNumber.ltb score (Num 90) then "Satisfactory"
    else "Good" in
  {| sm_score := score;
     sm_status := status;
     sm_breakdown := {| bd_passed := passed_count;
                        bd_warnings := warnings;
                        bd_failed := failed_count |};
     sm_overall :=
       if JsNumber.geb score (Num 80)
       then "Plan is generally valid" else "Plan needs review" |}.

Record recommendation : Type := {
  priority : string;
  action : string;
  reason : string
}.

Definition generateRecommendations (validations : list Finding.t)
  : list recommendation :=
  let warnings := List.filter (is_type warning) validations in
  let failures := List.filter (is_type failed) validations in
  let resourceWarnings :=
    List.filter (fun v => includes (Finding.title v) "Resource" && is_type warning v)
      validations in
  let timelineWarnings :=
    List.filter (fun v => includes (Finding.title v) "Timeline" && is_type warning v)
      validations in
  (if (0 <? length failures)%nat
   then [ {| priority := "High";
             action := "Address failed validations before proceeding";
             reason := of_nat (length failures)
                       +:+ " critical issues need resolution" |} ]
   else [])
  ++
  (if (3 <? length warnings)%nat
   then [ {| priority := "Medium";
             action := "Review and address warning validations";
             reason := "Multiple (" +:+ of_nat (length warnings)
                       +:+ ") areas need attention" |} ]
   else [])
  ++
  (if (0 <? length resourceWarnings)%nat
   then [ {| priority := "Medium";
             action := "Review resource allocation and availability";
             reason := "Resource-related warnings identified" |} ]
   else [])
  ++
  (if (0 <? length timelineWarnings)%nat
   then [ {| priority := "Medium";
             action := "Review timeline estimates and dependencies";
             reason := "Timeline-related warnings identified" |} ]
   else []).

Definition getFallbackValidations : list Finding.t :=
  [ {| Finding.id := "fallback-1";
       Finding.type := passed;
       Finding.title := "Basic Structure";
       Finding.message := "Plan has basic structure and steps";
       Finding.details := NoDetails |};
    {| Finding.id := "fallback-2";
       Finding.type := warning;
       Finding.title := "Limited Detail";
       Finding.message := "Plan lacks detailed validation due to system limitations";
       Finding.details := NoDetails |} ].

(** ** The entry point *)

(** What a caller may pass as [plan]: [undefined], [null], an array of
    steps, or any other value, of which only the text of its [length]
    property matters. *)
Inductive plan_value : Type :=
| PlanUndefined
| PlanNull
| PlanOther (length_text : string)
| PlanArray (steps : list Step.t).

Inductive validation_result : Type :=
| Success (validations : list Finding.t) (score : number) (summary : summary)
    (recommendations : list recommendation)
| Failure (error : string) (validations : list Finding.t).

(** What a call can see and change besides its arguments. *)
Record world : Type := {
  agent : ValidatorAgent;
  console : list string
}.

Definition log (line : string) (w : world) : world :=
  {| agent := agent w; console := console w ++ [line] |}.

(** [`${plan.length}`] *)
Definition plan_length (plan : plan_value) : result string :=
  match plan with
  | PlanUndefined => Throw "Cannot read properties of undefined (reading 'length')"
  | PlanNull => Throw "Cannot read properties of null (reading 'length')"
  | PlanOther length_text => Ok length_text
  | PlanArray steps => Ok (of_nat (length steps))
  end.

(** [ruleFunction.call(this, task, plan)]; every rule starts by iterating
    over [plan]. *)
Definition call_rule (this : ValidatorAgent) (rule : Rule.name) (task : string)
    (plan : plan_value) : result (list Finding.t) :=
  match plan with
  | PlanArray steps =>
      match rule with
      | Rule.feasibility => Ok (validateFeasibility task steps)
      | Rule.resources => Ok (validateResources task steps)
      | Rule.timeline => validateTimeline task steps
      | Rule.dependencies => Ok (validateDependencies task steps)
      | Rule.risks => Ok (validateRisks this task steps)
      end
  | _ => Throw "plan.forEach is not a function"
  end.

(** The body of the [try] block. *)
Definition evaluate (this : ValidatorAgent) (task : string) (plan : plan_value)
  : result validation_result :=
  run validations <-
    forEach (fun validations _ rule =>
        run result <- call_rule this rule task plan in
        Ok (validations ++ result)) 0 (validationRules this) [] in
  let score := calculateValidationScore validations in
  let summary := generateValidationSummary validations score in
  Ok (Success validations score summary (generateRecommendations validations)).

Definition validatePlan (w : world) (task : string) (plan : plan_value)
  : world * promise validation_result :=
  match plan_length plan with
  | Throw e => (w, Rejected e)
  | Ok n =>
      let w := log ("Validating plan with " +:+ n +:+ " steps") w in
      match evaluate (agent w) task plan with
      | Ok r => (w, Resolved r)
      | Throw e =>
          (log ("Validator error: " +:+ e) w,
           Resolved (Failure e getFallbackValidations))
      end
  end.

(** * Vocabulary of the properties

    The notions the statements below are phrased in, and the plans used as
    examples. *)

(** ** Doubles *)

(** The non-negative values a double can take: [m * 2^c] with at most 53
    binary digits in [m] and [c] from -1074 on. *)
Definition double (r : Q) : Prop :=
  exists m c : Z,
    (r == inject_Z m * 2 ^ c)%Q /\ (0 <= m <= 2 ^ 53)%Z /\ (-1074 <= c)%Z.

(** The finite doubles from 0 on. *)
Definition stored (r : Q) : Prop := (0 <= r)%Q /\ (r < 2 ^ 1024)%Q /\ double r.

(** What a sum of hours can be: a finite double from 0 on, or [Infinity]. *)
Definition amount (x : number) : Prop :=
  x = Infinity false \/ exists r, x = Num r /\ stored r.

(** [Number.isSafeInteger]: the integers that a double holds exactly and
    that no other integer shares their double with. *)
Definition safe_integer (z : Z) : Prop := - 2 ^ 53 < z < 2 ^ 53.

(** ** Example plans *)

(** A step of which only [id] and [dependencies] are given. *)
Definition bare_step (id : Z) (dependencies : list Z) : Step.t :=
  {| Step.id := id; Step.title := ""; Step.description := None;
     Step.duration := None; Step.resources := None;
     Step.dependencies := Some dependencies |}.

(** ** Risk entries *)

(** [t] occurs in [s]. *)
Definition occurs_in (t s : string) : Prop := exists a b, s = a +:+ t +:+ b.

(** The entry pushed for a high-risk keyword, and for a medium-risk one. *)
Definition high_entry (step : Step.t) (index : nat) (factor : string) : risk_entry :=
  {| rk_step := index + 1; rk_title := Step.title step; rk_risk := factor;
     rk_level := high; rk_impact := "Significant delay or failure risk" |}.

Definition medium_entry (step : Step.t) (index : nat) (factor : string) : risk_entry :=
  {| rk_step := index + 1; rk_title := Step.title step; rk_risk := factor;
     rk_level := medium; rk_impact := "Moderate delay or quality risk" |}.

(** The entries of the steps from position [index] on. *)
Fixpoint risks_from (this : ValidatorAgent) (index : nat) (plan : list Step.t)
  : list risk_entry :=
  match plan with
  | [] => []
  | step :: rest => analyzeStepRisks this step index ++ risks_from this (S index) rest
  end.

(** The keyword list of a level. *)
Definition level_factors (this : ValidatorAgent) (level : risk_level) : list string :=
  match level with
  | high => RiskFactors.high (riskFactors this)
  | medium => RiskFactors.medium (riskFactors this)
  end.

(** The entry pushed for a keyword of the given level. *)
Definition entry_for (step : Step.t) (index : nat) (factor : string)
    (level : risk_level) : risk_entry :=
  match level with
  | high => high_entry step index factor
  | medium => medium_entry step index factor
  end.

(** An entry for the step at position [index], with this keyword and level. *)
Definition is_entry (index : nat) (factor : string) (level : risk_level)
    (e : risk_entry) : bool :=
  (rk_step e =? index + 1)%nat && String.eqb (rk_risk e) factor
  && bool_decide (rk_level e = level).

(** A step whose description names a high and a medium risk. *)
Definition rushed_step : Step.t :=
  {| Step.id := 1; Step.title := "Launch";
     Step.description := Some "Deliver under a tight timeline with budget constraints";
     Step.duration := Some "1-2 hours"; Step.resources := Some [];
     Step.dependencies := Some [] |}.

(** ** Durations *)

(** The hours a duration text stands for: the midpoint of its range, or 2
    when no range is found in it. *)
Definition step_hours (duration : string) : number :=
  match range_match duration with
  | Some m => midpoint m
  | None => Num 2
  end.

(** The hours of the steps, added up from the first step on. *)
Definition total_hours (durations : list string) : number :=
  foldl (fun total duration => JsNumber.add total (step_hours duration)) (Num 0)
    durations.

(** The total is finite and exceeds 160 hours, four weeks of 40 hours. *)
Definition long_total (total : number) : bool :=
  JsNumber.gtb total (Num 160) && match total with Num _ => true | _ => false end.

(** A step of which only the duration matters. *)
Definition timed_step (id : Z) (duration : string) : Step.t :=
  {| Step.id := id; Step.title := "Step"; Step.description := None;
     Step.duration := Some duration; Step.resources := None;
     Step.dependencies := Some [] |}.

(** The midpoint of a step whose duration is present and holds a range. *)
Definition parsed_midpoint (step : Step.t) : option number :=
  match Step.duration step with
  | Some d =>
      match range_match d with
      | Some m => Some (midpoint m)
      | None => None
      end
  | None => None
  end.

(** The midpoint of the last step of [plan] that has one. *)
Definition last_parsed (plan : list Step.t) : option number :=
  foldl (fun prev step =>
           match parsed_midpoint step with
           | Some q => Some q
           | None => prev
           end) None plan.

(** The distance [Math.abs(q - p)] of two midpoints. *)
Definition distance (q p : number) : number := JsNumber.Math_abs (JsNumber.sub q p).

(** The variables [unbalanced] and [previousDuration] after the loop. *)
Definition unbalanced_state (plan : list Step.t)
  : result (list unbalanced_entry * option number) :=
  forEach (fun (state : list unbalanced_entry * option number) index step =>
      let '(unbalanced, previousDuration) := state in
      run m <- duration_match step in
      match m, Step.duration step with
      | Some m, Some d =>
          let avgDuration := midpoint m in
          let unbalanced :=
            match previous_truthy previousDuration with
            | Some p =>
                if JsNumber.gtb (JsNumber.Math_abs (JsNumber.sub avgDuration p)) (Num 4)
                then unbalanced ++
                     [ {| ub_step := index + 1;
                          ub_title := Step.title step;
                          ub_duration := d;
                          ub_difference :=
                            JsNumber.Math_abs (JsNumber.sub avgDuration p) |} ]
                else unbalanced
            | None => unbalanced
            end in
          Ok (unbalanced, Some avgDuration)
      | _, _ => Ok (unbalanced, previousDuration)
      end) 0 plan ([], None).

(** The step at position [index] is flagged: it has a range, so has the
    nearest earlier step with one, and their midpoints differ by more
    than 4. *)
Definition flagged_at (plan : list Step.t) (index : nat) (e : unbalanced_entry)
  : Prop :=
  exists (step : Step.t) (d : string) (q p : number),
    plan !! index = Some step /\ Step.duration step = Some d /\
    parsed_midpoint step = Some q /\ last_parsed (take index plan) = Some p /\
    JsNumber.gtb (distance q p) (Num 4) = true /\
    e = {| ub_step := index + 1; ub_title := Step.title step;
           ub_duration := d; ub_difference := distance q p |}.

(** The midpoint of a step when a duration without a range counts as 2
    hours. *)
Definition fallback_midpoint (step : Step.t) : number :=
  match Step.duration step with
  | Some d => step_hours d
  | None => Num 2
  end.

(** The steps to flag when every step is compared with the step just
    before it, on the midpoints with fallback: the 1-based positions. *)
Fixpoint adjacent_unbalanced_from (index : nat) (previous : number) (plan : list Step.t)
  : list nat :=
  match plan with
  | [] => []
  | step :: rest =>
      (if JsNumber.gtb (distance (fallback_midpoint step) previous) (Num 4)
       then [(index + 1)%nat] else [])
      ++ adjacent_unbalanced_from (S index) (fallback_midpoint step) rest
  end.

Definition adjacent_unbalanced (plan : list Step.t) : list nat :=
  match plan with
  | [] => []
  | step :: rest => adjacent_unbalanced_from 1 (fallback_midpoint step) rest
  end.

(** No step of the plan has a range whose midpoint is 0. *)
Definition nonzero_midpoint (step : Step.t) : bool :=
  match parsed_midpoint step with
  | Some q => JsNumber.truthy q
  | None => true
  end.

(** ** Paths and cycles of the dependency graph *)

(** [b] is listed among the dependencies stored under [a]. *)
Definition edge (g : graph) (a b : Z) : Prop := b ∈ default [] (graph_get g a).

(** A path of at least one edge. *)
Inductive reaches (g : graph) : Z -> Z -> Prop :=
| reaches_edge (a b : Z) : edge g a b -> reaches g a b
| reaches_step (a b c : Z) : edge g a b -> reaches g b c -> reaches g a c.

(** Some key lies on a cycle. *)
Definition cyclic (g : graph) : Prop := exists k, reaches g k k.

(** The keys of the object. *)
Definition graph_dom (g : graph) : gset Z := list_to_set (map fst g).

(** The keys of the graph not yet in [visited] as numbers. *)
Definition unvisited (g : graph) (visited : gset jskey) : gset Z :=
  filter (fun k => KeyNum k ∉ visited) (graph_dom g).

(** ** Findings and their weights *)

Definition not_failed (v : Finding.t) : Prop := Finding.type v <> failed.

(** Two steps, the second depending on the first. *)
Definition chain_plan : list Step.t :=
  [ {| Step.id := 1; Step.title := "Collect requirements";
       Step.description := Some "Interview the stakeholders and record their needs";
       Step.duration := Some "1-2 hours"; Step.resources := Some ["Notebook"];
       Step.dependencies := Some [] |};
    {| Step.id := 2; Step.title := "Draft the plan";
       Step.description := Some "Write the plan from the recorded requirements";
       Step.duration := Some "2-3 hours"; Step.resources := Some ["Editor"];
       Step.dependencies := Some [1] |} ].

(** Twice the weight of a finding: an integer. *)
Definition half_points (t : finding_type) : Z :=
  match t with
  | passed => 2
  | warning => 1
  | failed => 0
  end.

(** Twice the sum of the weights. *)
Definition total_half_points (validations : list Finding.t) : Z :=
  foldr (fun v acc => half_points (Finding.type v) + acc) 0 validations.

(** The weight of a finding as a rational: half of [half_points]. *)
Definition weight_value (t : finding_type) : Q :=
  match t with
  | passed => 1
  | warning => 1 # 2
  | failed => 0
  end.

(** The sum of the weights of the findings. *)
Definition sum_weights (validations : list Finding.t) : Q :=
  foldr (fun v acc => (weight_value (Finding.type v) + acc)%Q) 0%Q validations.

(** A well-prepared step; a plan of a hundred of them gets one warning,
    for its number of steps. *)
Definition prepared_step (index : nat) : Step.t :=
  {| Step.id := Z.of_nat (S index); Step.title := "Prepare";
     Step.description := Some "Mitigate outages with a rehearsed rollback";
     Step.duration := Some "1-2 hours"; Step.resources := Some ["backup server"];
     Step.dependencies := Some [] |}.

(** A step that is hard to assess: no duration in hours, but a backup, an
    expert, a tight timeline and budget constraints. *)
Definition pressed_step (id : Z) (duration : string) : Step.t :=
  {| Step.id := id; Step.title := "Ship";
     Step.description := Some "Mitigate a tight timeline under budget constraints";
     Step.duration := Some duration; Step.resources := Some ["backup expert"];
     Step.dependencies := Some [] |}.

(** Eleven of them, the last one much longer than the others: twenty
    findings, of which three are passed. *)
Definition pressed_plan : list Step.t :=
  map (fun index => pressed_step (Z.of_nat (S index)) "1-2 h") (seq 0 10)
  ++ [pressed_step 11 "20-30 h"].

(** ** Completeness of cycle detection *)

(** The keys whose exploration is finished: visited and no longer on the
    recursion stack. *)
Definition black (st : dfs_state) : gset Z := visited st ∖ recursionStack st.

(** No edge leaves the set. *)
Definition closed (g : graph) (keys : gset Z) : Prop :=
  forall a b, a ∈ keys -> edge g a b -> b ∈ keys.

(** No key of the set lies on a cycle. *)
Definition acyclic_on (g : graph) (keys : gset Z) : Prop :=
  forall a, a ∈ keys -> ~ reaches g a a.

(** What holds of the state of the traversal as long as no cycle has been
    recorded. *)
Definition dfs_inv (g : graph) (st : dfs_state) : Prop :=
  cycles st = [] /\ recursionStack st ⊆ visited st /\
  closed g (black st) /\ acyclic_on g (black st).

(** ** Plans with and without cycles *)

(** Two steps that wait for each other. *)
Definition mutual_plan : list Step.t :=
  [ {| Step.id := 1; Step.title := "Write the report";
       Step.description := Some "Write the report from the reviewed figures";
       Step.duration := Some "2-3 hours"; Step.resources := Some ["Editor"];
       Step.dependencies := Some [2] |};
    {| Step.id := 2; Step.title := "Review the figures";
       Step.description := Some "Review the figures quoted in the report";
       Step.duration := Some "1-2 hours"; Step.resources := Some ["Spreadsheet"];
       Step.dependencies := Some [1] |} ].

(** Every dependency of the step names a smaller id than its own. *)
Definition depends_backwards (step : Step.t) : Prop :=
  Forall (fun d => d < Step.id step) (default [] (Step.dependencies step)).

(** ** Steps without a duration *)

(** The [TypeError] raised by [step.duration.match] on a step without a
    duration. *)
Definition match_of_undefined : string :=
  "Cannot read properties of undefined (reading 'match')".

(** A plan whose second step has no duration. *)
Definition untimed_plan : list Step.t :=
  [ timed_step 1 "1-2 hours"; bare_step 2 [1] ].

(** ** Resources *)

(** The resources the steps name, with repetitions. *)
Definition named_resources (plan : list Step.t) : list string :=
  concat (map (fun step => default [] (Step.resources step)) plan).

(** The words that make a resource critical. *)
Definition critical_keyword (keyword : string) : Prop :=
  keyword ∈ ["specialized"; "expert"; "licensed"; "premium"; "custom"; "rare"].

(** ** Decimal numerals *)

(** The string consists of digits. *)
Fixpoint all_digits (s : string) : bool :=
  match s with
  | EmptyString => true
  | String c s' => is_digit c && all_digits s'
  end.

(** The string starts with a digit. *)
Definition starts_with_digit (s : string) : bool :=
  match s with
  | String c _ => is_digit c
  | EmptyString => false
  end.

(** Two long steps: three hundred hours in all. *)
Definition long_plan : list Step.t :=
  [ timed_step 1 "100-200 hours"; timed_step 2 "100-200 hours" ].

(** ** Feasible steps *)

(** The step names a duration in hours, at least one resource and a
    description of more than twenty characters. *)
Definition feasible (step : Step.t) : Prop :=
  (exists d, Step.duration step = Some d /\ occurs_in "hours" d) /\
  (exists rs, Step.resources step = Some rs /\ rs <> []) /\
  (exists d, Step.description step = Some d /\ (20 < String.length d)%nat).

(** ** Reported chains *)

(** Each element of the chain lists the next one among its dependencies. *)
Fixpoint walk (g : graph) (chain : list jskey) : Prop :=
  match chain with
  | a :: rest =>
      match rest with
      | b :: _ => edge g (property a) (property b) /\ walk g rest
      | [] => True
      end
  | [] => True
  end.

(** The properties the elements of a path designate. *)
Definition path_properties (path : list jskey) : gset Z :=
  list_to_set (map property path).

(** The chain follows dependency edges and ends on a step it has already
    passed: it closes a cycle through its last element. *)
Definition closes_cycle (g : graph) (chain : list jskey) : Prop :=
  walk g chain /\
  exists front last,
    chain = front ++ [last] /\ property last ∈ path_properties front /\
    reaches g (property last) (property last).

(** Steps 1 and 2 wait for each other and step 3 waits for step 1. *)
Definition tangled_plan : list Step.t :=
  [ bare_step 1 [2]; bare_step 2 [1]; bare_step 3 [1] ].

(** ** Mitigation *)

(** The points one step adds to [mitigationScore]. *)
Definition mitigation_points (step : Step.t) : Z :=
  (if mentions_mitigation step then 20 else 0)
  + (if names_backup step then 15 else 0)
  + (if few_dependencies step then 10 else 0).

(** The points all steps add to [mitigationScore]. *)
Definition total_mitigation_points (plan : list Step.t) : Z :=
  foldr (fun step acc => mitigation_points step + acc) 0 plan.

(** A step that names a backup and has few dependencies: 25 points. *)
Definition guarded_step : Step.t :=
  {| Step.id := 1; Step.title := "Migrate";
     Step.description := Some "Move the records to the new store";
     Step.duration := Some "2-3 hours"; Step.resources := Some ["Backup disk"];
     Step.dependencies := Some [] |}.

(** ** Chains the depth computation follows *)

(** A chain from [node] on through the numbers [rest]: it follows
    dependency edges, repeats no element and avoids the set [visited]. *)
Definition chain_from (g : graph) (node : jskey) (rest : list Z)
    (visited : gset jskey) : Prop :=
  walk g (node :: map KeyNum rest) /\ NoDup (node :: map KeyNum rest) /\
  forall x, x ∈ node :: map KeyNum rest -> x ∉ visited.

(** A chain that starts at a key of the graph, as [Object.keys] spells it,
    continues along dependencies, which are numbers, and repeats no
    element. *)
Definition simple_chain (g : graph) (chain : list jskey) : Prop :=
  exists k rest,
    chain = KeyStr k :: map KeyNum rest /\ k ∈ Object_keys g /\
    walk g chain /\ NoDup chain.

(** * Properties *)

(** ** Double-precision arithmetic *)

Section DoublePrecision.

Local Open Scope Q_scope.

Lemma Qfloor_bounds (x : Q) : inject_Z (Qfloor x) <= x /\ x < inject_Z (Qfloor x) + 1.
Proof.
  split; [apply Qfloor_le|].
  pose proof (Qlt_floor x) as H. rewrite inject_Z_plus in H. exact H.
Qed.

Lemma round_nearest_even_comp (x y : Q) :
  x == y -> JsNumber.round_nearest_even x = JsNumber.round_nearest_even y.
Proof.
  intros H. unfold JsNumber.round_nearest_even. rewrite (Qfloor_comp x y H).
  assert (Hc : (x - inject_Z (Qfloor y) ?= 1 # 2) = (y - inject_Z (Qfloor y) ?= 1 # 2)).
  { apply Qcompare_comp; [rewrite H; reflexivity|reflexivity]. }
  rewrite Hc. reflexivity.
Qed.

Lemma round_nearest_even_Z (z : Z) : JsNumber.round_nearest_even (inject_Z z) = z.
Proof.
  unfold JsNumber.round_nearest_even. rewrite Qfloor_Z.
  destruct (Qcompare_spec (inject_Z z - inject_Z z) (1 # 2)) as [H|H|H];
    [exfalso; lra|reflexivity|exfalso; lra].
Qed.

Lemma round_nearest_even_error (x : Q) :
  x - (1 # 2) <= inject_Z (JsNumber.round_nearest_even x) <= x + (1 # 2).
Proof.
  unfold JsNumber.round_nearest_even. destruct (Qfloor_bounds x) as [Hlow Hup].
  set (f := Qfloor x) in *. clearbody f.
  destruct (Qcompare_spec (x - inject_Z f) (1 # 2)) as [H|H|H].
  - destruct (Z.even f); [lra|]. rewrite inject_Z_plus. change (inject_Z 1) with 1. lra.
  - lra.
  - rewrite inject_Z_plus. change (inject_Z 1) with 1. lra.
Qed.

Lemma round_nearest_even_monotone (x y : Q) :
  x <= y -> (JsNumber.round_nearest_even x <= JsNumber.round_nearest_even y)%Z.
Proof.
  intros Hxy. pose proof (Qfloor_resp_le x y Hxy) as Hfloor.
  unfold JsNumber.round_nearest_even.
  destruct (Qfloor_bounds x) as [Hxl Hxu]. destruct (Qfloor_bounds y) as [Hyl Hyu].
  set (fx := Qfloor x) in *. set (fy := Qfloor y) in *. clearbody fx fy.
  destruct (Z.eq_dec fx fy) as [->|Hne].
  - destruct (Qcompare_spec (x - inject_Z fy) (1 # 2)) as [Hx|Hx|Hx];
      destruct (Qcompare_spec (y - inject_Z fy) (1 # 2)) as [Hy|Hy|Hy];
      try lia; try (exfalso; lra); destruct (Z.even fy); lia.
  - assert (fx + 1 <= fy)%Z by lia.
    destruct (Qcompare_spec (x - inject_Z fx) (1 # 2)) as [Hx|Hx|Hx];
      destruct (Qcompare_spec (y - inject_Z fy) (1 # 2)) as [Hy|Hy|Hy];
      try lia; destruct (Z.even fx); try destruct (Z.even fy); lia.
Qed.

Lemma round_nearest_even_below (x : Q) (n : Z) :
  x <= inject_Z n -> (JsNumber.round_nearest_even x <= n)%Z.
Proof.
  intros H. rewrite <- (round_nearest_even_Z n). apply round_nearest_even_monotone, H.
Qed.

Lemma round_nearest_even_above (x : Q) (n : Z) :
  inject_Z n <= x -> (n <= JsNumber.round_nearest_even x)%Z.
Proof.
  intros H. rewrite <- (round_nearest_even_Z n) at 1.
  apply round_nearest_even_monotone, H.
Qed.

(** ** Powers of two *)

Lemma pow2_pos (e : Z) : 0 < 2 ^ e.
Proof. apply Qpower_0_lt. reflexivity. Qed.

Lemma pow2_plus (a b : Z) : 2 ^ (a + b) == 2 ^ a * 2 ^ b.
Proof. apply Qpower_plus. discriminate. Qed.

Lemma pow2_le (a b : Z) : (a <= b)%Z -> 2 ^ a <= 2 ^ b.
Proof. intros H. apply Qpower_le_compat_l; [exact H|discriminate]. Qed.

Lemma pow2_lt (a b : Z) : (a < b)%Z -> 2 ^ a < 2 ^ b.
Proof. intros H. apply Qpower_lt_compat_l; [exact H|reflexivity]. Qed.

Lemma pow2_lt_inv (a b : Z) : 2 ^ a < 2 ^ b -> (a < b)%Z.
Proof. intros H. apply (Qpower_lt_compat_l_inv 2); [exact H|reflexivity]. Qed.

Lemma pow2_Z (e : Z) : (0 <= e)%Z -> 2 ^ e == inject_Z (2 ^ e).
Proof. intros H. rewrite (Zpower_Qpower 2 e H). reflexivity. Qed.

Lemma pow2_succ (e : Z) : 2 ^ (e + 1) == 2 * 2 ^ e.
Proof. rewrite pow2_plus. change (2 ^ 1) with 2. ring. Qed.

Lemma pow2_div (q : Q) (a : Z) : q / 2 ^ a == q * 2 ^ (- a).
Proof. rewrite Qpower_opp. reflexivity. Qed.

Lemma pow2_cancel (a : Z) : 2 ^ a * 2 ^ (- a) == 1.
Proof. rewrite <- pow2_plus, Z.add_opp_diag_r. reflexivity. Qed.

(** ** The binary JsNumber.exponent *)

Lemma Qle_bool_spec (x y : Q) : reflect (x <= y) (Qle_bool x y).
Proof.
  destruct (Qle_bool x y) eqn:H; constructor.
  - apply Qle_bool_iff, H.
  - intros Hle. apply Qle_bool_iff in Hle. congruence.
Qed.

Lemma Qmult_lt_cancel (x y z : Q) : 0 < z -> x * z < y * z -> x < y.
Proof. intros Hz H. apply (Qmult_lt_r x y z Hz), H. Qed.

Lemma Qmult_le_cancel (x y z : Q) : 0 < z -> x * z <= y * z -> x <= y.
Proof. intros Hz H. apply (Qmult_le_r x y z Hz), H. Qed.

Lemma log2_floor_spec (q : Q) :
  0 < q -> 2 ^ JsNumber.log2_floor q <= q /\ q < 2 ^ (JsNumber.log2_floor q + 1).
Proof.
  intros Hq. destruct q as [n d].
  assert (Hn : (0 < n)%Z).
  { unfold Qlt in Hq. cbn in Hq. lia. }
  unfold JsNumber.log2_floor. cbn [Qnum Qden].
  pose proof (Z.log2_spec n Hn) as [Hn1 Hn2].
  pose proof (Z.log2_spec (Zpos d) (Pos2Z.is_pos d)) as [Hd1 Hd2].
  pose proof (Z.log2_nonneg n) as Hln. pose proof (Z.log2_nonneg (Zpos d)) as Hld.
  set (ln := Z.log2 n) in *. set (ld := Z.log2 (Zpos d)) in *. clearbody ln ld.
  assert (HN : (n # d) * inject_Z (Zpos d) == inject_Z n).
  { rewrite (Qmake_Qdiv n d). field. discriminate. }
  set (q := n # d) in *. clearbody q.
  assert (HA : 2 ^ ln <= inject_Z n /\ inject_Z n < 2 * 2 ^ ln).
  { rewrite <- pow2_succ, !pow2_Z by lia. rewrite <- Zle_Qle, <- Zlt_Qlt.
    rewrite <- Z.add_1_r in Hn2. split; assumption. }
  assert (HB : 2 ^ ld <= inject_Z (Zpos d) /\ inject_Z (Zpos d) < 2 * 2 ^ ld).
  { rewrite <- pow2_succ, !pow2_Z by lia. rewrite <- Zle_Qle, <- Zlt_Qlt.
    rewrite <- Z.add_1_r in Hd2. split; assumption. }
  assert (HP : 2 ^ (ln - ld) * 2 ^ ld == 2 ^ ln).
  { rewrite <- pow2_plus. replace (ln - ld + ld)%Z with ln by lia. reflexivity. }
  pose proof (pow2_pos ld) as HBpos. pose proof (pow2_pos (ln - ld)) as HPpos.
  set (N := inject_Z n) in *. set (D := inject_Z (Zpos d)) in *.
  set (A := 2 ^ ln) in *. set (B := 2 ^ ld) in *. set (P := 2 ^ (ln - ld)) in *.
  destruct (Qle_bool_spec P q) as [Hle|Hgt].
  - split; [exact Hle|]. rewrite pow2_succ. fold P.
    apply (Qmult_lt_cancel _ _ B HBpos).
    apply Qle_lt_trans with (q * D); [nra|]. rewrite HN.
    apply Qlt_le_trans with (2 * A); [lra|]. rewrite <- HP. lra.
  - apply Qnot_le_lt in Hgt. replace (ln - ld - 1 + 1)%Z with (ln - ld)%Z by lia.
    fold P. split; [|exact Hgt].
    assert (HP' : 2 * 2 ^ (ln - ld - 1) == P).
    { rewrite <- pow2_succ. replace (ln - ld - 1 + 1)%Z with (ln - ld)%Z by lia.
      reflexivity. }
    set (P' := 2 ^ (ln - ld - 1)) in *.
    apply (Qmult_le_cancel _ _ (2 * B)); [lra|].
    apply Qle_trans with A; [rewrite <- HP, <- HP'; lra|].
    apply Qle_trans with (q * D); [rewrite HN; lra|]. nra.
Qed.

Lemma log2_floor_comp (p q : Q) : 0 < p -> p == q -> JsNumber.log2_floor p = JsNumber.log2_floor q.
Proof.
  intros Hp Heq. assert (Hq : 0 < q) by (rewrite <- Heq; exact Hp).
  destruct (log2_floor_spec p Hp) as [H1 H2]. destruct (log2_floor_spec q Hq) as [H3 H4].
  assert (JsNumber.log2_floor p < JsNumber.log2_floor q + 1)%Z.
  { apply pow2_lt_inv. apply Qle_lt_trans with p; [assumption|lra]. }
  assert (JsNumber.log2_floor q < JsNumber.log2_floor p + 1)%Z.
  { apply pow2_lt_inv. apply Qle_lt_trans with q; [assumption|lra]. }
  lia.
Qed.

(** ** The nearest double *)

Lemma exponent_spec (a : Q) :
  0 < a ->
  (-1074 <= JsNumber.exponent a)%Z /\ a < 2 ^ (JsNumber.exponent a + 53) /\
  (2 ^ (JsNumber.exponent a + 52) <= a \/ JsNumber.exponent a = (-1074)%Z).
Proof.
  intros Ha. destruct (log2_floor_spec a Ha) as [Hlow Hup]. unfold JsNumber.exponent.
  destruct (Z.max_spec (JsNumber.log2_floor a - 52) (-1074)) as [[Hlt ->]|[Hle ->]].
  - split; [lia|]. split; [|right; reflexivity].
    apply Qlt_le_trans with (2 ^ (JsNumber.log2_floor a + 1)); [exact Hup|]. apply pow2_le. lia.
  - split; [lia|].
    replace (JsNumber.log2_floor a - 52 + 53)%Z with (JsNumber.log2_floor a + 1)%Z by lia.
    replace (JsNumber.log2_floor a - 52 + 52)%Z with (JsNumber.log2_floor a) by lia.
    split; [exact Hup|left; exact Hlow].
Qed.

Lemma exponent_comp (a b : Q) : 0 < a -> a == b -> JsNumber.exponent a = JsNumber.exponent b.
Proof. intros Ha Hab. unfold JsNumber.exponent. rewrite (log2_floor_comp a b Ha Hab). reflexivity. Qed.

Lemma exponent_monotone (a b : Q) : 0 < a -> a <= b -> (JsNumber.exponent a <= JsNumber.exponent b)%Z.
Proof.
  intros Ha Hab. assert (Hb : 0 < b) by lra.
  destruct (exponent_spec a Ha) as (Ha1 & Ha2 & Ha3).
  destruct (exponent_spec b Hb) as (Hb1 & Hb2 & Hb3).
  destruct Ha3 as [Ha3|Ha3]; [|lia].
  assert (JsNumber.exponent a + 52 < JsNumber.exponent b + 53)%Z; [|lia].
  apply pow2_lt_inv. lra.
Qed.

Lemma nearest_comp (a b : Q) : 0 < a -> a == b -> JsNumber.nearest a == JsNumber.nearest b.
Proof.
  intros Ha Hab. unfold JsNumber.nearest. rewrite (exponent_comp a b Ha Hab).
  rewrite (round_nearest_even_comp (a / 2 ^ JsNumber.exponent b) (b / 2 ^ JsNumber.exponent b));
    [reflexivity|]. rewrite Hab. reflexivity.
Qed.

Lemma scaled_back (a : Q) (c : Z) : a / 2 ^ c * 2 ^ c == a.
Proof. field. pose proof (pow2_pos c). lra. Qed.

Lemma nearest_error (a : Q) :
  a - 2 ^ (JsNumber.exponent a - 1) <= JsNumber.nearest a <= a + 2 ^ (JsNumber.exponent a - 1).
Proof.
  unfold JsNumber.nearest. set (c := JsNumber.exponent a).
  pose proof (round_nearest_even_error (a / 2 ^ c)) as [Hlow Hup].
  pose proof (pow2_pos c) as Hc. pose proof (scaled_back a c) as Hback.
  assert (Hhalf : 2 * 2 ^ (c - 1) == 2 ^ c).
  { rewrite <- pow2_succ. replace (c - 1 + 1)%Z with c by lia. reflexivity. }
  set (m := inject_Z (JsNumber.round_nearest_even (a / 2 ^ c))) in *.
  set (x := a / 2 ^ c) in *. set (u := 2 ^ c) in *. set (h := 2 ^ (c - 1)) in *.
  clearbody m x u h. split; nra.
Qed.

Lemma nearest_mantissa (a : Q) :
  0 < a -> (0 <= JsNumber.round_nearest_even (a / 2 ^ JsNumber.exponent a) <= 2 ^ 53)%Z.
Proof.
  intros Ha. destruct (exponent_spec a Ha) as (_ & Hup & _).
  pose proof (pow2_pos (JsNumber.exponent a)) as Hc. split.
  - apply round_nearest_even_above. change (inject_Z 0) with 0.
    apply Qlt_le_weak, Qlt_shift_div_l; [exact Hc|lra].
  - apply round_nearest_even_below. rewrite <- pow2_Z by lia.
    apply Qle_shift_div_r; [exact Hc|]. rewrite <- pow2_plus.
    rewrite Z.add_comm. lra.
Qed.

Lemma nearest_nonneg (a : Q) : 0 < a -> 0 <= JsNumber.nearest a.
Proof.
  intros Ha. unfold JsNumber.nearest. apply Qmult_le_0_compat.
  - change 0 with (inject_Z 0). rewrite <- Zle_Qle. apply nearest_mantissa, Ha.
  - apply Qlt_le_weak, pow2_pos.
Qed.

Lemma nearest_monotone (a b : Q) : 0 < a -> a <= b -> JsNumber.nearest a <= JsNumber.nearest b.
Proof.
  intros Ha Hab. assert (Hb : 0 < b) by lra.
  pose proof (exponent_monotone a b Ha Hab) as Hexp.
  destruct (Z.eq_dec (JsNumber.exponent a) (JsNumber.exponent b)) as [Heq|Hne].
  - unfold JsNumber.nearest. rewrite Heq. apply Qmult_le_compat_r; [|apply Qlt_le_weak, pow2_pos].
    rewrite <- Zle_Qle. apply round_nearest_even_monotone.
    apply Qmult_le_compat_r; [exact Hab|]. apply Qlt_le_weak, Qinv_lt_0_compat, pow2_pos.
  - destruct (exponent_spec b Hb) as (Hb1 & _ & [Hb3|Hb3]);
      [|destruct (exponent_spec a Ha) as (Ha1 & _); lia].
    apply Qle_trans with (2 ^ (JsNumber.exponent b + 52)).
    + apply Qle_trans with (2 ^ (JsNumber.exponent a + 53)); [|apply pow2_le; lia].
      unfold JsNumber.nearest. rewrite (Z.add_comm (JsNumber.exponent a)), pow2_plus.
      apply Qmult_le_compat_r; [|apply Qlt_le_weak, pow2_pos].
      rewrite (pow2_Z 53) by lia. rewrite <- Zle_Qle. apply nearest_mantissa, Ha.
    + unfold JsNumber.nearest. rewrite (Z.add_comm (JsNumber.exponent b)), pow2_plus.
      apply Qmult_le_compat_r; [|apply Qlt_le_weak, pow2_pos].
      rewrite (pow2_Z 52) by lia. rewrite <- Zle_Qle. apply round_nearest_even_above.
      rewrite <- (pow2_Z 52) by lia. pose proof (pow2_pos (JsNumber.exponent b)) as Hc.
      apply Qle_shift_div_l; [exact Hc|]. rewrite <- pow2_plus, Z.add_comm. exact Hb3.
Qed.

(** A positive value [m * 2^c] with [m < 2^53] and [c >= -1074] is a double. *)
Lemma nearest_exact (m c : Z) :
  (0 < m < 2 ^ 53)%Z -> (-1074 <= c)%Z ->
  JsNumber.nearest (inject_Z m * 2 ^ c) == inject_Z m * 2 ^ c.
Proof.
  intros Hm Hc. set (a := inject_Z m * 2 ^ c).
  assert (Ha : 0 < a).
  { apply Qmult_lt_0_compat; [|apply pow2_pos]. change 0 with (inject_Z 0).
    rewrite <- Zlt_Qlt. lia. }
  destruct (exponent_spec a Ha) as (He1 & He2 & He3).
  assert (Hbelow : a < 2 ^ (c + 53)).
  { unfold a. rewrite Z.add_comm, pow2_plus.
    apply Qmult_lt_compat_r; [apply pow2_pos|]. rewrite (pow2_Z 53) by lia.
    rewrite <- Zlt_Qlt. lia. }
  assert (Hle : (JsNumber.exponent a <= c)%Z).
  { destruct He3 as [He3|He3]; [|lia].
    assert (JsNumber.exponent a + 52 < c + 53)%Z; [|lia]. apply pow2_lt_inv. lra. }
  unfold JsNumber.nearest. set (e := JsNumber.exponent a) in *.
  assert (Hscaled : a / 2 ^ e == inject_Z (m * 2 ^ (c - e))).
  { rewrite inject_Z_mult, <- pow2_Z by lia. unfold a.
    replace c with ((c - e) + e)%Z at 1 by lia. rewrite pow2_plus. field.
    pose proof (pow2_pos e). lra. }
  rewrite (round_nearest_even_comp _ _ Hscaled), round_nearest_even_Z.
  rewrite <- Hscaled. apply scaled_back.
Qed.

(** What [nearest] returns is [m * 2^c] with [m <= 2^53] and [c >= -1074]. *)
Lemma nearest_double (a : Q) :
  0 < a ->
  exists m c : Z, JsNumber.nearest a == inject_Z m * 2 ^ c /\ (0 <= m <= 2 ^ 53)%Z /\ (-1074 <= c)%Z /\
                  (a < 2 ^ (c + 53)) /\ (2 ^ (c + 52) <= a \/ c = (-1074)%Z).
Proof.
  intros Ha. exists (JsNumber.round_nearest_even (a / 2 ^ JsNumber.exponent a)), (JsNumber.exponent a).
  destruct (exponent_spec a Ha) as (He1 & He2 & He3).
  split; [reflexivity|]. split; [apply nearest_mantissa, Ha|]. auto.
Qed.

(** ** Rounding a rational to a double *)

Lemma of_Q_comp (p q : Q) : p == q -> JsNumber.of_Q p = JsNumber.of_Q q.
Proof.
  intros H. unfold JsNumber.of_Q. rewrite (Qred_complete p q H). reflexivity.
Qed.

Lemma Qle_bool_comp (x x' y y' : Q) :
  x == x' -> y == y' -> Qle_bool x y = Qle_bool x' y'.
Proof.
  intros Hx Hy. destruct (Qle_bool_spec x y) as [H|H], (Qle_bool_spec x' y') as [H'|H'];
    try reflexivity; exfalso; apply H' || apply H; lra.
Qed.

Lemma Qeq_bool_false (x y : Q) : ~ x == y -> Qeq_bool x y = false.
Proof.
  intros H. destruct (Qeq_bool x y) eqn:E; [|reflexivity].
  apply Qeq_bool_eq in E. contradiction.
Qed.

Lemma Qeq_bool_true (x y : Q) : x == y -> Qeq_bool x y = true.
Proof. apply Qeq_eq_bool. Qed.

(** A positive value is stored as the nearest double, or as [Infinity]. *)
Lemma of_Q_positive (q : Q) :
  0 < q ->
  JsNumber.of_Q q
  = if Qle_bool (2 ^ 1024) (JsNumber.nearest q) then Infinity false
    else Num (Qred (JsNumber.nearest q)).
Proof.
  intros Hq. unfold JsNumber.of_Q. cbv zeta.
  pose proof (Qred_correct q) as Hred.
  rewrite Qeq_bool_false by lra.
  assert (Habs : Qabs (Qred q) == q).
  { rewrite Qabs_pos by lra. exact Hred. }
  assert (Hpos : 0 < Qabs (Qred q)) by lra.
  pose proof (nearest_comp _ _ Hpos Habs) as Hnear.
  rewrite (Qle_bool_comp (2 ^ 1024) (2 ^ 1024) _ (JsNumber.nearest q))
    by (reflexivity || exact Hnear).
  assert (Hsign : Qle_bool 0 (Qred q) = true) by (apply Qle_bool_iff; lra).
  rewrite Hsign. cbn [negb].
  rewrite (Qred_complete _ _ Hnear). reflexivity.
Qed.

Lemma of_Q_zero : JsNumber.of_Q 0 = Num 0.
Proof. reflexivity. Qed.

(** A value below [2^1024] that is a multiple [m * 2^c] with [m < 2^53] and
    [c >= -1074] is stored as it is. *)
Lemma of_Q_exact (m c : Z) :
  (0 < m < 2 ^ 53)%Z -> (-1074 <= c)%Z -> inject_Z m * 2 ^ c < 2 ^ 1024 ->
  JsNumber.of_Q (inject_Z m * 2 ^ c) = Num (Qred (inject_Z m * 2 ^ c)).
Proof.
  intros Hm Hc Hbelow.
  assert (Hpos : 0 < inject_Z m * 2 ^ c).
  { apply Qmult_lt_0_compat; [|apply pow2_pos]. change 0 with (inject_Z 0).
    rewrite <- Zlt_Qlt. lia. }
  rewrite (of_Q_positive _ Hpos). pose proof (nearest_exact m c Hm Hc) as Hexact.
  destruct (Qle_bool_spec (2 ^ 1024) (JsNumber.nearest (inject_Z m * 2 ^ c))) as [H|H].
  - exfalso. lra.
  - rewrite (Qred_complete _ _ Hexact). reflexivity.
Qed.

Lemma Qred_inject_Z (z : Z) : Qred (inject_Z z) = inject_Z z.
Proof. apply Qcanon.Qred_identity. cbn. apply Z.gcd_1_r. Qed.

Lemma pow2_1024_large (z : Z) : (z <= 2 ^ 53)%Z -> inject_Z z < 2 ^ 1024.
Proof.
  intros Hz. apply Qle_lt_trans with (inject_Z (2 ^ 53)); [rewrite <- Zle_Qle; exact Hz|].
  rewrite <- (pow2_Z 53) by lia. apply pow2_lt. lia.
Qed.

(** The integers up to [2^53] are doubles. *)
Lemma of_Q_integer (z : Z) :
  (0 <= z <= 2 ^ 53)%Z -> JsNumber.of_Q (inject_Z z) = Num (inject_Z z).
Proof.
  intros Hz. destruct (Z.eq_dec z 0%Z) as [->|Hz0]; [reflexivity|].
  destruct (Z.eq_dec z (2 ^ 53)%Z) as [->|Hz53]; [vm_compute; reflexivity|].
  assert (Heq : inject_Z z == inject_Z z * 2 ^ 0) by (change (2 ^ 0) with 1; ring).
  rewrite (of_Q_comp _ _ Heq), of_Q_exact; [| lia | lia |].
  - rewrite <- (Qred_complete _ _ Heq). rewrite Qred_inject_Z. reflexivity.
  - rewrite <- Heq. apply pow2_1024_large. lia.
Qed.

(** So are the halves of the integers up to [2^53]. *)
Lemma of_Q_half (h : Z) :
  (0 <= h <= 2 ^ 53)%Z -> JsNumber.of_Q (inject_Z h / 2) = Num (Qred (inject_Z h / 2)).
Proof.
  intros Hh. destruct (Z.eq_dec h 0%Z) as [->|Hh0]; [reflexivity|].
  destruct (Z.eq_dec h (2 ^ 53)%Z) as [->|Hh53]; [vm_compute; reflexivity|].
  assert (Heq : inject_Z h / 2 == inject_Z h * 2 ^ (-1)).
  { change (2 ^ (-1)) with (/ 2). reflexivity. }
  rewrite (of_Q_comp _ _ Heq), of_Q_exact; [| lia | lia |].
  - rewrite <- (Qred_complete _ _ Heq). reflexivity.
  - rewrite <- Heq. apply Qle_lt_trans with (inject_Z h).
    + assert (0 <= inject_Z h); [|lra]. change 0 with (inject_Z 0). rewrite <- Zle_Qle. lia.
    + apply pow2_1024_large. lia.
Qed.


(** A finite result of rounding a non-negative value: the nearest double. *)
Lemma of_Q_finite (q r : Q) :
  0 < q -> JsNumber.of_Q q = Num r ->
  r == JsNumber.nearest q /\ r = Qred r /\ JsNumber.nearest q < 2 ^ 1024.
Proof.
  intros Hq. rewrite (of_Q_positive q Hq).
  destruct (Qle_bool_spec (2 ^ 1024) (JsNumber.nearest q)) as [H|H]; [discriminate|].
  intros [= <-]. split; [apply Qred_correct|]. split.
  - symmetry. apply Qred_complete, Qred_correct.
  - lra.
Qed.

Lemma of_Q_double (q r : Q) : 0 < q -> JsNumber.of_Q q = Num r -> double r.
Proof.
  intros Hq Hr. destruct (of_Q_finite q r Hq Hr) as (Hnear & _).
  destruct (nearest_double q Hq) as (m & c & Hmc & Hm & Hc & _).
  exists m, c. split; [rewrite Hnear; exact Hmc|]. split; assumption.
Qed.

(** Rounding is monotone. *)
Lemma of_Q_monotone (p q r : Q) :
  0 < p -> p <= q -> JsNumber.of_Q q = Num r ->
  exists r', JsNumber.of_Q p = Num r' /\ 0 <= r' /\ r' <= r.
Proof.
  intros Hp Hpq Hr. assert (Hq : 0 < q) by lra.
  destruct (of_Q_finite q r Hq Hr) as (Hnear & _ & Hfin).
  pose proof (nearest_monotone p q Hp Hpq) as Hmono.
  pose proof (nearest_nonneg p Hp) as Hnonneg.
  rewrite (of_Q_positive p Hp).
  destruct (Qle_bool_spec (2 ^ 1024) (JsNumber.nearest p)) as [H|H]; [exfalso; lra|].
  eexists. split; [reflexivity|]. rewrite Qred_correct. split; lra.
Qed.

(** In the normal range the error of rounding is at most [2^-53] of the
    value. *)
Lemma of_Q_error (q r : Q) :
  2 ^ (-1022) <= q -> JsNumber.of_Q q = Num r ->
  q - q * 2 ^ (-53) <= r <= q + q * 2 ^ (-53).
Proof.
  intros Hq Hr. assert (Hpos : 0 < q) by (pose proof (pow2_pos (-1022)); lra).
  destruct (of_Q_finite q r Hpos Hr) as (Hnear & _).
  destruct (exponent_spec q Hpos) as (He1 & He2 & He3).
  pose proof (nearest_error q) as [Hlow Hup].
  assert (Hunit : 2 ^ (JsNumber.exponent q - 1) <= q * 2 ^ (-53)).
  { replace (JsNumber.exponent q - 1)%Z with (JsNumber.exponent q + 52 + -53)%Z by lia.
    rewrite pow2_plus. apply Qmult_le_compat_r; [|apply Qlt_le_weak, pow2_pos].
    destruct He3 as [He3| ->]; [exact He3|exact Hq]. }
  rewrite Hnear. split; lra.
Qed.

(** A double above [2^(g+53)] is a multiple of [2^(g+1)]. *)
Lemma double_spacing (r : Q) (g : Z) :
  double r -> (-1075 <= g)%Z -> 2 ^ (g + 53) < r ->
  exists k : Z, r == inject_Z k * 2 ^ (g + 1).
Proof.
  intros (m & c & Hr & Hm & Hc) Hg Hlarge.
  assert (Hgc : (g + 1 <= c)%Z).
  { assert (g + 53 < c + 53)%Z; [|lia]. apply pow2_lt_inv.
    apply Qlt_le_trans with r; [exact Hlarge|]. rewrite Hr, (Z.add_comm c), pow2_plus.
    apply Qmult_le_compat_r; [|apply Qlt_le_weak, pow2_pos].
    rewrite (pow2_Z 53) by lia. rewrite <- Zle_Qle. lia. }
  exists (m * 2 ^ (c - (g + 1)))%Z. rewrite Hr, inject_Z_mult, <- pow2_Z by lia.
  rewrite <- Qmult_assoc, <- pow2_plus. replace (c - (g + 1) + (g + 1))%Z with c by lia.
  reflexivity.
Qed.

(** ** Sums and ratios the validator forms *)

Lemma inject_Z_nonneg (z : Z) : (0 <= z)%Z -> 0 <= inject_Z z.
Proof. intros H. change 0 with (inject_Z 0). rewrite <- Zle_Qle. exact H. Qed.

Lemma inject_Z_minus (a b : Z) : inject_Z (a - b) == inject_Z a - inject_Z b.
Proof. unfold Z.sub, Qminus. rewrite inject_Z_plus, inject_Z_opp. reflexivity. Qed.

Lemma inject_Z_pos (z : Z) : (0 < z)%Z -> 0 < inject_Z z.
Proof. intros H. change 0 with (inject_Z 0). rewrite <- Zlt_Qlt. exact H. Qed.

(** Adding integers is exact up to [2^53]. *)
Lemma add_integers (a b : Z) :
  (0 <= a)%Z -> (0 <= b)%Z -> (a + b <= 2 ^ 53)%Z ->
  JsNumber.add (Num (inject_Z a)) (Num (inject_Z b)) = Num (inject_Z (a + b)).
Proof.
  intros Ha Hb Hsum. cbn [JsNumber.add].
  rewrite (of_Q_comp _ (inject_Z (a + b))) by (rewrite inject_Z_plus; reflexivity).
  apply of_Q_integer. lia.
Qed.

(** So is adding halves of integers. *)
Lemma add_halves (a b : Z) :
  (0 <= a)%Z -> (0 <= b)%Z -> (a + b <= 2 ^ 53)%Z ->
  JsNumber.add (Num (Qred (inject_Z a / 2))) (Num (Qred (inject_Z b / 2)))
  = Num (Qred (inject_Z (a + b) / 2)).
Proof.
  intros Ha Hb Hsum. cbn [JsNumber.add].
  rewrite (of_Q_comp _ (inject_Z (a + b) / 2)).
  - apply of_Q_half. lia.
  - rewrite !Qred_correct, inject_Z_plus. field.
Qed.

(** Rounding is monotone, also into [Infinity]. *)
Lemma of_Q_leb (p q : Q) :
  0 < p -> p <= q -> JsNumber.leb (JsNumber.of_Q p) (JsNumber.of_Q q) = true.
Proof.
  intros Hp Hpq. assert (Hq : 0 < q) by lra.
  rewrite (of_Q_positive p Hp), (of_Q_positive q Hq).
  pose proof (nearest_monotone p q Hp Hpq) as Hmono.
  destruct (Qle_bool_spec (2 ^ 1024) (JsNumber.nearest p)) as [H|H];
    destruct (Qle_bool_spec (2 ^ 1024) (JsNumber.nearest q)) as [H'|H'];
    cbn [JsNumber.leb orb negb]; try reflexivity.
  - exfalso. lra.
  - apply Qle_bool_iff. rewrite !Qred_correct. exact Hmono.
Qed.

(** A value up to a double [b] is stored as a double up to [b]. *)
Lemma of_Q_below (q b : Q) :
  0 < q -> q <= b -> JsNumber.of_Q b = Num (Qred b) ->
  exists r, JsNumber.of_Q q = Num r /\ 0 <= r <= b.
Proof.
  intros Hq Hqb Hb. destruct (of_Q_monotone q b _ Hq Hqb Hb) as (r & Hr & H0 & Hle).
  exists r. rewrite Qred_correct in Hle. auto.
Qed.

(** [Math.round((a / b) * 100)] for a ratio [a / b = p / d] of integers
    between 0 and 2 with [d < 2^43]: an integer nearest to [100 p / d],
    which is [round_half_up (100 p / d)] unless [100 p / d] lies halfway
    between two integers. *)
Lemma percentage_rounded (a b : Q) (p d : Z) :
  (0 <= p <= 2 * d)%Z -> (0 < d < 2 ^ 43)%Z -> ~ b == 0 ->
  a / b == inject_Z p / inject_Z d ->
  exists z : Z,
    JsNumber.Math_round (JsNumber.mul (JsNumber.div (Num a) (Num b)) (Num 100))
    = Num (inject_Z z) /\
    inject_Z z - (1 # 2) <= 100 * inject_Z p / inject_Z d <= inject_Z z + (1 # 2) /\
    (((200 * p + d) mod (2 * d))%Z <> 0%Z -> z = ((200 * p + d) / (2 * d))%Z).
Proof.
  intros Hp Hd Hb Hratio. cbn [JsNumber.div]. rewrite (Qeq_bool_false b 0 Hb).
  rewrite (of_Q_comp _ _ Hratio). clear a b Hb Hratio.
  pose proof (inject_Z_pos d (proj1 Hd)) as HD.
  destruct (Z.eq_dec p 0%Z) as [->|Hp0].
  { exists 0%Z. split; [|split].
    - rewrite (of_Q_comp _ 0) by (unfold Qdiv; ring). reflexivity.
    - change (inject_Z 0) with 0. unfold Qdiv. rewrite !Qmult_0_r, Qmult_0_l. lra.
    - intros _. rewrite Z.mul_0_r, Z.add_0_l. symmetry. apply Z.div_small. lia. }
  set (x := inject_Z p / inject_Z d).
  assert (HP : 1 <= inject_Z p).
  { change 1 with (inject_Z 1). rewrite <- Zle_Qle. lia. }
  assert (Hx2 : x <= 2).
  { unfold x. apply Qle_shift_div_r; [exact HD|].
    change 2 with (inject_Z 2). rewrite <- inject_Z_mult, <- Zle_Qle. lia. }
  assert (Hxlow : 2 ^ (-43) <= x).
  { unfold x. apply Qle_shift_div_l; [exact HD|].
    apply Qle_trans with 1; [|exact HP].
    apply Qle_trans with (2 ^ (-43) * 2 ^ 43).
    - apply Qmult_le_l; [apply pow2_pos|]. rewrite (pow2_Z 43), <- Zle_Qle by lia. lia.
    - rewrite <- pow2_plus. discriminate. }
  assert (Hxpos : 0 < x) by (pose proof (pow2_pos (-43)); lra).
  destruct (of_Q_below x 2 Hxpos Hx2 eq_refl) as (r1 & Hr1 & Hr1pos & Hr1le).
  assert (Hnormal : 2 ^ (-1022) <= x).
  { apply Qle_trans with (2 ^ (-43)); [apply pow2_le; lia|exact Hxlow]. }
  pose proof (of_Q_error x r1 Hnormal Hr1) as [He1 He1'].
  rewrite Hr1. cbn [JsNumber.mul].
  change (2 ^ (-53)) with (1 # 9007199254740992) in He1, He1'.
  assert (Hr1low : 2 ^ (-44) <= r1).
  { apply Qle_trans with (x - x * (1 # 9007199254740992)); [|exact He1].
    change (2 ^ (-43)) with (1 # 8796093022208) in Hxlow.
    change (2 ^ (-44)) with (1 # 17592186044416). lra. }
  assert (Hr1pos' : 0 < r1 * 100) by (pose proof (pow2_pos (-44)); lra).
  assert (Hr1le' : r1 * 100 <= 200) by lra.
  destruct (of_Q_below (r1 * 100) 200 Hr1pos' Hr1le' eq_refl) as (r2 & Hr2 & Hr2pos & Hr2le).
  assert (Hnormal' : 2 ^ (-1022) <= r1 * 100).
  { apply Qle_trans with (2 ^ (-44)); [apply pow2_le; lia|lra]. }
  pose proof (of_Q_error (r1 * 100) r2 Hnormal' Hr2) as [He2 He2'].
  rewrite Hr2. cbn [JsNumber.Math_round].
  exists (Qfloor (r2 + (1 # 2))). split; [reflexivity|].
  change (2 ^ (-53)) with (1 # 9007199254740992) in He2, He2'.
  set (eps := 2 ^ (-44)) in *.
  assert (Heps : eps == 1 # 17592186044416) by reflexivity.
  assert (Hclose : 100 * x - eps <= r2 /\ r2 <= 100 * x + eps).
  { rewrite Heps. split; nra. }
  (* the exact value and its distance to the halves *)
  set (k := ((200 * p + d) / (2 * d))%Z).
  set (rem := ((200 * p + d) mod (2 * d))%Z).
  assert (Hdiv : (200 * p + d = 2 * d * k + rem)%Z) by (apply Z.div_mod; lia).
  assert (Hrem : (0 <= rem < 2 * d)%Z) by (apply Z.mod_pos_bound; lia).
  assert (Hexact : 100 * x + (1 # 2) == inject_Z k + inject_Z rem / (2 * inject_Z d)).
  { unfold x.
    assert (Hq : inject_Z (200 * p + d) == inject_Z (2 * d * k + rem)) by (rewrite Hdiv; reflexivity).
    rewrite inject_Z_plus, !inject_Z_mult, inject_Z_plus, !inject_Z_mult in Hq.
    change (inject_Z 200) with 200 in Hq. change (inject_Z 2) with 2 in Hq.
    field_simplify_eq; [|lra]. lra. }
  assert (Hgap : eps * (2 * inject_Z d) < 1).
  { apply Qlt_le_trans with (eps * (2 * 2 ^ 43)).
    - apply Qmult_lt_l; [apply pow2_pos|].
      assert (inject_Z d < 2 ^ 43); [|lra].
      rewrite (pow2_Z 43), <- Zlt_Qlt by lia. lia.
    - rewrite Heps. vm_compute. discriminate. }
  pose proof (Qfloor_bounds (r2 + (1 # 2))) as [Hf1 Hf2].
  set (z := Qfloor (r2 + (1 # 2))) in *. clearbody z.
  assert (Hremq : 0 <= inject_Z rem / (2 * inject_Z d) < 1).
  { split.
    - apply Qle_shift_div_l; [lra|]. rewrite Qmult_0_l. apply inject_Z_nonneg. lia.
    - apply Qlt_shift_div_r; [lra|]. rewrite Qmult_1_l.
      change 2 with (inject_Z 2). rewrite <- inject_Z_mult, <- Zlt_Qlt. lia. }
  assert (Hepsd : eps < 1 / (2 * inject_Z d)).
  { apply Qlt_shift_div_l; [lra|exact Hgap]. }
  split.
  - (* nearest *)
    assert (Hz : (k - 1 <= z <= k + 1)%Z).
    { assert (inject_Z z < inject_Z (k + 2)) as H1.
      { rewrite inject_Z_plus. change (inject_Z 2) with 2.
        assert (eps < 1) by (rewrite Heps; reflexivity). lra. }
      assert (inject_Z (k - 2) < inject_Z z) as H2.
      { rewrite inject_Z_minus. change (inject_Z 2) with 2.
        assert (eps < 1) by (rewrite Heps; reflexivity). lra. }
      rewrite <- Zlt_Qlt in H1, H2. lia. }
    destruct (Z.eq_dec rem 0%Z) as [Hrem0|Hrem0].
    + (* halfway: either neighbour *)
      assert (Hhalf : 100 * x + (1 # 2) == inject_Z k).
      { rewrite Hexact, Hrem0. change (inject_Z 0) with 0. unfold Qdiv. ring. }
      assert (Hz' : (k - 1 <= z <= k)%Z).
      { assert (inject_Z z < inject_Z (k + 1)) as H1.
        { rewrite inject_Z_plus. change (inject_Z 1) with 1.
          assert (eps < 1) by (rewrite Heps; reflexivity). lra. }
        rewrite <- Zlt_Qlt in H1. lia. }
      assert (Hzq : inject_Z (k - 1) <= inject_Z z <= inject_Z k).
      { rewrite <- !Zle_Qle. exact Hz'. }
      rewrite inject_Z_minus in Hzq. change (inject_Z 1) with 1 in Hzq.
      assert (H100 : 100 * inject_Z p / inject_Z d == 100 * x) by (unfold x, Qdiv; ring).
      rewrite H100. split; lra.
    + assert (Hzk : z = k).
      { assert (Hlow : 1 / (2 * inject_Z d) <= inject_Z rem / (2 * inject_Z d)).
        { apply Qmult_le_compat_r; [|apply Qlt_le_weak, Qinv_lt_0_compat; lra].
          change 1 with (inject_Z 1). rewrite <- Zle_Qle. lia. }
        assert (Hhigh : inject_Z rem / (2 * inject_Z d) <= 1 - 1 / (2 * inject_Z d)).
        { assert (Heq1 : 1 - 1 / (2 * inject_Z d) == (2 * inject_Z d - 1) / (2 * inject_Z d)).
          { field. lra. }
          rewrite Heq1. apply Qmult_le_compat_r; [|apply Qlt_le_weak, Qinv_lt_0_compat; lra].
          change 2 with (inject_Z 2). change 1 with (inject_Z 1).
          rewrite <- inject_Z_mult, <- inject_Z_minus, <- Zle_Qle. lia. }
        assert (inject_Z z < inject_Z (k + 1)) as H1.
        { rewrite inject_Z_plus. change (inject_Z 1) with 1. lra. }
        assert (inject_Z (k - 1) < inject_Z z) as H2.
        { rewrite inject_Z_minus. change (inject_Z 1) with 1. lra. }
        rewrite <- Zlt_Qlt in H1, H2. lia. }
      assert (H100 : 100 * inject_Z p / inject_Z d == 100 * x) by (unfold x, Qdiv; ring).
      rewrite H100, Hzk. split; lra.
  - intros Hrem0. fold rem in Hrem0.
    assert (Hlow : 1 / (2 * inject_Z d) <= inject_Z rem / (2 * inject_Z d)).
    { apply Qmult_le_compat_r; [|apply Qlt_le_weak, Qinv_lt_0_compat; lra].
      change 1 with (inject_Z 1). rewrite <- Zle_Qle. lia. }
    assert (Hhigh : inject_Z rem / (2 * inject_Z d) <= 1 - 1 / (2 * inject_Z d)).
    { assert (Heq1 : 1 - 1 / (2 * inject_Z d) == (2 * inject_Z d - 1) / (2 * inject_Z d)).
      { field. lra. }
      rewrite Heq1. apply Qmult_le_compat_r; [|apply Qlt_le_weak, Qinv_lt_0_compat; lra].
      change 2 with (inject_Z 2). change 1 with (inject_Z 1).
      rewrite <- inject_Z_mult, <- inject_Z_minus, <- Zle_Qle. lia. }
    assert (inject_Z z < inject_Z (k + 1)) as H1.
    { rewrite inject_Z_plus. change (inject_Z 1) with 1. lra. }
    assert (inject_Z (k - 1) < inject_Z z) as H2.
    { rewrite inject_Z_minus. change (inject_Z 1) with 1. lra. }
    rewrite <- Zlt_Qlt in H1, H2. lia.
Qed.

End DoublePrecision.

(** ** Rounding half up *)

Lemma Qfloor_div (a b : Z) : 0 < b -> Qfloor (inject_Z a / inject_Z b) = a / b.
Proof.
  intros Hb.
  assert (H : (inject_Z a / inject_Z b == a # Z.to_pos b)%Q).
  { unfold Qeq, Qdiv, Qmult, Qinv, inject_Z. destruct b as [|p|p]; try lia.
    cbn. rewrite Pos2Z.inj_mul. lia. }
  rewrite (Qfloor_comp _ _ H). cbn. rewrite Z2Pos.id by exact Hb. reflexivity.
Qed.

(** Rounding [100 * (k / 2) / n] to the nearest integer, in integers. *)
Lemma round_percentage (k n : Z) (x : Q) :
  0 < n ->
  (x == 100 * (inject_Z k / 2) / inject_Z n)%Q ->
  JsNumber.round_half_up x = (100 * k + n) / (2 * n).
Proof.
  intros Hn Hx. unfold JsNumber.round_half_up.
  rewrite <- (Qfloor_div (100 * k + n) (2 * n)) by lia.
  apply Qfloor_comp. rewrite Hx.
  rewrite !inject_Z_plus, !inject_Z_mult. field.
  intros H. unfold Qeq in H. cbn in H. lia.
Qed.

Lemma round_half_up_at_least (k n bound : Z) (x : Q) :
  0 < n ->
  (x == 100 * (inject_Z k / 2) / inject_Z n)%Q ->
  bound <= JsNumber.round_half_up x <-> (2 * bound - 1) * n <= 100 * k.
Proof.
  intros Hn Hx. rewrite (round_percentage k n x Hn Hx). split.
  - intros H. destruct (Z_lt_le_dec (100 * k) ((2 * bound - 1) * n)) as [Hlt|]; [|lia].
    assert ((100 * k + n) / (2 * n) < bound); [|lia].
    apply Z.div_lt_upper_bound; lia.
  - intros H. apply Z.div_le_lower_bound; lia.
Qed.

(** ** Decimal numerals: printed and read back *)

Lemma digits_from_digit (acc : Z) (count : nat) (c : ascii) (s : string) :
  is_digit c = true ->
  digits_from acc count (String c s)
  = digits_from (10 * acc + (Z.of_N (N_of_ascii c) - 48)) (S count) s.
Proof. intros H. cbn [digits_from]. rewrite H. reflexivity. Qed.

Lemma digits_from_stop (acc : Z) (count : nat) (s : string) :
  starts_with_digit s = false -> digits_from acc count s = (acc, count, s).
Proof.
  intros H. destruct s as [|c s]; [reflexivity|]. cbn [digits_from].
  cbn [starts_with_digit] in H. rewrite H. reflexivity.
Qed.

Lemma append_cons (c : ascii) (a b : string) :
  String c a +:+ b = String c (a +:+ b).
Proof. reflexivity. Qed.

Lemma append_nil_l (s : string) : "" +:+ s = s.
Proof. reflexivity. Qed.

Ltac read_digit :=
  cbn [NilEmpty.string_of_uint Decimal.nb_digits Pos.of_uint_acc Pos.of_uint];
  rewrite append_cons, digits_from_digit by reflexivity;
  match goal with
  | |- context [Z.of_N (N_of_ascii ?c) - 48] =>
      let v := eval vm_compute in (Z.of_N (N_of_ascii c) - 48) in
      change (Z.of_N (N_of_ascii c) - 48) with v
  end;
  rewrite <- Nat.add_succ_comm.

Lemma digits_from_uint_acc (d : Decimal.uint) (rest : string) :
  starts_with_digit rest = false ->
  forall (acc : positive) (count : nat),
    digits_from (Z.pos acc) count (NilEmpty.string_of_uint d +:+ rest)
    = (Z.pos (Pos.of_uint_acc d acc), (count + Decimal.nb_digits d)%nat, rest).
Proof.
  intros Hrest. induction d as [|d IH|d IH|d IH|d IH|d IH|d IH|d IH|d IH|d IH|d IH];
    intros acc count;
    [cbn [NilEmpty.string_of_uint Decimal.nb_digits Pos.of_uint_acc];
     rewrite append_nil_l, Nat.add_0_r; apply digits_from_stop; exact Hrest|..];
    read_digit; rewrite <- IH; f_equal; lia.
Qed.

Lemma digits_from_uint (d : Decimal.uint) (rest : string) :
  starts_with_digit rest = false ->
  forall count : nat,
    digits_from 0 count (NilEmpty.string_of_uint d +:+ rest)
    = (Z.of_N (Pos.of_uint d), (count + Decimal.nb_digits d)%nat, rest).
Proof.
  intros Hrest. induction d as [|d IH|d IH|d IH|d IH|d IH|d IH|d IH|d IH|d IH|d IH];
    intros count;
    [cbn [NilEmpty.string_of_uint Decimal.nb_digits Pos.of_uint];
     rewrite append_nil_l, Nat.add_0_r; apply digits_from_stop; exact Hrest
    |read_digit; apply IH
    |read_digit; cbn [Z.of_N];
     rewrite <- (digits_from_uint_acc d rest Hrest); reflexivity ..].
Qed.

(** Whatever was read before, reading a numeral stops right after it. *)
Lemma digits_from_uint_rest (d : Decimal.uint) (rest : string) :
  starts_with_digit rest = false ->
  forall (acc : Z) (count : nat),
    exists v, digits_from acc count (NilEmpty.string_of_uint d +:+ rest)
              = (v, (count + Decimal.nb_digits d)%nat, rest).
Proof.
  intros Hrest. induction d as [|d IH|d IH|d IH|d IH|d IH|d IH|d IH|d IH|d IH|d IH];
    intros acc count;
    [cbn [NilEmpty.string_of_uint Decimal.nb_digits];
     rewrite append_nil_l, Nat.add_0_r; exists acc; apply digits_from_stop; exact Hrest|..];
    read_digit; apply IH.
Qed.

Lemma of_Z_numeral (z : Z) :
  0 <= z ->
  exists d, of_Z z = NilEmpty.string_of_uint d /\ Z.of_N (Pos.of_uint d) = z /\
            (0 < Decimal.nb_digits d)%nat.
Proof.
  intros Hz. destruct z as [|p|p]; [| |lia].
  - exists (Decimal.D0 Decimal.Nil). repeat split. cbn. lia.
  - exists (Pos.to_uint p). unfold of_Z. cbn [Z.to_int NilZero.string_of_int].
    pose proof (DecimalPos.Unsigned.to_uint_nonnil p) as Hnonnil.
    split; [|split].
    + unfold NilZero.string_of_uint. destruct (Pos.to_uint p); congruence.
    + rewrite DecimalPos.Unsigned.of_to. reflexivity.
    + destruct (Pos.to_uint p); [congruence|cbn; lia ..].
Qed.

Lemma digits_from_of_Z (z : Z) (rest : string) :
  0 <= z -> starts_with_digit rest = false ->
  exists n, digits_from 0 0 (of_Z z +:+ rest) = (z, S n, rest).
Proof.
  intros Hz Hrest. destruct (of_Z_numeral z Hz) as [d [-> [Hvalue Hdigits]]].
  rewrite (digits_from_uint d rest Hrest), Hvalue. cbn [Nat.add].
  destruct (Decimal.nb_digits d) as [|n]; [lia|]. exists n. reflexivity.
Qed.

Lemma digits_from_nonneg (s : string) :
  forall (acc : Z) (count : nat), 0 <= acc -> 0 <= fst (fst (digits_from acc count s)).
Proof.
  induction s as [|c s IH]; intros acc count Hacc; cbn [digits_from]; [exact Hacc|].
  destruct (is_digit c) eqn:Hc; [|exact Hacc]. apply IH.
  unfold is_digit in Hc. cbv zeta in Hc. apply andb_true_iff in Hc.
  destruct Hc as [Hlow _]. apply N.leb_le in Hlow. lia.
Qed.


(** Reading the digits at the start of a string reads the same number off
    this prefix alone. *)
Lemma digits_from_prefix (s : string) :
  forall (acc : Z) (count0 : nat) (v : Z) (count : nat) (rest : string),
    digits_from acc count0 s = (v, count, rest) ->
    (count0 <= count)%nat /\
    digits_from acc count0 (first_chars (count - count0) s) = (v, count, "") /\
    s = first_chars (count - count0) s +:+ rest.
Proof.
  induction s as [|c s IH]; intros acc count0 v count rest; cbn [digits_from].
  - intros [= <- <- <-]. rewrite Nat.sub_diag. auto.
  - destruct (is_digit c) eqn:Hc.
    + intros H. destruct (IH _ _ _ _ _ H) as (Hle & Hprefix & Hsplit).
      split; [lia|]. replace (count - count0)%nat with (S (count - S count0)) by lia.
      cbn [first_chars digits_from]. rewrite Hc. split; [exact Hprefix|].
      rewrite append_cons. f_equal. exact Hsplit.
    + intros [= <- <- <-]. rewrite Nat.sub_diag. auto.
Qed.

Lemma digits_from_first (s : string) (acc v : Z) (n : nat) (rest : string) :
  digits_from acc 0 s = (v, S n, rest) ->
  exists c s', s = String c s' /\ is_digit c = true.
Proof.
  destruct s as [|c s']; cbn [digits_from]; [discriminate|].
  destruct (is_digit c) eqn:Hc; [|discriminate]. intros _. exists c, s'. auto.
Qed.

Lemma append_nil_r (s : string) : s +:+ "" = s.
Proof. induction s as [|c s IH]; [reflexivity|]. rewrite append_cons, IH. reflexivity. Qed.

(** [parseInt] of a string that starts with a digit. *)
Lemma parseInt_digits (s : string) (v : Z) (n : nat) (rest : string) :
  digits_from 0 0 s = (v, S n, rest) -> JsNumber.parseInt s = JsNumber.of_Z v.
Proof.
  intros Hs. destruct (digits_from_first s 0 v n rest Hs) as (c & s' & -> & Hc).
  unfold JsNumber.parseInt.
  assert (Hskip : skip_spaces (String c s') = String c s').
  { cbn [skip_spaces].
    destruct c as [[] [] [] [] [] [] [] []]; try discriminate Hc; reflexivity. }
  rewrite Hskip.
  assert (Hsign : (match String c s' with
                   | String "-"%char s'' => (true, s'')
                   | String "+"%char s'' => (false, s'')
                   | _ => (false, String c s')
                   end) = (false, String c s')).
  { destruct c as [[] [] [] [] [] [] [] []]; try discriminate Hc; reflexivity. }
  rewrite Hsign, Hs. reflexivity.
Qed.

(** A capture of [\d+] is read by [parseInt] as the double nearest to the
    number its digits spell. *)
Lemma parseInt_capture (s : string) (v : Z) (n : nat) (rest : string) :
  digits_from 0 0 s = (v, S n, rest) ->
  JsNumber.parseInt (first_chars (S n) s) = JsNumber.of_Z v.
Proof.
  intros Hs. destruct (digits_from_prefix s 0 0 v (S n) rest Hs) as (_ & Hprefix & _).
  rewrite Nat.sub_0_r in Hprefix. exact (parseInt_digits _ _ _ _ Hprefix).
Qed.

Lemma string_length_app (a b : string) :
  String.length (a +:+ b) = (String.length a + String.length b)%nat.
Proof.
  induction a as [|c a IH]; [reflexivity|].
  rewrite append_cons. cbn [String.length]. rewrite IH. reflexivity.
Qed.

Lemma first_chars_append (a b : string) : first_chars (String.length a) (a +:+ b) = a.
Proof.
  induction a as [|c a IH]; [destruct b; reflexivity|].
  cbn [String.length]. rewrite append_cons. cbn [first_chars]. rewrite IH. reflexivity.
Qed.

(** Reading a printed integer: the digits read are all of the numeral. *)
Lemma digits_from_of_Z_length (z : Z) (rest : string) :
  0 <= z -> starts_with_digit rest = false ->
  exists n, digits_from 0 0 (of_Z z +:+ rest) = (z, S n, rest) /\
            S n = String.length (of_Z z).
Proof.
  intros Hz Hrest. destruct (digits_from_of_Z z rest Hz Hrest) as [n Hn].
  exists n. split; [exact Hn|].
  destruct (digits_from_prefix _ _ _ _ _ _ Hn) as (_ & _ & Hsplit).
  rewrite Nat.sub_0_r in Hsplit.
  assert (Hlen : String.length (of_Z z +:+ rest)
                 = String.length (first_chars (S n) (of_Z z +:+ rest) +:+ rest))
    by (rewrite <- Hsplit; reflexivity).
  rewrite !string_length_app in Hlen.
  assert (Hfirst : forall k s, (String.length (first_chars k s) <= k)%nat).
  { clear. induction k as [|k IH]; intros [|c s]; cbn; try lia.
    specialize (IH s). lia. }
  assert (Hfirst' : forall k s, (k <= String.length s)%nat ->
                                String.length (first_chars k s) = k).
  { clear. induction k as [|k IH]; intros [|c s]; cbn; try lia.
    intros H. rewrite IH; lia. }
  destruct (le_lt_dec (S n) (String.length (of_Z z +:+ rest))) as [Hle|Hgt].
  - rewrite Hfirst' in Hlen by exact Hle. lia.
  - exfalso. pose proof (Hfirst (S n) (of_Z z +:+ rest)).
    (* the count never exceeds the length of the string *)
    assert (Hcount : forall s acc c0 v c r,
               digits_from acc c0 s = (v, c, r) -> (c <= c0 + String.length s)%nat).
    { clear. induction s as [|ch s IH]; intros acc c0 v c r; cbn [digits_from].
      - intros [= <- <- <-]. cbn. lia.
      - destruct (is_digit ch).
        + intros H. apply IH in H. cbn [String.length]. lia.
        + intros [= <- <- <-]. lia. }
    apply Hcount in Hn. lia.
Qed.

Lemma of_Z_starts_with_digit (z : Z) :
  0 <= z -> exists c s, of_Z z = String c s /\ is_digit c = true.
Proof.
  intros Hz. destruct (digits_from_of_Z z "" Hz eq_refl) as [n Hn].
  rewrite append_nil_r in Hn. exact (digits_from_first _ _ _ _ _ Hn).
Qed.

(** A printed non-negative integer is read back by [parseInt]. *)
Lemma parseInt_of_Z (z : Z) : 0 <= z -> JsNumber.parseInt (of_Z z) = JsNumber.of_Z z.
Proof.
  intros Hz. destruct (digits_from_of_Z z "" Hz eq_refl) as [n Hn].
  rewrite append_nil_r in Hn. exact (parseInt_digits _ _ _ _ Hn).
Qed.

Lemma parseInt_negative (z : Z) :
  0 <= z -> JsNumber.parseInt ("-" +:+ of_Z z) = JsNumber.of_Z (- z).
Proof.
  intros Hz. destruct (digits_from_of_Z z "" Hz eq_refl) as [n Hn].
  rewrite append_nil_r in Hn. unfold JsNumber.parseInt.
  rewrite append_cons, append_nil_l. cbn [skip_spaces]. 
  change (is_space "-") with false. cbv iota. rewrite Hn. reflexivity.
Qed.

(** The integers a double holds exactly and alone print as their digits. *)
Lemma toString_integer (z : Z) :
  0 <= z < 2 ^ 53 -> JsNumber.toString (Num (inject_Z z)) = of_Z z.
Proof.
  intros Hz. unfold JsNumber.toString.
  destruct (Z.eq_dec z 0) as [->|Hz0]; [reflexivity|].
  rewrite Qeq_bool_false by (unfold Qeq; cbn; lia).
  assert (Hpos : Qle_bool 0 (inject_Z z) = true) by (apply Qle_bool_iff, inject_Z_nonneg; lia).
  rewrite Hpos. unfold JsNumber.positive_toString. cbv zeta.
  rewrite Qred_inject_Z. cbn [Qden Qnum inject_Z]. rewrite Pos.eqb_refl.
  assert (Hlt : (z <? 2 ^ 53) = true) by (apply Z.ltb_lt; lia).
  rewrite Hlt. reflexivity.
Qed.

Lemma toString_negative_integer (z : Z) :
  0 < z < 2 ^ 53 -> JsNumber.toString (Num (inject_Z (- z))) = "-" +:+ of_Z z.
Proof.
  intros Hz. unfold JsNumber.toString.
  rewrite Qeq_bool_false by (unfold Qeq; cbn; lia).
  assert (Hneg : Qle_bool 0 (inject_Z (- z)) = false).
  { destruct (Qle_bool_spec 0 (inject_Z (- z))) as [H|H]; [|reflexivity].
    unfold Qle in H. cbn in H. lia. }
  rewrite Hneg. f_equal.
  assert (Hopp : (- inject_Z (- z))%Q = inject_Z z).
  { unfold Qopp, inject_Z. cbn [Qnum Qden]. rewrite Z.opp_involutive. reflexivity. }
  rewrite Hopp. unfold JsNumber.positive_toString. cbv zeta.
  rewrite Qred_inject_Z. cbn [Qden Qnum inject_Z]. rewrite Pos.eqb_refl.
  assert (Hlt : (z <? 2 ^ 53) = true) by (apply Z.ltb_lt; lia).
  rewrite Hlt. reflexivity.
Qed.

(** A negative integer down to [-2^53] is a double, too. *)
Lemma of_Q_negative_integer (z : Z) :
  0 < z < 2 ^ 53 -> JsNumber.of_Q (inject_Z (- z)) = Num (inject_Z (- z)).
Proof.
  intros Hz. unfold JsNumber.of_Q. cbv zeta. rewrite Qred_inject_Z.
  rewrite Qeq_bool_false by (unfold Qeq; cbn; lia).
  assert (Habs : Qabs (inject_Z (- z)) = inject_Z z).
  { unfold Qabs, inject_Z. rewrite Z.abs_opp, Z.abs_eq by lia. reflexivity. }
  rewrite Habs.
  assert (Hnear : (JsNumber.nearest (inject_Z z) == inject_Z z)%Q).
  { assert (Heq : (inject_Z z == inject_Z z * 2 ^ 0)%Q) by (change (2 ^ 0)%Q with 1%Q; ring).
    transitivity (JsNumber.nearest (inject_Z z * 2 ^ 0)%Q).
    - apply nearest_comp; [apply inject_Z_pos; lia|exact Heq].
    - etransitivity; [apply nearest_exact; lia|]. symmetry. exact Heq. }
  assert (Hfin : Qle_bool (2 ^ 1024) (JsNumber.nearest (inject_Z z)) = false).
  { destruct (Qle_bool_spec (2 ^ 1024) (JsNumber.nearest (inject_Z z))) as [H|H];
      [|reflexivity].
    exfalso. pose proof (pow2_1024_large z ltac:(lia)). lra. }
  rewrite Hfin.
  assert (Hneg : Qle_bool 0 (inject_Z (- z)) = false).
  { destruct (Qle_bool_spec 0 (inject_Z (- z))) as [H|H]; [|reflexivity].
    unfold Qle in H. cbn in H. lia. }
  rewrite Hneg. f_equal. rewrite <- (Qred_inject_Z (- z)). apply Qred_complete.
  rewrite Hnear, inject_Z_opp. reflexivity.
Qed.

(** A key that spells a safe integer is read back as this integer. *)
Lemma parseInt_key_text (k : Z) :
  safe_integer k -> JsNumber.parseInt (key_text k) = Num (inject_Z k).
Proof.
  intros [Hlow Hup]. unfold key_text, JsNumber.of_Z.
  destruct (Z_lt_le_dec k 0) as [Hneg|Hpos].
  - replace k with (- (- k)) by lia.
    rewrite of_Q_negative_integer by lia. rewrite toString_negative_integer by lia.
    rewrite parseInt_negative by lia. unfold JsNumber.of_Z.
    apply of_Q_negative_integer. lia.
  - rewrite of_Q_integer by lia. rewrite toString_integer by lia.
    rewrite parseInt_of_Z by lia. unfold JsNumber.of_Z. apply of_Q_integer. lia.
Qed.

Section Amounts.

Local Open Scope Q_scope.

(** ** Sums of hours *)

(** Rounding a double gives it back. *)
Lemma of_Q_stored (r : Q) : stored r -> JsNumber.of_Q r = Num (Qred r).
Proof.
  intros (Hpos & Hfin & m & c & Hr & Hm & Hc).
  destruct (Z.eq_dec m 0%Z) as [->|Hm0].
  { rewrite (of_Q_comp r 0) by (rewrite Hr; change (inject_Z 0) with 0; ring).
    rewrite (Qred_complete r 0) by (rewrite Hr; change (inject_Z 0) with 0; ring).
    reflexivity. }
  destruct (Z.eq_dec m (2 ^ 53)%Z) as [->|Hm53].
  - assert (Heq : r == inject_Z (2 ^ 52) * 2 ^ (c + 1)).
    { rewrite Hr, pow2_succ. change (inject_Z (2 ^ 53)) with (2 * inject_Z (2 ^ 52)). ring. }
    rewrite (of_Q_comp _ _ Heq), (Qred_complete _ _ Heq).
    apply of_Q_exact; [lia|lia|]. rewrite <- Heq. exact Hfin.
  - rewrite (of_Q_comp _ _ Hr), (Qred_complete _ _ Hr).
    apply of_Q_exact; [lia|lia|]. rewrite <- Hr. exact Hfin.
Qed.

Lemma stored_Qred (r : Q) : stored r -> stored (Qred r).
Proof.
  intros (Hpos & Hfin & m & c & Hr & Hm). pose proof (Qred_correct r) as Hred.
  split; [lra|]. split; [lra|]. exists m, c. split; [rewrite Hred; exact Hr|exact Hm].
Qed.

(** Rounding a value from 0 on gives an amount. *)
Lemma of_Q_amount (q : Q) : 0 <= q -> amount (JsNumber.of_Q q).
Proof.
  intros Hq. destruct (Qeq_dec q 0) as [Hz|Hnz].
  - rewrite (of_Q_comp q 0 Hz). right. exists 0. split; [reflexivity|].
    split; [lra|]. split; [apply pow2_pos|]. exists 0%Z, 0%Z.
    split; [reflexivity|lia].
  - assert (Hpos : 0 < q) by lra.
    destruct (JsNumber.of_Q q) as [| negative |r] eqn:Hr.
    + rewrite (of_Q_positive q Hpos) in Hr.
      destruct (Qle_bool (2 ^ 1024) (JsNumber.nearest q)); discriminate.
    + rewrite (of_Q_positive q Hpos) in Hr.
      destruct (Qle_bool (2 ^ 1024) (JsNumber.nearest q)); [|discriminate].
      left. symmetry. exact Hr.
    + right. exists r. split; [reflexivity|].
      destruct (of_Q_finite q r Hpos Hr) as (Hnear & _ & Hfin).
      pose proof (nearest_nonneg q Hpos). split; [lra|]. split; [lra|].
      exact (of_Q_double q r Hpos Hr).
Qed.

Lemma add_amount (x y : number) : amount x -> amount y -> amount (JsNumber.add x y).
Proof.
  intros [->|(a & -> & Ha & _)] [->|(b & -> & Hb & _)]; cbn [JsNumber.add Bool.eqb].
  - left. reflexivity.
  - left. reflexivity.
  - left. reflexivity.
  - apply of_Q_amount. lra.
Qed.

Lemma half_amount (x : number) : amount x -> amount (JsNumber.div x (Num 2)).
Proof.
  intros [->|(a & -> & Ha & _)]; cbn [JsNumber.div].
  - left. reflexivity.
  - change (Qeq_bool 2 0) with false. cbv iota. apply of_Q_amount.
    apply Qle_shift_div_l; [reflexivity|]. lra.
Qed.

Lemma of_Z_amount (z : Z) : (0 <= z)%Z -> amount (JsNumber.of_Z z).
Proof. intros Hz. apply of_Q_amount, inject_Z_nonneg, Hz. Qed.

End Amounts.

Lemma parseInt_amount (s : string) (v : Z) (n : nat) (rest : string) :
  digits_from 0 0 s = (v, S n, rest) -> amount (JsNumber.parseInt (first_chars (S n) s)).
Proof.
  intros Hs. rewrite (parseInt_capture s v n rest Hs). apply of_Z_amount.
  pose proof (digits_from_nonneg s 0 0 (Z.le_refl 0)) as H. rewrite Hs in H. exact H.
Qed.

Lemma range_here_amount (s : string) (m : string * string) :
  range_here s = Some m ->
  amount (JsNumber.parseInt (fst m)) /\ amount (JsNumber.parseInt (snd m)).
Proof.
  unfold range_here.
  destruct (digits_from 0 0 s) as [[a count_a] rest] eqn:Ha.
  destruct count_a as [|na]; [discriminate|].
  destruct rest as [|dash rest']; [discriminate|].
  destruct (Ascii.eqb_spec dash "-"%char) as [->|Hne].
  - destruct (digits_from 0 0 rest') as [[b count_b] rest''] eqn:Hb.
    destruct count_b as [|nb]; [discriminate|]. intros [= <-]. cbn [fst snd].
    split; [exact (parseInt_amount _ _ _ _ Ha)|exact (parseInt_amount _ _ _ _ Hb)].
  - intros H. exfalso. revert H. clear - Hne.
    destruct dash as [[] [] [] [] [] [] [] []]; try discriminate. congruence.
Qed.

Lemma range_match_amount (s : string) (m : string * string) :
  range_match s = Some m ->
  amount (JsNumber.parseInt (fst m)) /\ amount (JsNumber.parseInt (snd m)).
Proof.
  induction s as [|c s IH]; cbn [range_match].
  - cbn. discriminate.
  - destruct (range_here (String c s)) as [m'|] eqn:Hhere; [|exact IH].
    intros [= <-]. exact (range_here_amount _ _ Hhere).
Qed.

Lemma midpoint_amount (s : string) (m : string * string) :
  range_match s = Some m -> amount (midpoint m).
Proof.
  intros Hm. destruct (range_match_amount s m Hm) as [Ha Hb].
  unfold midpoint. apply half_amount, add_amount; assumption.
Qed.

Lemma step_hours_amount (duration : string) : amount (step_hours duration).
Proof.
  unfold step_hours. destruct (range_match duration) as [m|] eqn:Hm.
  - exact (midpoint_amount duration m Hm).
  - change (Num 2) with (JsNumber.of_Z 2). apply of_Z_amount. lia.
Qed.

Lemma total_hours_amount (durations : list string) : amount (total_hours durations).
Proof.
  unfold total_hours.
  assert (H : forall acc, amount acc ->
                amount (foldl (fun total duration =>
                                 JsNumber.add total (step_hours duration)) acc durations)).
  { induction durations as [|d durations IH]; intros acc Hacc; [exact Hacc|].
    cbn [foldl]. apply IH, add_amount; [exact Hacc|apply step_hours_amount]. }
  apply H. change (Num 0) with (JsNumber.of_Z 0). apply of_Z_amount. lia.
Qed.

Lemma weeks_match_cons (c : ascii) (s : string) :
  weeks_match (String c s)
  = match weeks_here (String c s) with
    | Some n => Some n
    | None => weeks_match s
    end.
Proof. reflexivity. Qed.

(** ** Printed numbers *)

Lemma digits_from_uint_acc_any (d : Decimal.uint) (rest : string) :
  forall (acc : positive) (count : nat),
    digits_from (Z.pos acc) count (NilEmpty.string_of_uint d +:+ rest)
    = digits_from (Z.pos (Pos.of_uint_acc d acc)) (count + Decimal.nb_digits d)%nat rest.
Proof.
  induction d as [|d IH|d IH|d IH|d IH|d IH|d IH|d IH|d IH|d IH|d IH];
    intros acc count;
    [cbn [NilEmpty.string_of_uint Decimal.nb_digits Pos.of_uint_acc];
     rewrite append_nil_l, Nat.add_0_r; reflexivity|..];
    read_digit; rewrite <- IH; f_equal; lia.
Qed.

Lemma digits_from_uint_any (d : Decimal.uint) (rest : string) :
  forall count : nat,
    digits_from 0 count (NilEmpty.string_of_uint d +:+ rest)
    = digits_from (Z.of_N (Pos.of_uint d)) (count + Decimal.nb_digits d)%nat rest.
Proof.
  induction d as [|d IH|d IH|d IH|d IH|d IH|d IH|d IH|d IH|d IH|d IH];
    intros count;
    [cbn [NilEmpty.string_of_uint Decimal.nb_digits Pos.of_uint];
     rewrite append_nil_l, Nat.add_0_r; reflexivity
    |read_digit; apply IH
    |read_digit; cbn [Z.of_N];
     rewrite <- (digits_from_uint_acc_any d rest); reflexivity ..].
Qed.

(** Reading a printed integer and going on with what follows it. *)
Lemma digits_from_of_Z_any (z : Z) (rest : string) :
  0 <= z ->
  exists n, digits_from 0 0 (of_Z z +:+ rest) = digits_from z (S n) rest.
Proof.
  intros Hz. destruct (of_Z_numeral z Hz) as [d [-> [Hvalue Hdigits]]].
  rewrite (digits_from_uint_any d rest), Hvalue. cbn [Nat.add].
  destruct (Decimal.nb_digits d) as [|n]; [lia|]. exists n. reflexivity.
Qed.

Lemma digits_from_zeros (m : nat) (rest : string) :
  starts_with_digit rest = false ->
  forall (acc : Z) (count : nat),
    digits_from acc count (zeros m +:+ rest)
    = (acc * 10 ^ Z.of_nat m, (count + m)%nat, rest).
Proof.
  intros Hrest. induction m as [|m IH]; intros acc count.
  - cbn [zeros]. rewrite append_nil_l, Nat.add_0_r, Z.mul_1_r.
    apply digits_from_stop. exact Hrest.
  - cbn [zeros]. rewrite append_cons, digits_from_digit by reflexivity.
    change (Z.of_N (N_of_ascii "0") - 48) with 0. rewrite IH.
    rewrite Nat2Z.inj_succ, Z.pow_succ_r by lia. f_equal. f_equal; lia.
Qed.

Lemma all_digits_app (a b : string) :
  all_digits (a +:+ b) = all_digits a && all_digits b.
Proof.
  induction a as [|c a IH]; [reflexivity|].
  rewrite append_cons. cbn [all_digits]. rewrite IH, andb_assoc. reflexivity.
Qed.

Lemma all_digits_uint (d : Decimal.uint) : all_digits (NilEmpty.string_of_uint d) = true.
Proof. induction d; cbn [NilEmpty.string_of_uint all_digits]; try exact IHd; reflexivity. Qed.

Lemma all_digits_of_Z (z : Z) : 0 <= z -> all_digits (of_Z z) = true.
Proof. intros Hz. destruct (of_Z_numeral z Hz) as [d [-> _]]. apply all_digits_uint. Qed.

Lemma all_digits_first_chars (n : nat) (s : string) :
  all_digits s = true -> all_digits (first_chars n s) = true.
Proof.
  revert s. induction n as [|n IH]; intros [|c s]; cbn [first_chars all_digits]; auto.
  intros H. apply andb_true_iff in H. destruct H as [Hc Hs]. rewrite Hc. apply IH, Hs.
Qed.

Lemma all_digits_skip_chars (n : nat) (s : string) :
  all_digits s = true -> all_digits (skip_chars n s) = true.
Proof.
  revert s. induction n as [|n IH]; intros [|c s]; cbn [skip_chars all_digits]; auto.
  intros H. apply andb_true_iff in H. destruct H as [Hc Hs]. apply IH, Hs.
Qed.

(** Digits are read to their end. *)
Lemma digits_from_all_digits (x rest : string) :
  all_digits x = true -> starts_with_digit rest = false ->
  forall (acc : Z) (count : nat),
    exists v, digits_from acc count (x +:+ rest)
              = (v, (count + String.length x)%nat, rest).
Proof.
  intros Hx Hrest. induction x as [|c x IH]; intros acc count.
  - exists acc. rewrite append_nil_l. cbn [String.length]. rewrite Nat.add_0_r.
    apply digits_from_stop, Hrest.
  - cbn [all_digits] in Hx. apply andb_true_iff in Hx. destruct Hx as [Hc Hx].
    rewrite append_cons, digits_from_digit by exact Hc.
    destruct (IH Hx (10 * acc + (Z.of_N (N_of_ascii c) - 48)) (S count)) as [v Hv].
    exists v. rewrite Hv. cbn [String.length]. f_equal. f_equal. lia.
Qed.

(** No number of weeks is found in digits followed by something else than
    blanks and [weeks]. *)
Lemma weeks_match_digits (x rest : string) :
  all_digits x = true -> starts_with_digit rest = false ->
  startsWith (skip_spaces rest) "weeks" = false ->
  weeks_match (x +:+ rest) = weeks_match rest.
Proof.
  intros Hx Hrest Hweeks. induction x as [|c x IH]; [reflexivity|].
  rewrite append_cons, weeks_match_cons, <- append_cons.
  assert (Hhere : weeks_here (String c x +:+ rest) = None).
  { unfold weeks_here.
    destruct (digits_from_all_digits (String c x) rest Hx Hrest 0 0%nat) as [v ->].
    rewrite Hweeks. destruct (0 + String.length (String c x))%nat; reflexivity. }
  rewrite Hhere. apply IH. cbn [all_digits] in Hx. apply andb_true_iff in Hx. apply Hx.
Qed.

(** A number of weeks is found in digits followed by [ weeks]: all of them. *)
Lemma weeks_match_here (x : string) :
  all_digits x = true -> x <> "" -> weeks_match (x +:+ " weeks") = Some x.
Proof.
  intros Hx Hne.
  assert (Hhere : weeks_here (x +:+ " weeks") = Some x).
  { unfold weeks_here.
    destruct (digits_from_all_digits x " weeks" Hx eq_refl 0 0%nat) as [v ->].
    cbn [Nat.add]. destruct x as [|c x]; [congruence|]. cbn [String.length].
    change (startsWith (skip_spaces " weeks") "weeks") with true. cbv iota.
    change (S (String.length x)) with (String.length (String c x)).
    rewrite first_chars_append. reflexivity. }
  destruct x as [|c x]; [congruence|]. rewrite append_cons, weeks_match_cons.
  rewrite <- append_cons, Hhere. reflexivity.
Qed.

Lemma string_app_assoc (a b c : string) : (a +:+ b) +:+ c = a +:+ (b +:+ c).
Proof.
  induction a as [|x a IH]; [reflexivity|]. rewrite !append_cons, IH. reflexivity.
Qed.

Lemma all_digits_zeros (m : nat) : all_digits (zeros m) = true.
Proof. induction m as [|m IH]; [reflexivity|exact IH]. Qed.

Lemma of_Z_nonempty (z : Z) : 0 <= z -> of_Z z <> "".
Proof.
  intros Hz H. destruct (of_Z_starts_with_digit z Hz) as (c & s & Heq & _). congruence.
Qed.

Section Printing.

Local Open Scope Q_scope.

Lemma pow10_pos (n : Z) : 0 < JsNumber.pow10 n.
Proof. apply Qpower_0_lt. reflexivity. Qed.

Lemma pow10_Z (n : Z) : (0 <= n)%Z -> JsNumber.pow10 n == inject_Z (10 ^ n).
Proof. intros H. unfold JsNumber.pow10. rewrite (Zpower_Qpower 10 n H). reflexivity. Qed.

Lemma pow10_succ (n : Z) : JsNumber.pow10 (n + 1) == 10 * JsNumber.pow10 n.
Proof.
  unfold JsNumber.pow10. rewrite Qpower_plus by discriminate. change (10 ^ 1) with 10. ring.
Qed.

Lemma reads_back_spec (q : Q) (s : Z) (scale : Q) :
  JsNumber.reads_back q s scale = true ->
  exists r, JsNumber.of_Q (inject_Z s * scale) = Num r /\ r == q.
Proof.
  unfold JsNumber.reads_back. destruct (JsNumber.of_Q (inject_Z s * scale)) as [| |r];
    try discriminate.
  intros H. exists r. split; [reflexivity|]. apply Qeq_bool_eq, H.
Qed.

Lemma Qfloor_nonneg (x : Q) : 0 <= x -> (0 <= Qfloor x)%Z.
Proof. intros H. change 0%Z with (Qfloor 0). apply Qfloor_resp_le, H. Qed.

(** The digits the search returns read back as the number, and do not
    start with a zero. *)
Lemma digits_of_length_Some (q : Q) (n k s : Z) :
  0 < q -> JsNumber.digits_of_length q n k = Some s ->
  JsNumber.reads_back q s (JsNumber.pow10 (n - k)) = true /\ (1 <= s)%Z.
Proof.
  intros Hq. unfold JsNumber.digits_of_length. cbv zeta.
  set (scale := JsNumber.pow10 (n - k)). set (low := Qfloor (q / scale)).
  assert (Hlow : (0 <= low)%Z).
  { apply Qfloor_nonneg. apply Qlt_le_weak, Qlt_shift_div_l; [apply pow10_pos|lra]. }
  assert (Hzero : JsNumber.reads_back q low scale = true -> (1 <= low)%Z).
  { intros H. destruct (Z.eq_dec low 0%Z) as [Hz|]; [|lia]. exfalso.
    rewrite Hz in H. apply reads_back_spec in H. destruct H as (r & Hr & Heq).
    rewrite (of_Q_comp _ 0) in Hr by (change (inject_Z 0) with 0; ring).
    injection Hr as <-. lra. }
  destruct (JsNumber.reads_back q low scale) eqn:Elow;
    destruct (JsNumber.reads_back q (low + 1) scale) eqn:Ehigh.
  - destruct (q - inject_Z low * scale ?= inject_Z (low + 1) * scale - q).
    + destruct (Z.even low); intros [= <-]; auto. split; [exact Ehigh|lia].
    + intros [= <-]. auto.
    + intros [= <-]. split; [exact Ehigh|lia].
  - intros [= <-]. auto.
  - intros [= <-]. split; [exact Ehigh|lia].
  - discriminate.
Qed.

(** The search stops at the first number of digits that can tell the number
    from the other doubles. *)
Lemma shortest_digits_found (q : Q) (n : Z) :
  forall (fuel : nat) (k : Z) (j : nat),
    (j < fuel)%nat -> JsNumber.digits_of_length q n (k + Z.of_nat j) <> None ->
    exists (s : Z) (j' : nat),
      JsNumber.shortest_digits fuel q n k = (s, (k + Z.of_nat j')%Z) /\
      JsNumber.digits_of_length q n (k + Z.of_nat j') = Some s /\ (j' <= j)%nat.
Proof.
  induction fuel as [|fuel IH]; intros k j Hj Hsome; [lia|].
  cbn [JsNumber.shortest_digits].
  destruct (JsNumber.digits_of_length q n k) as [s|] eqn:E.
  - exists s, 0%nat. rewrite Z.add_0_r. split; [reflexivity|]. split; [exact E|lia].
  - destruct j as [|j]; [rewrite Z.add_0_r in Hsome; congruence|].
    destruct (IH (k + 1)%Z j) as (s & j' & Hs & Hd & Hle); [lia| |].
    + replace (k + 1 + Z.of_nat j)%Z with (k + Z.of_nat (S j))%Z by lia. exact Hsome.
    + exists s, (S j'). replace (k + Z.of_nat (S j'))%Z with (k + 1 + Z.of_nat j')%Z by lia.
      split; [exact Hs|]. split; [exact Hd|lia].
Qed.

Lemma decade_integer (z : Z) :
  (1 <= z)%Z ->
  JsNumber.decade (inject_Z z) = Z.of_nat (String.length (of_Z z)) /\
  (1 <= JsNumber.decade (inject_Z z))%Z.
Proof.
  intros Hz. unfold JsNumber.decade.
  assert (H1 : Qle_bool 1 (inject_Z z) = true).
  { apply Qle_bool_iff. change 1 with (inject_Z 1). rewrite <- Zle_Qle. exact Hz. }
  rewrite H1, Qfloor_Z. split; [reflexivity|].
  destruct (of_Z_starts_with_digit z) as (c & s & -> & _); [lia|]. cbn [String.length]. lia.
Qed.

(** With as many digits as the integer has, the integer itself reads back. *)
Lemma digits_of_length_integer (z n : Z) :
  stored (inject_Z z) -> JsNumber.digits_of_length (inject_Z z) n n <> None.
Proof.
  intros Hz. unfold JsNumber.digits_of_length. cbv zeta. rewrite Z.sub_diag.
  change (JsNumber.pow10 0) with 1.
  assert (Hlow : Qfloor (inject_Z z / 1) = z).
  { rewrite (Qfloor_comp _ (inject_Z z)) by (field). apply Qfloor_Z. }
  rewrite Hlow.
  assert (Hback : JsNumber.reads_back (inject_Z z) z 1 = true).
  { unfold JsNumber.reads_back.
    rewrite (of_Q_comp _ (inject_Z z)) by ring.
    rewrite (of_Q_stored _ Hz), Qred_inject_Z. apply Qeq_bool_refl. }
  rewrite Hback.
  destruct (JsNumber.reads_back (inject_Z z) (z + 1) 1); [|discriminate].
  destruct (_ ?= _); [destruct (Z.even z)| |]; discriminate.
Qed.

Lemma gtb_4 (x : number) :
  JsNumber.leb (Num 5) x = true -> JsNumber.gtb x (Num 4) = true.
Proof.
  unfold JsNumber.gtb. destruct x as [|negative|r]; cbn [JsNumber.leb JsNumber.ltb].
  - discriminate.
  - auto.
  - intros H. apply Qle_bool_iff in H.
    destruct (Qle_bool_spec r 4) as [H'|H']; [exfalso; lra|reflexivity].
Qed.

(** The layout of the digits [s], their number [k] and the exponent [n] of
    an integer of at least as many digits: followed by [ weeks], a number of
    weeks is found in it, and [parseInt] reads more than 4. *)
Lemma layout_weeks (s k n : Z) (r : Q) :
  (1 <= s)%Z -> (1 <= k <= n)%Z ->
  JsNumber.of_Q (inject_Z s * JsNumber.pow10 (n - k)) = Num r -> 5 <= r ->
  let digits := of_Z s in
  let text :=
    if ((k <=? n) && (n <=? 21))%Z%bool
    then digits +:+ zeros (Z.to_nat (n - k))
    else if ((0 <? n) && (n <=? 21))%Z%bool
    then first_chars (Z.to_nat n) digits +:+ "." +:+ skip_chars (Z.to_nat n) digits
    else if ((-6 <? n) && (n <=? 0))%Z%bool
    then "0." +:+ zeros (Z.to_nat (- n)) +:+ digits
    else
      let e := (n - 1)%Z in
      let exp := (if (e <? 0)%Z then "e-" else "e+") +:+ of_Z (Z.abs e) in
      if (k =? 1)%Z then digits +:+ exp
      else first_chars 1 digits +:+ "." +:+ skip_chars 1 digits +:+ exp in
  exists capture,
    weeks_match (text +:+ " weeks") = Some capture /\
    JsNumber.gtb (JsNumber.parseInt capture) (Num 4) = true.
Proof.
  intros Hs Hk Hr Hr5 digits text. subst text.
  assert (Hdigits : all_digits digits = true) by (apply all_digits_of_Z; lia).
  assert (Hkn : (k <=? n)%Z = true) by (apply Z.leb_le; lia). rewrite Hkn. cbn [andb].
  destruct (n <=? 21)%Z eqn:Hn.
  - (* decimal notation *)
    set (m := Z.to_nat (n - k)).
    exists (digits +:+ zeros m). split.
    + apply weeks_match_here.
      * rewrite all_digits_app, Hdigits, all_digits_zeros. reflexivity.
      * intros H. destruct (of_Z_starts_with_digit s) as (c & s' & Heq & _); [lia|].
        fold digits in Heq. rewrite Heq, append_cons in H. discriminate.
    + destruct (digits_from_of_Z_any s (zeros m +:+ "")) as [n' Hn']; [lia|].
      rewrite digits_from_zeros in Hn' by reflexivity. rewrite append_nil_r in Hn'.
      fold digits in Hn'. change (S n' + m)%nat with (S (n' + m)) in Hn'.
      rewrite (parseInt_digits _ _ _ _ Hn'). unfold JsNumber.of_Z.
      rewrite (of_Q_comp _ (inject_Z s * JsNumber.pow10 (n - k))).
      * rewrite Hr. apply gtb_4. cbn [JsNumber.leb]. apply Qle_bool_iff, Hr5.
      * rewrite inject_Z_mult, pow10_Z by lia. subst m. rewrite Z2Nat.id by lia.
        reflexivity.
  - (* exponent notation *)
    apply Z.leb_gt in Hn. rewrite andb_false_r.
    assert (Hn0 : (n <=? 0)%Z = false) by (apply Z.leb_gt; lia). rewrite Hn0, andb_false_r.
    cbv zeta.
    assert (He : (n - 1 <? 0)%Z = false) by (apply Z.ltb_ge; lia). rewrite He.
    rewrite Z.abs_eq by lia.
    set (e := of_Z (n - 1)).
    assert (Hexp : weeks_match (("e+" +:+ e) +:+ " weeks") = Some e).
    { rewrite string_app_assoc. rewrite !append_cons, append_nil_l.
      rewrite weeks_match_cons. change (weeks_here (String "e" _)) with (@None string).
      cbv iota. rewrite weeks_match_cons.
      change (weeks_here (String "+" _)) with (@None string). cbv iota.
      apply weeks_match_here; [apply all_digits_of_Z; lia|apply of_Z_nonempty; lia]. }
    assert (Hskip : forall x, all_digits x = true ->
              weeks_match (x +:+ (("e+" +:+ e) +:+ " weeks"))
              = weeks_match (("e+" +:+ e) +:+ " weeks")).
    { intros x Hx. apply weeks_match_digits; [exact Hx|reflexivity|reflexivity]. }
    exists e. split.
    + destruct (k =? 1)%Z.
      * rewrite string_app_assoc, Hskip by exact Hdigits. exact Hexp.
      * rewrite !string_app_assoc.
        rewrite weeks_match_digits;
          [|apply all_digits_first_chars; exact Hdigits|reflexivity|reflexivity].
        rewrite append_cons, append_nil_l, weeks_match_cons.
        change (weeks_here (String "." _)) with (@None string). cbv iota.
        rewrite Hskip by (apply all_digits_skip_chars; exact Hdigits). exact Hexp.
    + subst e. rewrite parseInt_of_Z by lia. unfold JsNumber.of_Z. apply gtb_4.
      change (Num 5) with (JsNumber.of_Q 5). apply of_Q_leb; [reflexivity|].
      change 5 with (inject_Z 5). rewrite <- Zle_Qle. lia.
Qed.

(** An integer from [2^53] on that is a double, printed and followed by
    [ weeks]. *)
Lemma weeks_printed_large (z : Z) :
  stored (inject_Z z) -> (2 ^ 53 <= z)%Z ->
  exists capture,
    weeks_match (JsNumber.positive_toString (inject_Z z) +:+ " weeks") = Some capture /\
    JsNumber.gtb (JsNumber.parseInt capture) (Num 4) = true.
Proof.
  intros Hstored Hz. unfold JsNumber.positive_toString. cbv zeta.
  rewrite Qred_inject_Z. cbn [Qden Qnum inject_Z]. rewrite Pos.eqb_refl.
  assert (Hbig : (z <? 2 ^ 53)%Z = false) by (apply Z.ltb_ge; exact Hz).
  rewrite Hbig. cbn [andb]. fold (inject_Z z).
  destruct (decade_integer z) as [_ Hn0]; [lia|].
  set (n0 := JsNumber.decade (inject_Z z)) in *.
  assert (Hq : 0 < inject_Z z) by (apply inject_Z_pos; lia).
  destruct (shortest_digits_found (inject_Z z) n0 (17 + Z.to_nat n0) 1 (Z.to_nat n0 - 1))
    as (s0 & j' & Hsearch & Hsome & Hj'); [lia| |].
  { replace (1 + Z.of_nat (Z.to_nat n0 - 1))%Z with n0 by lia.
    apply digits_of_length_integer, Hstored. }
  rewrite Hsearch.
  set (k := (1 + Z.of_nat j')%Z) in *.
  assert (Hk : (1 <= k <= n0)%Z) by lia.
  destruct (digits_of_length_Some _ _ _ _ Hq Hsome) as [Hback Hs0].
  destruct (reads_back_spec _ _ _ Hback) as (r & Hr & Hrq).
  assert (Hr5 : 5 <= r).
  { rewrite Hrq. change 5 with (inject_Z 5). rewrite <- Zle_Qle. lia. }
  destruct (s0 =? 10 ^ k)%Z eqn:Hten.
  - apply Z.eqb_eq in Hten.
    apply (layout_weeks (10 ^ (k - 1)) k (n0 + 1) r); [lia|lia| |exact Hr5].
    rewrite <- Hr. apply of_Q_comp. rewrite Hten.
    replace (n0 + 1 - k)%Z with (n0 - k + 1)%Z by lia. rewrite pow10_succ.
    replace k with (k - 1 + 1)%Z at 3 by lia. rewrite Z.pow_add_r by lia.
    rewrite inject_Z_mult. change (inject_Z (10 ^ 1)) with 10. ring.
  - apply (layout_weeks s0 k n0 r); [exact Hs0|exact Hk|exact Hr|exact Hr5].
Qed.

End Printing.

(** A finite number of weeks from 5 on is read back as more than 4 weeks. *)
Lemma weeks_printed (z : Z) :
  stored (inject_Z z) -> 5 <= z ->
  exists capture,
    weeks_match (JsNumber.toString (Num (inject_Z z)) +:+ " weeks") = Some capture /\
    JsNumber.gtb (JsNumber.parseInt capture) (Num 4) = true.
Proof.
  intros Hstored Hz. destruct (Z_lt_le_dec z (2 ^ 53)) as [Hsmall|Hlarge].
  - rewrite toString_integer by lia. exists (of_Z z). split.
    + apply weeks_match_here; [apply all_digits_of_Z; lia|apply of_Z_nonempty; lia].
    + rewrite parseInt_of_Z by lia. unfold JsNumber.of_Z. rewrite of_Q_integer by lia.
      apply gtb_4. cbn [JsNumber.leb]. apply Qle_bool_iff.
      change 5%Q with (inject_Z 5). rewrite <- Zle_Qle. exact Hz.
  - unfold JsNumber.toString.
    rewrite Qeq_bool_false by (unfold Qeq; cbn; lia).
    assert (Hpos : Qle_bool 0 (inject_Z z) = true)
      by (apply Qle_bool_iff, inject_Z_nonneg; lia).
    rewrite Hpos. apply weeks_printed_large; assumption.
Qed.

(** A number of weeks up to 4 is read back as it is. *)
Lemma weeks_printed_few (z : Z) :
  0 <= z <= 4 ->
  weeks_match (JsNumber.toString (Num (inject_Z z)) +:+ " weeks") = Some (of_Z z) /\
  JsNumber.gtb (JsNumber.parseInt (of_Z z)) (Num 4) = false.
Proof.
  intros Hz. rewrite toString_integer by lia. split.
  - apply weeks_match_here; [apply all_digits_of_Z; lia|apply of_Z_nonempty; lia].
  - rewrite parseInt_of_Z by lia. unfold JsNumber.of_Z. rewrite of_Q_integer by lia.
    unfold JsNumber.gtb. cbn [JsNumber.ltb].
    assert (H : Qle_bool (inject_Z z) 4 = true).
    { apply Qle_bool_iff. change 4%Q with (inject_Z 4). rewrite <- Zle_Qle. lia. }
    rewrite H. reflexivity.
Qed.

(** ** The entry point: exceptions *)

Lemma agent_log (line : string) (w : world) : agent (log line w) = agent w.
Proof. reflexivity. Qed.

(** A plan that is neither [undefined] nor [null] always yields a resolved
    promise: a full result, or the two fallback findings and nothing else. *)
Lemma validatePlan_resolves (w : world) (task : string) (plan : plan_value) :
  plan <> PlanUndefined -> plan <> PlanNull ->
  exists r, snd (validatePlan w task plan) = Resolved r /\
    match r with
    | Success _ _ _ _ => evaluate (agent w) task plan = Ok r
    | Failure _ validations => validations = getFallbackValidations
    end.
Proof.
  intros Hplan Hnull. unfold validatePlan.
  destruct plan as [| |length_text|steps]; [congruence|congruence| |];
    cbn [plan_length]; rewrite agent_log.
  - destruct (evaluate (agent w) task (PlanOther length_text)) as [r|e] eqn:E.
    + exists r. split; [reflexivity|].
      unfold evaluate in E. destruct (validationRules (agent w)); cbn in E.
      * inversion E; subst. reflexivity.
      * discriminate.
    + eexists. split; reflexivity.
  - destruct (evaluate (agent w) task (PlanArray steps)) as [r|e] eqn:E.
    + exists r. split; [reflexivity|].
      unfold evaluate in E |- *.
      destruct (forEach _ _ _ _) as [validations|]; cbn in E |- *; [|discriminate].
      inversion E; subst. reflexivity.
    + eexists. split; reflexivity.
Qed.

(** C2: an exception raised inside the evaluation is turned into the
    fallback result, but reading [plan.length] happens before the [try]
    block: on an [undefined] plan the call rejects, the exception reaches
    the caller and no fallback result is produced. *)
Theorem validatePlan_undefined_plan_rejects (w : world) (task : string) :
  validatePlan w task PlanUndefined
  = (w, Rejected "Cannot read properties of undefined (reading 'length')").
Proof. reflexivity. Qed.

(** ** Cycle detection on the two hand-built graphs *)

(** C3: for steps 1 and 2 depending on each other, exactly one cycle is
    reported and it contains both ids; for step 2 depending on step 1 alone,
    no cycle is reported.  In both cases the traversal finishes within the
    fuel it is given. *)
Theorem detectCircularDependencies_examples :
  let mutual := buildDependencyGraph [bare_step 1 [2]; bare_step 2 [1]] in
  let chain := buildDependencyGraph [bare_step 1 []; bare_step 2 [1]] in
  (exists cycle,
      detectCircularDependencies_fuel 3 mutual = Some [cycle] /\
      detectCircularDependencies mutual = [cycle] /\
      1 ∈ map property cycle /\ 2 ∈ map property cycle)
  /\ detectCircularDependencies_fuel 3 chain = Some []
  /\ detectCircularDependencies chain = [].
Proof.
  cbv zeta. split; [exists [KeyStr 1; KeyNum 2; KeyNum 1]|].
  - repeat split; try (vm_compute; reflexivity).
    + apply list_elem_of_In. vm_compute. auto.
    + apply list_elem_of_In. vm_compute. auto.
  - split; vm_compute; reflexivity.
Qed.

(** ** The mitigation score *)

Lemma mitigation_points_range (step : Step.t) : 0 <= mitigation_points step <= 45.
Proof.
  unfold mitigation_points.
  repeat match goal with |- context [if ?b then _ else _] => destruct b end; lia.
Qed.

Lemma total_mitigation_points_range (plan : list Step.t) :
  0 <= total_mitigation_points plan <= 45 * Z.of_nat (length plan).
Proof.
  induction plan as [|step plan IH]; [cbn; lia|].
  change (total_mitigation_points (step :: plan))
    with (mitigation_points step + total_mitigation_points plan).
  pose proof (mitigation_points_range step). cbn [length]. lia.
Qed.

(** The two sums stay below [2^53] on any array: the additions are exact. *)
Lemma mitigation_fold (plan : list Step.t) (score factors : Z) :
  0 <= score -> 0 <= factors ->
  score + 45 * Z.of_nat (length plan) <= 2 ^ 53 ->
  factors + 3 * Z.of_nat (length plan) <= 2 ^ 53 ->
  foldl (fun '(mitigationScore, totalFactors) step =>
           let mitigationScore :=
             if mentions_mitigation step
             then JsNumber.add mitigationScore (Num 20) else mitigationScore in
           let mitigationScore :=
             if names_backup step
             then JsNumber.add mitigationScore (Num 15) else mitigationScore in
           let mitigationScore :=
             if few_dependencies step
             then JsNumber.add mitigationScore (Num 10) else mitigationScore in
           (mitigationScore, JsNumber.add totalFactors (Num 3)))
        (Num (inject_Z score), Num (inject_Z factors)) plan
  = (Num (inject_Z (score + total_mitigation_points plan)),
     Num (inject_Z (factors + 3 * Z.of_nat (length plan)))).
Proof.
  revert score factors. induction plan as [|step plan IH]; intros score factors Hs Hf Hsb Hfb.
  - cbn. rewrite !Z.add_0_r. reflexivity.
  - cbn [foldl]. cbn [length] in Hsb, Hfb.
    change (total_mitigation_points (step :: plan))
      with (mitigation_points step + total_mitigation_points plan).
    pose proof (mitigation_points_range step) as Hrange.
    assert (Hstep :
      (let mitigationScore :=
         if mentions_mitigation step
         then JsNumber.add (Num (inject_Z score)) (Num 20) else Num (inject_Z score) in
       let mitigationScore :=
         if names_backup step
         then JsNumber.add mitigationScore (Num 15) else mitigationScore in
       if few_dependencies step
       then JsNumber.add mitigationScore (Num 10) else mitigationScore)
      = Num (inject_Z (score + mitigation_points step))).
    { unfold mitigation_points in *. cbv zeta.
      change (Num 20) with (Num (inject_Z 20)). change (Num 15) with (Num (inject_Z 15)).
      change (Num 10) with (Num (inject_Z 10)).
      destruct (mentions_mitigation step), (names_backup step), (few_dependencies step);
        rewrite ?add_integers by lia; f_equal; f_equal; lia. }
    cbv zeta in Hstep |- *. rewrite Hstep.
    change (Num 3) with (Num (inject_Z 3)). rewrite add_integers by lia.
    rewrite IH by lia. cbn [length]. f_equal; f_equal; f_equal; lia.
Qed.

(** The sums the ratio is formed of. *)
Lemma assessRiskMitigation_ratio (plan : list Step.t) :
  Z.of_nat (length plan) < 2 ^ 32 ->
  assessRiskMitigation plan
  = JsNumber.Math_min (Num 100)
      (JsNumber.Math_round
         (JsNumber.mul
            (JsNumber.div (Num (inject_Z (total_mitigation_points plan)))
               (Num (inject_Z (3 * Z.of_nat (length plan) * 10))))
            (Num 100))).
Proof.
  intros Hlen. pose proof (total_mitigation_points_range plan) as Hpoints.
  unfold assessRiskMitigation.
  change (Num 0, Num 0) with (Num (inject_Z 0), Num (inject_Z 0)).
  rewrite mitigation_fold by lia. rewrite !Z.add_0_l.
  change (Num 10) with (Num (inject_Z 10)).
  assert (Hmul : JsNumber.mul (Num (inject_Z (3 * Z.of_nat (length plan))))
                   (Num (inject_Z 10))
                 = Num (inject_Z (3 * Z.of_nat (length plan) * 10))).
  { cbn [JsNumber.mul]. rewrite <- inject_Z_mult. apply of_Q_integer. lia. }
  rewrite Hmul. reflexivity.
Qed.

(** On a plan with at least one step the score is an integer from 0 to 100:
    the smaller of 100 and an integer nearest to the ratio, in percent, of
    the accumulated points to [3 * stepCount * 10].  It is the ratio rounded
    half up unless the ratio lies halfway between two integers, where the
    rounding of the quotient and of the product decides: 345 points over 20
    steps are 57.5 percent and score 57. *)
Lemma assessRiskMitigation_nonempty (plan : list Step.t) :
  plan <> [] -> Z.of_nat (length plan) < 2 ^ 32 ->
  let points := total_mitigation_points plan in
  let stepCount := Z.of_nat (length plan) in
  let ratio := (100 * inject_Z points / inject_Z (3 * stepCount * 10))%Q in
  exists score nearest : Z,
    assessRiskMitigation plan = Num (inject_Z score) /\
    0 <= score <= 100 /\
    score = Z.min 100 nearest /\
    (inject_Z nearest - (1 # 2) <= ratio <= inject_Z nearest + (1 # 2))%Q /\
    ((200 * points + 3 * stepCount * 10) mod (2 * (3 * stepCount * 10)) <> 0 ->
     nearest = JsNumber.round_half_up ratio).
Proof.
  intros Hne Hlen points stepCount ratio.
  assert (Hcount : 0 < stepCount).
  { subst stepCount. destruct plan; [congruence|cbn [length]; lia]. }
  pose proof (total_mitigation_points_range plan) as Hpoints. fold points stepCount in Hpoints.
  rewrite (assessRiskMitigation_ratio plan Hlen). fold points stepCount.
  destruct (percentage_rounded (inject_Z points) (inject_Z (3 * stepCount * 10))
              points (3 * stepCount * 10)) as (z & Hz & Hnear & Hexact);
    [lia|lia| |reflexivity|].
  { intros H. unfold Qeq in H. cbn in H. lia. }
  rewrite Hz.
  assert (Hz0 : 0 <= z).
  { assert (inject_Z (-1) < inject_Z z)%Q as H; [|rewrite <- Zlt_Qlt in H; lia].
    change (inject_Z (-1)) with (-1)%Q.
    assert (0 <= 100 * inject_Z points / inject_Z (3 * stepCount * 10))%Q; [|lra].
    apply Qle_shift_div_l; [apply inject_Z_pos; lia|]. rewrite Qmult_0_l.
    apply Qmult_le_0_compat; [discriminate|apply inject_Z_nonneg; lia]. }
  exists (Z.min 100 z), z. split; [|split; [lia|split; [reflexivity|split; [exact Hnear|]]]].
  - unfold JsNumber.Math_min. cbn [JsNumber.leb].
    destruct (Qle_bool_spec 100 (inject_Z z)) as [H|H].
    + change 100%Q with (inject_Z 100) in H. rewrite <- Zle_Qle in H.
      rewrite Z.min_l by lia. reflexivity.
    + apply Qnot_le_lt in H. change 100%Q with (inject_Z 100) in H.
      rewrite <- Zlt_Qlt in H. rewrite Z.min_r by lia. reflexivity.
  - intros Htie. rewrite (Hexact Htie). symmetry.
    rewrite (round_percentage (2 * points) (3 * stepCount * 10) ratio); [f_equal; lia|lia|].
    unfold ratio. rewrite (inject_Z_mult 2 points). change (inject_Z 2) with 2%Q. field.
    intros H. unfold Qeq in H. cbn in H. lia.
Qed.

(** 345 points over 20 steps. *)
Example assessRiskMitigation_rounded :
  JsNumber.Math_min (Num 100)
    (JsNumber.Math_round (JsNumber.mul (JsNumber.div (Num 345) (Num 600)) (Num 100)))
  = Num 57.
Proof. vm_compute. reflexivity. Qed.

(** C4: on the plan without steps both the points and the maximum are 0,
    so the ratio is 0/0 and the score is [NaN], not an integer between 0 and
    100. *)
Theorem assessRiskMitigation_empty_plan : assessRiskMitigation [] = NaN.
Proof. reflexivity. Qed.

(** ** Strings: occurrence and lower case *)

Lemma startsWith_spec (s t : string) :
  startsWith s t = true <-> exists b, s = t +:+ b.
Proof.
  revert s. induction t as [|c t IH]; intros s; cbn.
  - split; [intros _; exists s; reflexivity|reflexivity].
  - destruct s as [|d s]; cbn.
    + split; [discriminate|intros [b Hb]; discriminate].
    + destruct (Ascii.eqb_spec c d) as [->|Hne].
      * rewrite IH. split; intros [b Hb]; exists b; [rewrite Hb; reflexivity|].
        inversion Hb; reflexivity.
      * split; [discriminate|intros [b Hb]; inversion Hb; congruence].
Qed.

Lemma includes_spec (s t : string) : includes s t = true <-> occurs_in t s.
Proof.
  unfold occurs_in. induction s as [|c s IH].
  - cbn. rewrite orb_false_r, startsWith_spec. split.
    + intros [b Hb]. exists "", b. exact Hb.
    + intros [a [b Hab]]. destruct a; [exists b; exact Hab|discriminate].
  - cbn [includes]. rewrite orb_true_iff, IH, startsWith_spec. split.
    + intros [[b Hb]|[a [b Hab]]].
      * exists "", b. exact Hb.
      * exists (String c a), b. cbn. rewrite Hab. reflexivity.
    + intros [a [b Hab]]. destruct a as [|c' a].
      * left. exists b. exact Hab.
      * right. cbn in Hab. inversion Hab. exists a, b. reflexivity.
Qed.

Lemma append_assoc (a b c : string) : (a +:+ b) +:+ c = a +:+ b +:+ c.
Proof.
  induction a as [|x a IH]; [reflexivity|].
  change (String x ((a +:+ b) +:+ c) = String x (a +:+ b +:+ c)).
  rewrite IH. reflexivity.
Qed.

Lemma toLowerCase_app (a b : string) :
  toLowerCase (a +:+ b) = toLowerCase a +:+ toLowerCase b.
Proof. induction a as [|c a IH]; simpl; [reflexivity|rewrite IH; reflexivity]. Qed.

Lemma occurs_in_lower (t s : string) :
  occurs_in t s -> occurs_in (toLowerCase t) (toLowerCase s).
Proof.
  intros [a [b ->]]. exists (toLowerCase a), (toLowerCase b).
  rewrite !toLowerCase_app. reflexivity.
Qed.

Lemma occurs_in_app_r (t a s : string) : occurs_in t s -> occurs_in t (a +:+ s).
Proof.
  intros [x [y ->]]. exists (a +:+ x), y. rewrite append_assoc. reflexivity.
Qed.

(** ** Risk identification *)

Lemma push_if_fold {A B : Type} (test : A -> bool) (entry : A -> B)
    (l : list A) (acc : list B) :
  foldl (fun risks factor => if test factor then risks ++ [entry factor] else risks)
    acc l
  = acc ++ map entry (List.filter test l).
Proof.
  revert acc. induction l as [|x l IH]; intros acc; cbn.
  - rewrite app_nil_r. reflexivity.
  - rewrite IH. destruct (test x); cbn; [rewrite <- app_assoc|]; reflexivity.
Qed.

Lemma analyzeStepRisks_eq (this : ValidatorAgent) (step : Step.t) (index : nat) :
  analyzeStepRisks this step index
  = map (high_entry step index)
      (List.filter (includes (stepText step)) (RiskFactors.high (riskFactors this)))
    ++ map (medium_entry step index)
         (List.filter (includes (stepText step)) (RiskFactors.medium (riskFactors this))).
Proof.
  unfold analyzeStepRisks.
  rewrite (push_if_fold (includes (stepText step)) (medium_entry step index)).
  rewrite (push_if_fold (includes (stepText step)) (high_entry step index)).
  reflexivity.
Qed.

Lemma identifyRisks_eq (this : ValidatorAgent) (plan : list Step.t) :
  identifyRisks this plan = risks_from this 0 plan.
Proof.
  unfold identifyRisks.
  assert (H : forall index acc,
    snd (foldl (fun '(index, risks) step =>
           let stepRisks := analyzeStepRisks this step index in
           (S index, if (0 <? length stepRisks)%nat then risks ++ stepRisks else risks))
         (index, acc) plan)
    = acc ++ risks_from this index plan).
  { induction plan as [|step rest IH]; intros index acc; cbn [foldl risks_from].
    - cbn. rewrite app_nil_r. reflexivity.
    - cbv zeta. rewrite IH.
      destruct (analyzeStepRisks this step index) as [|e l] eqn:E; cbn [length Nat.ltb Nat.leb].
      + reflexivity.
      + rewrite <- app_assoc. reflexivity. }
  rewrite H. reflexivity.
Qed.

Lemma filter_none {A : Type} (test : A -> bool) (l : list A) :
  (forall x, In x l -> test x = false) -> List.filter test l = [].
Proof.
  induction l as [|x l IH]; intros H; cbn; [reflexivity|].
  rewrite (H x (or_introl eq_refl)). apply IH. intros y Hy. apply H. right. exact Hy.
Qed.

Lemma count_in_NoDup (x : string) (l : list string) :
  NoDup l -> x ∈ l -> length (List.filter (fun y => String.eqb y x) l) = 1%nat.
Proof.
  induction 1 as [|y l Hy Hnd IH]; intros Hin.
  - inversion Hin.
  - cbn [List.filter]. destruct (String.eqb_spec y x) as [->|Hne].
    + rewrite filter_none; [reflexivity|].
      intros z Hz. destruct (String.eqb_spec z x) as [->|]; [|reflexivity].
      exfalso. apply Hy. apply list_elem_of_In. exact Hz.
    + apply IH. inversion Hin; subst; [congruence|assumption].
Qed.

Lemma filter_entries (this : ValidatorAgent) (step : Step.t) (index : nat)
    (factor : string) (level : risk_level) :
  List.filter (is_entry index factor level) (analyzeStepRisks this step index)
  = map (fun f => entry_for step index f level)
      (List.filter (fun y => String.eqb y factor)
         (List.filter (includes (stepText step)) (level_factors this level))).
Proof.
  rewrite analyzeStepRisks_eq, List.filter_app.
  assert (Hmap : forall lv l,
    List.filter (is_entry index factor level)
      (map (fun f => entry_for step index f lv) l)
    = if bool_decide (lv = level)
      then map (fun f => entry_for step index f lv)
             (List.filter (fun y => String.eqb y factor) l)
      else []).
  { intros lv l. induction l as [|f l IH]; cbn [map List.filter].
    - destruct (bool_decide (lv = level)); reflexivity.
    - rewrite IH. unfold is_entry at 1.
      replace (rk_step (entry_for step index f lv) =? index + 1)%nat with true
        by (symmetry; destruct lv; apply Nat.eqb_refl).
      replace (rk_risk (entry_for step index f lv)) with f by (destruct lv; reflexivity).
      replace (rk_level (entry_for step index f lv)) with lv by (destruct lv; reflexivity).
      cbn [andb]. destruct (bool_decide (lv = level)); [|rewrite andb_false_r; reflexivity].
      rewrite andb_true_r. destruct (String.eqb f factor); reflexivity. }
  change (high_entry step index) with (fun f => entry_for step index f high).
  change (medium_entry step index) with (fun f => entry_for step index f medium).
  rewrite !Hmap. destruct level; cbn [bool_decide level_factors].
  - rewrite bool_decide_eq_true_2 by reflexivity.
    rewrite bool_decide_eq_false_2 by discriminate. apply app_nil_r.
  - rewrite bool_decide_eq_false_2 by discriminate.
    rewrite bool_decide_eq_true_2 by reflexivity. reflexivity.
Qed.

Lemma analyzeStepRisks_step (this : ValidatorAgent) (step : Step.t) (index : nat)
    (e : risk_entry) :
  In e (analyzeStepRisks this step index) -> rk_step e = (index + 1)%nat.
Proof.
  rewrite analyzeStepRisks_eq, in_app_iff, !in_map_iff.
  intros [[f [<- _]]|[f [<- _]]]; reflexivity.
Qed.

Lemma risks_from_later (this : ValidatorAgent) (plan : list Step.t) (index : nat)
    (e : risk_entry) :
  In e (risks_from this index plan) -> (index < rk_step e)%nat.
Proof.
  revert index. induction plan as [|step rest IH]; intros index; cbn [risks_from].
  - intros [].
  - rewrite in_app_iff. intros [H|H].
    + apply analyzeStepRisks_step in H. lia.
    + apply IH in H. lia.
Qed.

Lemma filter_risks_from (this : ValidatorAgent) (factor : string) (level : risk_level)
    (plan : list Step.t) (first index : nat) (step : Step.t) :
  plan !! index = Some step ->
  List.filter (is_entry (first + index) factor level) (risks_from this first plan)
  = List.filter (is_entry (first + index) factor level)
      (analyzeStepRisks this step (first + index)).
Proof.
  revert first index. induction plan as [|s rest IH]; intros first index Hlookup.
  - discriminate.
  - cbn [risks_from]. rewrite List.filter_app. destruct index as [|index].
    + cbn in Hlookup. inversion Hlookup; subst s. rewrite Nat.add_0_r.
      rewrite (filter_none _ (risks_from this (S first) rest)); [apply app_nil_r|].
      intros e He. apply risks_from_later in He. unfold is_entry.
      destruct (Nat.eqb_spec (rk_step e) (first + 1)); [lia|reflexivity].
    + cbn in Hlookup.
      rewrite (filter_none _ (analyzeStepRisks this s first)).
      * cbn [app]. replace (first + S index)%nat with (S first + index)%nat by lia.
        apply IH. exact Hlookup.
      * intros e He. apply analyzeStepRisks_step in He. unfold is_entry.
        destruct (Nat.eqb_spec (rk_step e) (first + S index + 1)); [lia|reflexivity].
Qed.

Lemma constructor_factors_NoDup (level : risk_level) :
  NoDup (level_factors constructor level).
Proof. destruct level; apply (bool_decide_unpack _); vm_compute; reflexivity. Qed.

Lemma identifyRisks_one_entry (plan : list Step.t) (index : nat) (step : Step.t)
    (factor : string) (level : risk_level) :
  plan !! index = Some step ->
  factor ∈ level_factors constructor level ->
  includes (stepText step) factor = true ->
  entry_for step index factor level ∈ identifyRisks constructor plan /\
  length (List.filter (is_entry index factor level) (identifyRisks constructor plan))
  = 1%nat.
Proof.
  intros Hlookup Hfactor Hocc.
  assert (Hfilter :
    List.filter (is_entry index factor level) (identifyRisks constructor plan)
    = [entry_for step index factor level]).
  { rewrite identifyRisks_eq.
    pose proof (filter_risks_from constructor factor level plan 0 index step Hlookup)
      as Hstep.
    cbn [Nat.add] in Hstep. rewrite Hstep, filter_entries.
    pose proof (count_in_NoDup factor
                  (List.filter (includes (stepText step)) (level_factors constructor level)))
      as Hcount.
    assert (Hnd : NoDup (List.filter (includes (stepText step))
                           (level_factors constructor level))).
    { apply NoDup_ListNoDup, List.NoDup_filter, NoDup_ListNoDup,
        constructor_factors_NoDup. }
    assert (Hin : factor ∈ List.filter (includes (stepText step))
                    (level_factors constructor level)).
    { apply list_elem_of_In, filter_In. split; [apply list_elem_of_In|]; assumption. }
    specialize (Hcount Hnd Hin).
    destruct (List.filter (fun y => String.eqb y factor) _) as [|f [|f' l]] eqn:E;
      cbn in Hcount; try discriminate.
    assert (In f [f]) as Hf by (left; reflexivity).
    rewrite <- E in Hf. apply filter_In in Hf. destruct Hf as [_ Hf].
    apply String.eqb_eq in Hf. subst f. reflexivity. }
  split.
  - apply list_elem_of_In.
    assert (In (entry_for step index factor level)
              (List.filter (is_entry index factor level)
                 (identifyRisks constructor plan))) as H.
    { rewrite Hfilter. left. reflexivity. }
    apply filter_In in H. tauto.
  - rewrite Hfilter. reflexivity.
Qed.

(** C7: for every step of a plan, every high-risk and every medium-risk
    keyword that occurs in the lower-cased text of its title and description
    produces exactly one entry with that keyword and level; a step whose
    description contains "tight timeline" has a high-level entry. *)
Theorem identifyRisks_exhaustive :
  (forall (plan : list Step.t) (index : nat) (step : Step.t) (factor : string)
          (level : risk_level),
      plan !! index = Some step ->
      factor ∈ level_factors constructor level ->
      occurs_in factor
        (toLowerCase (Step.title step +:+ " "
                      +:+ default "undefined" (Step.description step))) ->
      entry_for step index factor level ∈ identifyRisks constructor plan /\
      length (List.filter (is_entry index factor level) (identifyRisks constructor plan))
      = 1%nat)
  /\
  (forall (plan : list Step.t) (index : nat) (step : Step.t) (text : string),
      plan !! index = Some step ->
      Step.description step = Some text ->
      occurs_in "tight timeline" text ->
      exists e, e ∈ identifyRisks constructor plan /\
                rk_step e = (index + 1)%nat /\ rk_level e = high /\
                rk_risk e = "tight timeline").
Proof.
  split.
  - intros plan index step factor level Hlookup Hfactor Hocc.
    apply identifyRisks_one_entry; try assumption.
    apply includes_spec. exact Hocc.
  - intros plan index step text Hlookup Hdesc Hocc.
    exists (entry_for step index "tight timeline" high). split; [|auto].
    apply (identifyRisks_one_entry plan index step "tight timeline" high Hlookup).
    + apply list_elem_of_In. left. reflexivity.
    + apply includes_spec. unfold stepText. rewrite Hdesc. cbn [default].
      change "tight timeline" with (toLowerCase "tight timeline").
      apply occurs_in_lower. rewrite <- append_assoc.
      apply occurs_in_app_r. exact Hocc.
Qed.

Lemma identifyRisks_exhaustive_witness :
  (entry_for rushed_step 0 "budget constraints" medium
     ∈ identifyRisks constructor [rushed_step] /\
   length (List.filter (is_entry 0 "budget constraints" medium)
             (identifyRisks constructor [rushed_step])) = 1%nat)
  /\ exists e, e ∈ identifyRisks constructor [rushed_step] /\
               rk_step e = 1%nat /\ rk_level e = high /\ rk_risk e = "tight timeline".
Proof.
  split.
  - apply (proj1 identifyRisks_exhaustive [rushed_step] 0%nat rushed_step
             "budget constraints" medium).
    + reflexivity.
    + apply list_elem_of_In. vm_compute. auto.
    + exists "launch deliver under a tight timeline with ", "". reflexivity.
  - apply (proj2 identifyRisks_exhaustive [rushed_step] 0%nat rushed_step
             "Deliver under a tight timeline with budget constraints").
    + reflexivity.
    + reflexivity.
    + exists "Deliver under a ", " with budget constraints". reflexivity.
Defined.

(** ** The total duration *)

Lemma forEach_throws {A St : Type} (body : St -> nat -> A -> result St)
    (bad : A -> Prop) (message : string) (l : list A) :
  (forall s index x, bad x -> body s index x = Throw message) ->
  (forall s index x e, body s index x = Throw e -> e = message) ->
  Exists bad l ->
  forall index s, forEach body index l s = Throw message.
Proof.
  intros Hbad Honly Hex. induction l as [|x l IH]; intros index s.
  - inversion Hex.
  - cbn [forEach]. destruct (body s index x) as [s'|e] eqn:Hbody; cbn [bind].
    + apply IH. inversion Hex as [? ? Hx|]; subst; [|assumption].
      rewrite (Hbad s index x Hx) in Hbody. discriminate.
    + f_equal. eapply Honly. exact Hbody.
Qed.

Lemma forEach_returns {A St : Type} (body : St -> nat -> A -> result St)
    (l : list A) :
  (forall s index x, x ∈ l -> exists s', body s index x = Ok s') ->
  forall index s, exists s', forEach body index l s = Ok s'.
Proof.
  induction l as [|x l IH]; intros Hok index s.
  - exists s. reflexivity.
  - cbn [forEach]. destruct (Hok s index x) as [s1 ->]; [left|]. cbn [bind].
    apply IH. intros s0 i y Hy. apply Hok. right. exact Hy.
Qed.

Lemma duration_match_throws (step : Step.t) (e : string) :
  duration_match step = Throw e -> e = match_of_undefined.
Proof.
  unfold duration_match. destruct (Step.duration step); [discriminate|].
  intros [= <-]. reflexivity.
Qed.

(** With a duration on every step the loop adds up the hours of the steps,
    the first step first. *)
Lemma total_hours_fold (plan : list Step.t) (durations : list string)
    (index : nat) (acc : number) :
  map Step.duration plan = map Some durations ->
  forEach (fun totalHours (_ : nat) step =>
      run m <- duration_match step in
      match m with
      | Some m => Ok (JsNumber.add totalHours (midpoint m))
      | None => Ok (JsNumber.add totalHours (Num 2))
      end) index plan acc
  = Ok (foldl (fun total duration => JsNumber.add total (step_hours duration)) acc
          durations).
Proof.
  revert durations index acc.
  induction plan as [|step rest IH]; intros durations index acc Hmap.
  - destruct durations; [|discriminate]. reflexivity.
  - destruct durations as [|d durations]; [discriminate|].
    cbn [map] in Hmap. injection Hmap as Hd Hrest.
    cbn [forEach foldl]. unfold duration_match at 1. rewrite Hd. cbn [bind].
    destruct (range_match d) as [m|] eqn:Hm; cbn [bind].
    + assert (step_hours d = midpoint m) as Hh
        by (unfold step_hours; rewrite Hm; reflexivity).
      rewrite (IH durations (S index) _ Hrest), Hh. reflexivity.
    + assert (step_hours d = Num 2) as Hh
        by (unfold step_hours; rewrite Hm; reflexivity).
      rewrite (IH durations (S index) _ Hrest), Hh. reflexivity.
Qed.

(** The printed total: hours up to 8, days of 8 hours up to 40, weeks of 40
    hours beyond, each rounded up. *)
Lemma calculatePlanDuration_total (plan : list Step.t) (durations : list string) :
  map Step.duration plan = map Some durations ->
  let total := total_hours durations in
  calculatePlanDuration plan
  = Ok (if JsNumber.leb total (Num 8)
        then JsNumber.toString (JsNumber.Math_ceil total) +:+ " hours"
        else if JsNumber.leb total (Num 40)
        then JsNumber.toString (JsNumber.Math_ceil (JsNumber.div total (Num 8)))
             +:+ " days"
        else JsNumber.toString (JsNumber.Math_ceil (JsNumber.div total (Num 40)))
             +:+ " weeks").
Proof.
  intros Hmap total. unfold calculatePlanDuration.
  rewrite (total_hours_fold plan durations 0 (Num 0) Hmap). cbn [bind].
  fold (total_hours durations). fold total.
  destruct (JsNumber.leb total (Num 8)); [reflexivity|].
  destruct (JsNumber.leb total (Num 40)); reflexivity.
Qed.

(** Durations "1-2 hours" and "3-4 hours" give 1.5 + 3.5 hours. *)
Example calculatePlanDuration_five_hours (first second : Step.t) :
  Step.duration first = Some "1-2 hours" ->
  Step.duration second = Some "3-4 hours" ->
  calculatePlanDuration [first; second] = Ok "5 hours".
Proof.
  intros Hfirst Hsecond.
  rewrite (calculatePlanDuration_total [first; second] ["1-2 hours"; "3-4 hours"]).
  - vm_compute. reflexivity.
  - cbn [map]. rewrite Hfirst, Hsecond. reflexivity.
Qed.

(** The hours are doubles: a numeral of twenty digits is read as the nearest
    double, a total from [1e21] weeks on is printed with an exponent, and a
    numeral beyond the largest double is read as [Infinity]. *)
Example calculatePlanDuration_rounded :
  calculatePlanDuration [timed_step 1 "99999999999999999999-2 hours"]
  = Ok "1250000000000000000 weeks".
Proof. vm_compute. reflexivity. Qed.

Example calculatePlanDuration_exponent :
  calculatePlanDuration
    [timed_step 1 "80000000000000000000000-80000000000000000000000 hours"]
  = Ok "2e+21 weeks".
Proof. vm_compute. reflexivity. Qed.

Example calculatePlanDuration_overflow :
  calculatePlanDuration [timed_step 1 ("1" +:+ zeros 309 +:+ "-2 hours")]
  = Ok "Infinity weeks".
Proof. vm_compute. reflexivity. Qed.

Lemma calculatePlanDuration_throws (plan : list Step.t) :
  Exists (fun step => Step.duration step = None) plan ->
  calculatePlanDuration plan = Throw match_of_undefined.
Proof.
  intros Hex. unfold calculatePlanDuration.
  rewrite (forEach_throws _ (fun step => Step.duration step = None)
             match_of_undefined plan); [reflexivity| | |exact Hex].
  - intros s index x Hx. unfold duration_match. rewrite Hx. reflexivity.
  - intros s index x e. destruct (duration_match x) as [m|e'] eqn:Hm; cbn [bind].
    + destruct m; discriminate.
    + intros [= <-]. exact (duration_match_throws _ _ Hm).
Qed.

(** C6: the total is formed and printed only when every step carries a
    duration.  On a step without one, [step.duration.match] throws before
    the default of 2 hours can apply: no total is reported. *)
Theorem calculatePlanDuration_missing_duration (plan : list Step.t) :
  Exists (fun step => Step.duration step = None) plan ->
  calculatePlanDuration plan = Throw match_of_undefined.
Proof. apply calculatePlanDuration_throws. Qed.

Lemma calculatePlanDuration_missing_duration_witness :
  calculatePlanDuration untimed_plan = Throw match_of_undefined.
Proof.
  apply (calculatePlanDuration_missing_duration untimed_plan).
  right. left. reflexivity.
Defined.

(** ** Unbalanced durations *)

Lemma forEach_snoc {A St : Type} (body : St -> nat -> A -> result St)
    (index : nat) (l : list A) (x : A) (s : St) :
  forEach body index (l ++ [x]) s
  = (run s' <- forEach body index l s in body s' (index + length l)%nat x).
Proof.
  revert index s. induction l as [|y l IH]; intros index s; cbn [app forEach length bind].
  - rewrite Nat.add_0_r. destruct (body s index x); reflexivity.
  - destruct (body s index y) as [s'|e]; cbn [bind]; [|reflexivity].
    rewrite IH. replace (S index + length l)%nat with (index + S (length l))%nat by lia.
    reflexivity.
Qed.

Lemma last_parsed_snoc (plan : list Step.t) (step : Step.t) :
  last_parsed (plan ++ [step])
  = match parsed_midpoint step with
    | Some q => Some q
    | None => last_parsed plan
    end.
Proof. unfold last_parsed. rewrite foldl_app. reflexivity. Qed.

(** [last_parsed] names the nearest earlier step with a range. *)
Lemma last_parsed_Some (plan : list Step.t) (p : number) :
  last_parsed plan = Some p <->
  exists (j : nat) (earlier : Step.t),
    plan !! j = Some earlier /\ parsed_midpoint earlier = Some p /\
    forall (k : nat) (between : Step.t),
      (j < k)%nat -> plan !! k = Some between -> parsed_midpoint between = None.
Proof.
  induction plan as [|step plan IH] using rev_ind.
  - split; [discriminate|]. intros [j [s [H _]]]. destruct j; discriminate.
  - rewrite last_parsed_snoc. destruct (parsed_midpoint step) as [q|] eqn:Hq.
    + split.
      * intros [= ->]. exists (length plan), step. repeat split.
        -- rewrite lookup_app_r by lia. rewrite Nat.sub_diag. reflexivity.
        -- exact Hq.
        -- intros k between Hk Hlookup. apply lookup_lt_Some in Hlookup.
           rewrite length_app in Hlookup. cbn in Hlookup. lia.
      * intros [j [earlier [Hj [Hp Hafter]]]].
        destruct (decide (j = length plan)) as [->|Hne].
        -- rewrite lookup_app_r in Hj by lia. rewrite Nat.sub_diag in Hj.
           cbn in Hj. congruence.
        -- pose proof (lookup_lt_Some _ _ _ Hj) as Hlt.
           rewrite length_app in Hlt. cbn in Hlt.
           assert (parsed_midpoint step = None) as Hnone; [|congruence].
           apply (Hafter (length plan) step); [lia|].
           rewrite lookup_app_r by lia. rewrite Nat.sub_diag. reflexivity.
    + rewrite IH. split.
      * intros [j [earlier [Hj [Hp Hafter]]]]. exists j, earlier. repeat split.
        -- rewrite lookup_app_l; [exact Hj|]. eapply lookup_lt_Some; exact Hj.
        -- exact Hp.
        -- intros k between Hk Hlookup.
           destruct (decide (k < length plan)%nat) as [Hlt|Hge].
           ++ rewrite lookup_app_l in Hlookup by exact Hlt. eapply Hafter; eassumption.
           ++ rewrite lookup_app_r in Hlookup by lia.
              destruct (k - length plan)%nat; cbn in Hlookup; [|discriminate].
              congruence.
      * intros [j [earlier [Hj [Hp Hafter]]]].
        assert (j < length plan)%nat as Hlt.
        { destruct (decide (j < length plan)%nat) as [|Hge]; [assumption|].
          rewrite lookup_app_r in Hj by lia.
          destruct (j - length plan)%nat; cbn in Hj; [|discriminate]. congruence. }
        exists j, earlier. repeat split.
        -- rewrite lookup_app_l in Hj by exact Hlt. exact Hj.
        -- exact Hp.
        -- intros k between Hk Hlookup. apply (Hafter k between Hk).
           rewrite lookup_app_l; [exact Hlookup|]. eapply lookup_lt_Some; exact Hlookup.
Qed.

Lemma identifyUnbalancedDurations_state (plan : list Step.t) :
  identifyUnbalancedDurations plan
  = (run final <- unbalanced_state plan in Ok (fst final)).
Proof. reflexivity. Qed.

Lemma flagged_at_snoc (plan : list Step.t) (step : Step.t) (index : nat)
    (e : unbalanced_entry) :
  (index < length plan)%nat ->
  flagged_at (plan ++ [step]) index e <-> flagged_at plan index e.
Proof.
  intros Hlt. unfold flagged_at.
  rewrite lookup_app_l by exact Hlt. rewrite take_app_le by lia. reflexivity.
Qed.

Lemma flagged_at_bound (plan : list Step.t) (index : nat) (e : unbalanced_entry) :
  flagged_at plan index e -> (index < length plan)%nat /\ ub_step e = (index + 1)%nat.
Proof.
  intros [step [d [q [p [Hlookup [_ [_ [_ [_ ->]]]]]]]]].
  split; [eapply lookup_lt_Some; exact Hlookup|reflexivity].
Qed.

Lemma previous_truthy_nonzero (prev : option number) :
  (forall p, prev = Some p -> JsNumber.truthy p = true) -> previous_truthy prev = prev.
Proof.
  intros H. destruct prev as [p|]; [|reflexivity]. cbn [previous_truthy].
  rewrite (H p eq_refl). reflexivity.
Qed.

Lemma last_parsed_nonzero (plan : list Step.t) (p : number) :
  (forall step q, step ∈ plan -> parsed_midpoint step = Some q ->
                  JsNumber.truthy q = true) ->
  last_parsed plan = Some p -> JsNumber.truthy p = true.
Proof.
  intros Hnz Hlast. apply last_parsed_Some in Hlast.
  destruct Hlast as [j [earlier [Hj [Hp _]]]].
  apply (Hnz earlier p); [|exact Hp]. eapply list_elem_of_lookup_2. exact Hj.
Qed.

Lemma unbalanced_state_spec (plan : list Step.t) :
  (forall step, step ∈ plan -> is_Some (Step.duration step)) ->
  (forall step q, step ∈ plan -> parsed_midpoint step = Some q ->
                  JsNumber.truthy q = true) ->
  exists flagged,
    unbalanced_state plan = Ok (flagged, last_parsed plan) /\
    NoDup (map ub_step flagged) /\
    (forall e, e ∈ flagged <-> exists index, flagged_at plan index e).
Proof.
  induction plan as [|step plan IH] using rev_ind; intros Hdur Hnz.
  - exists []. repeat split.
    + constructor.
    + intros H. inversion H.
    + intros [index H]. apply flagged_at_bound in H. cbn in H. lia.
  - destruct IH as [flagged [Hstate [Hnd Hiff]]].
    { intros s Hs. apply Hdur. apply elem_of_app. left. exact Hs. }
    { intros s q Hs. apply Hnz. apply elem_of_app. left. exact Hs. }
    assert (Hold : forall e, e ∈ flagged -> (ub_step e <= length plan)%nat).
    { intros e He. apply Hiff in He. destruct He as [i Hi].
      apply flagged_at_bound in Hi. lia. }
    assert (Hlast : forall e index,
      flagged_at (plan ++ [step]) index e ->
      (index < length plan)%nat \/ index = length plan).
    { intros e index H. apply flagged_at_bound in H.
      rewrite length_app in H. cbn in H. lia. }
    destruct (Hdur step) as [d Hd]; [apply elem_of_app; right; constructor|].
    unfold unbalanced_state in *. rewrite forEach_snoc, Hstate.
    cbn [bind Nat.add]. unfold duration_match. rewrite Hd. cbn [bind].
    rewrite last_parsed_snoc. unfold parsed_midpoint at 1. rewrite Hd.
    rewrite (previous_truthy_nonzero (last_parsed plan)).
    2:{ intros p Hp. apply (last_parsed_nonzero plan p); [|exact Hp].
        intros s q Hs. apply Hnz. apply elem_of_app. left. exact Hs. }
    assert (Hkeep : forall e,
      e ∈ flagged <-> exists index, (index < length plan)%nat /\
                                    flagged_at (plan ++ [step]) index e).
    { intros e. rewrite Hiff. split.
      - intros [i Hi]. exists i. pose proof (flagged_at_bound _ _ _ Hi).
        split; [lia|]. apply flagged_at_snoc; [lia|exact Hi].
      - intros [i [Hlt Hi]]. exists i. apply (flagged_at_snoc plan step); assumption. }
    assert (Hnew : forall e,
      flagged_at (plan ++ [step]) (length plan) e <->
      exists m p, range_match d = Some m /\ last_parsed plan = Some p /\
                  JsNumber.gtb (distance (midpoint m) p) (Num 4) = true /\
                  e = {| ub_step := length plan + 1; ub_title := Step.title step;
                         ub_duration := d;
                         ub_difference := distance (midpoint m) p |}).
    { intros e. unfold flagged_at. rewrite take_app_length.
      rewrite lookup_app_r by lia. rewrite Nat.sub_diag. cbn [lookup list_lookup].
      split.
      - intros [s [d' [q [p [Hs [Hd' [Hq [Hp [Hgt He]]]]]]]]].
        injection Hs as <-. rewrite Hd in Hd'. injection Hd' as <-.
        unfold parsed_midpoint in Hq. rewrite Hd in Hq.
        destruct (range_match d) as [m|]; [|discriminate]. injection Hq as <-.
        exists m, p. auto.
      - intros [m [p [Hm [Hp [Hgt He]]]]].
        exists step, d, (midpoint m), p. repeat split; try assumption.
        unfold parsed_midpoint. rewrite Hd, Hm. reflexivity. }
    destruct (range_match d) as [m|] eqn:Hm.
    + destruct (last_parsed plan) as [p|] eqn:Hp.
      * fold (distance (midpoint m) p).
        destruct (JsNumber.gtb (distance (midpoint m) p) (Num 4)) eqn:Hcmp.
        -- eexists. split; [reflexivity|]. split.
           ++ rewrite map_app. apply NoDup_app. repeat split.
              ** exact Hnd.
              ** intros x Hx Hx'. cbn in Hx'. apply list_elem_of_singleton in Hx'.
                 apply list_elem_of_In, in_map_iff in Hx. destruct Hx as [e [<- He]].
                 apply list_elem_of_In, Hold in He. lia.
              ** cbn. apply NoDup_singleton.
           ++ intros e. rewrite elem_of_app, list_elem_of_singleton, Hkeep. split.
              ** intros [[i [_ Hi]] | ->]; [exists i; exact Hi|].
                 exists (length plan). apply Hnew. exists m, p. auto.
              ** intros [i Hi]. destruct (Hlast e i Hi) as [Hlt| ->].
                 --- left. exists i. auto.
                 --- right. apply Hnew in Hi.
                     destruct Hi as [m' [p' [Hm' [Hp' [_ ->]]]]].
                     simplify_eq. reflexivity.
        -- exists flagged. split; [reflexivity|]. split; [exact Hnd|].
           intros e. rewrite Hkeep. split.
           ++ intros [i [_ Hi]]. exists i. exact Hi.
           ++ intros [i Hi]. destruct (Hlast e i Hi) as [Hlt| ->]; [exists i; auto|].
              apply Hnew in Hi. destruct Hi as [m' [p' [Hm' [Hp' [Hgt _]]]]].
              simplify_eq. congruence.
      * exists flagged. split; [reflexivity|]. split; [exact Hnd|].
        intros e. rewrite Hkeep. split.
        -- intros [i [_ Hi]]. exists i. exact Hi.
        -- intros [i Hi]. destruct (Hlast e i Hi) as [Hlt| ->]; [exists i; auto|].
           apply Hnew in Hi. destruct Hi as [m' [p' [_ [Hp' _]]]]. discriminate.
    + exists flagged. split; [reflexivity|]. split; [exact Hnd|].
      intros e. rewrite Hkeep. split.
      * intros [i [_ Hi]]. exists i. exact Hi.
      * intros [i Hi]. destruct (Hlast e i Hi) as [Hlt| ->]; [exists i; auto|].
        apply Hnew in Hi. destruct Hi as [m' [p' [Hm' _]]]. discriminate.
Qed.

(** A duration of 11 hours followed by one without a range: counted as 2
    hours the second step would be flagged, but the detector skips it. *)
Lemma identifyUnbalancedDurations_skips_unparsable :
  let plan := [timed_step 1 "10-12 hours"; timed_step 2 "soon"] in
  identifyUnbalancedDurations plan = Ok [] /\ adjacent_unbalanced plan = [2%nat].
Proof. split; vm_compute; reflexivity. Qed.

(** The midpoints and their distance are doubles: two numerals beyond
    [2^53] that are 5 apart are read as doubles 4 apart, and nothing is
    flagged. *)
Example identifyUnbalancedDurations_rounded :
  identifyUnbalancedDurations
    [timed_step 1 "9007199254740993-9007199254740993 hours";
     timed_step 2 "9007199254740988-9007199254740988 hours"]
  = Ok [].
Proof. vm_compute. reflexivity. Qed.

(** C5, as the code has it: on a plan whose steps all carry a duration text
    and have no range of midpoint 0, the detector flags each step at most
    once, and flags exactly the steps whose duration holds a range and whose
    midpoint differs by more than 4 from the midpoint of the nearest earlier
    step whose duration holds a range; steps without a range are neither
    flagged nor compared against.  Midpoints and their distance
    [Math.abs(q - p)] are the doubles the code computes. *)
Theorem identifyUnbalancedDurations_parsed_steps
    (plan : list Step.t) (durations : list string) :
  map Step.duration plan = map Some durations ->
  forallb nonzero_midpoint plan = true ->
  exists flagged,
    identifyUnbalancedDurations plan = Ok flagged /\
    NoDup (map ub_step flagged) /\
    forall n : nat,
      n ∈ map ub_step flagged <->
      exists (index j : nat) (step earlier : Step.t) (q p : number),
        n = (index + 1)%nat /\
        plan !! index = Some step /\ parsed_midpoint step = Some q /\
        (j < index)%nat /\
        plan !! j = Some earlier /\ parsed_midpoint earlier = Some p /\
        (forall (k : nat) (between : Step.t),
            (j < k < index)%nat -> plan !! k = Some between ->
            parsed_midpoint between = None) /\
        JsNumber.gtb (distance q p) (Num 4) = true.
Proof.
  intros Hmap Hnz.
  destruct (unbalanced_state_spec plan) as [flagged [Hstate [Hnd Hiff]]].
  { intros step Hstep. apply list_elem_of_In in Hstep.
    assert (In (Step.duration step) (map Step.duration plan)) as H
      by (apply in_map; exact Hstep).
    rewrite Hmap in H. apply in_map_iff in H. destruct H as [d [Hd _]].
    exists d. symmetry. exact Hd. }
  { intros step q Hstep Hq. apply list_elem_of_In in Hstep.
    rewrite forallb_forall in Hnz. specialize (Hnz step Hstep).
    unfold nonzero_midpoint in Hnz. rewrite Hq in Hnz. exact Hnz. }
  exists flagged. rewrite identifyUnbalancedDurations_state, Hstate.
  split; [reflexivity|]. split; [exact Hnd|].
  intros n. rewrite list_elem_of_In, in_map_iff. split.
  - intros [e [<- He]]. apply list_elem_of_In, Hiff in He.
    destruct He as [index [step [d [q [p [Hlookup [Hd [Hq [Hlast [Hgt ->]]]]]]]]]].
    apply last_parsed_Some in Hlast.
    destruct Hlast as [j [earlier [Hj [Hp Hafter]]]].
    apply lookup_take_Some in Hj. destruct Hj as [Hj Hlt].
    exists index, j, step, earlier, q, p. repeat split; try assumption.
    intros k between [Hjk Hki] Hk. apply (Hafter k between Hjk).
    apply lookup_take_Some. split; assumption.
  - intros [index [j [step [earlier [q [p [-> [Hlookup [Hq [Hlt [Hj [Hp [Hbetween Hgt]]]]]]]]]]]]].
    destruct (Step.duration step) as [d|] eqn:Hd.
    2:{ unfold parsed_midpoint in Hq. rewrite Hd in Hq. discriminate. }
    exists {| ub_step := index + 1; ub_title := Step.title step;
              ub_duration := d; ub_difference := distance q p |}.
    split; [reflexivity|]. apply list_elem_of_In, Hiff. exists index.
    exists step, d, q, p. repeat split; try assumption.
    apply last_parsed_Some. exists j, earlier. repeat split.
    + apply lookup_take_Some. split; assumption.
    + exact Hp.
    + intros k between Hjk Hk. apply lookup_take_Some in Hk. destruct Hk as [Hk Hki].
      apply (Hbetween k between); [lia|exact Hk].
Qed.

Lemma identifyUnbalancedDurations_parsed_steps_witness :
  exists flagged,
    identifyUnbalancedDurations
      [timed_step 1 "1-2 hours"; timed_step 2 "soon"; timed_step 3 "8-10 hours"]
    = Ok flagged /\
    NoDup (map ub_step flagged) /\
    forall n : nat,
      n ∈ map ub_step flagged <->
      exists (index j : nat) (step earlier : Step.t) (q p : number),
        n = (index + 1)%nat /\
        [timed_step 1 "1-2 hours"; timed_step 2 "soon"; timed_step 3 "8-10 hours"]
          !! index = Some step /\ parsed_midpoint step = Some q /\
        (j < index)%nat /\
        [timed_step 1 "1-2 hours"; timed_step 2 "soon"; timed_step 3 "8-10 hours"]
          !! j = Some earlier /\ parsed_midpoint earlier = Some p /\
        (forall (k : nat) (between : Step.t),
            (j < k < index)%nat ->
            [timed_step 1 "1-2 hours"; timed_step 2 "soon"; timed_step 3 "8-10 hours"]
              !! k = Some between ->
            parsed_midpoint between = None) /\
        JsNumber.gtb (distance q p) (Num 4) = true.
Proof.
  apply (identifyUnbalancedDurations_parsed_steps
           [timed_step 1 "1-2 hours"; timed_step 2 "soon"; timed_step 3 "8-10 hours"]
           ["1-2 hours"; "soon"; "8-10 hours"]).
  - reflexivity.
  - vm_compute. reflexivity.
Defined.

(** ** Cycle detection: termination and soundness *)

Lemma reaches_snoc (g : graph) (a b c : Z) :
  reaches g a b -> edge g b c -> reaches g a c.
Proof.
  induction 1 as [a b Hab|a b d Hab _ IH]; intros Hc.
  - eapply reaches_step; [exact Hab|]. apply reaches_edge. exact Hc.
  - eapply reaches_step; [exact Hab|]. apply IH. exact Hc.
Qed.

Lemma graph_get_dom (g : graph) (k : Z) (l : list Z) :
  graph_get g k = Some l -> k ∈ graph_dom g.
Proof.
  unfold graph_dom. induction g as [|[k' v] g IH]; cbn; [discriminate|].
  destruct (Z.eqb_spec k k') as [->|Hne]; intros H.
  - set_solver.
  - apply IH in H. set_solver.
Qed.

Lemma graph_dom_size (g : graph) : (size (graph_dom g) <= length g)%nat.
Proof.
  unfold graph_dom. induction g as [|[k v] g IH]; cbn.
  - rewrite size_empty. lia.
  - rewrite size_union_alt.
    assert (size ((list_to_set (map fst g) : gset Z) ∖ {[k]})
            <= size (list_to_set (map fst g) : gset Z))%nat
      by (apply subseteq_size; set_solver).
    rewrite size_singleton. lia.
Qed.

Lemma neighbors_of_nil (g : graph) (node : jskey) :
  property node ∉ graph_dom g -> neighbors_of g node = [].
Proof.
  intros H. unfold neighbors_of.
  destruct (graph_get g (property node)) as [l|] eqn:E; [|reflexivity].
  exfalso. apply H. eapply graph_get_dom. exact E.
Qed.

(** *** Termination *)

Lemma dfs_neighbors_total (g : graph) (fuel : nat)
    (recur : Z -> dfs_state -> option (bool * dfs_state))
    (node : jskey) (path : list jskey) :
  (forall neighbor st,
      (size (graph_dom g ∖ visited st) < fuel)%nat ->
      exists b st', recur neighbor st = Some (b, st') /\ visited st ⊆ visited st') ->
  forall neighbors st,
    (size (graph_dom g ∖ visited st) < fuel)%nat ->
    exists b st', dfs_neighbors recur node path neighbors st = Some (b, st') /\
                  visited st ⊆ visited st'.
Proof.
  intros Hrecur neighbors.
  induction neighbors as [|neighbor rest IH]; intros st Hsize; cbn [dfs_neighbors].
  - eexists _, _. split; [reflexivity|]. reflexivity.
  - destruct (bool_decide (neighbor ∉ visited st)).
    + destruct (Hrecur neighbor st Hsize) as [b [st1 [-> Hsub]]].
      destruct b.
      * eexists _, _. split; [reflexivity|exact Hsub].
      * destruct (IH st1) as [b [st2 [-> Hsub2]]].
        { eapply Nat.le_lt_trans; [|exact Hsize].
          apply subseteq_size. set_solver. }
        eexists _, _. split; [reflexivity|]. set_solver.
    + destruct (bool_decide (neighbor ∈ recursionStack st)).
      * eexists _, _. split; [reflexivity|]. reflexivity.
      * apply IH. exact Hsize.
Qed.

Lemma dfs_total (g : graph) (fuel : nat) :
  forall node path st,
    (size (graph_dom g ∖ visited st) < fuel)%nat ->
    exists b st', dfs fuel g node path st = Some (b, st') /\
                  visited st ⊆ visited st'.
Proof.
  induction fuel as [|fuel IH]; intros node path st Hsize; [lia|].
  cbn [dfs]. destruct (bool_decide (property node ∈ visited st)) eqn:Hvisited.
  - eexists _, _. split; [reflexivity|]. reflexivity.
  - apply bool_decide_eq_false in Hvisited.
    destruct (decide (property node ∈ graph_dom g)) as [Hdom|Hdom].
    + destruct (dfs_neighbors_total g fuel
                  (fun neighbor => dfs fuel g (KeyNum neighbor) (path ++ [node]))
                  node path) with (neighbors := neighbors_of g node) (st := mark node st)
        as [b [st' [-> Hsub]]].
      * intros neighbor st0 H0. apply IH. exact H0.
      * cbn [mark visited].
        assert (graph_dom g ∖ ({[property node]} ∪ visited st)
                ⊂ graph_dom g ∖ visited st) as Hstrict by set_solver.
        apply subset_size in Hstrict. lia.
      * eexists _, _. split; [reflexivity|]. cbn [mark visited] in Hsub. set_solver.
    + rewrite neighbors_of_nil by exact Hdom. cbn [dfs_neighbors].
      eexists _, _. split; [reflexivity|]. cbn. set_solver.
Qed.

Lemma dfs_roots_total (g : graph) (fuel : nat) (keys : list Z) (st : dfs_state) :
  (size (graph_dom g ∖ visited st) < fuel)%nat ->
  exists st', dfs_roots fuel g keys st = Some st'.
Proof.
  revert st. induction keys as [|node rest IH]; intros st Hsize; cbn [dfs_roots].
  - eexists. reflexivity.
  - destruct (bool_decide (node ∉ visited st)).
    + destruct (dfs_total g fuel (KeyStr node) [] st Hsize) as [b [st' [-> Hsub]]].
      apply IH. eapply Nat.le_lt_trans; [|exact Hsize].
      apply subseteq_size. set_solver.
    + apply IH. exact Hsize.
Qed.

(** The traversal always finishes within the fuel
    [detectCircularDependencies] gives it. *)
Lemma detectCircularDependencies_total (g : graph) :
  detectCircularDependencies_fuel (S (length g)) g
  = Some (detectCircularDependencies g).
Proof.
  unfold detectCircularDependencies, detectCircularDependencies_fuel.
  destruct (dfs_roots_total g (S (length g)) (Object_keys g)
              {| cycles := []; visited := ∅; recursionStack := ∅ |}) as [st' ->].
  - cbn [visited]. pose proof (graph_dom_size g).
    assert (size (graph_dom g ∖ ∅) <= size (graph_dom g))%nat
      by (apply subseteq_size; set_solver).
    lia.
  - reflexivity.
Qed.

(** *** Soundness: a reported cycle is a cycle of the graph *)

(** While no cycle has been recorded, every key on the recursion stack
    reaches the node being explored. *)
Lemma dfs_neighbors_sound (g : graph)
    (recur : Z -> dfs_state -> option (bool * dfs_state))
    (node : jskey) (path : list jskey) (stack : gset Z) :
  (forall neighbor st b st',
      recur neighbor st = Some (b, st') ->
      cycles st = [] ->
      (forall n, n ∈ recursionStack st -> reaches g n neighbor) ->
      cyclic g \/
      (b = false /\ cycles st' = [] /\ recursionStack st' ⊆ recursionStack st)) ->
  forall neighbors st b st',
    dfs_neighbors recur node path neighbors st = Some (b, st') ->
    (forall x, x ∈ neighbors -> edge g (property node) x) ->
    cycles st = [] ->
    (forall n, n ∈ recursionStack st ->
               n = property node \/ reaches g n (property node)) ->
    recursionStack st ⊆ {[property node]} ∪ stack ->
    cyclic g \/ (b = false /\ cycles st' = [] /\ recursionStack st' ⊆ stack).
Proof.
  intros Hrecur neighbors.
  induction neighbors as [|neighbor rest IH];
    intros st b st' Hrun Hedges Hcycles Hreach Hsub; cbn [dfs_neighbors] in Hrun.
  - injection Hrun as <- <-. right. cbn. repeat split; [exact Hcycles|set_solver].
  - assert (Hedge : edge g (property node) neighbor) by (apply Hedges; left).
    assert (Hrest : forall x, x ∈ rest -> edge g (property node) x)
      by (intros x Hx; apply Hedges; right; exact Hx).
    destruct (bool_decide (neighbor ∉ visited st)).
    + destruct (recur neighbor st) as [[b1 st1]|] eqn:Hcall; [|discriminate].
      destruct (Hrecur neighbor st b1 st1 Hcall Hcycles) as [Hcyc|[-> [Hc1 Hs1]]].
      * intros n Hn. destruct (Hreach n Hn) as [->|Hn'].
        -- apply reaches_edge. exact Hedge.
        -- eapply reaches_snoc; eassumption.
      * left. exact Hcyc.
      * apply (IH st1 b st' Hrun Hrest Hc1).
        -- intros n Hn. apply Hreach. set_solver.
        -- set_solver.
    + destruct (bool_decide (neighbor ∈ recursionStack st)) eqn:Hon.
      * left. apply bool_decide_eq_true in Hon. exists neighbor.
        destruct (Hreach neighbor Hon) as [->|Hn].
        -- apply reaches_edge. exact Hedge.
        -- eapply reaches_snoc; eassumption.
      * apply (IH st b st' Hrun Hrest Hcycles Hreach Hsub).
Qed.

Lemma dfs_sound (g : graph) (fuel : nat) :
  forall node path st b st',
    dfs fuel g node path st = Some (b, st') ->
    cycles st = [] ->
    (forall n, n ∈ recursionStack st -> reaches g n (property node)) ->
    cyclic g \/
    (b = false /\ cycles st' = [] /\ recursionStack st' ⊆ recursionStack st).
Proof.
  induction fuel as [|fuel IH]; intros node path st b st' Hrun Hcycles Hreach;
    [discriminate|].
  cbn [dfs] in Hrun. destruct (bool_decide (property node ∈ visited st)).
  - injection Hrun as <- <-. right. cbn. repeat split; [exact Hcycles|set_solver].
  - eapply (dfs_neighbors_sound g _ node path (recursionStack st)); [| exact Hrun | | | |].
    + intros neighbor st0 b0 st0' H0. exact (IH _ _ _ _ _ H0).
    + intros x Hx. exact Hx.
    + exact Hcycles.
    + cbn [mark recursionStack]. intros n Hn.
      apply elem_of_union in Hn. destruct Hn as [Hn|Hn].
      * left. apply elem_of_singleton in Hn. exact Hn.
      * right. apply Hreach. exact Hn.
    + cbn [mark recursionStack]. set_solver.
Qed.

Lemma dfs_roots_sound (g : graph) (fuel : nat) (keys : list Z) :
  forall st st',
    dfs_roots fuel g keys st = Some st' ->
    cycles st = [] -> recursionStack st = ∅ ->
    cyclic g \/ cycles st' = [].
Proof.
  induction keys as [|node rest IH]; intros st st' Hrun Hcycles Hstack;
    cbn [dfs_roots] in Hrun.
  - injection Hrun as <-. right. exact Hcycles.
  - destruct (bool_decide (node ∉ visited st)).
    + destruct (dfs fuel g (KeyStr node) [] st) as [[b st1]|] eqn:Hcall; [|discriminate].
      destruct (dfs_sound g fuel _ _ _ _ _ Hcall Hcycles) as [Hcyc|[_ [Hc1 Hs1]]].
      * intros n Hn. rewrite Hstack in Hn. set_solver.
      * left. exact Hcyc.
      * apply (IH st1 st' Hrun Hc1). rewrite Hstack in Hs1. set_solver.
    + apply (IH st st' Hrun Hcycles Hstack).
Qed.

(** On a graph without cycles nothing is reported. *)
Lemma detectCircularDependencies_acyclic (g : graph) :
  ~ cyclic g -> detectCircularDependencies g = [].
Proof.
  intros Hacyclic. pose proof (detectCircularDependencies_total g) as Htotal.
  unfold detectCircularDependencies_fuel in Htotal.
  destruct (dfs_roots (S (length g)) g (Object_keys g)
              {| cycles := []; visited := ∅; recursionStack := ∅ |})
    as [st'|] eqn:Hrun; [|discriminate].
  cbn in Htotal. injection Htotal as Htotal. rewrite <- Htotal.
  destruct (dfs_roots_sound g _ _ _ _ Hrun eq_refl eq_refl) as [Hcyc|Hnone].
  - contradiction.
  - exact Hnone.
Qed.

(** ** The maximum dependency depth *)

Lemma depth_neighbors_bound (recur : Z -> Z -> option Z) (bound : Z) :
  (forall neighbor m, exists r, recur neighbor m = Some r /\ m <= r <= Z.max m bound) ->
  forall neighbors m,
    exists r, depth_neighbors recur neighbors m = Some r /\ m <= r <= Z.max m bound.
Proof.
  intros Hrecur neighbors.
  induction neighbors as [|neighbor rest IH]; intros m; cbn [depth_neighbors].
  - exists m. split; [reflexivity|lia].
  - destruct (Hrecur neighbor m) as [r1 [-> Hr1]].
    destruct (IH r1) as [r [-> Hr]]. exists r. split; [reflexivity|lia].
Qed.

(** A call on a number finishes when the fuel exceeds the count of keys
    still unvisited; the depth it records exceeds [depth] by at most that
    count. *)
Lemma calculateDepth_num_total (g : graph) (fuel : nat) :
  forall (k depth : Z) (visited : gset jskey) (m : Z),
    (size (unvisited g visited) < fuel)%nat ->
    exists r, calculateDepth fuel g (KeyNum k) depth visited m = Some r /\
              m <= r <= Z.max m (depth + Z.of_nat (size (unvisited g visited))).
Proof.
  induction fuel as [|fuel IH]; intros k depth visited m Hsize; [lia|].
  cbn [calculateDepth]. destruct (bool_decide (KeyNum k ∈ visited)) eqn:Hvisited.
  - exists m. split; [reflexivity|lia].
  - apply bool_decide_eq_false in Hvisited.
    destruct (decide (k ∈ graph_dom g)) as [Hdom|Hdom].
    + assert (Hstrict : unvisited g ({[KeyNum k]} ∪ visited) ⊂ unvisited g visited).
      { unfold unvisited. split.
        - intros x. rewrite !elem_of_filter. set_solver.
        - intros Hsub. specialize (Hsub k). rewrite !elem_of_filter in Hsub.
          destruct Hsub as [Hk _]; [split; assumption|]. set_solver. }
      apply subset_size in Hstrict.
      destruct (depth_neighbors_bound
                  (fun neighbor =>
                     calculateDepth fuel g (KeyNum neighbor) (depth + 1)
                       ({[KeyNum k]} ∪ visited))
                  (depth + 1
                   + Z.of_nat (size (unvisited g ({[KeyNum k]} ∪ visited)))))
        with (neighbors := neighbors_of g (KeyNum k)) (m := Z.max m depth)
        as [r [-> Hr]].
      * intros neighbor m0. apply IH. lia.
      * exists r. split; [reflexivity|lia].
    + rewrite neighbors_of_nil by exact Hdom. cbn [depth_neighbors].
      exists (Z.max m depth). split; [reflexivity|lia].
Qed.

Lemma unvisited_size (g : graph) (visited : gset jskey) :
  (size (unvisited g visited) <= length g)%nat.
Proof.
  etransitivity; [|apply graph_dom_size].
  apply subseteq_size. unfold unvisited. intros x. rewrite elem_of_filter. tauto.
Qed.

(** A call on a key of the graph, as [Object.keys] lists it. *)
Lemma calculateDepth_root_total (g : graph) (fuel : nat) (k m : Z) :
  (length g + 2 <= fuel)%nat ->
  exists r, calculateDepth fuel g (KeyStr k) 1 ∅ m = Some r /\
            m <= r <= Z.max m (Z.of_nat (length g) + 2).
Proof.
  intros Hfuel. destruct fuel as [|fuel]; [lia|]. cbn [calculateDepth].
  rewrite bool_decide_eq_false_2 by set_solver.
  pose proof (unvisited_size g ({[KeyStr k]} ∪ ∅)) as Hsize.
  destruct (depth_neighbors_bound
              (fun neighbor =>
                 calculateDepth fuel g (KeyNum neighbor) (1 + 1) ({[KeyStr k]} ∪ ∅))
              (1 + 1 + Z.of_nat (size (unvisited g ({[KeyStr k]} ∪ ∅)))))
    with (neighbors := neighbors_of g (KeyStr k)) (m := Z.max m 1)
    as [r [-> Hr]].
  - intros neighbor m0. apply calculateDepth_num_total. lia.
  - exists r. split; [reflexivity|lia].
Qed.

Lemma depth_roots_total (g : graph) (fuel : nat) (keys : list Z) (m : Z) :
  (length g + 2 <= fuel)%nat ->
  exists r, depth_roots fuel g keys m = Some r /\
            m <= r <= Z.max m (Z.of_nat (length g) + 2).
Proof.
  intros Hfuel. revert m. induction keys as [|k rest IH]; intros m; cbn [depth_roots].
  - exists m. split; [reflexivity|lia].
  - destruct (calculateDepth_root_total g fuel k m Hfuel) as [r1 [-> Hr1]].
    destruct (IH r1) as [r [-> Hr]]. exists r. split; [reflexivity|lia].
Qed.

(** More fuel does not change a result. *)
Lemma depth_neighbors_mono (recur recur' : Z -> Z -> option Z) :
  (forall neighbor m r, recur neighbor m = Some r -> recur' neighbor m = Some r) ->
  forall neighbors m r,
    depth_neighbors recur neighbors m = Some r ->
    depth_neighbors recur' neighbors m = Some r.
Proof.
  intros Hrecur neighbors.
  induction neighbors as [|neighbor rest IH]; intros m r; cbn [depth_neighbors].
  - auto.
  - destruct (recur neighbor m) as [r1|] eqn:E; [|discriminate].
    rewrite (Hrecur _ _ _ E). apply IH.
Qed.

Lemma calculateDepth_mono (g : graph) (fuel : nat) :
  forall (fuel' : nat) (node : jskey) (depth : Z) (visited : gset jskey) (m r : Z),
    (fuel <= fuel')%nat ->
    calculateDepth fuel g node depth visited m = Some r ->
    calculateDepth fuel' g node depth visited m = Some r.
Proof.
  induction fuel as [|fuel IH]; intros fuel' node depth visited m r Hle Hrun;
    [discriminate|].
  destruct fuel' as [|fuel']; [lia|]. cbn [calculateDepth] in Hrun |- *.
  destruct (bool_decide (node ∈ visited)); [exact Hrun|].
  eapply depth_neighbors_mono; [|exact Hrun].
  intros neighbor m0 r0. apply IH. lia.
Qed.

Lemma depth_roots_mono (g : graph) (fuel fuel' : nat) (keys : list Z) (m r : Z) :
  (fuel <= fuel')%nat ->
  depth_roots fuel g keys m = Some r -> depth_roots fuel' g keys m = Some r.
Proof.
  intros Hle. revert m. induction keys as [|k rest IH]; intros m; cbn [depth_roots].
  - auto.
  - destruct (calculateDepth fuel g (KeyStr k) 1 ∅ m) as [r1|] eqn:E; [|discriminate].
    rewrite (calculateDepth_mono g fuel fuel' _ _ _ _ _ Hle E). apply IH.
Qed.

Lemma graph_set_length (g : graph) (k : Z) (v : list Z) :
  (length (graph_set g k v) <= S (length g))%nat.
Proof.
  induction g as [|[k' v'] g IH]; cbn [graph_set length]; [lia|].
  destruct (k =? k'); cbn [length]; lia.
Qed.

Lemma buildDependencyGraph_length (plan : list Step.t) :
  (length (buildDependencyGraph plan) <= length plan)%nat.
Proof.
  unfold buildDependencyGraph.
  assert (H : forall g,
    (length (foldl (fun g step =>
                      graph_set g (Step.id step) (default [] (Step.dependencies step)))
               g plan) <= length g + length plan)%nat).
  { induction plan as [|step rest IH]; intros g; cbn [foldl length]; [lia|].
    etransitivity; [apply IH|]. pose proof (graph_set_length g (Step.id step)
      (default [] (Step.dependencies step))). lia. }
  apply (H []).
Qed.

(** The bound on the depth is reached: from key "1" the path goes through
    2, through 1 again as a number, and ends on the absent id 99. *)
Example depth_bound_reached :
  calculateMaxDependencyDepth
    (buildDependencyGraph [bare_step 1 [2; 99]; bare_step 2 [1]]) = 4.
Proof. vm_compute. reflexivity. Qed.

(** C8: on the graph of any plan, with or without cycles and whatever ids
    its dependencies name, the depth computation finishes once the fuel
    exceeds the number of keys of the graph by 2, with a result that no
    longer depends on the fuel and lies between 0 and the number of steps
    plus 2. *)
Theorem calculateMaxDependencyDepth_terminates (plan : list Step.t) (fuel : nat) :
  (length (buildDependencyGraph plan) + 2 <= fuel)%nat ->
  calculateMaxDependencyDepth_fuel fuel (buildDependencyGraph plan)
  = Some (calculateMaxDependencyDepth (buildDependencyGraph plan))
  /\ 0 <= calculateMaxDependencyDepth (buildDependencyGraph plan)
       <= Z.of_nat (length plan) + 2.
Proof.
  intros Hfuel. pose proof (buildDependencyGraph_length plan) as Hlen.
  set (g := buildDependencyGraph plan) in *. clearbody g.
  unfold calculateMaxDependencyDepth, calculateMaxDependencyDepth_fuel.
  destruct (depth_roots_total g (length g + 2) (Object_keys g) 0) as [r [Hr Hbound]];
    [lia|].
  rewrite Hr. change (default 0 (Some r)) with r. split.
  - apply (depth_roots_mono g (length g + 2)); [lia|exact Hr].
  - lia.
Qed.

Lemma calculateMaxDependencyDepth_terminates_witness :
  calculateMaxDependencyDepth_fuel 4
    (buildDependencyGraph [bare_step 1 [2; 99]; bare_step 2 [1]])
  = Some (calculateMaxDependencyDepth
            (buildDependencyGraph [bare_step 1 [2; 99]; bare_step 2 [1]]))
  /\ 0 <= calculateMaxDependencyDepth
            (buildDependencyGraph [bare_step 1 [2; 99]; bare_step 2 [1]])
       <= Z.of_nat (length [bare_step 1 [2; 99]; bare_step 2 [1]]) + 2.
Proof.
  apply (calculateMaxDependencyDepth_terminates
           [bare_step 1 [2; 99]; bare_step 2 [1]] 4).
  vm_compute. lia.
Defined.

(** ** Which findings can fail *)

Lemma validateFeasibility_not_failed (task : string) (plan : list Step.t) :
  Forall not_failed (validateFeasibility task plan).
Proof.
  unfold validateFeasibility. cbv zeta. apply Forall_app. split.
  - apply Forall_forall. intros v Hv. apply elem_of_lookup_imap in Hv.
    destruct Hv as [i [step [-> _]]]. unfold not_failed. cbn [Finding.type].
    destruct (assessStepFeasibility step); discriminate.
  - apply Forall_singleton. unfold not_failed. cbn [Finding.type].
    destruct (forallb _ _); discriminate.
Qed.

Lemma validateResources_not_failed (task : string) (plan : list Step.t) :
  Forall not_failed (validateResources task plan).
Proof.
  unfold validateResources. cbv zeta. apply Forall_app. split.
  - apply Forall_singleton. unfold not_failed. cbn [Finding.type].
    destruct (_ <=? _)%nat; discriminate.
  - destruct (_ <? _)%nat; [|constructor].
    apply Forall_singleton. unfold not_failed. cbn [Finding.type]. discriminate.
Qed.

Lemma assessTimeline_status (duration : string) (stepCount : nat) :
  status (assessTimeline duration stepCount) <> failed.
Proof.
  unfold assessTimeline.
  destruct (match weeks_match duration with
            | Some w => JsNumber.gtb (JsNumber.parseInt w) (Num 4)
            | None => false
            end); [cbn; discriminate|].
  destruct (10 <? stepCount)%nat; cbn; discriminate.
Qed.

Lemma validateTimeline_not_failed (task : string) (plan : list Step.t)
    (findings : list Finding.t) :
  validateTimeline task plan = Ok findings -> Forall not_failed findings.
Proof.
  unfold validateTimeline.
  destruct (calculatePlanDuration plan) as [totalDuration|]; cbn [bind]; [|discriminate].
  destruct (identifyUnbalancedDurations plan) as [unbalancedSteps|]; cbn [bind];
    [|discriminate].
  intros [= <-]. cbn [app]. constructor.
  - unfold not_failed. cbn [Finding.type]. apply assessTimeline_status.
  - destruct (_ <? _)%nat; [|constructor].
    apply Forall_singleton. unfold not_failed. cbn [Finding.type]. discriminate.
Qed.

Lemma validateRisks_not_failed (this : ValidatorAgent) (task : string)
    (plan : list Step.t) :
  Forall not_failed (validateRisks this task plan).
Proof.
  unfold validateRisks. cbv zeta. repeat (apply Forall_app; split).
  - destruct (_ <? _)%nat; [|constructor].
    apply Forall_singleton. unfold not_failed. cbn [Finding.type]. discriminate.
  - destruct (_ <? _)%nat; [|constructor].
    apply Forall_singleton. unfold not_failed. cbn [Finding.type]. discriminate.
  - apply Forall_singleton. unfold not_failed. cbn [Finding.type].
    destruct (JsNumber.geb _ _); discriminate.
Qed.

(** The findings of the dependency evaluator: an optional failed
    "circular-dependencies" finding, followed by findings that do not fail. *)
Lemma validateDependencies_shape (task : string) (plan : list Step.t) :
  exists circular rest,
    validateDependencies task plan = circular ++ rest /\
    Forall not_failed rest /\
    (circular = [] \/
     exists v, circular = [v] /\ Finding.type v = failed /\
               Finding.id v = "circular-dependencies" /\
               detectCircularDependencies (buildDependencyGraph plan) <> []) /\
    (detectCircularDependencies (buildDependencyGraph plan) = [] -> circular = []).
Proof.
  unfold validateDependencies. cbv zeta.
  set (circularDeps := detectCircularDependencies (buildDependencyGraph plan)).
  match goal with
  | |- context [?c ++ ?x ++ ?o] =>
      exists c, (x ++ o); split; [reflexivity|]
  end.
  split; [|split].
  - apply Forall_app. split.
    + destruct (_ <? _)%nat; [|constructor].
      apply Forall_singleton. unfold not_failed. cbn [Finding.type]. discriminate.
    + apply Forall_singleton. unfold not_failed. cbn [Finding.type].
      destruct (_ && _); discriminate.
  - destruct circularDeps as [|c l]; cbn [length Nat.ltb Nat.leb].
    + left. reflexivity.
    + right. eexists. repeat split. discriminate.
  - intros ->. reflexivity.
Qed.

(** The findings of a successful evaluation, evaluator by evaluator. *)
Lemma evaluate_constructor_inv (task : string) (steps : list Step.t)
    (r : validation_result) :
  evaluate constructor task (PlanArray steps) = Ok r ->
  exists timeline_findings,
    validateTimeline task steps = Ok timeline_findings /\
    let validations :=
      validateFeasibility task steps ++ validateResources task steps
      ++ timeline_findings ++ validateDependencies task steps
      ++ validateRisks constructor task steps in
    r = Success validations (calculateValidationScore validations)
          (generateValidationSummary validations (calculateValidationScore validations))
          (generateRecommendations validations).
Proof.
  unfold evaluate. cbn [validationRules constructor forEach call_rule bind].
  destruct (validateTimeline task steps) as [timeline_findings|e]; cbn [bind];
    [|discriminate].
  intros [= <-]. exists timeline_findings. split; [reflexivity|].
  cbv zeta. cbn [app]. rewrite <- !app_assoc. reflexivity.
Qed.

Lemma validatePlan_success (c : list string) (task : string) (steps : list Step.t)
    (r : validation_result) :
  snd (validatePlan {| agent := constructor; console := c |} task (PlanArray steps))
  = Resolved r ->
  (exists e, r = Failure e getFallbackValidations) \/
  evaluate constructor task (PlanArray steps) = Ok r.
Proof.
  unfold validatePlan. cbn [plan_length]. rewrite agent_log. cbn [agent].
  destruct (evaluate constructor task (PlanArray steps)) as [r'|e]; cbn [snd].
  - intros [= ->]. right. reflexivity.
  - intros [= <-]. left. exists e. reflexivity.
Qed.

Lemma no_failure_no_high_priority (validations : list Finding.t) :
  Forall not_failed validations ->
  forall r, r ∈ generateRecommendations validations -> priority r <> "High".
Proof.
  intros Hnf r. unfold generateRecommendations. cbv zeta.
  rewrite (filter_none (is_type failed) validations).
  2:{ intros v Hv. rewrite Forall_forall in Hnf.
      apply list_elem_of_In, Hnf in Hv. unfold is_type.
      apply bool_decide_eq_false. exact Hv. }
  cbn [length Nat.ltb Nat.leb app].
  rewrite !elem_of_app.
  intros [H|[H|H]];
    match type of H with
    | _ ∈ (if ?b then _ else _) => destruct b
    end;
    try (inversion H; fail);
    apply list_elem_of_singleton in H; subst r; cbn; discriminate.
Qed.

(** C10: in a successful result only the "circular-dependencies" finding
    can be failed, every other finding is passed or a warning, and a plan
    whose dependency graph has no cycle yields no failed finding and no
    high-priority recommendation. *)
Theorem only_circular_dependencies_fail (c : list string) (task : string)
    (steps : list Step.t) (validations : list Finding.t) (score : number)
    (summary : summary) (recommendations : list recommendation) :
  snd (validatePlan {| agent := constructor; console := c |} task (PlanArray steps))
  = Resolved (Success validations score summary recommendations) ->
  (forall v, v ∈ validations -> Finding.type v = failed ->
             Finding.id v = "circular-dependencies") /\
  (forall v, v ∈ validations -> Finding.id v <> "circular-dependencies" ->
             Finding.type v = passed \/ Finding.type v = warning) /\
  (~ cyclic (buildDependencyGraph steps) ->
   (forall v, v ∈ validations -> Finding.type v <> failed) /\
   (forall r, r ∈ recommendations -> priority r <> "High")).
Proof.
  intros Hrun. apply validatePlan_success in Hrun.
  destruct Hrun as [[e He]|Hrun]; [discriminate|].
  apply evaluate_constructor_inv in Hrun.
  destruct Hrun as [timeline_findings [Htimeline Hresult]]. cbv zeta in Hresult.
  injection Hresult as -> _ _ ->.
  pose proof (validateFeasibility_not_failed task steps) as HF.
  pose proof (validateResources_not_failed task steps) as HR.
  pose proof (validateTimeline_not_failed task steps _ Htimeline) as HT.
  pose proof (validateRisks_not_failed constructor task steps) as HK.
  destruct (validateDependencies_shape task steps)
    as [circular [rest [-> [Hrest [Hcircular Hnone]]]]].
  rewrite Forall_forall in HF, HR, HT, HK, Hrest.
  assert (Hfail : forall v,
    v ∈ validateFeasibility task steps ++ validateResources task steps
        ++ timeline_findings ++ (circular ++ rest)
        ++ validateRisks constructor task steps ->
    Finding.type v = failed -> Finding.id v = "circular-dependencies").
  { intros v Hv Hfailed. rewrite !elem_of_app in Hv.
    destruct Hv as [Hv|[Hv|[Hv|[[Hv|Hv]|Hv]]]];
      try (exfalso; revert Hfailed; change (not_failed v); auto; fail).
    destruct Hcircular as [->|[v' [-> [_ [Hid _]]]]]; [inversion Hv|].
    apply list_elem_of_singleton in Hv. subst v. exact Hid. }
  split; [exact Hfail|]. split.
  - intros v Hv Hid. destruct (Finding.type v) eqn:Htype; auto.
    exfalso. apply Hid. apply Hfail; assumption.
  - intros Hacyclic.
    assert (circular = []) as -> by
        (apply Hnone, detectCircularDependencies_acyclic; exact Hacyclic).
    assert (Hall : Forall not_failed
                     (validateFeasibility task steps ++ validateResources task steps
                      ++ timeline_findings ++ ([] ++ rest)
                      ++ validateRisks constructor task steps)).
    { rewrite Forall_forall. intros v Hv. rewrite !elem_of_app in Hv.
      destruct Hv as [Hv|[Hv|[Hv|[[Hv|Hv]|Hv]]]]; auto. inversion Hv. }
    split.
    + rewrite Forall_forall in Hall. exact Hall.
    + apply no_failure_no_high_priority. exact Hall.
Qed.

Lemma chain_plan_acyclic : ~ cyclic (buildDependencyGraph chain_plan).
Proof.
  assert (H : forall a b, reaches (buildDependencyGraph chain_plan) a b ->
                          a = 2 /\ b = 1).
  { assert (Hedge : forall a b, edge (buildDependencyGraph chain_plan) a b ->
                                a = 2 /\ b = 1).
    { intros a b Hab. unfold edge in Hab. cbn in Hab.
      destruct (Z.eqb_spec a 1); [inversion Hab|].
      destruct (Z.eqb_spec a 2); [|inversion Hab].
      apply list_elem_of_singleton in Hab. auto. }
    induction 1 as [a b Hab|a b d Hab _ IH].
    - apply Hedge. exact Hab.
    - apply Hedge in Hab. lia. }
  intros [k Hk]. apply H in Hk. lia.
Qed.

Lemma only_circular_dependencies_fail_witness :
  exists validations score summary recommendations,
    snd (validatePlan {| agent := constructor; console := [] |} "Plan a release"
           (PlanArray chain_plan))
    = Resolved (Success validations score summary recommendations) /\
    (forall v, v ∈ validations -> Finding.type v <> failed) /\
    (forall r, r ∈ recommendations -> priority r <> "High").
Proof.
  eexists _, _, _, _. split.
  - vm_compute. reflexivity.
  - refine (proj2 (proj2 (only_circular_dependencies_fail [] "Plan a release"
                            chain_plan _ _ _ _ _)) chain_plan_acyclic).
    vm_compute. reflexivity.
Defined.

(** ** The validation score *)

Lemma weight_half_points (t : finding_type) :
  weight t = Num (Qred (inject_Z (half_points t) / 2)).
Proof. destruct t; reflexivity. Qed.

Lemma weight_value_half_points (t : finding_type) :
  (weight_value t == inject_Z (half_points t) / 2)%Q.
Proof. destruct t; reflexivity. Qed.

Lemma sum_weights_half_points (validations : list Finding.t) :
  (sum_weights validations == inject_Z (total_half_points validations) / 2)%Q.
Proof.
  induction validations as [|v l IH].
  - reflexivity.
  - change (sum_weights (v :: l)) with (weight_value (Finding.type v) + sum_weights l)%Q.
    change (total_half_points (v :: l))
      with (half_points (Finding.type v) + total_half_points l).
    rewrite IH, weight_value_half_points, inject_Z_plus. field.
Qed.

Lemma total_half_points_range (validations : list Finding.t) :
  0 <= total_half_points validations <= 2 * Z.of_nat (length validations).
Proof.
  induction validations as [|v l IH]; [cbn; lia|].
  change (total_half_points (v :: l))
    with (half_points (Finding.type v) + total_half_points l).
  cbn [length]. destruct (Finding.type v); cbn [half_points]; lia.
Qed.

(** The sum of the weights is a multiple of 1/2 below [2^53] on any array:
    the additions are exact. *)
Lemma totalScore_half_points (validations : list Finding.t) (acc : Z) :
  0 <= acc -> acc + 2 * Z.of_nat (length validations) <= 2 ^ 53 ->
  foldl (fun score validation => JsNumber.add score (weight (Finding.type validation)))
    (Num (Qred (inject_Z acc / 2))) validations
  = Num (Qred (inject_Z (acc + total_half_points validations) / 2)).
Proof.
  revert acc. induction validations as [|v l IH]; intros acc Hacc Hbound.
  - cbn [foldl]. change (total_half_points []) with 0. rewrite Z.add_0_r. reflexivity.
  - cbn [foldl]. cbn [length] in Hbound.
    change (total_half_points (v :: l))
      with (half_points (Finding.type v) + total_half_points l).
    assert (Hv : 0 <= half_points (Finding.type v) <= 2)
      by (destruct (Finding.type v); cbn; lia).
    rewrite weight_half_points, add_halves by lia.
    rewrite IH by lia. rewrite Z.add_assoc. reflexivity.
Qed.

Lemma all_passed_half_points (validations : list Finding.t) :
  Forall (fun v => Finding.type v = passed) validations <->
  total_half_points validations = 2 * Z.of_nat (length validations).
Proof.
  induction validations as [|v l IH]; [split; [reflexivity|constructor]|].
  change (total_half_points (v :: l))
    with (half_points (Finding.type v) + total_half_points l).
  pose proof (total_half_points_range l) as Hrange.
  cbn [length]. rewrite Forall_cons, IH.
  destruct (Finding.type v); cbn [half_points];
    intuition (try congruence; try lia).
Qed.

Lemma all_failed_half_points (validations : list Finding.t) :
  Forall (fun v => Finding.type v = failed) validations <->
  total_half_points validations = 0.
Proof.
  induction validations as [|v l IH]; [split; [reflexivity|constructor]|].
  change (total_half_points (v :: l))
    with (half_points (Finding.type v) + total_half_points l).
  pose proof (total_half_points_range l) as Hrange.
  rewrite Forall_cons, IH.
  destruct (Finding.type v); cbn [half_points];
    intuition (try congruence; try lia).
Qed.

(** The exact score, in percent. *)
Lemma exact_score_half_points (validations : list Finding.t) :
  validations <> [] ->
  (100 * sum_weights validations / inject_Z (Z.of_nat (length validations))
   == 100 * inject_Z (total_half_points validations)
      / inject_Z (2 * Z.of_nat (length validations)))%Q.
Proof.
  intros Hne. rewrite sum_weights_half_points, inject_Z_mult.
  change (inject_Z 2) with 2%Q. field.
  intros H. unfold Qeq in H. cbn in H. destruct validations; [congruence|].
  cbn [length] in H. lia.
Qed.

(** On an array that is not empty the score is an integer nearest to the
    exact percentage; it is the percentage rounded half up unless the
    percentage lies halfway between two integers. *)
Lemma calculateValidationScore_nonempty (validations : list Finding.t) :
  validations <> [] -> Z.of_nat (length validations) < 2 ^ 32 ->
  let n := Z.of_nat (length validations) in
  let k := total_half_points validations in
  exists z : Z,
    calculateValidationScore validations = Num (inject_Z z) /\
    (inject_Z z - (1 # 2) <= 100 * inject_Z k / inject_Z (2 * n)
     <= inject_Z z + (1 # 2))%Q /\
    ((100 * k + n) mod (2 * n) <> 0 -> z = (100 * k + n) / (2 * n)).
Proof.
  intros Hne Hlen n k.
  assert (Hn : 0 < n) by (subst n; destruct validations; [congruence|cbn [length]; lia]).
  pose proof (total_half_points_range validations) as Hk. fold n k in Hk.
  unfold calculateValidationScore. cbv zeta.
  change (Num 0) with (Num (Qred (inject_Z 0 / 2))).
  rewrite totalScore_half_points by lia. rewrite Z.add_0_l. fold k.
  unfold JsNumber.of_nat, JsNumber.of_Z. rewrite of_Q_integer by lia. fold n.
  destruct (percentage_rounded (Qred (inject_Z k / 2)) (inject_Z n) k (2 * n))
    as (z & Hz & Hnear & Hexact); [lia|lia| | |].
  { intros H. unfold Qeq in H. cbn in H. lia. }
  { rewrite Qred_correct, inject_Z_mult. change (inject_Z 2) with 2%Q. field.
    intros H. unfold Qeq in H. cbn in H. lia. }
  exists z. split; [exact Hz|]. split; [exact Hnear|].
  intros Htie. rewrite Hexact.
  - replace (200 * k + 2 * n) with (2 * (100 * k + n)) by lia.
    apply Z.div_mul_cancel_l; lia.
  - replace (200 * k + 2 * n) with (2 * (100 * k + n)) by lia.
    rewrite Z.mul_mod_distr_l by lia. lia.
Qed.

Lemma nearest_percentage_bounds (z k n : Z) :
  0 < n ->
  (inject_Z z - (1 # 2) <= 100 * inject_Z k / inject_Z (2 * n)
   <= inject_Z z + (1 # 2))%Q ->
  (2 * z - 1) * n <= 100 * k <= (2 * z + 1) * n.
Proof.
  intros Hn [Hlow Hup].
  assert (HN : (0 < inject_Z n)%Q) by (apply inject_Z_pos; exact Hn).
  assert (Hexact : (100 * inject_Z k / inject_Z (2 * n) * inject_Z n
                    == inject_Z (50 * k))%Q).
  { rewrite !inject_Z_mult. change (inject_Z 2) with 2%Q.
    change (inject_Z 50) with 50%Q. field. lra. }
  split.
  - assert ((inject_Z z - (1 # 2)) * inject_Z n
            <= 100 * inject_Z k / inject_Z (2 * n) * inject_Z n)%Q as H
      by (apply Qmult_le_compat_r; lra).
    rewrite Hexact in H.
    assert (inject_Z ((2 * z - 1) * n) <= inject_Z (100 * k))%Q as H';
      [|rewrite <- Zle_Qle in H'; exact H'].
    rewrite !inject_Z_mult, inject_Z_minus, inject_Z_mult in *.
    change (inject_Z 2) with 2%Q. change (inject_Z 1) with 1%Q.
    change (inject_Z 100) with 100%Q. change (inject_Z 50) with 50%Q in H. lra.
  - assert (100 * inject_Z k / inject_Z (2 * n) * inject_Z n
            <= (inject_Z z + (1 # 2)) * inject_Z n)%Q as H
      by (apply Qmult_le_compat_r; lra).
    rewrite Hexact in H.
    assert (inject_Z (100 * k) <= inject_Z ((2 * z + 1) * n))%Q as H';
      [|rewrite <- Zle_Qle in H'; exact H'].
    rewrite !inject_Z_mult, inject_Z_plus, inject_Z_mult in *.
    change (inject_Z 2) with 2%Q. change (inject_Z 1) with 1%Q.
    change (inject_Z 100) with 100%Q. change (inject_Z 50) with 50%Q in H. lra.
Qed.

Lemma total_half_points_app (a b : list Finding.t) :
  total_half_points (a ++ b) = total_half_points a + total_half_points b.
Proof.
  induction a as [|v a IH]; [reflexivity|].
  change (total_half_points ((v :: a) ++ b))
    with (half_points (Finding.type v) + total_half_points (a ++ b)).
  change (total_half_points (v :: a))
    with (half_points (Finding.type v) + total_half_points a).
  rewrite IH. lia.
Qed.

Lemma not_failed_half_points (validations : list Finding.t) :
  Forall not_failed validations ->
  Z.of_nat (length validations) <= total_half_points validations.
Proof.
  induction 1 as [|v l Hv _ IH]; [cbn; lia|].
  change (total_half_points (v :: l))
    with (half_points (Finding.type v) + total_half_points l).
  cbn [length]. unfold not_failed in Hv.
  destruct (Finding.type v); cbn [half_points]; try congruence; lia.
Qed.

(** The findings of a successful validation: at most one of them is
    failed, and the overall feasibility finding is not. *)
Lemma validatePlan_half_points (c : list string) (task : string)
    (steps : list Step.t) (validations : list Finding.t) (score : number)
    (summary : summary) (recommendations : list recommendation) :
  snd (validatePlan {| agent := constructor; console := c |} task (PlanArray steps))
  = Resolved (Success validations score summary recommendations) ->
  score = calculateValidationScore validations /\
  1 <= total_half_points validations /\
  Z.of_nat (length validations) <= total_half_points validations + 1.
Proof.
  intros Hrun. apply validatePlan_success in Hrun.
  destruct Hrun as [[e He]|Hrun]; [discriminate|].
  apply evaluate_constructor_inv in Hrun.
  destruct Hrun as [timeline_findings [Htimeline Hresult]]. cbv zeta in Hresult.
  match type of Hresult with
  | _ = Success ?v _ _ _ =>
      assert (validations = v) as Hv by congruence;
      assert (score = calculateValidationScore v) as Hs by congruence
  end.
  clear Hresult. subst validations score. split; [reflexivity|].
  pose proof (not_failed_half_points _ (validateFeasibility_not_failed task steps)) as HF.
  pose proof (not_failed_half_points _ (validateResources_not_failed task steps)) as HR.
  pose proof (not_failed_half_points _
                (validateTimeline_not_failed task steps _ Htimeline)) as HT.
  pose proof (not_failed_half_points _
                (validateRisks_not_failed constructor task steps)) as HK.
  destruct (validateDependencies_shape task steps)
    as [circular [rest [-> [Hrest [Hcircular _]]]]].
  apply not_failed_half_points in Hrest.
  assert (Hone : (1 <= length (validateFeasibility task steps))%nat).
  { unfold validateFeasibility. cbv zeta. rewrite length_app. cbn [length]. lia. }
  assert (Hcirc : (length circular <= 1)%nat /\ 0 <= total_half_points circular).
  { destruct Hcircular as [->|[v [-> _]]]; cbn [length].
    - cbn. lia.
    - pose proof (total_half_points_range [v]). lia. }
  rewrite !total_half_points_app, !length_app. split; lia.
Qed.

(** What the score of an array of findings is, in terms of the exact
    percentage [100 * sum(weights) / count]. *)
Lemma calculateValidationScore_spec (validations : list Finding.t) :
  validations <> [] -> Z.of_nat (length validations) < 2 ^ 32 ->
  let exact :=
    (100 * sum_weights validations / inject_Z (Z.of_nat (length validations)))%Q in
  exists z : Z,
    calculateValidationScore validations = Num (inject_Z z) /\
    (inject_Z z - (1 # 2) <= exact <= inject_Z z + (1 # 2))%Q /\
    ((forall i : Z, ~ (exact == inject_Z i + (1 # 2))%Q) ->
     z = JsNumber.round_half_up exact) /\
    0 <= z <= 100 /\
    (Forall (fun v => Finding.type v = passed) validations -> z = 100) /\
    ((length validations < 100)%nat -> z = 100 ->
     Forall (fun v => Finding.type v = passed) validations) /\
    (Forall (fun v => Finding.type v = failed) validations -> z = 0) /\
    ((length validations < 100)%nat -> z = 0 ->
     Forall (fun v => Finding.type v = failed) validations).
Proof.
  intros Hne Hlen exact.
  destruct (calculateValidationScore_nonempty validations Hne Hlen)
    as (z & Hscore & Hnear & Hexact). cbv zeta in Hnear, Hexact.
  pose proof (exact_score_half_points validations Hne) as Hratio. fold exact in Hratio.
  rewrite <- Hratio in Hnear.
  pose proof (total_half_points_range validations) as Hrange.
  pose proof (all_passed_half_points validations) as Hpassed.
  pose proof (all_failed_half_points validations) as Hfailed.
  set (k := total_half_points validations) in *.
  set (n := Z.of_nat (length validations)) in *.
  assert (Hn : 0 < n) by (subst n; destruct validations; [congruence|cbn [length]; lia]).
  assert (Hsmall : (length validations < 100)%nat -> n < 100) by (subst n; lia).
  assert (HN : (0 < inject_Z n)%Q) by (apply inject_Z_pos; exact Hn).
  assert (Hexact_n : (exact * inject_Z n == inject_Z (50 * k))%Q).
  { rewrite Hratio, !inject_Z_mult. change (inject_Z 2) with 2%Q.
    change (inject_Z 50) with 50%Q. field. lra. }
  (* twice the distance of the score to the exact percentage, times n *)
  assert (Hz : (2 * z - 1) * n <= 100 * k <= (2 * z + 1) * n).
  { destruct Hnear as [Hlow Hup]. split.
    - assert ((inject_Z z - (1 # 2)) * inject_Z n <= exact * inject_Z n)%Q as H
        by (apply Qmult_le_compat_r; lra).
      rewrite Hexact_n in H.
      assert (inject_Z ((2 * z - 1) * n) <= inject_Z (100 * k))%Q as H';
        [|rewrite <- Zle_Qle in H'; exact H'].
      rewrite !inject_Z_mult, inject_Z_minus, inject_Z_mult in *.
      change (inject_Z 2) with 2%Q. change (inject_Z 1) with 1%Q.
      change (inject_Z 100) with 100%Q. change (inject_Z 50) with 50%Q in H. lra.
    - assert (exact * inject_Z n <= (inject_Z z + (1 # 2)) * inject_Z n)%Q as H
        by (apply Qmult_le_compat_r; lra).
      rewrite Hexact_n in H.
      assert (inject_Z (100 * k) <= inject_Z ((2 * z + 1) * n))%Q as H';
        [|rewrite <- Zle_Qle in H'; exact H'].
      rewrite !inject_Z_mult, inject_Z_plus, inject_Z_mult in *.
      change (inject_Z 2) with 2%Q. change (inject_Z 1) with 1%Q.
      change (inject_Z 100) with 100%Q. change (inject_Z 50) with 50%Q in H. lra. }
  exists z. split; [exact Hscore|]. split; [exact Hnear|].
  assert (Htie : (100 * k + n) mod (2 * n) = 0 ->
                 exists i : Z, (exact == inject_Z i + (1 # 2))%Q).
  { intros Hmod. exists ((100 * k + n) / (2 * n) - 1).
    pose proof (Z.div_mod (100 * k + n) (2 * n)) as Hdiv. rewrite Hmod in Hdiv.
    set (q := (100 * k + n) / (2 * n)) in *.
    assert (Hq : 100 * k + n = 2 * n * q) by lia.
    apply (Qmult_inj_r _ _ (inject_Z n)); [lra|]. rewrite Hexact_n.
    assert (Hq' : (inject_Z (100 * k + n) == inject_Z (2 * n * q))%Q) by (rewrite Hq; reflexivity).
    rewrite inject_Z_plus, !inject_Z_mult in Hq'. rewrite inject_Z_mult, inject_Z_minus.
    change (inject_Z 2) with 2%Q in Hq'. change (inject_Z 100) with 100%Q in Hq'.
    change (inject_Z 50) with 50%Q. change (inject_Z 1) with 1%Q. lra. }
  split.
  { intros Hnot. rewrite Hexact.
    - symmetry. apply round_percentage; [exact Hn|].
      unfold exact. rewrite sum_weights_half_points. fold k. field. lra.
    - intros Hmod. destruct (Htie Hmod) as [i Hi]. exact (Hnot i Hi). }
  assert (Hfull : z = 100 -> n < 100 -> k = 2 * n) by (intros; nia).
  assert (Hnone : z = 0 -> n < 100 -> k = 0) by (intros; nia).
  clearbody k n. repeat split.
  - nia.
  - nia.
  - intros Hk. apply Hpassed in Hk. nia.
  - intros Hlt Hq. apply Hpassed. apply Hfull; [exact Hq|exact (Hsmall Hlt)].
  - intros Hk. apply Hfailed in Hk. nia.
  - intros Hlt Hq. apply Hfailed. apply Hnone; [exact Hq|exact (Hsmall Hlt)].
Qed.

(** C1, as the code has it: the score of a successful validation is an
    integer nearest to [100 * sum(weights) / count], the value rounded half
    up unless it lies halfway between two integers, where the rounding of the
    quotient and of the product decides.  The score lies between 0 and 100;
    it is 100 when every finding is passed, and with fewer than 100 findings
    only then.  It is never 0, and the findings are never all failed. *)
Theorem validation_score_rounded (c : list string) (task : string)
    (steps : list Step.t) (validations : list Finding.t) (score : number)
    (summary : summary) (recommendations : list recommendation) :
  Z.of_nat (length validations) < 2 ^ 32 ->
  snd (validatePlan {| agent := constructor; console := c |} task (PlanArray steps))
  = Resolved (Success validations score summary recommendations) ->
  let exact :=
    (100 * sum_weights validations / inject_Z (Z.of_nat (length validations)))%Q in
  exists z : Z,
    score = Num (inject_Z z) /\
    (inject_Z z - (1 # 2) <= exact <= inject_Z z + (1 # 2))%Q /\
    ((forall i : Z, ~ (exact == inject_Z i + (1 # 2))%Q) ->
     z = JsNumber.round_half_up exact) /\
    0 <= z <= 100 /\
    (Forall (fun v => Finding.type v = passed) validations -> z = 100) /\
    ((length validations < 100)%nat -> z = 100 ->
     Forall (fun v => Finding.type v = passed) validations) /\
    z <> 0 /\ ~ Forall (fun v => Finding.type v = failed) validations.
Proof.
  intros Hlen Hrun exact. apply validatePlan_half_points in Hrun.
  destruct Hrun as [-> [Hpos Hmost]].
  assert (Hne : validations <> []).
  { intros ->. cbn in Hpos. lia. }
  destruct (calculateValidationScore_spec validations Hne Hlen)
    as (z & Hscore & Hnear & Hround & Hrange & Hall & Honly & _ & _).
  fold exact in Hnear, Hround.
  exists z. split; [exact Hscore|]. split; [exact Hnear|]. split; [exact Hround|].
  split; [exact Hrange|]. split; [exact Hall|]. split; [exact Honly|].
  pose proof (all_failed_half_points validations) as Hfailed.
  split; [|intros H; apply Hfailed in H; lia].
  intros ->. destruct Hnear as [_ Hup]. change (inject_Z 0) with 0%Q in Hup.
  pose proof (exact_score_half_points validations Hne) as Hratio. fold exact in Hratio.
  set (k := total_half_points validations) in *.
  set (n := Z.of_nat (length validations)) in *.
  assert (Hn : 0 < n) by (pose proof (total_half_points_range validations); lia).
  assert (HN : (0 < inject_Z (2 * n))%Q) by (apply inject_Z_pos; lia).
  rewrite Hratio in Hup.
  assert (H : (100 * inject_Z k <= (1 # 2) * inject_Z (2 * n))%Q).
  { apply (Qmult_le_r _ _ (/ inject_Z (2 * n))); [apply Qinv_lt_0_compat; exact HN|].
    unfold Qdiv in Hup. rewrite <- (Qmult_assoc (1 # 2)), Qmult_inv_r by lra. lra. }
  assert (H' : (inject_Z (100 * k) <= inject_Z n)%Q).
  { rewrite !inject_Z_mult in *. change (inject_Z 2) with 2%Q in H.
    change (inject_Z 100) with 100%Q. lra. }
  rewrite <- Zle_Qle in H'. lia.
Qed.

(** With 104 findings passed and one a warning the score is
    [Math.round(99.52...)], that is 100; and with 3 findings passed and 17
    warnings the exact percentage is 57.5, but [11.5 / 20] is stored as a
    double just below 0.575, its product with 100 is just below 57.5, and
    the score is 57, not 58. *)
Lemma validation_score_counterexample :
  (exists validations summary recommendations,
      snd (validatePlan {| agent := constructor; console := [] |} "Prepare the launch"
             (PlanArray (map prepared_step (seq 0 100))))
      = Resolved (Success validations (Num 100) summary recommendations) /\
      length validations = 105%nat /\
      ~ Forall (fun v => Finding.type v = passed) validations) /\
  (exists validations summary recommendations,
      snd (validatePlan {| agent := constructor; console := [] |} "Ship the release"
             (PlanArray pressed_plan))
      = Resolved (Success validations (Num 57) summary recommendations) /\
      length validations = 20%nat /\
      JsNumber.round_half_up
        (100 * sum_weights validations / inject_Z (Z.of_nat (length validations)))
      = 58).
Proof.
  split.
  - eexists _, _, _. split; [vm_compute; reflexivity|]. split; [reflexivity|].
    intros Hall. rewrite Forall_lookup in Hall.
    specialize (Hall 102%nat _ eq_refl). discriminate Hall.
  - eexists _, _, _. split; [vm_compute; reflexivity|]. split; reflexivity.
Qed.

Lemma validation_score_rounded_witness :
  exists validations score summary recommendations,
    snd (validatePlan {| agent := constructor; console := [] |} "Plan a release"
           (PlanArray chain_plan))
    = Resolved (Success validations score summary recommendations) /\
    Z.of_nat (length validations) < 2 ^ 32 /\
    let exact :=
      (100 * sum_weights validations / inject_Z (Z.of_nat (length validations)))%Q in
    exists z : Z,
      score = Num (inject_Z z) /\
      (inject_Z z - (1 # 2) <= exact <= inject_Z z + (1 # 2))%Q /\
      ((forall i : Z, ~ (exact == inject_Z i + (1 # 2))%Q) ->
       z = JsNumber.round_half_up exact) /\
      0 <= z <= 100 /\
      (Forall (fun v => Finding.type v = passed) validations -> z = 100) /\
      ((length validations < 100)%nat -> z = 100 ->
       Forall (fun v => Finding.type v = passed) validations) /\
      z <> 0 /\ ~ Forall (fun v => Finding.type v = failed) validations.
Proof.
  eexists _, _, _, _. split; [vm_compute; reflexivity|].
  split; [vm_compute; reflexivity|].
  eapply (validation_score_rounded [] "Plan a release" chain_plan).
  - vm_compute. reflexivity.
  - vm_compute. reflexivity.
Defined.

(** * Further properties of the validator *)

(** ** The dependency graph as an object *)

Lemma graph_get_set (g : graph) (k k' : Z) (v : list Z) :
  graph_get (graph_set g k v) k' = if k' =? k then Some v else graph_get g k'.
Proof.
  induction g as [|[k0 v0] g IH]; cbn [graph_set graph_get].
  - reflexivity.
  - destruct (Z.eqb_spec k k0) as [->|Hne]; cbn [graph_get].
    + destruct (Z.eqb_spec k' k0); reflexivity.
    + rewrite IH. destruct (Z.eqb_spec k' k0) as [->|]; [|reflexivity].
      destruct (Z.eqb_spec k0 k); [congruence|reflexivity].
Qed.

Lemma graph_set_keys (g : graph) (k : Z) (v : list Z) :
  map fst (graph_set g k v)
  = if bool_decide (k ∈ map fst g) then map fst g else map fst g ++ [k].
Proof.
  induction g as [|[k0 v0] g IH]; cbn [graph_set map fst].
  - rewrite bool_decide_eq_false_2 by (intros H; inversion H). reflexivity.
  - destruct (Z.eqb_spec k k0) as [->|Hne]; cbn [map fst].
    + rewrite bool_decide_eq_true_2 by (left). reflexivity.
    + rewrite IH. destruct (bool_decide (k ∈ map fst g)) eqn:E.
      * apply bool_decide_eq_true in E.
        rewrite bool_decide_eq_true_2 by (right; exact E). reflexivity.
      * apply bool_decide_eq_false in E.
        rewrite bool_decide_eq_false_2; [reflexivity|].
        intros H. apply elem_of_cons in H. destruct H; [congruence|contradiction].
Qed.

Lemma buildDependencyGraph_snoc (plan : list Step.t) (step : Step.t) :
  buildDependencyGraph (plan ++ [step])
  = graph_set (buildDependencyGraph plan) (Step.id step)
      (default [] (Step.dependencies step)).
Proof. unfold buildDependencyGraph. rewrite foldl_app. reflexivity. Qed.

Lemma buildDependencyGraph_absent (plan : list Step.t) (k : Z) :
  (forall s, s ∈ plan -> Step.id s <> k) ->
  graph_get (buildDependencyGraph plan) k = None.
Proof.
  induction plan as [|step plan IH] using rev_ind; intros Hno; [reflexivity|].
  rewrite buildDependencyGraph_snoc, graph_get_set.
  destruct (Z.eqb_spec k (Step.id step)) as [->|Hne].
  - exfalso. apply (Hno step); [|reflexivity]. apply elem_of_app. right. left.
  - apply IH. intros s Hs. apply Hno. apply elem_of_app. left. exact Hs.
Qed.

Lemma buildDependencyGraph_last (plan before after : list Step.t) (step : Step.t) :
  plan = before ++ step :: after ->
  (forall s, s ∈ after -> Step.id s <> Step.id step) ->
  graph_get (buildDependencyGraph plan) (Step.id step)
  = Some (default [] (Step.dependencies step)).
Proof.
  intros -> Hlast. revert Hlast.
  induction after as [|s after IH] using rev_ind; intros Hlast.
  - rewrite buildDependencyGraph_snoc, graph_get_set, Z.eqb_refl. reflexivity.
  - rewrite app_comm_cons, app_assoc, buildDependencyGraph_snoc, graph_get_set.
    destruct (Z.eqb_spec (Step.id step) (Step.id s)) as [Heq|Hne].
    + exfalso. apply (Hlast s); [|congruence]. apply elem_of_app. right. left.
    + apply IH. intros s' Hs'. apply Hlast. apply elem_of_app. left. exact Hs'.
Qed.

Lemma buildDependencyGraph_keys (plan : list Step.t) :
  NoDup (map fst (buildDependencyGraph plan)) /\
  (forall k, k ∈ map fst (buildDependencyGraph plan) <->
             exists s, s ∈ plan /\ Step.id s = k).
Proof.
  induction plan as [|step plan [IHnd IHkeys]] using rev_ind.
  - split; [constructor|]. intros k. split; [intros H; inversion H|].
    intros [s [Hs _]]. inversion Hs.
  - rewrite buildDependencyGraph_snoc, graph_set_keys.
    destruct (bool_decide (Step.id step ∈ map fst (buildDependencyGraph plan)))
      eqn:E.
    + apply bool_decide_eq_true in E. split; [exact IHnd|].
      intros k. rewrite IHkeys. split.
      * intros [s [Hs Hk]]. exists s. split; [|exact Hk].
        apply elem_of_app. left. exact Hs.
      * intros [s [Hs Hk]]. apply elem_of_app in Hs. destruct Hs as [Hs|Hs].
        -- exists s. auto.
        -- apply list_elem_of_singleton in Hs. subst s. apply IHkeys.
           rewrite <- Hk. exact E.
    + apply bool_decide_eq_false in E. split.
      * apply NoDup_app. repeat split; [exact IHnd| |apply NoDup_singleton].
        intros x Hx Hx'. apply list_elem_of_singleton in Hx'. subst x. contradiction.
      * intros k. rewrite elem_of_app, list_elem_of_singleton, IHkeys. split.
        -- intros [[s [Hs Hk]] | ->].
           ++ exists s. split; [|exact Hk]. apply elem_of_app. left. exact Hs.
           ++ exists step. split; [|reflexivity]. apply elem_of_app. right. left.
        -- intros [s [Hs Hk]]. apply elem_of_app in Hs. destruct Hs as [Hs|Hs].
           ++ left. exists s. auto.
           ++ apply list_elem_of_singleton in Hs. subst s. right. auto.
Qed.

(** X1: the graph stores under each id the dependency list of the last step
    that carries it (an absent list counts as empty) and nothing under an id
    no step carries; no key is stored twice, and the keys are the ids of the
    steps. *)
Theorem buildDependencyGraph_lookup (plan : list Step.t) :
  (forall (before after : list Step.t) (step : Step.t),
      plan = before ++ step :: after ->
      (forall s, s ∈ after -> Step.id s <> Step.id step) ->
      graph_get (buildDependencyGraph plan) (Step.id step)
      = Some (default [] (Step.dependencies step))) /\
  (forall k, (forall s, s ∈ plan -> Step.id s <> k) ->
             graph_get (buildDependencyGraph plan) k = None) /\
  NoDup (map fst (buildDependencyGraph plan)) /\
  (forall k, k ∈ map fst (buildDependencyGraph plan) <->
             exists s, s ∈ plan /\ Step.id s = k).
Proof.
  split; [|split; [apply buildDependencyGraph_absent|apply buildDependencyGraph_keys]].
  intros before after step. apply buildDependencyGraph_last.
Qed.

Lemma buildDependencyGraph_lookup_witness :
  graph_get (buildDependencyGraph [bare_step 1 [2]; bare_step 2 []; bare_step 1 [3]])
    (Step.id (bare_step 1 [3]))
  = Some (default [] (Step.dependencies (bare_step 1 [3]))).
Proof.
  apply (proj1 (buildDependencyGraph_lookup
                  [bare_step 1 [2]; bare_step 2 []; bare_step 1 [3]])
           [bare_step 1 [2]; bare_step 2 []] [] (bare_step 1 [3])).
  - reflexivity.
  - intros s Hs. inversion Hs.
Defined.

(** ** The order of the keys *)

Lemma insert_sorted_perm (k : Z) (l : list Z) : insert_sorted k l ≡ₚ k :: l.
Proof.
  induction l as [|x l IH]; cbn [insert_sorted]; [reflexivity|].
  destruct (k <=? x); [reflexivity|]. rewrite IH. apply Permutation_swap.
Qed.

Lemma sort_ascending_perm (l : list Z) : sort_ascending l ≡ₚ l.
Proof.
  unfold sort_ascending. induction l as [|x l IH]; cbn [foldr]; [reflexivity|].
  rewrite insert_sorted_perm, IH. reflexivity.
Qed.

Lemma filter_split_perm {A : Type} (test : A -> bool) (l : list A) :
  List.filter test l ++ List.filter (fun x => negb (test x)) l ≡ₚ l.
Proof.
  induction l as [|x l IH]; cbn [List.filter]; [reflexivity|].
  destruct (test x); cbn [negb app].
  - rewrite IH. reflexivity.
  - rewrite <- Permutation_middle, IH. reflexivity.
Qed.

(** [Object.keys] lists every key once, whatever the order. *)
Lemma Object_keys_perm (g : graph) : Object_keys g ≡ₚ map fst g.
Proof.
  unfold Object_keys. rewrite sort_ascending_perm. apply filter_split_perm.
Qed.

Lemma complex_fold (entries : list (Z * list Z)) (acc : list complex_entry) :
  foldl (fun complex '(node, deps) =>
           if (2 <? length deps)%nat
           then complex ++ [ {| cx_step := JsNumber.parseInt (key_text node);
                                cx_dependencies := length deps;
                                cx_assessment := "Complex" |} ]
           else complex) acc entries
  = acc ++ map (fun p => {| cx_step := JsNumber.parseInt (key_text (fst p));
                            cx_dependencies := length (snd p);
                            cx_assessment := "Complex" |})
             (List.filter (fun p => (2 <? length (snd p))%nat) entries).
Proof.
  revert acc. induction entries as [|[node deps] entries IH]; intros acc;
    cbn [foldl List.filter map fst snd].
  - rewrite app_nil_r. reflexivity.
  - rewrite IH. destruct (2 <? length deps)%nat; cbn [map fst snd].
    + rewrite <- app_assoc. reflexivity.
    + reflexivity.
Qed.

(** The step of an entry is [parseInt] of the key: an id from [1e21] on is
    spelled with an exponent, of which [parseInt] reads the leading digit. *)
Example identifyComplexDependencies_exponent :
  identifyComplexDependencies
    (buildDependencyGraph [bare_step 1000000000000000000000 [1; 2; 3]])
  = [ {| cx_step := Num 1; cx_dependencies := 3; cx_assessment := "Complex" |} ].
Proof. vm_compute. reflexivity. Qed.

(** X2: when the ids are safe integers, the steps reported as complex are
    exactly the ids under which the graph stores more than two dependencies,
    each reported once together with the number of its dependencies. *)
Theorem identifyComplexDependencies_spec (plan : list Step.t) :
  Forall (fun step => safe_integer (Step.id step)) plan ->
  NoDup (map cx_step (identifyComplexDependencies (buildDependencyGraph plan))) /\
  forall e : complex_entry,
    e ∈ identifyComplexDependencies (buildDependencyGraph plan) <->
    exists (k : Z) (deps : list Z),
      cx_step e = Num (inject_Z k) /\
      graph_get (buildDependencyGraph plan) k = Some deps /\
      (2 < length deps)%nat /\
      cx_dependencies e = length deps /\ cx_assessment e = "Complex".
Proof.
  intros Hsafe. destruct (buildDependencyGraph_keys plan) as [Hnd Hkeys].
  assert (Hsafe_keys : forall k, k ∈ map fst (buildDependencyGraph plan) ->
                                 safe_integer k).
  { intros k Hk. apply Hkeys in Hk. destruct Hk as [s [Hs <-]].
    rewrite Forall_forall in Hsafe. apply Hsafe. exact Hs. }
  set (g := buildDependencyGraph plan) in *. clearbody g. clear Hkeys Hsafe.
  unfold identifyComplexDependencies. rewrite complex_fold. cbn [app].
  unfold Object_entries.
  assert (Hkeys_nd : NoDup (Object_keys g)) by (rewrite Object_keys_perm; exact Hnd).
  assert (Hkeys_safe : forall k, k ∈ Object_keys g -> safe_integer k).
  { intros k Hk. apply Hsafe_keys. rewrite <- Object_keys_perm. exact Hk. }
  assert (Hmem : forall k, k ∈ Object_keys g <-> is_Some (graph_get g k)).
  { intros k. rewrite Object_keys_perm. clear. induction g as [|[k0 v0] g IH].
    - cbn. split; [intros H; inversion H|intros [x H]; discriminate].
    - cbn [map fst graph_get]. rewrite elem_of_cons, IH.
      destruct (Z.eqb_spec k k0) as [->|Hne].
      + split; [intros _; eexists; reflexivity|auto].
      + split; [intros [H|H]; [congruence|exact H]|auto]. }
  assert (Hstep : forall l : list Z,
    (forall k, k ∈ l -> safe_integer k) ->
    map (fun p : Z * list Z =>
           {| cx_step := JsNumber.parseInt (key_text (fst p));
              cx_dependencies := length (snd p); cx_assessment := "Complex" |})
      (List.filter (fun p => (2 <? length (snd p))%nat)
         (map (fun k => (k, default [] (graph_get g k))) l))
    = map (fun p : Z * list Z =>
           {| cx_step := Num (inject_Z (fst p));
              cx_dependencies := length (snd p); cx_assessment := "Complex" |})
      (List.filter (fun p => (2 <? length (snd p))%nat)
         (map (fun k => (k, default [] (graph_get g k))) l))).
  { clear. induction l as [|k l IH]; intros Hl; [reflexivity|].
    cbn [map List.filter]. cbn [snd].
    destruct (2 <? length (default [] (graph_get g k)))%nat.
    - cbn [map fst snd]. rewrite parseInt_key_text by (apply Hl; left).
      rewrite IH; [reflexivity|]. intros k' Hk'. apply Hl. right. exact Hk'.
    - apply IH. intros k' Hk'. apply Hl. right. exact Hk'. }
  rewrite (Hstep _ Hkeys_safe). clear Hstep Hkeys_safe Hsafe_keys.
  split.
  - rewrite map_map.
    assert (Hsub : forall l : list Z,
      NoDup l ->
      NoDup (map (fun x : Z * list Z => cx_step
                    {| cx_step := Num (inject_Z (fst x));
                       cx_dependencies := length (snd x);
                       cx_assessment := "Complex" |})
               (List.filter (fun p => (2 <? length (snd p))%nat)
                  (map (fun k => (k, default [] (graph_get g k))) l)))).
    { clear. intros l Hl. induction Hl as [|k l Hk Hl IH]; cbn [map List.filter].
      - constructor.
      - destruct (2 <? length (snd _))%nat; [|exact IH].
        cbn [map cx_step fst]. constructor; [|exact IH].
        intros Hin. apply Hk. apply list_elem_of_In, in_map_iff in Hin.
        destruct Hin as [[k' v'] [Hk' Hin]]. cbn in Hk'.
        injection Hk' as Hk'. subst k'.
        apply filter_In in Hin. destruct Hin as [Hin _].
        apply in_map_iff in Hin. destruct Hin as [k'' [Heq Hin]].
        injection Heq as -> _. apply list_elem_of_In. exact Hin. }
    apply Hsub. exact Hkeys_nd.
  - intros e. rewrite list_elem_of_In, in_map_iff. split.
    + intros [[k v] [<- Hin]]. apply filter_In in Hin. destruct Hin as [Hin Hlen].
      apply in_map_iff in Hin. destruct Hin as [k' [Heq Hin]].
      injection Heq as -> <-. cbn [fst snd cx_step] in *.
      apply list_elem_of_In, Hmem in Hin. destruct Hin as [deps Hdeps].
      rewrite Hdeps in *. cbn [default] in *. exists k, deps.
      apply Nat.ltb_lt in Hlen. auto.
    + intros [k [deps [Hk [Hget [Hlen [Hcount Hassess]]]]]].
      exists (k, deps). split.
      * destruct e as [s d a]. cbn in *. subst. reflexivity.
      * apply filter_In. split.
        -- apply in_map_iff. exists k. rewrite Hget. split; [reflexivity|].
           apply list_elem_of_In, Hmem. exists deps. exact Hget.
        -- apply Nat.ltb_lt. exact Hlen.
Qed.

Lemma identifyComplexDependencies_spec_witness :
  NoDup (map cx_step
           (identifyComplexDependencies
              (buildDependencyGraph [bare_step 1 []; bare_step 2 [1; 3; 4]]))).
Proof.
  apply (identifyComplexDependencies_spec [bare_step 1 []; bare_step 2 [1; 3; 4]]).
  repeat constructor; vm_compute; reflexivity.
Defined.

(** ** Cycle detection: completeness *)

Lemma Object_keys_lookup (g : graph) (k : Z) :
  k ∈ Object_keys g <-> is_Some (graph_get g k).
Proof.
  rewrite Object_keys_perm. induction g as [|[k0 v0] g IH].
  - cbn. split; [intros H; inversion H|intros [x H]; discriminate].
  - cbn [map fst graph_get]. rewrite elem_of_cons, IH.
    destruct (Z.eqb_spec k k0) as [->|Hne].
    + split; [intros _; eexists; reflexivity|auto].
    + split; [intros [H|H]; [congruence|exact H]|auto].
Qed.

Lemma closed_reaches (g : graph) (keys : gset Z) (a c : Z) :
  closed g keys -> a ∈ keys -> reaches g a c -> c ∈ keys.
Proof.
  intros Hclosed Ha Hreach. induction Hreach as [a b Hab|a b c Hab _ IH].
  - eapply Hclosed; eassumption.
  - apply IH. eapply Hclosed; eassumption.
Qed.

(** A recorded cycle is never removed. *)
Lemma dfs_neighbors_cycles_kept
    (recur : Z -> dfs_state -> option (bool * dfs_state))
    (node : jskey) (path : list jskey) :
  (forall neighbor st b st',
      recur neighbor st = Some (b, st') -> cycles st <> [] -> cycles st' <> []) ->
  forall neighbors st b st',
    dfs_neighbors recur node path neighbors st = Some (b, st') ->
    cycles st <> [] -> cycles st' <> [].
Proof.
  intros Hrecur neighbors.
  induction neighbors as [|neighbor rest IH]; intros st b st' Hrun Hne;
    cbn [dfs_neighbors] in Hrun.
  - injection Hrun as <- <-. exact Hne.
  - destruct (bool_decide (neighbor ∉ visited st)).
    + destruct (recur neighbor st) as [[b1 st1]|] eqn:Hcall; [|discriminate].
      pose proof (Hrecur _ _ _ _ Hcall Hne) as Hne1.
      destruct b1; [injection Hrun as <- <-; exact Hne1|].
      apply (IH _ _ _ Hrun Hne1).
    + destruct (bool_decide (neighbor ∈ recursionStack st)).
      * injection Hrun as <- <-. cbn. intros H. apply app_eq_nil in H.
        destruct H as [_ H]. discriminate.
      * apply (IH _ _ _ Hrun Hne).
Qed.

Lemma dfs_cycles_kept (g : graph) (fuel : nat) :
  forall node path st b st',
    dfs fuel g node path st = Some (b, st') -> cycles st <> [] -> cycles st' <> [].
Proof.
  induction fuel as [|fuel IH]; intros node path st b st' Hrun Hne; [discriminate|].
  cbn [dfs] in Hrun. destruct (bool_decide (property node ∈ visited st)).
  - injection Hrun as <- <-. exact Hne.
  - eapply dfs_neighbors_cycles_kept; [|exact Hrun|exact Hne].
    intros neighbor st0 b0 st0' H0. exact (IH _ _ _ _ _ H0).
Qed.

Lemma dfs_roots_cycles_kept (g : graph) (fuel : nat) (keys : list Z) :
  forall st st',
    dfs_roots fuel g keys st = Some st' -> cycles st <> [] -> cycles st' <> [].
Proof.
  induction keys as [|node rest IH]; intros st st' Hrun Hne; cbn [dfs_roots] in Hrun.
  - injection Hrun as <-. exact Hne.
  - destruct (bool_decide (node ∉ visited st)); [|exact (IH _ _ Hrun Hne)].
    destruct (dfs fuel g (KeyStr node) [] st) as [[b st1]|] eqn:Hcall; [|discriminate].
    apply (IH _ _ Hrun). eapply dfs_cycles_kept; eassumption.
Qed.

Lemma cycles_nil_dec (st : dfs_state) : cycles st = [] \/ cycles st <> [].
Proof. destruct (cycles st); [left; reflexivity|right; discriminate]. Qed.

(** The loop over the neighbours of a node on the stack: when it ends
    without a recorded cycle, the node is finished and so are all its
    neighbours. *)
Lemma dfs_neighbors_complete (g : graph)
    (recur : Z -> dfs_state -> option (bool * dfs_state))
    (node : jskey) (path : list jskey) :
  (forall neighbor st b st',
      recur neighbor st = Some (b, st') -> cycles st <> [] -> cycles st' <> []) ->
  (forall neighbor st b st',
      recur neighbor st = Some (b, st') ->
      neighbor ∉ visited st -> dfs_inv g st -> cycles st' = [] ->
      b = false /\ dfs_inv g st' /\ recursionStack st' = recursionStack st /\
      black st ⊆ black st' /\ neighbor ∈ black st') ->
  forall neighbors finished st b st',
    dfs_neighbors recur node path neighbors st = Some (b, st') ->
    cycles st' = [] ->
    neighbors_of g node = finished ++ neighbors ->
    (forall x, x ∈ finished -> x ∈ black st) ->
    dfs_inv g st -> property node ∈ recursionStack st ->
    b = false /\ dfs_inv g st' /\
    recursionStack st' = recursionStack st ∖ {[property node]} /\
    black st ⊆ black st' /\ property node ∈ black st'.
Proof.
  intros Hkept Hrecur neighbors.
  induction neighbors as [|neighbor rest IH];
    intros finished st b st' Hrun Hnone Hsplit Hfinished Hinv Hstack;
    cbn [dfs_neighbors] in Hrun.
  - injection Hrun as <- <-. rewrite app_nil_r in Hsplit.
    destruct Hinv as [Hcycles [Hsub [Hclosed Hacyclic]]].
    assert (Hblack : black (unstack node st) = black st ∪ {[property node]}).
    { unfold black. cbn [unstack visited recursionStack].
      apply set_eq. intros x. rewrite elem_of_union, !elem_of_difference,
        elem_of_singleton.
      destruct (decide (x = property node)) as [->|Hne].
      - split; [auto|]. intros _. split; [apply Hsub; exact Hstack|].
        intros [_ H]. apply H. reflexivity.
      - split.
        + intros [Hx Hn]. left. split; [exact Hx|]. intros Hs. apply Hn. auto.
        + intros [[Hx Hn]|H]; [|contradiction]. split; [exact Hx|].
          intros [Hs _]. contradiction. }
    assert (Hnode : property node ∉ black st).
    { unfold black. intros H. apply elem_of_difference in H. destruct H as [_ H].
      contradiction. }
    assert (Hedges : forall b, edge g (property node) b -> b ∈ black st).
    { intros b Hb. apply Hfinished. unfold edge in Hb.
      unfold neighbors_of in Hsplit. rewrite Hsplit in Hb. exact Hb. }
    split; [reflexivity|]. split; [|split; [reflexivity|split]].
    + split; [exact Hcycles|]. split; [cbn; clear - Hsub; set_solver|].
      rewrite Hblack. split.
      * intros a b Ha Hab. apply elem_of_union in Ha. destruct Ha as [Ha|Ha].
        -- apply elem_of_union. left. eapply Hclosed; eassumption.
        -- apply elem_of_singleton in Ha. subst a.
           apply elem_of_union. left. apply Hedges. exact Hab.
      * intros a Ha Hcyc. apply elem_of_union in Ha. destruct Ha as [Ha|Ha].
        -- exact (Hacyclic a Ha Hcyc).
        -- apply elem_of_singleton in Ha. subst a. apply Hnode.
           inversion Hcyc as [a b Hab|a b c Hab Hbc]; subst.
           ++ apply Hedges. exact Hab.
           ++ eapply closed_reaches; [exact Hclosed| |exact Hbc].
              apply Hedges. exact Hab.
    + rewrite Hblack. clear. set_solver.
    + rewrite Hblack. clear. set_solver.
  - destruct (bool_decide (neighbor ∉ visited st)) eqn:Hunvisited.
    + apply bool_decide_eq_true in Hunvisited.
      destruct (recur neighbor st) as [[b1 st1]|] eqn:Hcall; [|discriminate].
      assert (Hnone1 : cycles st1 = []).
      { destruct (cycles_nil_dec st1) as [H|H]; [exact H|]. exfalso.
        destruct b1.
        - injection Hrun as _ <-. contradiction.
        - apply (dfs_neighbors_cycles_kept recur node path Hkept _ _ _ _ Hrun H).
          exact Hnone. }
      destruct (Hrecur _ _ _ _ Hcall Hunvisited Hinv Hnone1)
        as [-> [Hinv1 [Hstack1 [Hgrow Hdone]]]].
      destruct (IH (finished ++ [neighbor]) st1 b st' Hrun Hnone)
        as [-> [Hinv' [Hstack' [Hgrow' Hnode']]]].
      * rewrite <- app_assoc. exact Hsplit.
      * intros x Hx. apply elem_of_app in Hx. destruct Hx as [Hx|Hx].
        -- apply Hgrow, Hfinished, Hx.
        -- apply list_elem_of_singleton in Hx. subst x. exact Hdone.
      * exact Hinv1.
      * rewrite Hstack1. exact Hstack.
      * rewrite Hstack1 in Hstack'.
        split; [reflexivity|]. split; [exact Hinv'|]. split; [exact Hstack'|].
        split; [etransitivity; [exact Hgrow|exact Hgrow']|exact Hnode'].
    + apply bool_decide_eq_false in Hunvisited.
      destruct (bool_decide (neighbor ∈ recursionStack st)) eqn:Hon.
      * injection Hrun as _ <-. cbn in Hnone. apply app_eq_nil in Hnone.
        destruct Hnone as [_ Hnone]. discriminate.
      * apply bool_decide_eq_false in Hon.
        apply (IH (finished ++ [neighbor]) st b st' Hrun Hnone); try assumption.
        -- rewrite <- app_assoc. exact Hsplit.
        -- intros x Hx. apply elem_of_app in Hx. destruct Hx as [Hx|Hx].
           ++ apply Hfinished, Hx.
           ++ apply list_elem_of_singleton in Hx. subst x. unfold black.
              apply elem_of_difference. split; [|exact Hon].
              destruct (decide (neighbor ∈ visited st)); [assumption|contradiction].
Qed.

Lemma dfs_complete (g : graph) (fuel : nat) :
  forall node path st b st',
    dfs fuel g node path st = Some (b, st') ->
    property node ∉ visited st -> dfs_inv g st -> cycles st' = [] ->
    b = false /\ dfs_inv g st' /\ recursionStack st' = recursionStack st /\
    black st ⊆ black st' /\ property node ∈ black st'.
Proof.
  induction fuel as [|fuel IH]; intros node path st b st' Hrun Hnew Hinv Hnone;
    [discriminate|].
  cbn [dfs] in Hrun. rewrite bool_decide_eq_false_2 in Hrun by exact Hnew.
  destruct Hinv as [Hcycles [Hsub [Hclosed Hacyclic]]].
  assert (Hblack : black (mark node st) = black st).
  { unfold black. cbn [mark visited recursionStack]. apply set_eq. intros x.
    rewrite !elem_of_difference, !elem_of_union, elem_of_singleton.
    split; [intros [[->|Hx] Hn]; [exfalso; apply Hn; auto|auto]|].
    intros [Hx Hn]. split; [auto|]. intros [->|H]; [contradiction|contradiction]. }
  destruct (dfs_neighbors_complete g
              (fun neighbor => dfs fuel g (KeyNum neighbor) (path ++ [node]))
              node path) with (neighbors := neighbors_of g node) (finished := @nil Z)
                              (st := mark node st) (b := b) (st' := st')
    as [-> [Hinv' [Hstack' [Hgrow Hnode]]]]; try assumption.
  - intros neighbor st0 b0 st0' H0. exact (dfs_cycles_kept g fuel _ _ _ _ _ H0).
  - intros neighbor st0 b0 st0' H0. exact (IH _ _ _ _ _ H0).
  - reflexivity.
  - intros x Hx. inversion Hx.
  - split; [exact Hcycles|]. split; [cbn; clear - Hsub; set_solver|].
    rewrite Hblack. auto.
  - cbn. clear. set_solver.
  - rewrite Hblack in Hgrow.
    split; [reflexivity|]. split; [exact Hinv'|]. split; [|split; assumption].
    rewrite Hstack'. cbn [mark recursionStack]. apply set_eq. intros x.
    rewrite elem_of_difference, elem_of_union, elem_of_singleton.
    split; [intros [[->|H] Hn]; [contradiction|exact H]|].
    intros H. split; [auto|]. intros ->. apply Hnew. apply Hsub. exact H.
Qed.

Lemma dfs_roots_complete (g : graph) (fuel : nat) (keys : list Z) :
  forall st st',
    dfs_roots fuel g keys st = Some st' -> cycles st' = [] ->
    dfs_inv g st -> recursionStack st = ∅ ->
    dfs_inv g st' /\ recursionStack st' = ∅ /\ black st ⊆ black st' /\
    forall k, k ∈ keys -> k ∈ black st'.
Proof.
  induction keys as [|node rest IH]; intros st st' Hrun Hnone Hinv Hstack;
    cbn [dfs_roots] in Hrun.
  - injection Hrun as <-.
    split; [exact Hinv|]. split; [exact Hstack|]. split; [reflexivity|].
    intros k Hk. inversion Hk.
  - destruct (bool_decide (node ∉ visited st)) eqn:Hnew.
    + apply bool_decide_eq_true in Hnew.
      destruct (dfs fuel g (KeyStr node) [] st) as [[b st1]|] eqn:Hcall; [|discriminate].
      assert (Hnone1 : cycles st1 = []).
      { destruct (cycles_nil_dec st1) as [H|H]; [exact H|]. exfalso.
        apply (dfs_roots_cycles_kept g fuel rest _ _ Hrun H). exact Hnone. }
      destruct (dfs_complete g fuel _ _ _ _ _ Hcall Hnew Hinv Hnone1)
        as [_ [Hinv1 [Hstack1 [Hgrow Hnode]]]].
      destruct (IH st1 st' Hrun Hnone Hinv1) as [Hinv' [Hstack' [Hgrow' Hkeys]]].
      { rewrite Hstack1. exact Hstack. }
      split; [exact Hinv'|]. split; [exact Hstack'|].
      split; [etransitivity; [exact Hgrow|exact Hgrow']|].
      intros k Hk. apply elem_of_cons in Hk. destruct Hk as [->|Hk]; [|auto].
      apply Hgrow'. exact Hnode.
    + apply bool_decide_eq_false in Hnew.
      destruct (IH st st' Hrun Hnone Hinv Hstack) as [Hinv' [Hstack' [Hgrow' Hkeys]]].
      split; [exact Hinv'|]. split; [exact Hstack'|]. split; [exact Hgrow'|].
      intros k Hk. apply elem_of_cons in Hk. destruct Hk as [->|Hk]; [|auto].
      apply Hgrow'. unfold black. rewrite Hstack.
      destruct (decide (node ∈ visited st)) as [Hv|]; [|contradiction].
      clear - Hv. set_solver.
Qed.

(** A reported chain means that the graph has a cycle. *)
Lemma detectCircularDependencies_reports_cycle (g : graph) :
  detectCircularDependencies g <> [] -> cyclic g.
Proof.
  pose proof (detectCircularDependencies_total g) as Htotal.
  unfold detectCircularDependencies_fuel in Htotal.
  destruct (dfs_roots (S (length g)) g (Object_keys g)
              {| cycles := []; visited := ∅; recursionStack := ∅ |})
    as [st'|] eqn:Hrun; [|discriminate].
  cbn in Htotal. injection Htotal as Htotal. rewrite <- Htotal.
  intros Hsome.
  destruct (dfs_roots_sound g _ _ _ _ Hrun eq_refl eq_refl) as [Hcyc|Hnone];
    [exact Hcyc|contradiction].
Qed.

(** A cycle of the graph never goes unreported. *)
Lemma detectCircularDependencies_finds_cycle (g : graph) :
  cyclic g -> detectCircularDependencies g <> [].
Proof.
  pose proof (detectCircularDependencies_total g) as Htotal.
  unfold detectCircularDependencies_fuel in Htotal.
  destruct (dfs_roots (S (length g)) g (Object_keys g)
              {| cycles := []; visited := ∅; recursionStack := ∅ |})
    as [st'|] eqn:Hrun; [|discriminate].
  cbn in Htotal. injection Htotal as Htotal. rewrite <- Htotal.
  intros [k Hk] Hnone.
  destruct (dfs_roots_complete g _ _ _ _ Hrun Hnone) as [Hinv [_ [_ Hkeys]]].
  - split; [reflexivity|]. split; [cbn; clear; set_solver|].
    split; [intros a b Ha; unfold black in Ha; cbn in Ha; clear - Ha; set_solver|].
    intros a Ha. unfold black in Ha. cbn in Ha. clear - Ha. set_solver.
  - reflexivity.
  - destruct Hinv as [_ [_ [_ Hacyclic]]]. apply (Hacyclic k); [|exact Hk].
    apply Hkeys, Object_keys_lookup.
    assert (exists b, edge g k b) as [b Hb]
        by (inversion Hk; subst; eexists; eassumption).
    unfold edge in Hb. destruct (graph_get g k) as [l|]; [eexists; reflexivity|].
    inversion Hb.
Qed.

(** X3: the detector reports at least one chain exactly when the graph has
    a cycle. *)
Theorem detectCircularDependencies_iff_cyclic (g : graph) :
  detectCircularDependencies g <> [] <-> cyclic g.
Proof.
  split.
  - apply detectCircularDependencies_reports_cycle.
  - apply detectCircularDependencies_finds_cycle.
Qed.

(** ** Failed findings and cycles *)

Lemma filter_failed_none (validations : list Finding.t) :
  Forall not_failed validations -> List.filter (is_type failed) validations = [].
Proof.
  intros Hnf. apply filter_none. intros v Hv. rewrite Forall_forall in Hnf.
  apply list_elem_of_In, Hnf in Hv. unfold is_type.
  apply bool_decide_eq_false. exact Hv.
Qed.

(** The dependency evaluator yields one failed finding when the detector
    reports something, and none otherwise. *)
Lemma validateDependencies_failures (task : string) (plan : list Step.t) :
  length (List.filter (is_type failed) (validateDependencies task plan))
  = match detectCircularDependencies (buildDependencyGraph plan) with
    | [] => 0%nat
    | _ :: _ => 1%nat
    end.
Proof.
  unfold validateDependencies. cbv zeta.
  set (circularDeps := detectCircularDependencies (buildDependencyGraph plan)).
  set (complexDeps := identifyComplexDependencies (buildDependencyGraph plan)).
  clearbody circularDeps complexDeps.
  destruct circularDeps as [|chain chains], complexDeps as [|entry entries];
    cbn [length Nat.ltb Nat.leb Nat.eqb andb app List.filter Finding.type];
    unfold is_type; cbn [Finding.type]; reflexivity.
Qed.

Lemma mutual_plan_cyclic : cyclic (buildDependencyGraph mutual_plan).
Proof.
  exists 1. apply reaches_step with (b := 2).
  - unfold edge. vm_compute. apply list_elem_of_In. left. reflexivity.
  - apply reaches_edge. unfold edge. vm_compute. apply list_elem_of_In. left. reflexivity.
Qed.

(** X4: in a successful result a failed finding is present exactly when the
    dependency graph of the plan has a cycle, and so is a recommendation of
    priority High; there is never more than one failed finding. *)
Theorem validatePlan_failed_iff_cyclic (c : list string) (task : string)
    (steps : list Step.t) (validations : list Finding.t) (score : number)
    (summary : summary) (recommendations : list recommendation) :
  snd (validatePlan {| agent := constructor; console := c |} task (PlanArray steps))
  = Resolved (Success validations score summary recommendations) ->
  ((exists v, v ∈ validations /\ Finding.type v = failed)
   <-> cyclic (buildDependencyGraph steps)) /\
  ((exists r, r ∈ recommendations /\ priority r = "High")
   <-> cyclic (buildDependencyGraph steps)) /\
  bd_failed (sm_breakdown summary)
  = match detectCircularDependencies (buildDependencyGraph steps) with
    | [] => 0%nat
    | _ :: _ => 1%nat
    end.
Proof.
  intros Hrun. apply validatePlan_success in Hrun.
  destruct Hrun as [[e He]|Hrun]; [discriminate|].
  apply evaluate_constructor_inv in Hrun.
  destruct Hrun as [timeline_findings [Htimeline Hresult]]. cbv zeta in Hresult.
  match type of Hresult with
  | _ = Success ?v _ ?sm ?r =>
      assert (Hv : validations = v) by congruence;
      assert (Hsm : summary = sm) by congruence;
      assert (Hr : recommendations = r) by congruence
  end.
  clear Hresult. subst validations summary recommendations.
  pose proof (validateFeasibility_not_failed task steps) as HF.
  pose proof (validateResources_not_failed task steps) as HR.
  pose proof (validateTimeline_not_failed task steps _ Htimeline) as HT.
  pose proof (validateRisks_not_failed constructor task steps) as HK.
  pose proof (validateDependencies_failures task steps) as HD.
  set (validations := validateFeasibility task steps ++ validateResources task steps
         ++ timeline_findings ++ validateDependencies task steps
         ++ validateRisks constructor task steps) in *.
  assert (Hcount : length (List.filter (is_type failed) validations)
                   = match detectCircularDependencies (buildDependencyGraph steps) with
                     | [] => 0%nat
                     | _ :: _ => 1%nat
                     end).
  { unfold validations. rewrite !List.filter_app, !length_app.
    rewrite (filter_failed_none _ HF), (filter_failed_none _ HR),
      (filter_failed_none _ HT), (filter_failed_none _ HK), HD.
    cbn [length]. lia. }
  assert (Hfailed : (exists v, v ∈ validations /\ Finding.type v = failed)
                    <-> detectCircularDependencies (buildDependencyGraph steps) <> []).
  { split.
    - intros [v [Hv Htype]] Hnone. rewrite Hnone in Hcount.
      assert (Hin : v ∈ List.filter (is_type failed) validations).
      { apply list_elem_of_In, filter_In. split; [apply list_elem_of_In; exact Hv|].
        unfold is_type. apply bool_decide_eq_true. exact Htype. }
      destruct (List.filter (is_type failed) validations); [inversion Hin|discriminate].
    - intros Hsome.
      destruct (detectCircularDependencies (buildDependencyGraph steps))
        as [|chain chains]; [contradiction|].
      destruct (List.filter (is_type failed) validations) as [|v others] eqn:Hfilter;
        [discriminate|].
      assert (Hin : In v (List.filter (is_type failed) validations))
        by (rewrite Hfilter; left; reflexivity).
      apply filter_In in Hin. destruct Hin as [Hin Htype].
      exists v. split; [apply list_elem_of_In; exact Hin|].
      unfold is_type in Htype. apply bool_decide_eq_true in Htype. exact Htype. }
  assert (Hdetect : detectCircularDependencies (buildDependencyGraph steps) <> []
                    <-> cyclic (buildDependencyGraph steps)).
  { split; [apply detectCircularDependencies_reports_cycle
           |apply detectCircularDependencies_finds_cycle]. }
  split; [|split].
  - etransitivity; [exact Hfailed|exact Hdetect].
  - etransitivity; [|exact Hdetect]. unfold generateRecommendations. cbv zeta. split.
    + intros [r [Hr Hhigh]] Hnone. rewrite Hnone in Hcount.
      rewrite Hcount in Hr. cbn [Nat.ltb Nat.leb app] in Hr.
      rewrite !elem_of_app in Hr.
      destruct Hr as [Hr|[Hr|Hr]];
        match type of Hr with
        | _ ∈ (if ?b then _ else _) => destruct b
        end;
        try (inversion Hr; fail);
        apply list_elem_of_singleton in Hr; subst r; cbn in Hhigh; discriminate.
    + intros Hsome. rewrite Hcount.
      destruct (detectCircularDependencies (buildDependencyGraph steps));
        [contradiction|].
      cbn [Nat.ltb Nat.leb]. eexists. split; [apply elem_of_app; left; left|].
      reflexivity.
  - cbn [generateValidationSummary sm_breakdown bd_failed]. exact Hcount.
Qed.

Lemma validatePlan_failed_iff_cyclic_witness :
  exists validations score summary recommendations,
    snd (validatePlan {| agent := constructor; console := [] |} "Write the report"
           (PlanArray mutual_plan))
    = Resolved (Success validations score summary recommendations) /\
    (exists v, v ∈ validations /\ Finding.type v = failed).
Proof.
  eexists _, _, _, _. split.
  - vm_compute. reflexivity.
  - refine (proj2 (proj1 (validatePlan_failed_iff_cyclic [] "Write the report"
                            mutual_plan _ _ _ _ _)) mutual_plan_cyclic).
    vm_compute. reflexivity.
Defined.

(** ** Dependencies that point backwards *)

Lemma buildDependencyGraph_get_inv (plan : list Step.t) (k : Z) (deps : list Z) :
  graph_get (buildDependencyGraph plan) k = Some deps ->
  exists step, step ∈ plan /\ Step.id step = k /\
               deps = default [] (Step.dependencies step).
Proof.
  induction plan as [|step plan IH] using rev_ind; [discriminate|].
  rewrite buildDependencyGraph_snoc, graph_get_set.
  destruct (Z.eqb_spec k (Step.id step)) as [->|Hne].
  - intros [= <-]. exists step. split; [apply elem_of_app; right; left|auto].
  - intros H. destruct (IH H) as [s [Hs Hrest]]. exists s.
    split; [apply elem_of_app; left; exact Hs|exact Hrest].
Qed.

Lemma backward_edge (plan : list Step.t) (a b : Z) :
  Forall depends_backwards plan -> edge (buildDependencyGraph plan) a b -> b < a.
Proof.
  intros Hback Hab. unfold edge in Hab.
  destruct (graph_get (buildDependencyGraph plan) a) as [deps|] eqn:Hget;
    [|inversion Hab].
  destruct (buildDependencyGraph_get_inv _ _ _ Hget) as [step [Hstep [<- ->]]].
  rewrite Forall_forall in Hback. specialize (Hback step Hstep).
  unfold depends_backwards in Hback. rewrite Forall_forall in Hback.
  apply Hback. exact Hab.
Qed.

Lemma backward_reaches (plan : list Step.t) (a b : Z) :
  Forall depends_backwards plan -> reaches (buildDependencyGraph plan) a b -> b < a.
Proof.
  intros Hback Hab. induction Hab as [a b Hab|a b d Hab _ IH].
  - eapply backward_edge; eassumption.
  - pose proof (backward_edge plan a b Hback Hab). lia.
Qed.

(** X5: when every step depends only on steps of smaller id, the graph has
    no cycle, the detector reports nothing and no finding of the dependency
    evaluator is failed. *)
Theorem backward_dependencies_never_fail (task : string) (plan : list Step.t) :
  Forall depends_backwards plan ->
  ~ cyclic (buildDependencyGraph plan) /\
  detectCircularDependencies (buildDependencyGraph plan) = [] /\
  Forall not_failed (validateDependencies task plan).
Proof.
  intros Hback.
  assert (Hacyclic : ~ cyclic (buildDependencyGraph plan)).
  { intros [k Hk]. apply (backward_reaches plan k k Hback) in Hk. lia. }
  pose proof (detectCircularDependencies_acyclic _ Hacyclic) as Hnone.
  split; [exact Hacyclic|]. split; [exact Hnone|].
  destruct (validateDependencies_shape task plan)
    as [circular [rest [-> [Hrest [_ Hempty]]]]].
  rewrite (Hempty Hnone). exact Hrest.
Qed.

Lemma backward_dependencies_never_fail_witness :
  Forall depends_backwards chain_plan /\
  detectCircularDependencies (buildDependencyGraph chain_plan) = [].
Proof.
  assert (H : Forall depends_backwards chain_plan).
  { repeat constructor. }
  split; [exact H|].
  exact (proj1 (proj2 (backward_dependencies_never_fail "Plan a release" chain_plan H))).
Defined.

(** ** Steps without a duration *)

(** The timeline evaluator throws as soon as one step has no duration,
    and returns otherwise. *)
Lemma validateTimeline_throws (task : string) (plan : list Step.t) :
  Exists (fun step => Step.duration step = None) plan ->
  validateTimeline task plan = Throw match_of_undefined.
Proof.
  intros Hex. unfold validateTimeline.
  rewrite (calculatePlanDuration_throws plan Hex). reflexivity.
Qed.

Lemma validateTimeline_returns (task : string) (plan : list Step.t) :
  Forall (fun step => Step.duration step <> None) plan ->
  exists findings, validateTimeline task plan = Ok findings.
Proof.
  intros Hall. rewrite Forall_forall in Hall.
  unfold validateTimeline, calculatePlanDuration, identifyUnbalancedDurations.
  match goal with
  | |- context [forEach ?body 0%nat plan (Num 0)] =>
      destruct (forEach_returns body plan) with (index := 0%nat) (s := Num 0)
        as [total ->]
  end.
  { intros s index x Hx. specialize (Hall x Hx). unfold duration_match.
    destruct (Step.duration x) as [d|]; [|contradiction]. cbn [bind].
    destruct (range_match d); eexists; reflexivity. }
  cbn [bind].
  match goal with
  | |- context [forEach ?body 0%nat plan ([], None)] =>
      destruct (forEach_returns body plan) with (index := 0%nat)
        (s := (@nil unbalanced_entry, @None number)) as [final Hfinal]
  end.
  { intros [unbalanced previousDuration] index x Hx. specialize (Hall x Hx).
    unfold duration_match.
    destruct (Step.duration x) as [d|]; [|contradiction]. cbn [bind].
    destruct (range_match d); eexists; reflexivity. }
  destruct (JsNumber.leb total (Num 8)); [|destruct (JsNumber.leb total (Num 40))];
    cbn [bind]; rewrite Hfinal; cbn [bind]; eexists; reflexivity.
Qed.

(** X6: validating an array of steps with a fresh agent fails exactly when
    some step has no duration: the result is then the fallback one, with the
    message of the [TypeError] thrown by [step.duration.match], which is also
    logged; when every step has a duration the full result is returned. *)
Theorem validatePlan_missing_duration (c : list string) (task : string)
    (steps : list Step.t) :
  (Exists (fun step => Step.duration step = None) steps ->
   validatePlan {| agent := constructor; console := c |} task (PlanArray steps)
   = ({| agent := constructor;
         console := c ++ ["Validating plan with " +:+ of_nat (length steps) +:+ " steps"]
                      ++ ["Validator error: " +:+ match_of_undefined] |},
      Resolved (Failure match_of_undefined getFallbackValidations))) /\
  (Forall (fun step => Step.duration step <> None) steps ->
   exists validations score summary recommendations,
     snd (validatePlan {| agent := constructor; console := c |} task (PlanArray steps))
     = Resolved (Success validations score summary recommendations)).
Proof.
  unfold validatePlan. cbn [plan_length]. rewrite agent_log. cbn [agent].
  unfold evaluate. cbn [validationRules constructor forEach call_rule bind].
  split.
  - intros Hex. rewrite (validateTimeline_throws task steps Hex). cbn [bind].
    unfold log. cbn [agent console]. rewrite <- app_assoc. reflexivity.
  - intros Hall. destruct (validateTimeline_returns task steps Hall) as [findings ->].
    cbn [bind snd]. eexists _, _, _, _. reflexivity.
Qed.

Lemma validatePlan_missing_duration_witness :
  snd (validatePlan {| agent := constructor; console := [] |} "Plan a release"
         (PlanArray untimed_plan))
  = Resolved (Failure match_of_undefined getFallbackValidations)
  /\ exists validations score summary recommendations,
       snd (validatePlan {| agent := constructor; console := [] |} "Plan a release"
              (PlanArray chain_plan))
       = Resolved (Success validations score summary recommendations).
Proof.
  split.
  - rewrite (proj1 (validatePlan_missing_duration [] "Plan a release" untimed_plan)).
    + reflexivity.
    + right. left. reflexivity.
  - apply (proj2 (validatePlan_missing_duration [] "Plan a release" chain_plan)).
    repeat constructor; discriminate.
Defined.

(** ** Resources: distinct names and critical ones *)

Lemma Set_add_spec (set : list string) (x : string) :
  NoDup set ->
  NoDup (Set_add set x) /\ forall y, y ∈ Set_add set x <-> y ∈ set \/ y = x.
Proof.
  intros Hnd. unfold Set_add. destruct (bool_decide (x ∈ set)) eqn:E.
  - apply bool_decide_eq_true in E. split; [exact Hnd|].
    intros y. split; [auto|]. intros [H | ->]; assumption.
  - apply bool_decide_eq_false in E. split.
    + apply NoDup_app. repeat split; [exact Hnd| |apply NoDup_singleton].
      intros y Hy Hy'. apply list_elem_of_singleton in Hy'. subst y. contradiction.
    + intros y. rewrite elem_of_app, list_elem_of_singleton. reflexivity.
Qed.

(** Adding the elements of a list for which a test holds. *)
Lemma Set_add_fold (test : string -> bool) (rs set : list string) :
  NoDup set ->
  let set' := foldl (fun acc r => if test r then Set_add acc r else acc) set rs in
  NoDup set' /\
  forall y, y ∈ set' <-> y ∈ set \/ (y ∈ rs /\ test y = true).
Proof.
  revert set. induction rs as [|r rs IH]; intros set Hnd; cbn [foldl].
  - split; [exact Hnd|]. intros y. split; [auto|].
    intros [H|[H _]]; [exact H|inversion H].
  - destruct (test r) eqn:Hr.
    + destruct (Set_add_spec set r Hnd) as [Hnd' Hin].
      destruct (IH _ Hnd') as [Hnd'' Hin'']. split; [exact Hnd''|].
      intros y. rewrite Hin'', Hin, elem_of_cons. split.
      * intros [[H | ->]|[H Hy]]; auto.
      * intros [H|[[-> | H] Hy]]; auto.
    + destruct (IH _ Hnd) as [Hnd'' Hin'']. split; [exact Hnd''|].
      intros y. rewrite Hin'', elem_of_cons. split.
      * intros [H|[H Hy]]; auto.
      * intros [H|[[-> | H] Hy]]; [auto|congruence|auto].
Qed.

Lemma Set_add_plan (test : string -> bool) (plan : list Step.t) (set : list string) :
  NoDup set ->
  let set' :=
    foldl (fun acc step =>
        match Step.resources step with
        | Some rs => foldl (fun acc r => if test r then Set_add acc r else acc) acc rs
        | None => acc
        end) set plan in
  NoDup set' /\
  forall y, y ∈ set' <-> y ∈ set \/ (y ∈ named_resources plan /\ test y = true).
Proof.
  revert set. induction plan as [|step plan IH]; intros set Hnd; cbn [foldl].
  - split; [exact Hnd|]. intros y. split; [auto|].
    intros [H|[H _]]; [exact H|inversion H].
  - unfold named_resources. cbn [map concat]. fold (named_resources plan).
    destruct (Step.resources step) as [rs|]; cbn [default].
    + destruct (Set_add_fold test rs set Hnd) as [Hnd' Hin].
      destruct (IH _ Hnd') as [Hnd'' Hin'']. split; [exact Hnd''|].
      intros y. rewrite Hin'', Hin, elem_of_app. split.
      * intros [[H|[H Hy]]|[H Hy]]; auto.
      * intros [H|[[H|H] Hy]]; auto.
    + destruct (IH _ Hnd) as [Hnd'' Hin'']. split; [exact Hnd''|].
      intros y. rewrite Hin''. cbn [app]. reflexivity.
Qed.

Lemma existsb_keyword (resource : string) :
  existsb (fun keyword => includes (toLowerCase resource) keyword)
    ["specialized"; "expert"; "licensed"; "premium"; "custom"; "rare"] = true
  <-> exists keyword, critical_keyword keyword /\
                      occurs_in keyword (toLowerCase resource).
Proof.
  rewrite existsb_exists. unfold critical_keyword. split.
  - intros [k [Hk Hinc]]. exists k. split; [apply list_elem_of_In; exact Hk|].
    apply includes_spec. exact Hinc.
  - intros [k [Hk Hocc]]. exists k. split; [apply list_elem_of_In; exact Hk|].
    apply includes_spec. exact Hocc.
Qed.

(** X7: the number the resource evaluator reports is the number of
    distinct resource names of the plan, and its first finding is passed
    when there are at most ten of them and a warning otherwise. *)
Theorem validateResources_counts_distinct (task : string) (plan : list Step.t) :
  let count := size (list_to_set (C := gset string) (named_resources plan)) in
  exists first rest,
    validateResources task plan = first :: rest /\
    Finding.id first = "resource-count" /\
    Finding.type first = (if (count <=? 10)%nat then passed else warning) /\
    Finding.details first
    = ResourceCount count
        (if (count <=? 10)%nat then "Reasonable" else "High")
        (if (10 <? count)%nat then "Consider resource consolidation" else "Good").
Proof.
  intros count. unfold validateResources. cbv zeta.
  match goal with
  | |- context [length (foldl ?f [] plan)] => set (total := foldl f [] plan)
  end.
  assert (Hcount : length total = count).
  { assert (Hspec : NoDup total /\
              forall y, y ∈ total <-> y ∈ [] \/ (y ∈ named_resources plan /\ true = true))
      by exact (Set_add_plan (fun _ => true) plan [] (NoDup_nil_2 (A := string))).
    destruct Hspec as [Hnd Hin].
    unfold count. rewrite <- (size_list_to_set (C := gset string) total Hnd).
    f_equal. apply set_eq. intros y. rewrite !elem_of_list_to_set, Hin. split.
    - intros [H|[H _]]; [inversion H|exact H].
    - intros H. right. auto. }
  rewrite Hcount. eexists _, _. split; [reflexivity|]. cbn [Finding.id Finding.type
    Finding.details]. auto.
Qed.

(** X8: the critical resources are the resources named by some step whose
    lower-case form contains one of the six keywords, each listed once. *)
Theorem identifyCriticalResources_spec (plan : list Step.t) :
  NoDup (identifyCriticalResources plan) /\
  forall resource,
    resource ∈ identifyCriticalResources plan <->
    resource ∈ named_resources plan /\
    exists keyword, critical_keyword keyword /\
                    occurs_in keyword (toLowerCase resource).
Proof.
  unfold identifyCriticalResources. cbv zeta.
  destruct (Set_add_plan
              (fun resource =>
                 existsb (fun keyword => includes (toLowerCase resource) keyword)
                   ["specialized"; "expert"; "licensed"; "premium"; "custom"; "rare"])
              plan [] (NoDup_nil_2 (A := string))) as [Hnd Hin].
  cbv zeta in Hnd, Hin. split; [exact Hnd|].
  intros resource. rewrite Hin, existsb_keyword. split.
  - intros [H|H]; [inversion H|exact H].
  - auto.
Qed.

(** ** Ranges of hours *)

(** X10: a text that starts with two printed integers joined by a dash is
    matched with these two numerals as captures, whatever follows; each is
    read as the nearest double, and the midpoint is half their sum as
    doubles, the exact half of [a + b] while [a + b] does not exceed [2^53]. *)
Theorem range_match_printed (a b : Z) (rest : string) :
  0 <= a -> 0 <= b -> starts_with_digit rest = false ->
  range_match (of_Z a +:+ "-" +:+ of_Z b +:+ rest) = Some (of_Z a, of_Z b) /\
  midpoint (of_Z a, of_Z b)
  = JsNumber.div (JsNumber.add (JsNumber.of_Z a) (JsNumber.of_Z b)) (Num 2) /\
  (a + b <= 2 ^ 53 -> midpoint (of_Z a, of_Z b) = Num (Qred (inject_Z (a + b) / 2))).
Proof.
  intros Ha Hb Hrest.
  assert (Hmid : midpoint (of_Z a, of_Z b)
                 = JsNumber.div (JsNumber.add (JsNumber.of_Z a) (JsNumber.of_Z b)) (Num 2)).
  { unfold midpoint. cbn [fst snd]. rewrite !parseInt_of_Z by assumption. reflexivity. }
  split; [|split; [exact Hmid|]].
  - assert (Hhere : range_here (of_Z a +:+ "-" +:+ of_Z b +:+ rest)
                    = Some (of_Z a, of_Z b)).
    { unfold range_here.
      destruct (digits_from_of_Z_length a ("-" +:+ of_Z b +:+ rest) Ha eq_refl)
        as (n & -> & Hn).
      rewrite append_cons, append_nil_l.
      destruct (digits_from_of_Z_length b rest Hb Hrest) as (n' & -> & Hn').
      rewrite Hn, Hn', !first_chars_append. reflexivity. }
    destruct (of_Z a +:+ "-" +:+ of_Z b +:+ rest); cbn [range_match];
      rewrite Hhere; reflexivity.
  - intros Hsum. rewrite Hmid. unfold JsNumber.of_Z.
    rewrite !of_Q_integer by lia. rewrite add_integers by lia.
    cbn [JsNumber.div]. change (Qeq_bool 2 0) with false. cbv iota.
    apply of_Q_half. lia.
Qed.

Lemma range_match_printed_witness :
  range_match (of_Z 4 +:+ "-" +:+ of_Z 6 +:+ " hours") = Some (of_Z 4, of_Z 6) /\
  midpoint (of_Z 4, of_Z 6) = Num 5.
Proof.
  destruct (range_match_printed 4 6 " hours") as (Hmatch & _ & Hexact);
    [lia|lia|reflexivity|].
  split; [exact Hmatch|]. rewrite Hexact; [reflexivity|vm_compute; discriminate].
Defined.

(** A numeral beyond [2^53] is not read as the integer it spells. *)
Example midpoint_rounded :
  midpoint ("9007199254740993", "9007199254740993") = Num 9007199254740992.
Proof. vm_compute. reflexivity. Qed.

(** ** The timeline assessment reads the printed total back *)

Section Weeks.

Local Open Scope Q_scope.

(** Rounding a double up to an integer gives a double. *)
Lemma ceiling_stored (r : Q) : stored r -> stored (inject_Z (Qceiling r)).
Proof.
  intros (Hpos & Hfin & m & c & Hr & Hm & Hc).
  pose proof (Qle_ceiling r) as Hup. pose proof (Qceiling_lt r) as Hlow.
  assert (H0 : (0 <= Qceiling r)%Z).
  { change 0%Z with (Qceiling 0). apply Qceiling_resp_le, Hpos. }
  destruct (Z_lt_le_dec c 0) as [Hneg|Hnonneg].
  - assert (Hsmall : r <= inject_Z (2 ^ 52)).
    { rewrite Hr. apply Qle_trans with (inject_Z (2 ^ 53) * 2 ^ (-1)).
      - apply Qle_trans with (inject_Z (2 ^ 53) * 2 ^ c).
        + apply Qmult_le_compat_r; [rewrite <- Zle_Qle; lia|apply Qlt_le_weak, pow2_pos].
        + apply Qmult_le_l; [reflexivity|]. apply pow2_le. lia.
      - vm_compute. discriminate. }
    assert (Hceil : (Qceiling r <= 2 ^ 52)%Z).
    { rewrite <- (Qceiling_Z (2 ^ 52)). apply Qceiling_resp_le, Hsmall. }
    split; [apply inject_Z_nonneg, H0|]. split; [apply pow2_1024_large; lia|].
    exists (Qceiling r), 0%Z. split; [change (2 ^ 0) with 1; ring|lia].
  - assert (Hint : r == inject_Z (m * 2 ^ c)).
    { rewrite Hr, inject_Z_mult, <- pow2_Z by lia. reflexivity. }
    rewrite (Qceiling_comp _ _ Hint), Qceiling_Z.
    split; [lra|]. split; [lra|]. exists m, c. split; [|auto].
    rewrite <- Hint. exact Hr.
Qed.

(** The double next to 160 is [160 + 2^-45]. *)
Lemma above_160 (r : Q) : double r -> 160 < r -> 160 + (1 # 35184372088832) <= r.
Proof.
  intros Hr Hgt.
  destruct (double_spacing r (-46) Hr) as [k Hk]; [lia| |].
  { apply Qlt_trans with 160; [reflexivity|exact Hgt]. }
  change (2 ^ (-46 + 1)) with (1 # 35184372088832) in Hk.
  assert (Hk' : (160 * 35184372088832 < k)%Z).
  { assert (inject_Z (160 * 35184372088832) < inject_Z k) as H;
      [|rewrite <- Zlt_Qlt in H; exact H].
    rewrite inject_Z_mult. change (inject_Z 160) with 160.
    change (inject_Z 35184372088832) with 35184372088832. lra. }
  assert (inject_Z (160 * 35184372088832 + 1) <= inject_Z k) as H
    by (rewrite <- Zle_Qle; lia).
  rewrite inject_Z_plus, inject_Z_mult in H. change (inject_Z 160) with 160 in H.
  change (inject_Z 35184372088832) with 35184372088832 in H.
  change (inject_Z 1) with 1 in H. lra.
Qed.

End Weeks.

Lemma weeks_match_hours (n : Z) :
  0 <= n -> weeks_match (of_Z n +:+ " hours") = None.
Proof.
  intros Hn. apply (weeks_match_digits (of_Z n) " hours");
    [apply all_digits_of_Z; exact Hn|reflexivity|reflexivity].
Qed.

Lemma weeks_match_days (n : Z) :
  0 <= n -> weeks_match (of_Z n +:+ " days") = None.
Proof.
  intros Hn. apply (weeks_match_digits (of_Z n) " days");
    [apply all_digits_of_Z; exact Hn|reflexivity|reflexivity].
Qed.

Lemma Qceiling_range (r : Q) (b : Z) :
  (0 <= r)%Q -> (r <= inject_Z b)%Q -> 0 <= Qceiling r <= b.
Proof.
  intros H0 Hb. split.
  - change 0 with (Qceiling 0). apply Qceiling_resp_le, H0.
  - rewrite <- (Qceiling_Z b). apply Qceiling_resp_le, Hb.
Qed.

(** What [assessTimeline] finds in the text [calculatePlanDuration]
    returns: more than four weeks exactly for a finite total above 160
    hours. *)
Lemma assessTimeline_printed (plan : list Step.t) (durations : list string) :
  map Step.duration plan = map Some durations ->
  exists totalDuration,
    calculatePlanDuration plan = Ok totalDuration /\
    match weeks_match totalDuration with
    | Some w => JsNumber.gtb (JsNumber.parseInt w) (Num 4)
    | None => false
    end = long_total (total_hours durations).
Proof.
  intros Hmap. rewrite (calculatePlanDuration_total plan durations Hmap). cbv zeta.
  eexists. split; [reflexivity|].
  destruct (total_hours_amount durations) as [->|(r & -> & Hstored)].
  { vm_compute. reflexivity. }
  destruct Hstored as (Hpos & Hfin & Hdouble).
  assert (Hstored : stored r) by (split; [|split]; assumption).
  unfold long_total. change (JsNumber.gtb (Num r) (Num 160)) with (negb (Qle_bool r 160)).
  cbn [JsNumber.leb]. rewrite andb_true_r.
  destruct (Qle_bool_spec r 8) as [H8|H8].
  { (* hours *)
    assert (Hshort : Qle_bool r 160 = true) by (apply Qle_bool_iff; lra).
    rewrite Hshort. cbn [negb JsNumber.Math_ceil].
    destruct (Qceiling_range r 8 Hpos H8) as [Hc0 Hc8].
    rewrite toString_integer by lia. rewrite weeks_match_hours by lia. reflexivity. }
  apply Qnot_le_lt in H8.
  destruct (Qle_bool_spec r 40) as [H40|H40].
  { (* days *)
    assert (Hshort : Qle_bool r 160 = true) by (apply Qle_bool_iff; lra).
    rewrite Hshort. cbn [negb JsNumber.div]. change (Qeq_bool 8 0) with false. cbv iota.
    destruct (of_Q_below (r / 8) 5) as (r' & -> & Hr'0 & Hr'5);
      [apply Qlt_shift_div_l; [reflexivity|lra]
      |apply Qle_shift_div_r; [reflexivity|lra]
      |reflexivity|].
    cbn [JsNumber.Math_ceil].
    destruct (Qceiling_range r' 5 Hr'0 Hr'5) as [Hc0 Hc5].
    rewrite toString_integer by lia. rewrite weeks_match_days by lia. reflexivity. }
  apply Qnot_le_lt in H40. cbn [JsNumber.div]. change (Qeq_bool 40 0) with false. cbv iota.
  assert (Hweeks : (0 < r / 40)%Q) by (apply Qlt_shift_div_l; [reflexivity|lra]).
  destruct (Qle_bool_spec r 160) as [H160|H160].
  - (* up to four weeks *)
    cbn [negb].
    destruct (of_Q_below (r / 40) 4) as (r' & -> & Hr'0 & Hr'4);
      [exact Hweeks|apply Qle_shift_div_r; [reflexivity|lra]|reflexivity|].
    cbn [JsNumber.Math_ceil].
    destruct (Qceiling_range r' 4 Hr'0 Hr'4) as [Hc0 Hc4].
    destruct (weeks_printed_few (Qceiling r')) as [-> ->]; [lia|]. reflexivity.
  - (* more than four weeks *)
    apply Qnot_le_lt in H160. cbn [negb].
    destruct (of_Q_below (r / 40) r) as (r' & Hr' & Hr'0 & Hr'r);
      [exact Hweeks
      |apply Qle_shift_div_r; [reflexivity|lra]
      |apply of_Q_stored, Hstored|].
    pose proof (above_160 r Hdouble H160) as Hnext.
    assert (Hlow : exists c0, JsNumber.of_Q ((160 + (1 # 35184372088832)) / 40) = Num c0
                              /\ (4 < c0)%Q).
    { eexists. split; [vm_compute; reflexivity|reflexivity]. }
    destruct Hlow as (c0 & Hc0 & Hc04).
    assert (Hmono : JsNumber.leb (JsNumber.of_Q ((160 + (1 # 35184372088832)) / 40))
                      (JsNumber.of_Q (r / 40)) = true).
    { apply of_Q_leb; [reflexivity|].
      apply Qmult_le_compat_r; [exact Hnext|discriminate]. }
    rewrite Hc0, Hr' in Hmono. cbn [JsNumber.leb] in Hmono. apply Qle_bool_iff in Hmono.
    rewrite Hr'. cbn [JsNumber.Math_ceil].
    assert (Hstored' : stored r').
    { split; [exact Hr'0|]. split; [lra|]. exact (of_Q_double _ _ Hweeks Hr'). }
    pose proof (Qle_ceiling r') as Hceil.
    assert (H5 : 5 <= Qceiling r').
    { assert (inject_Z 4 < inject_Z (Qceiling r'))%Q as H;
        [|rewrite <- Zlt_Qlt in H; lia].
      change (inject_Z 4) with 4%Q. lra. }
    destruct (weeks_printed (Qceiling r') (ceiling_stored r' Hstored') H5)
      as (capture & -> & ->).
    reflexivity.
Qed.

(** X9: when every step carries a duration, the timeline finding warns of
    a long timeline exactly when the total is finite and exceeds 160 hours
    (more than four weeks of 40 hours, as read back from the printed total),
    of a complex one when it does not but the plan has more than ten steps,
    and is passed otherwise. *)
Theorem validateTimeline_thresholds (task : string) (plan : list Step.t)
    (durations : list string) :
  map Step.duration plan = map Some durations ->
  exists first rest,
    validateTimeline task plan = Ok (first :: rest) /\
    Finding.id first = "timeline-assessment" /\
    (long_total (total_hours durations) = true ->
     Finding.type first = warning /\
     Finding.message first = "Timeline may be too long for effective execution") /\
    (long_total (total_hours durations) = false -> (10 < length plan)%nat ->
     Finding.type first = warning /\
     Finding.message first = "Many steps may complicate timeline management") /\
    (long_total (total_hours durations) = false -> (length plan <= 10)%nat ->
     Finding.type first = passed /\
     Finding.message first = "Timeline appears reasonable").
Proof.
  intros Hmap.
  destruct (assessTimeline_printed plan durations Hmap) as [totalDuration [Hprint Hweeks]].
  destruct (validateTimeline_returns task plan) as [findings Hfindings].
  { apply Forall_forall. intros step Hstep Hnone.
    apply (list_elem_of_fmap_2 Step.duration) in Hstep.
    change (Step.duration <$> plan) with (map Step.duration plan) in Hstep.
    rewrite Hmap, Hnone in Hstep.
    apply list_elem_of_fmap in Hstep. destruct Hstep as [d [Hd _]]. discriminate. }
  unfold validateTimeline in Hfindings |- *. rewrite Hprint in Hfindings |- *.
  cbn [bind] in Hfindings |- *.
  destruct (identifyUnbalancedDurations plan) as [unbalancedSteps|]; [|discriminate].
  cbn [bind app]. eexists _, _. split; [reflexivity|]. cbn [Finding.id Finding.type
    Finding.message]. split; [reflexivity|].
  unfold assessTimeline. rewrite Hweeks.
  destruct (long_total (total_hours durations)).
  - split; [intros _; split; reflexivity|]. split; discriminate.
  - split; [discriminate|]. split; intros _ Hsteps.
    + apply Nat.ltb_lt in Hsteps. rewrite Hsteps. split; reflexivity.
    + apply Nat.ltb_ge in Hsteps. rewrite Hsteps. split; reflexivity.
Qed.

Lemma validateTimeline_thresholds_witness :
  exists first rest,
    validateTimeline "Build the bridge" long_plan = Ok (first :: rest) /\
    Finding.type first = warning /\
    Finding.message first = "Timeline may be too long for effective execution".
Proof.
  destruct (validateTimeline_thresholds "Build the bridge" long_plan
              ["100-200 hours"; "100-200 hours"] eq_refl)
    as [first [rest [Hrun [_ [Hlong _]]]]].
  exists first, rest. split; [exact Hrun|]. apply Hlong. vm_compute. reflexivity.
Defined.

(** A total that overflows is printed as [Infinity weeks], where no number
    of weeks is found: the timeline passes. *)
Example validateTimeline_overflow :
  exists first,
    validateTimeline "Build the bridge"
      [timed_step 1 ("1" +:+ zeros 309 +:+ "-2 hours")]
    = Ok [first] /\
    Finding.type first = passed /\
    Finding.details first
    = TimelineAssessment "Infinity weeks" 1 "Good" "Monitor progress regularly".
Proof. eexists. split; [vm_compute; reflexivity|]. split; reflexivity. Qed.

(** ** The summary of a successful validation *)

(** The parts of a successful result. *)
Lemma validatePlan_success_inv (c : list string) (task : string)
    (steps : list Step.t) (validations : list Finding.t) (score : number)
    (summary : summary) (recommendations : list recommendation) :
  snd (validatePlan {| agent := constructor; console := c |} task (PlanArray steps))
  = Resolved (Success validations score summary recommendations) ->
  exists timeline_findings,
    validateTimeline task steps = Ok timeline_findings /\
    validations
    = validateFeasibility task steps ++ validateResources task steps
      ++ timeline_findings ++ validateDependencies task steps
      ++ validateRisks constructor task steps /\
    score = calculateValidationScore validations /\
    summary = generateValidationSummary validations score /\
    recommendations = generateRecommendations validations.
Proof.
  intros Hrun. apply validatePlan_success in Hrun.
  destruct Hrun as [[e He]|Hrun]; [discriminate|].
  apply evaluate_constructor_inv in Hrun.
  destruct Hrun as [timeline_findings [Htimeline Hresult]]. cbv zeta in Hresult.
  exists timeline_findings. split; [exact Htimeline|].
  match type of Hresult with
  | _ = Success ?v _ _ _ => assert (Hv : validations = v) by congruence
  end.
  rewrite <- Hv in Hresult. repeat split; congruence.
Qed.

Lemma breakdown_total (validations : list Finding.t) :
  (length (List.filter (is_type passed) validations)
   + length (List.filter (is_type warning) validations)
   + length (List.filter (is_type failed) validations)
   = length validations)%nat.
Proof.
  induction validations as [|v l IH]; [reflexivity|].
  cbn [List.filter].
  change (is_type passed v) with (bool_decide (Finding.type v = passed)).
  change (is_type warning v) with (bool_decide (Finding.type v = warning)).
  change (is_type failed v) with (bool_decide (Finding.type v = failed)).
  destruct (Finding.type v);
    repeat first [rewrite bool_decide_eq_true_2 by reflexivity
                 |rewrite bool_decide_eq_false_2 by discriminate];
    cbn [length]; lia.
Qed.

Lemma validateTimeline_length (task : string) (plan : list Step.t)
    (findings : list Finding.t) :
  validateTimeline task plan = Ok findings -> (1 <= length findings)%nat.
Proof.
  unfold validateTimeline.
  destruct (calculatePlanDuration plan); cbn [bind]; [|discriminate].
  destruct (identifyUnbalancedDurations plan); cbn [bind]; [|discriminate].
  intros [= <-]. cbn [app length]. lia.
Qed.

Lemma validations_length (task : string) (steps : list Step.t)
    (timeline_findings : list Finding.t) :
  (1 <= length timeline_findings)%nat ->
  (length steps + 5
   <= length (validateFeasibility task steps ++ validateResources task steps
              ++ timeline_findings ++ validateDependencies task steps
              ++ validateRisks constructor task steps))%nat.
Proof.
  intros Htimeline. rewrite !length_app.
  assert (length (validateFeasibility task steps) = S (length steps)) as ->.
  { unfold validateFeasibility. cbv zeta. rewrite length_app, length_imap.
    cbn [length]. lia. }
  assert (1 <= length (validateResources task steps))%nat.
  { unfold validateResources. cbv zeta. rewrite length_app. cbn [length]. lia. }
  assert (1 <= length (validateDependencies task steps))%nat.
  { unfold validateDependencies. cbv zeta. rewrite !length_app. cbn [length]. lia. }
  assert (1 <= length (validateRisks constructor task steps))%nat.
  { unfold validateRisks. cbv zeta. rewrite !length_app. cbn [length]. lia. }
  lia.
Qed.

(** X11: in a successful result there are at least five findings more than
    steps; the three counts of the summary add up to the number of findings;
    the score is an integer between 40 and 100, never [NaN]; and the status
    and the overall verdict follow it: the plan is called generally valid
    exactly from 80 on, where the status is Satisfactory or Good. *)
Theorem validatePlan_summary_consistent (c : list string) (task : string)
    (steps : list Step.t) (validations : list Finding.t) (score : number)
    (summary : summary) (recommendations : list recommendation) :
  Z.of_nat (length validations) < 2 ^ 32 ->
  snd (validatePlan {| agent := constructor; console := c |} task (PlanArray steps))
  = Resolved (Success validations score summary recommendations) ->
  (length steps + 5 <= length validations)%nat /\
  (bd_passed (sm_breakdown summary) + bd_warnings (sm_breakdown summary)
   + bd_failed (sm_breakdown summary) = length validations)%nat /\
  exists z : Z,
    score = Num (inject_Z z) /\ sm_score summary = Num (inject_Z z) /\
    40 <= z <= 100 /\
    sm_status summary
    = (if z <? 60 then "Needs Major Improvements"
       else if z <? 80 then "Needs Some Improvements"
       else if z <? 90 then "Satisfactory" else "Good") /\
    sm_overall summary
    = (if z <? 80 then "Plan needs review" else "Plan is generally valid").
Proof.
  intros Hbound Hrun.
  pose proof (validatePlan_half_points _ _ _ _ _ _ _ Hrun) as Hpoints.
  destruct (validatePlan_success_inv _ _ _ _ _ _ _ Hrun)
    as [timeline_findings [Htimeline [Hvalidations [_ [Hsummary _]]]]].
  destruct Hpoints as [Hscore [Hpos Hmost]].
  assert (Hlength : (length steps + 5 <= length validations)%nat).
  { rewrite Hvalidations. apply validations_length.
    exact (validateTimeline_length _ _ _ Htimeline). }
  clear Hvalidations Htimeline Hrun.
  split; [exact Hlength|]. rewrite Hsummary.
  cbn [generateValidationSummary sm_breakdown bd_passed bd_warnings bd_failed
       sm_score sm_status sm_overall].
  split; [apply breakdown_total|].
  assert (Hne : validations <> []) by (intros ->; cbn in Hlength; lia).
  destruct (calculateValidationScore_nonempty validations Hne Hbound)
    as (z & Hvalue & Hnear & _).
  cbv zeta in Hnear. rewrite <- Hscore in Hvalue.
  pose proof (total_half_points_range validations) as Hrange.
  set (n := Z.of_nat (length validations)) in *.
  set (points := total_half_points validations) in *.
  assert (Hn : 5 <= n) by (subst n; lia).
  apply nearest_percentage_bounds in Hnear; [|lia].
  clearbody n points.
  assert (Hz : 40 <= z <= 100) by nia.
  exists z. rewrite Hvalue.
  split; [reflexivity|]. split; [reflexivity|]. split; [exact Hz|].
  cbn [JsNumber.ltb JsNumber.geb JsNumber.leb].
  assert (Hle : forall k : Z, Qle_bool (inject_Z k) (inject_Z z) = (k <=? z)).
  { intros k. destruct (Z.leb_spec k z) as [H|H].
    - apply Qle_bool_iff. rewrite <- Zle_Qle. exact H.
    - destruct (Qle_bool (inject_Z k) (inject_Z z)) eqn:E; [|reflexivity].
      apply Qle_bool_iff in E. rewrite <- Zle_Qle in E. lia. }
  change 60%Q with (inject_Z 60). change 80%Q with (inject_Z 80).
  change 90%Q with (inject_Z 90). rewrite !Hle.
  assert (Hlt : forall k : Z, negb (k <=? z) = (z <? k)).
  { intros k. destruct (Z.leb_spec k z), (Z.ltb_spec z k); try reflexivity; lia. }
  rewrite !Hlt. split; [reflexivity|].
  destruct (Z.leb_spec 80 z), (Z.ltb_spec z 80); try reflexivity; lia.
Qed.

Lemma validatePlan_summary_consistent_witness :
  exists validations score summary recommendations,
    snd (validatePlan {| agent := constructor; console := [] |} "Plan a release"
           (PlanArray chain_plan))
    = Resolved (Success validations score summary recommendations) /\
    (bd_passed (sm_breakdown summary) + bd_warnings (sm_breakdown summary)
     + bd_failed (sm_breakdown summary) = length validations)%nat.
Proof.
  eexists _, _, _, _. split.
  - vm_compute. reflexivity.
  - refine (proj1 (proj2 (validatePlan_summary_consistent [] "Plan a release"
                            chain_plan _ _ _ _ _ _))).
    + vm_compute. reflexivity.
    + vm_compute. reflexivity.
Defined.

(** ** Feasibility *)

Lemma truthy_length (s : string) : truthy s = (0 <? String.length s)%nat.
Proof. destruct s; reflexivity. Qed.

Lemma assessStepFeasibility_spec (step : Step.t) :
  assessStepFeasibility step = true <-> feasible step.
Proof.
  unfold assessStepFeasibility, feasible. cbv zeta. cbn [forallb].
  rewrite andb_true_r. split.
  - intros H. apply andb_true_iff in H. destruct H as [Hduration H].
    apply andb_true_iff in H. destruct H as [Hresources Hdescription].
    split; [|split].
    + destruct (Step.duration step) as [d|]; [|discriminate]. exists d.
      split; [reflexivity|]. apply includes_spec.
      destruct (truthy d); [|discriminate]. destruct (includes d "hours"); congruence.
    + destruct (Step.resources step) as [rs|]; [|discriminate]. exists rs.
      split; [reflexivity|]. destruct rs; [discriminate|discriminate].
    + destruct (Step.description step) as [d|]; [|discriminate]. exists d.
      split; [reflexivity|]. destruct (truthy d); [|discriminate].
      destruct (20 <? String.length d)%nat eqn:E; [|discriminate].
      apply Nat.ltb_lt in E. exact E.
  - intros [[d [-> Hd]] [[rs [-> Hrs]] [d' [-> Hd']]]].
    apply includes_spec in Hd.
    assert (truthy d = true) as ->.
    { destruct d; [|reflexivity]. cbn in Hd. discriminate. }
    rewrite Hd. assert (truthy d' = true) as ->.
    { rewrite truthy_length. apply Nat.ltb_lt. lia. }
    apply Nat.ltb_lt in Hd'. rewrite Hd'. destruct rs; [congruence|reflexivity].
Qed.

(** The findings of the steps, counted and tested through their types. *)
Lemma step_findings_types (mk : nat -> Step.t -> Finding.t) (plan : list Step.t) :
  (forall index step,
      Finding.type (mk index step)
      = if assessStepFeasibility step then passed else warning) ->
  length (List.filter (is_type passed) (imap mk plan))
  = length (List.filter assessStepFeasibility plan) /\
  forallb (is_type passed) (imap mk plan) = forallb assessStepFeasibility plan.
Proof.
  revert mk. induction plan as [|step plan IH]; intros mk Hmk; [split; reflexivity|].
  cbn [imap List.filter forallb].
  destruct (IH (mk ∘ S)) as [IHcount IHall]; [intros index s; apply Hmk|].
  change (is_type passed (mk 0%nat step))
    with (bool_decide (Finding.type (mk 0%nat step) = passed)).
  rewrite Hmk.
  destruct (assessStepFeasibility step).
  - rewrite !bool_decide_eq_true_2 by reflexivity. cbn [length andb].
    rewrite IHcount, IHall. split; reflexivity.
  - rewrite !bool_decide_eq_false_2 by discriminate. cbn [andb].
    rewrite IHcount. split; reflexivity.
Qed.

(** The share of feasible steps on a plan that is not empty: a whole
    number of percent nearest to the exact share. *)
Lemma feasible_percentage (plan : list Step.t) :
  plan <> [] -> Z.of_nat (length plan) < 2 ^ 32 ->
  let feasible_steps := Z.of_nat (length (List.filter assessStepFeasibility plan)) in
  let stepCount := Z.of_nat (length plan) in
  let share := (100 * inject_Z feasible_steps / inject_Z stepCount)%Q in
  exists z : Z,
    JsNumber.Math_round
      (JsNumber.mul
         (JsNumber.div
            (JsNumber.of_nat (length (List.filter assessStepFeasibility plan)))
            (JsNumber.of_nat (length plan)))
         (Num 100))
    = Num (inject_Z z) /\
    0 <= z <= 100 /\
    (inject_Z z - (1 # 2) <= share <= inject_Z z + (1 # 2))%Q /\
    ((forall i : Z, ~ (share == inject_Z i + (1 # 2))%Q) ->
     z = JsNumber.round_half_up share).
Proof.
  intros Hne Hlen feasible_steps stepCount share.
  assert (Hcount : 0 <= feasible_steps <= stepCount).
  { subst feasible_steps stepCount. split; [lia|].
    apply Nat2Z.inj_le. clear. induction plan as [|step plan IH]; [reflexivity|].
    cbn [List.filter length]. destruct (assessStepFeasibility step); cbn [length]; lia. }
  assert (Hn : 0 < stepCount).
  { subst stepCount. destruct plan; [congruence|cbn [length]; lia]. }
  unfold JsNumber.of_nat, JsNumber.of_Z. fold feasible_steps stepCount.
  rewrite !of_Q_integer by lia.
  destruct (percentage_rounded (inject_Z feasible_steps) (inject_Z stepCount)
              feasible_steps stepCount) as (z & Hz & Hnear & Hexact);
    [lia|lia| |reflexivity|].
  { intros H. unfold Qeq in H. cbn in H. lia. }
  fold share in Hnear.
  assert (HN : (0 < inject_Z stepCount)%Q) by (apply inject_Z_pos; exact Hn).
  assert (Hshare : (share * inject_Z stepCount == inject_Z (100 * feasible_steps))%Q).
  { unfold share. rewrite inject_Z_mult. change (inject_Z 100) with 100%Q. field. lra. }
  assert (Hbounds : (2 * z - 1) * stepCount <= 200 * feasible_steps
                    <= (2 * z + 1) * stepCount).
  { destruct Hnear as [Hlow Hup]. split.
    - assert ((inject_Z z - (1 # 2)) * inject_Z stepCount
              <= share * inject_Z stepCount)%Q as H by (apply Qmult_le_compat_r; lra).
      rewrite Hshare in H.
      assert (inject_Z ((2 * z - 1) * stepCount) <= inject_Z (200 * feasible_steps))%Q
        as H'; [|rewrite <- Zle_Qle in H'; exact H'].
      rewrite !inject_Z_mult, inject_Z_minus, inject_Z_mult in *.
      change (inject_Z 2) with 2%Q. change (inject_Z 1) with 1%Q.
      change (inject_Z 200) with 200%Q. change (inject_Z 100) with 100%Q in H. lra.
    - assert (share * inject_Z stepCount
              <= (inject_Z z + (1 # 2)) * inject_Z stepCount)%Q as H
        by (apply Qmult_le_compat_r; lra).
      rewrite Hshare in H.
      assert (inject_Z (200 * feasible_steps) <= inject_Z ((2 * z + 1) * stepCount))%Q
        as H'; [|rewrite <- Zle_Qle in H'; exact H'].
      rewrite !inject_Z_mult, inject_Z_plus, inject_Z_mult in *.
      change (inject_Z 2) with 2%Q. change (inject_Z 1) with 1%Q.
      change (inject_Z 200) with 200%Q. change (inject_Z 100) with 100%Q in H. lra. }
  exists z. split; [exact Hz|]. split; [nia|]. split; [exact Hnear|].
  intros Hnot. rewrite Hexact.
  - symmetry.
    rewrite (round_percentage (2 * feasible_steps) stepCount share Hn);
      [f_equal; lia|].
    unfold share. rewrite (inject_Z_mult 2). change (inject_Z 2) with 2%Q. field. lra.
  - intros Hmod.
    pose proof (Z.div_mod (200 * feasible_steps + stepCount) (2 * stepCount)) as Hdiv.
    rewrite Hmod in Hdiv.
    set (q := (200 * feasible_steps + stepCount) / (2 * stepCount)) in *.
    assert (Hq : 200 * feasible_steps + stepCount = 2 * stepCount * q) by lia.
    apply (Hnot (q - 1)).
    apply (Qmult_inj_r _ _ (inject_Z stepCount)); [lra|]. rewrite Hshare.
    assert (Hq' : (inject_Z (200 * feasible_steps + stepCount)
                   == inject_Z (2 * stepCount * q))%Q) by (rewrite Hq; reflexivity).
    rewrite inject_Z_plus, !inject_Z_mult in Hq'. rewrite inject_Z_mult, inject_Z_minus.
    change (inject_Z 2) with 2%Q in Hq'. change (inject_Z 200) with 200%Q in Hq'.
    change (inject_Z 100) with 100%Q. change (inject_Z 1) with 1%Q. lra.
Qed.

(** The share is a double: 23 feasible steps of 40 are 57.5 percent, but
    [23 / 40] is stored just below 0.575 and the percentage is 57. *)
Example feasible_percentage_rounded :
  JsNumber.Math_round (JsNumber.mul (JsNumber.div (Num 23) (Num 40)) (Num 100)) = Num 57.
Proof. vm_compute. reflexivity. Qed.

(** X12: the feasibility evaluator yields one finding per step, passed
    exactly for the feasible steps, followed by the overall finding, which
    is passed exactly when every step is feasible; its percentage is [NaN]
    for the plan without steps, and otherwise a whole number from 0 to 100
    nearest to the share of feasible steps, the share rounded half up unless
    it lies halfway between two integers. *)
Theorem validateFeasibility_spec (task : string) (plan : list Step.t) :
  exists (step_findings : list Finding.t) (overall : Finding.t),
    validateFeasibility task plan = step_findings ++ [overall] /\
    length step_findings = length plan /\
    (forall index step,
        plan !! index = Some step ->
        exists v, step_findings !! index = Some v /\
                  (Finding.type v = passed <-> feasible step) /\
                  (Finding.type v = warning <-> ~ feasible step)) /\
    (Finding.type overall = passed <-> Forall feasible plan) /\
    (Finding.type overall = warning <-> ~ Forall feasible plan) /\
    exists assessment percentage,
      Finding.details overall = OverallFeasibility assessment percentage /\
      (plan = [] -> percentage = NaN) /\
      (plan <> [] -> Z.of_nat (length plan) < 2 ^ 32 ->
       let share :=
         (100 * inject_Z (Z.of_nat (length (List.filter assessStepFeasibility plan)))
          / inject_Z (Z.of_nat (length plan)))%Q in
       exists z : Z,
         percentage = Num (inject_Z z) /\ 0 <= z <= 100 /\
         (inject_Z z - (1 # 2) <= share <= inject_Z z + (1 # 2))%Q /\
         ((forall i : Z, ~ (share == inject_Z i + (1 # 2))%Q) ->
          z = JsNumber.round_half_up share)).
Proof.
  unfold validateFeasibility. cbv zeta.
  match goal with
  | |- context [imap ?mk plan] => set (make := mk)
  end.
  destruct (step_findings_types make plan) as [Hcount Hall]; [reflexivity|].
  rewrite Hcount, Hall.
  eexists _, _. split; [reflexivity|]. split; [apply length_imap|].
  assert (Hforall : forallb assessStepFeasibility plan = true <-> Forall feasible plan).
  { rewrite forallb_forall, Forall_forall. split.
    - intros H step Hstep. apply assessStepFeasibility_spec, H, list_elem_of_In, Hstep.
    - intros H step Hstep. apply assessStepFeasibility_spec, H, list_elem_of_In, Hstep. }
  split; [|split; [|split]].
  - intros index step Hstep. exists (make index step).
    split; [rewrite list_lookup_imap, Hstep; reflexivity|].
    unfold make. cbn [Finding.type]. rewrite <- assessStepFeasibility_spec.
    destruct (assessStepFeasibility step); split; split; congruence.
  - cbn [Finding.type]. rewrite <- Hforall.
    destruct (forallb assessStepFeasibility plan); split; congruence.
  - cbn [Finding.type]. rewrite <- Hforall.
    destruct (forallb assessStepFeasibility plan); split; congruence.
  - cbn [Finding.details]. eexists _, _. split; [reflexivity|]. split.
    + intros ->. reflexivity.
    + intros Hne Hlen. exact (feasible_percentage plan Hne Hlen).
Qed.

(** ** What the first reported chain is *)

Lemma walk_snoc (g : graph) (path : list jskey) (a b : jskey) :
  walk g (path ++ [a]) -> edge g (property a) (property b) ->
  walk g ((path ++ [a]) ++ [b]).
Proof.
  intros Hwalk Hedge. induction path as [|x path IH].
  - cbn. auto.
  - cbn [app] in Hwalk |- *. destruct path as [|y path].
    + cbn [app walk] in Hwalk |- *. destruct Hwalk as [Hxa _]. auto.
    + cbn [app walk] in Hwalk |- *. destruct Hwalk as [Hxy Hrest].
      split; [exact Hxy|]. apply IH. exact Hrest.
Qed.

Lemma walk_suffix (g : graph) (before after : list jskey) :
  walk g (before ++ after) -> walk g after.
Proof.
  induction before as [|x before IH]; [auto|].
  cbn [app]. intros Hwalk. apply IH.
  destruct (before ++ after); [exact I|]. cbn [walk] in Hwalk. tauto.
Qed.

Lemma walk_reaches (g : graph) (between : list jskey) (a b : jskey) :
  walk g (a :: between ++ [b]) -> reaches g (property a) (property b).
Proof.
  revert a. induction between as [|x between IH]; intros a Hwalk.
  - cbn in Hwalk. apply reaches_edge. tauto.
  - cbn [app] in Hwalk. cbn [walk] in Hwalk. destruct Hwalk as [Hax Hrest].
    eapply reaches_step; [exact Hax|]. apply IH. exact Hrest.
Qed.

Lemma walk_closes_cycle (g : graph) (front : list jskey) (last : jskey) :
  walk g (front ++ [last]) -> property last ∈ path_properties front ->
  closes_cycle g (front ++ [last]).
Proof.
  intros Hwalk Hseen. split; [exact Hwalk|]. exists front, last.
  split; [reflexivity|]. split; [exact Hseen|].
  unfold path_properties in Hseen. apply elem_of_list_to_set in Hseen.
  change (map property front) with (property <$> front) in Hseen.
  apply list_elem_of_fmap in Hseen. destruct Hseen as [x [Hx Hin]].
  apply list_elem_of_split in Hin. destruct Hin as [before [between ->]].
  rewrite <- app_assoc in Hwalk. apply walk_suffix in Hwalk.
  cbn [app] in Hwalk. apply walk_reaches in Hwalk. rewrite <- Hx in Hwalk.
  exact Hwalk.
Qed.

(** The first recorded chain stays the first. *)
Lemma dfs_neighbors_first_kept
    (recur : Z -> dfs_state -> option (bool * dfs_state))
    (node : jskey) (path : list jskey) (c : list jskey) :
  (forall neighbor st b st',
      recur neighbor st = Some (b, st') ->
      head (cycles st) = Some c -> head (cycles st') = Some c) ->
  forall neighbors st b st',
    dfs_neighbors recur node path neighbors st = Some (b, st') ->
    head (cycles st) = Some c -> head (cycles st') = Some c.
Proof.
  intros Hrecur neighbors.
  induction neighbors as [|neighbor rest IH]; intros st b st' Hrun Hfirst;
    cbn [dfs_neighbors] in Hrun.
  - injection Hrun as <- <-. exact Hfirst.
  - destruct (bool_decide (neighbor ∉ visited st)).
    + destruct (recur neighbor st) as [[b1 st1]|] eqn:Hcall; [|discriminate].
      pose proof (Hrecur _ _ _ _ Hcall Hfirst) as Hfirst1.
      destruct b1; [injection Hrun as <- <-; exact Hfirst1|].
      apply (IH _ _ _ Hrun Hfirst1).
    + destruct (bool_decide (neighbor ∈ recursionStack st)).
      * injection Hrun as <- <-. cbn [push_cycle cycles].
        destruct (cycles st); [discriminate|exact Hfirst].
      * apply (IH _ _ _ Hrun Hfirst).
Qed.

Lemma dfs_first_kept (g : graph) (fuel : nat) (c : list jskey) :
  forall node path st b st',
    dfs fuel g node path st = Some (b, st') ->
    head (cycles st) = Some c -> head (cycles st') = Some c.
Proof.
  induction fuel as [|fuel IH]; intros node path st b st' Hrun Hfirst; [discriminate|].
  cbn [dfs] in Hrun. destruct (bool_decide (property node ∈ visited st)).
  - injection Hrun as <- <-. exact Hfirst.
  - eapply dfs_neighbors_first_kept; [|exact Hrun|exact Hfirst].
    intros neighbor st0 b0 st0' H0. exact (IH _ _ _ _ _ H0).
Qed.

(** As long as nothing is recorded the recursion stack holds steps of the
    current path only, so that the first chain recorded closes a cycle. *)
Lemma dfs_neighbors_first_chain (g : graph)
    (recur : Z -> dfs_state -> option (bool * dfs_state))
    (node : jskey) (path : list jskey) :
  (forall neighbor st b st',
      recur neighbor st = Some (b, st') ->
      cycles st = [] ->
      recursionStack st ⊆ path_properties (path ++ [node]) ->
      walk g ((path ++ [node]) ++ [KeyNum neighbor]) ->
      (b = false /\ cycles st' = [] /\
       recursionStack st' ⊆ path_properties (path ++ [node])) \/
      (b = true /\ exists c, head (cycles st') = Some c /\ closes_cycle g c)) ->
  forall neighbors st b st',
    dfs_neighbors recur node path neighbors st = Some (b, st') ->
    (forall x, x ∈ neighbors -> edge g (property node) x) ->
    cycles st = [] ->
    recursionStack st ⊆ path_properties (path ++ [node]) ->
    walk g (path ++ [node]) ->
    (b = false /\ cycles st' = [] /\ recursionStack st' ⊆ path_properties path) \/
    (b = true /\ exists c, head (cycles st') = Some c /\ closes_cycle g c).
Proof.
  intros Hrecur neighbors.
  induction neighbors as [|neighbor rest IH];
    intros st b st' Hrun Hedges Hcycles Hstack Hwalk; cbn [dfs_neighbors] in Hrun.
  - injection Hrun as <- <-. left. split; [reflexivity|]. split; [exact Hcycles|].
    cbn [unstack recursionStack]. unfold path_properties in Hstack |- *.
    rewrite map_app, list_to_set_app in Hstack. cbn in Hstack.
    clear - Hstack. set_solver.
  - assert (Hedge : edge g (property node) neighbor) by (apply Hedges; left).
    assert (Hrest : forall x, x ∈ rest -> edge g (property node) x)
      by (intros x Hx; apply Hedges; right; exact Hx).
    assert (Hnext : walk g ((path ++ [node]) ++ [KeyNum neighbor]))
      by (apply walk_snoc; assumption).
    destruct (bool_decide (neighbor ∉ visited st)).
    + destruct (recur neighbor st) as [[b1 st1]|] eqn:Hcall; [|discriminate].
      destruct (Hrecur neighbor st b1 st1 Hcall Hcycles Hstack Hnext)
        as [[-> [Hc1 Hs1]]|[-> Hclose]].
      * apply (IH st1 b st' Hrun Hrest Hc1 Hs1 Hwalk).
      * injection Hrun as <- <-. right. split; [reflexivity|exact Hclose].
    + destruct (bool_decide (neighbor ∈ recursionStack st)) eqn:Hon.
      * injection Hrun as <- <-. right. apply bool_decide_eq_true in Hon.
        split; [reflexivity|].
        exists (path ++ [node; KeyNum neighbor]).
        split; [cbn [push_cycle cycles]; rewrite Hcycles; reflexivity|].
        change (path ++ [node; KeyNum neighbor])
          with (path ++ [node] ++ [KeyNum neighbor]).
        rewrite app_assoc. apply walk_closes_cycle; [exact Hnext|].
        apply Hstack. exact Hon.
      * apply (IH st b st' Hrun Hrest Hcycles Hstack Hwalk).
Qed.

Lemma dfs_first_chain (g : graph) (fuel : nat) :
  forall node path st b st',
    dfs fuel g node path st = Some (b, st') ->
    cycles st = [] ->
    recursionStack st ⊆ path_properties path ->
    walk g (path ++ [node]) ->
    (b = false /\ cycles st' = [] /\ recursionStack st' ⊆ path_properties path) \/
    (b = true /\ exists c, head (cycles st') = Some c /\ closes_cycle g c).
Proof.
  induction fuel as [|fuel IH]; intros node path st b st' Hrun Hcycles Hstack Hwalk;
    [discriminate|].
  cbn [dfs] in Hrun. destruct (bool_decide (property node ∈ visited st)).
  - injection Hrun as <- <-. left. split; [reflexivity|]. split; [exact Hcycles|].
    cbn [unstack recursionStack]. clear - Hstack. set_solver.
  - eapply (dfs_neighbors_first_chain g _ node path); [|exact Hrun| | | |].
    + intros neighbor st0 b0 st0' H0. exact (IH _ _ _ _ _ H0).
    + intros x Hx. exact Hx.
    + exact Hcycles.
    + cbn [mark recursionStack]. unfold path_properties in Hstack |- *.
      rewrite map_app, list_to_set_app. cbn. clear - Hstack. set_solver.
    + exact Hwalk.
Qed.

Lemma dfs_roots_first_chain (g : graph) (fuel : nat) (keys : list Z) :
  forall st st' c,
    dfs_roots fuel g keys st = Some st' ->
    (cycles st = [] /\ recursionStack st = ∅) \/
    (exists c0, head (cycles st) = Some c0 /\ closes_cycle g c0) ->
    head (cycles st') = Some c -> closes_cycle g c.
Proof.
  induction keys as [|node rest IH]; intros st st' c Hrun Hstate Hfirst;
    cbn [dfs_roots] in Hrun.
  - injection Hrun as <-. destruct Hstate as [[Hnone _]|[c0 [Hc0 Hclose]]].
    + rewrite Hnone in Hfirst. discriminate.
    + congruence.
  - destruct (bool_decide (node ∉ visited st)); [|exact (IH _ _ _ Hrun Hstate Hfirst)].
    destruct (dfs fuel g (KeyStr node) [] st) as [[b st1]|] eqn:Hcall; [|discriminate].
    apply (IH st1 st' c Hrun); [|exact Hfirst].
    destruct Hstate as [[Hnone Hstack]|[c0 [Hc0 Hclose]]].
    + destruct (dfs_first_chain g fuel _ _ _ _ _ Hcall Hnone)
        as [[_ [Hnone1 Hstack1]]|[_ Hclose]].
      * rewrite Hstack. apply empty_subseteq.
      * exact I.
      * left. split; [exact Hnone1|]. unfold path_properties in Hstack1.
        cbn in Hstack1. clear - Hstack1. set_solver.
      * right. exact Hclose.
    + right. exists c0. split; [|exact Hclose].
      eapply dfs_first_kept; eassumption.
Qed.

Lemma tangled_plan_chains :
  detectCircularDependencies (buildDependencyGraph tangled_plan)
  = [ [KeyStr 1; KeyNum 2; KeyNum 1]; [KeyStr 3; KeyNum 1] ].
Proof. vm_compute. reflexivity. Qed.

(** X13: the first chain the detector reports follows dependency edges and
    ends on a step it has already passed, so it closes a cycle; a later
    chain need not: an early return leaves steps marked on the recursion
    stack, and a step that merely depends on one of them is reported too. *)
Theorem detectCircularDependencies_first_chain :
  (forall (g : graph) (chain : list jskey) (others : list (list jskey)),
      detectCircularDependencies g = chain :: others -> closes_cycle g chain) /\
  (exists (plan : list Step.t) (chain : list jskey),
      chain ∈ detectCircularDependencies (buildDependencyGraph plan) /\
      ~ closes_cycle (buildDependencyGraph plan) chain).
Proof.
  split.
  - intros g chain others Hdetect.
    pose proof (detectCircularDependencies_total g) as Htotal.
    unfold detectCircularDependencies_fuel in Htotal.
    destruct (dfs_roots (S (length g)) g (Object_keys g)
                {| cycles := []; visited := ∅; recursionStack := ∅ |})
      as [st'|] eqn:Hrun; [|discriminate].
    cbn in Htotal. injection Htotal as Htotal.
    apply (dfs_roots_first_chain g _ _ _ _ chain Hrun).
    + left. split; reflexivity.
    + rewrite Htotal, Hdetect. reflexivity.
  - exists tangled_plan, [KeyStr 3; KeyNum 1]. split.
    + rewrite tangled_plan_chains. right. left.
    + intros [_ [front [last [Hchain [Hseen _]]]]].
      destruct front as [|x [|y front]]; try discriminate.
      * injection Hchain as <- <-. unfold path_properties in Hseen. cbn in Hseen.
        clear - Hseen. set_solver.
      * destruct front; discriminate.
Qed.

Lemma detectCircularDependencies_first_chain_witness :
  closes_cycle (buildDependencyGraph tangled_plan) [KeyStr 1; KeyNum 2; KeyNum 1].
Proof.
  apply (proj1 detectCircularDependencies_first_chain _ _ [[KeyStr 3; KeyNum 1]]).
  vm_compute. reflexivity.
Defined.

(** ** Recommendations on resources and on the timeline *)

Lemma includes_char_app (c : ascii) (a b : string) :
  includes (a +:+ b) (String c "")
  = includes a (String c "") || includes b (String c "").
Proof.
  induction a as [|d a IH].
  - rewrite append_nil_l. reflexivity.
  - rewrite append_cons. cbn [includes startsWith]. rewrite IH.
    destruct (Ascii.eqb c d); reflexivity.
Qed.

Lemma includes_char_prefix (c : ascii) (t s : string) :
  includes s (String c "") = false -> includes s (String c t) = false.
Proof.
  induction s as [|d s IH]; cbn [includes startsWith]; [reflexivity|].
  destruct (Ascii.eqb c d); [discriminate|]. cbn [orb]. exact IH.
Qed.

Lemma includes_char_uint (c : ascii) (d : Decimal.uint) :
  is_digit c = false -> includes (NilEmpty.string_of_uint d) (String c "") = false.
Proof.
  intros Hc.
  induction d as [|d IH|d IH|d IH|d IH|d IH|d IH|d IH|d IH|d IH|d IH];
    [reflexivity|..];
    cbn [NilEmpty.string_of_uint includes startsWith];
    match goal with
    | |- context [Ascii.eqb c ?k] =>
        destruct (Ascii.eqb_spec c k) as [->|_]; [discriminate|exact IH]
    end.
Qed.

Lemma includes_char_of_nat (c : ascii) (n : nat) :
  is_digit c = false -> includes (of_nat n) (String c "") = false.
Proof.
  intros Hc. unfold of_nat, NilZero.string_of_uint.
  pose proof (includes_char_uint c (Nat.to_uint n) Hc) as H.
  destruct (Nat.to_uint n); try exact H.
  cbn [includes startsWith].
  destruct (Ascii.eqb_spec c "0") as [->|_]; [discriminate|reflexivity].
Qed.

Lemma exists_filter {A : Type} (test : A -> bool) (l : list A) :
  (0 <? length (List.filter test l))%nat = true <-> exists x, x ∈ l /\ test x = true.
Proof.
  split.
  - intros H. destruct (List.filter test l) as [|x rest] eqn:E; [discriminate|].
    assert (Hin : In x (List.filter test l)) by (rewrite E; left; reflexivity).
    apply filter_In in Hin. exists x. split; [apply list_elem_of_In|]; tauto.
  - intros [x [Hx Htest]].
    assert (Hin : In x (List.filter test l))
      by (apply filter_In; split; [apply list_elem_of_In|]; assumption).
    destruct (List.filter test l); [inversion Hin|reflexivity].
Qed.

(** Which titles name a resource or the timeline. *)
Lemma validateFeasibility_titles (task : string) (plan : list Step.t) (v : Finding.t) :
  v ∈ validateFeasibility task plan ->
  includes (Finding.title v) "Resource" = false /\
  includes (Finding.title v) "Timeline" = false.
Proof.
  unfold validateFeasibility. cbv zeta. intros Hv. apply elem_of_app in Hv.
  destruct Hv as [Hv|Hv].
  - apply elem_of_lookup_imap in Hv. destruct Hv as [index [step [-> _]]].
    cbn [Finding.title].
    split; apply includes_char_prefix; rewrite !includes_char_app,
      includes_char_of_nat by reflexivity; reflexivity.
  - apply list_elem_of_singleton in Hv. subst v. split; reflexivity.
Qed.

Lemma validateResources_titles (task : string) (plan : list Step.t) (v : Finding.t) :
  v ∈ validateResources task plan ->
  includes (Finding.title v) "Resource" = true /\
  includes (Finding.title v) "Timeline" = false.
Proof.
  unfold validateResources. cbv zeta. intros Hv. apply elem_of_app in Hv.
  destruct Hv as [Hv|Hv].
  - apply list_elem_of_singleton in Hv. subst v. split; reflexivity.
  - destruct (_ <? _)%nat; [|inversion Hv].
    apply list_elem_of_singleton in Hv. subst v. split; reflexivity.
Qed.

Lemma validateDependencies_titles (task : string) (plan : list Step.t) (v : Finding.t) :
  v ∈ validateDependencies task plan ->
  includes (Finding.title v) "Resource" = false /\
  includes (Finding.title v) "Timeline" = false.
Proof.
  unfold validateDependencies. cbv zeta. rewrite !elem_of_app.
  intros [Hv|[Hv|Hv]];
    try match type of Hv with
        | _ ∈ (if ?b then _ else _) => destruct b; [|inversion Hv]
        end;
    apply list_elem_of_singleton in Hv; subst v; split; reflexivity.
Qed.

Lemma validateRisks_titles (this : ValidatorAgent) (task : string)
    (plan : list Step.t) (v : Finding.t) :
  v ∈ validateRisks this task plan ->
  includes (Finding.title v) "Resource" = false /\
  includes (Finding.title v) "Timeline" = false.
Proof.
  unfold validateRisks. cbv zeta. rewrite !elem_of_app.
  intros [Hv|[Hv|Hv]];
    try match type of Hv with
        | _ ∈ (if ?b then _ else _) => destruct b; [|inversion Hv]
        end;
    apply list_elem_of_singleton in Hv; subst v; split; reflexivity.
Qed.

(** The timeline evaluator: its first finding carries the status of the
    assessment and is the only one whose title names the timeline. *)
Lemma validateTimeline_titles (task : string) (plan : list Step.t)
    (findings : list Finding.t) :
  validateTimeline task plan = Ok findings ->
  exists totalDuration first rest,
    calculatePlanDuration plan = Ok totalDuration /\
    findings = first :: rest /\
    Finding.type first = status (assessTimeline totalDuration (length plan)) /\
    includes (Finding.title first) "Timeline" = true /\
    includes (Finding.title first) "Resource" = false /\
    forall v, v ∈ rest ->
              includes (Finding.title v) "Resource" = false /\
              includes (Finding.title v) "Timeline" = false.
Proof.
  unfold validateTimeline.
  destruct (calculatePlanDuration plan) as [totalDuration|]; cbn [bind]; [|discriminate].
  destruct (identifyUnbalancedDurations plan) as [unbalancedSteps|]; cbn [bind];
    [|discriminate].
  intros [= <-]. eexists _, _, _. split; [reflexivity|]. cbn [app].
  split; [reflexivity|]. cbn [Finding.type Finding.title].
  split; [reflexivity|]. split; [reflexivity|]. split; [reflexivity|].
  intros v Hv. destruct (_ <? _)%nat; [|inversion Hv].
  apply list_elem_of_singleton in Hv. subst v. split; reflexivity.
Qed.

Lemma total_resources_length (plan : list Step.t) :
  length (foldl (fun set step =>
                   match Step.resources step with
                   | Some rs => foldl Set_add set rs
                   | None => set
                   end) [] plan)
  = size (list_to_set (C := gset string) (named_resources plan)).
Proof.
  match goal with
  | |- length ?t = _ => set (total := t)
  end.
  assert (Hspec : NoDup total /\
            forall y, y ∈ total <-> y ∈ [] \/ (y ∈ named_resources plan /\ true = true))
    by exact (Set_add_plan (fun _ => true) plan [] (NoDup_nil_2 (A := string))).
  destruct Hspec as [Hnd Hin].
  rewrite <- (size_list_to_set (C := gset string) total Hnd).
  f_equal. apply set_eq. intros y. rewrite !elem_of_list_to_set, Hin. split.
  - intros [H|[H _]]; [inversion H|exact H].
  - intros H. right. auto.
Qed.

Lemma critical_resources_elem (plan : list Step.t) (resource : string) :
  resource ∈ identifyCriticalResources plan <->
  resource ∈ named_resources plan /\
  exists keyword, critical_keyword keyword /\ occurs_in keyword (toLowerCase resource).
Proof.
  unfold identifyCriticalResources. cbv zeta.
  destruct (Set_add_plan
              (fun resource =>
                 existsb (fun keyword => includes (toLowerCase resource) keyword)
                   ["specialized"; "expert"; "licensed"; "premium"; "custom"; "rare"])
              plan [] (NoDup_nil_2 (A := string))) as [_ Hin].
  cbv zeta in Hin. rewrite Hin, existsb_keyword. split.
  - intros [H|H]; [inversion H|exact H].
  - auto.
Qed.

(** The resource evaluator warns when more than ten distinct resources
    are named or one of them is critical. *)
Lemma validateResources_warns (task : string) (plan : list Step.t) :
  (exists v, v ∈ validateResources task plan /\ Finding.type v = warning) <->
  (10 < size (list_to_set (C := gset string) (named_resources plan)))%nat \/
  exists resource,
    resource ∈ named_resources plan /\
    exists keyword, critical_keyword keyword /\ occurs_in keyword (toLowerCase resource).
Proof.
  unfold validateResources. cbv zeta. rewrite total_resources_length.
  set (count := size (list_to_set (C := gset string) (named_resources plan))).
  clearbody count. split.
  - intros [v [Hv Hwarning]]. apply elem_of_app in Hv. destruct Hv as [Hv|Hv].
    + apply list_elem_of_singleton in Hv. subst v. cbn [Finding.type] in Hwarning.
      destruct (Nat.leb_spec count 10); [discriminate|]. left. assumption.
    + destruct (identifyCriticalResources plan) as [|resource others] eqn:E;
        [inversion Hv|].
      right. exists resource. apply critical_resources_elem. rewrite E. left.
  - intros [Hmany|[resource Hcritical]].
    + eexists. split; [apply elem_of_app; left; left|]. cbn [Finding.type].
      destruct (Nat.leb_spec count 10); [lia|reflexivity].
    + apply critical_resources_elem in Hcritical.
      destruct (identifyCriticalResources plan) as [|r others]; [inversion Hcritical|].
      cbn [length Nat.ltb Nat.leb]. eexists.
      split; [apply elem_of_app; right; left|]. reflexivity.
Qed.

Lemma assessTimeline_warns (plan : list Step.t) (durations : list string)
    (totalDuration : string) :
  map Step.duration plan = map Some durations ->
  calculatePlanDuration plan = Ok totalDuration ->
  status (assessTimeline totalDuration (length plan)) = warning <->
  long_total (total_hours durations) = true \/ (10 < length plan)%nat.
Proof.
  intros Hmap Hprint.
  destruct (assessTimeline_printed plan durations Hmap) as [printed [Hprinted Hweeks]].
  assert (printed = totalDuration) as -> by congruence.
  unfold assessTimeline. rewrite Hweeks.
  assert (Hsteps : status (if (10 <? length plan)%nat
       then {| status := warning;
               ts_message := "Many steps may complicate timeline management";
               ts_assessment := "Complex";
               ts_recommendation := "Consider consolidating or parallelizing steps" |}
       else {| status := passed;
               ts_message := "Timeline appears reasonable";
               ts_assessment := "Good";
               ts_recommendation := "Monitor progress regularly" |}) = warning
       <-> (10 < length plan)%nat).
  { destruct (Nat.ltb_spec 10 (length plan)); cbn [status]; split; try tauto;
      try discriminate; lia. }
  destruct (long_total (total_hours durations)).
  - cbn [status]. split; auto.
  - rewrite Hsteps. split; [auto|]. intros [H|H]; [discriminate|exact H].
Qed.

Lemma recommendation_actions (validations : list Finding.t) (wanted : string) :
  wanted = "Review resource allocation and availability" \/
  wanted = "Review timeline estimates and dependencies" ->
  (exists r, r ∈ generateRecommendations validations /\ action r = wanted) <->
  exists v, v ∈ validations /\
            (includes (Finding.title v)
               (if String.eqb wanted "Review resource allocation and availability"
                then "Resource" else "Timeline")
             && is_type warning v) = true.
Proof.
  intros Hwanted. unfold generateRecommendations. cbv zeta.
  rewrite <- exists_filter.
  destruct Hwanted as [-> | ->]; cbn [String.eqb Ascii.eqb Bool.eqb];
    match goal with
    | |- (exists r, r ∈ ?a ++ ?b ++ ?c ++ ?d /\ _) <-> _ =>
        set (high := a); set (many := b); set (resource := c); set (timeline := d)
    end.
  - split.
    + intros [r [Hr Haction]]. rewrite !elem_of_app in Hr.
      destruct Hr as [Hr|[Hr|[Hr|Hr]]]; subst high many resource timeline;
        match type of Hr with
        | _ ∈ (if ?b then _ else _) => destruct b eqn:E; [|inversion Hr]
        end;
        apply list_elem_of_singleton in Hr; subst r; cbn [action] in Haction;
        try discriminate.
      reflexivity.
    + intros H. subst resource. rewrite H. eexists.
      split; [rewrite !elem_of_app; right; right; left; left|reflexivity].
  - split.
    + intros [r [Hr Haction]]. rewrite !elem_of_app in Hr.
      destruct Hr as [Hr|[Hr|[Hr|Hr]]]; subst high many resource timeline;
        match type of Hr with
        | _ ∈ (if ?b then _ else _) => destruct b eqn:E; [|inversion Hr]
        end;
        apply list_elem_of_singleton in Hr; subst r; cbn [action] in Haction;
        try discriminate.
      reflexivity.
    + intros H. subst timeline. rewrite H. eexists.
      split; [rewrite !elem_of_app; right; right; right; left|reflexivity].
Qed.

(** X14: in a successful result the recommendation to review the resource
    allocation is given exactly when more than ten distinct resources are
    named or one of them is critical, and the recommendation to review the
    timeline exactly when the total is finite and exceeds 160 hours or the
    plan has more than ten steps: unbalanced durations and dependency
    findings never trigger it. *)
Theorem validatePlan_recommendations (c : list string) (task : string)
    (steps : list Step.t) (durations : list string) (validations : list Finding.t)
    (score : number) (summary : summary) (recommendations : list recommendation) :
  snd (validatePlan {| agent := constructor; console := c |} task (PlanArray steps))
  = Resolved (Success validations score summary recommendations) ->
  map Step.duration steps = map Some durations ->
  ((exists r, r ∈ recommendations /\
              action r = "Review resource allocation and availability") <->
   (10 < size (list_to_set (C := gset string) (named_resources steps)))%nat \/
   exists resource,
     resource ∈ named_resources steps /\
     exists keyword, critical_keyword keyword /\
                     occurs_in keyword (toLowerCase resource)) /\
  ((exists r, r ∈ recommendations /\
              action r = "Review timeline estimates and dependencies") <->
   long_total (total_hours durations) = true \/ (10 < length steps)%nat).
Proof.
  intros Hrun Hmap.
  destruct (validatePlan_success_inv _ _ _ _ _ _ _ Hrun)
    as [timeline_findings [Htimeline [Hvalidations [_ [_ ->]]]]].
  destruct (validateTimeline_titles _ _ _ Htimeline)
    as [totalDuration [first [rest [Hprint [-> [Hstatus [Hfirst [Hfirst' Hrest]]]]]]]].
  pose proof (validateFeasibility_titles task steps) as HF.
  pose proof (validateResources_titles task steps) as HR.
  pose proof (validateDependencies_titles task steps) as HD.
  pose proof (validateRisks_titles constructor task steps) as HK.
  split.
  - rewrite recommendation_actions by (left; reflexivity).
    cbn [String.eqb Ascii.eqb Bool.eqb]. rewrite <- validateResources_warns.
    rewrite Hvalidations. split.
    + intros [v [Hv Htest]]. apply andb_true_iff in Htest.
      destruct Htest as [Htitle Hwarning].
      unfold is_type in Hwarning. apply bool_decide_eq_true in Hwarning.
      rewrite !elem_of_app, elem_of_cons in Hv.
      destruct Hv as [Hv|[Hv|[[-> | Hv]|[Hv|Hv]]]].
      * apply HF in Hv. destruct Hv; congruence.
      * exists v. auto.
      * congruence.
      * apply Hrest in Hv. destruct Hv; congruence.
      * apply HD in Hv. destruct Hv; congruence.
      * apply HK in Hv. destruct Hv; congruence.
    + intros [v [Hv Hwarning]]. exists v.
      split; [rewrite !elem_of_app; auto|].
      apply andb_true_iff. split; [apply HR; exact Hv|].
      unfold is_type. apply bool_decide_eq_true. exact Hwarning.
  - rewrite recommendation_actions by (right; reflexivity).
    cbn [String.eqb Ascii.eqb Bool.eqb].
    rewrite <- (assessTimeline_warns steps durations totalDuration Hmap Hprint).
    rewrite <- Hstatus, Hvalidations. split.
    + intros [v [Hv Htest]]. apply andb_true_iff in Htest.
      destruct Htest as [Htitle Hwarning].
      unfold is_type in Hwarning. apply bool_decide_eq_true in Hwarning.
      rewrite !elem_of_app, elem_of_cons in Hv.
      destruct Hv as [Hv|[Hv|[[-> | Hv]|[Hv|Hv]]]].
      * apply HF in Hv. destruct Hv; congruence.
      * apply HR in Hv. destruct Hv; congruence.
      * exact Hwarning.
      * apply Hrest in Hv. destruct Hv; congruence.
      * apply HD in Hv. destruct Hv; congruence.
      * apply HK in Hv. destruct Hv; congruence.
    + intros Hwarning. exists first.
      split; [rewrite !elem_of_app, elem_of_cons; auto|].
      apply andb_true_iff. split; [exact Hfirst|].
      unfold is_type. apply bool_decide_eq_true. exact Hwarning.
Qed.

Lemma validatePlan_recommendations_witness :
  exists validations score summary recommendations,
    snd (validatePlan {| agent := constructor; console := [] |} "Build the bridge"
           (PlanArray long_plan))
    = Resolved (Success validations score summary recommendations) /\
    exists r, r ∈ recommendations /\
              action r = "Review timeline estimates and dependencies".
Proof.
  eexists _, _, _, _. split.
  - vm_compute. reflexivity.
  - refine (proj2 (proj2 (validatePlan_recommendations [] "Build the bridge"
                            long_plan ["100-200 hours"; "100-200 hours"]
                            _ _ _ _ _ eq_refl)) _).
    + vm_compute. reflexivity.
    + left. vm_compute. reflexivity.
Defined.

(** ** Risks: what is reported, and when mitigation passes *)

Lemma elem_of_map_filter {A B : Type} (f : A -> B) (test : A -> bool) (l : list A)
    (y : B) :
  y ∈ map f (List.filter test l) <-> exists x, x ∈ l /\ test x = true /\ y = f x.
Proof.
  rewrite list_elem_of_In, in_map_iff. split.
  - intros [x [<- Hx]]. apply filter_In in Hx. exists x.
    split; [apply list_elem_of_In|]; tauto.
  - intros [x [Hx [Htest ->]]]. exists x. split; [reflexivity|].
    apply filter_In. split; [apply list_elem_of_In|]; assumption.
Qed.

Lemma analyzeStepRisks_elem (this : ValidatorAgent) (step : Step.t) (index : nat)
    (e : risk_entry) :
  e ∈ analyzeStepRisks this step index <->
  exists factor level,
    factor ∈ level_factors this level /\ occurs_in factor (stepText step) /\
    e = entry_for step index factor level.
Proof.
  rewrite analyzeStepRisks_eq, elem_of_app, !elem_of_map_filter. split.
  - intros [[factor [Hin [Hinc ->]]]|[factor [Hin [Hinc ->]]]].
    + exists factor, high. rewrite <- includes_spec. auto.
    + exists factor, medium. rewrite <- includes_spec. auto.
  - intros [factor [level [Hin [Hocc ->]]]]. apply includes_spec in Hocc.
    destruct level; [left|right]; exists factor; auto.
Qed.

Lemma risks_from_elem (this : ValidatorAgent) (plan : list Step.t) :
  forall (index : nat) (e : risk_entry),
    e ∈ risks_from this index plan <->
    exists position step factor level,
      plan !! position = Some step /\
      factor ∈ level_factors this level /\ occurs_in factor (stepText step) /\
      e = entry_for step (index + position) factor level.
Proof.
  induction plan as [|step rest IH]; intros index e; cbn [risks_from].
  - split; [intros H; inversion H|]. intros [position [s [f [l [H _]]]]].
    discriminate.
  - rewrite elem_of_app, analyzeStepRisks_elem, IH. split.
    + intros [[factor [level [Hin [Hocc ->]]]]|[position [s [factor [level H]]]]].
      * exists 0%nat, step, factor, level. rewrite Nat.add_0_r. auto.
      * exists (S position), s, factor, level. rewrite Nat.add_succ_r. exact H.
    + intros [[|position] [s [factor [level [Hs [Hin [Hocc ->]]]]]]].
      * left. injection Hs as <-. exists factor, level. rewrite Nat.add_0_r. auto.
      * right. exists position, s, factor, level. rewrite Nat.add_succ_r in *. auto.
Qed.

(** X15: an entry is reported by [identifyRisks] exactly when it is the
    entry of a step of the plan and of a high- or medium-risk keyword that
    occurs in the lower-case text of the step; and the risk evaluator
    issues its "high-risks" finding exactly when some step mentions a
    high-risk keyword. *)
Theorem identifyRisks_spec (this : ValidatorAgent) (task : string)
    (plan : list Step.t) :
  (forall e : risk_entry,
      e ∈ identifyRisks this plan <->
      exists index step factor level,
        plan !! index = Some step /\
        factor ∈ level_factors this level /\ occurs_in factor (stepText step) /\
        e = entry_for step index factor level) /\
  ((exists v, v ∈ validateRisks this task plan /\ Finding.id v = "high-risks") <->
   exists index step factor,
     plan !! index = Some step /\
     factor ∈ RiskFactors.high (riskFactors this) /\
     occurs_in factor (stepText step)).
Proof.
  assert (Hspec : forall e : risk_entry,
      e ∈ identifyRisks this plan <->
      exists index step factor level,
        plan !! index = Some step /\
        factor ∈ level_factors this level /\ occurs_in factor (stepText step) /\
        e = entry_for step index factor level).
  { intros e. rewrite identifyRisks_eq. apply risks_from_elem. }
  split; [exact Hspec|].
  unfold validateRisks. cbv zeta.
  set (risks := identifyRisks this plan) in *. clearbody risks.
  assert (Hhigh : (0 <? length (List.filter (fun r => bool_decide (rk_level r = high))
                                  risks))%nat = true
                  <-> exists index step factor,
                        plan !! index = Some step /\
                        factor ∈ RiskFactors.high (riskFactors this) /\
                        occurs_in factor (stepText step)).
  { rewrite exists_filter. split.
    - intros [e [He Hlevel]]. apply bool_decide_eq_true in Hlevel.
      apply Hspec in He. destruct He as [index [step [factor [level [Hs [Hin [Hocc ->]]]]]]].
      destruct level; [|discriminate]. exists index, step, factor. auto.
    - intros [index [step [factor [Hs [Hin Hocc]]]]].
      exists (entry_for step index factor high). split; [|reflexivity].
      apply Hspec. exists index, step, factor, high. auto. }
  rewrite <- Hhigh. split.
  - intros [v [Hv Hid]]. rewrite !elem_of_app in Hv.
    destruct Hv as [Hv|[Hv|Hv]].
    + destruct (0 <? _)%nat; [reflexivity|inversion Hv].
    + destruct (0 <? length (List.filter (fun r => bool_decide (rk_level r = medium))
                               risks))%nat; [|inversion Hv].
      apply list_elem_of_singleton in Hv. subst v. discriminate.
    + apply list_elem_of_singleton in Hv. subst v. discriminate.
  - intros ->. eexists. split; [apply elem_of_app; left; left|reflexivity].
Qed.

Lemma identifyRisks_spec_witness :
  exists v, v ∈ validateRisks constructor "Launch" [rushed_step] /\
            Finding.id v = "high-risks".
Proof.
  apply (proj2 (identifyRisks_spec constructor "Launch" [rushed_step])).
  exists 0%nat, rushed_step, "tight timeline". split; [reflexivity|].
  split; [left|].
  exists "launch deliver under a ", " with budget constraints". reflexivity.
Defined.

(** X16: the last finding of the risk evaluator is "risk-mitigation"; it is
    passed exactly when the plan has a step and the steps earn 20.85 points
    or more on average (the score, rounded, reaches 70), and a warning
    otherwise, in particular on the plan without steps. *)
Theorem risk_mitigation_threshold (this : ValidatorAgent) (task : string)
    (plan : list Step.t) :
  Z.of_nat (length plan) < 2 ^ 32 ->
  exists (earlier : list Finding.t) (last : Finding.t),
    validateRisks this task plan = earlier ++ [last] /\
    Finding.id last = "risk-mitigation" /\
    (Finding.type last = passed <->
     plan <> [] /\
     417 * Z.of_nat (length plan) <= 20 * total_mitigation_points plan) /\
    (Finding.type last = passed \/ Finding.type last = warning).
Proof.
  intros Hbound. unfold validateRisks. cbv zeta.
  match goal with
  | |- context [?a ++ ?b ++ [?l]] => exists (a ++ b), l
  end.
  split; [rewrite <- app_assoc; reflexivity|]. split; [reflexivity|].
  cbn [Finding.type]. split.
  - destruct plan as [|step rest].
    + cbn. split; [discriminate|]. intros [H _]. congruence.
    + set (plan := step :: rest) in *.
      assert (Hne : plan <> []) by discriminate.
      assert (Hlen : 0 < Z.of_nat (length plan)) by (subst plan; cbn [length]; lia).
      pose proof (total_mitigation_points_range plan) as Hpoints.
      destruct (Z.eq_dec (200 * total_mitigation_points plan)
                  (139 * (3 * Z.of_nat (length plan) * 10))) as [Hhalf|Hhalf].
      * (* exactly 69.5 percent: 0.695 times 100 is 69.5 as doubles, too *)
        rewrite (assessRiskMitigation_ratio plan Hbound).
        assert (Hratio : (inject_Z (total_mitigation_points plan)
                          / inject_Z (3 * Z.of_nat (length plan) * 10)
                          == 139 # 200)%Q).
        { apply (Qmult_inj_r _ _ (inject_Z (200 * (3 * Z.of_nat (length plan) * 10)))).
          - intros H. unfold Qeq in H. cbn in H. lia.
          - rewrite (inject_Z_mult 200).
            assert (H : (inject_Z (200 * total_mitigation_points plan)
                         == inject_Z (139 * (3 * Z.of_nat (length plan) * 10)))%Q)
              by (rewrite Hhalf; reflexivity).
            rewrite (inject_Z_mult 200), (inject_Z_mult 139) in H.
            change (inject_Z 200) with 200%Q in *. change (inject_Z 139) with 139%Q in H.
            field_simplify_eq; [lra|].
            intros H'. unfold Qeq in H'. cbn in H'. lia. }
        cbn [JsNumber.div].
        rewrite Qeq_bool_false by (intros H; unfold Qeq in H; cbn in H; lia).
        rewrite (of_Q_comp _ _ Hratio).
        change (JsNumber.geb _ (Num 70)) with true. cbv iota.
        split; [intros _; split; [exact Hne|lia]|reflexivity].
      * destruct (assessRiskMitigation_nonempty plan Hne Hbound)
          as (score & z & -> & Hrange & Hscore & Hnear & _).
        cbv zeta in Hnear.
        set (n := Z.of_nat (length plan)) in *. clearbody n.
        set (points := total_mitigation_points plan) in *. clearbody points.
        assert (Hbounds : (2 * z - 1) * (3 * n * 10) <= 200 * points
                          <= (2 * z + 1) * (3 * n * 10)).
        { assert (Hd : 3 * n * 10 = 2 * (15 * n)) by lia. rewrite Hd in Hnear |- *.
          pose proof (nearest_percentage_bounds z points (15 * n) ltac:(lia) Hnear). lia. }
        unfold JsNumber.geb. cbn [JsNumber.leb].
        assert (Hle : Qle_bool 70 (inject_Z score) = true <-> 70 <= score).
        { rewrite Qle_bool_iff. change 70%Q with (inject_Z 70). rewrite <- Zle_Qle.
          reflexivity. }
        destruct (Qle_bool 70 (inject_Z score)) eqn:E.
        -- split; [|reflexivity]. intros _. split; [exact Hne|].
           assert (70 <= score) by (apply Hle; reflexivity). nia.
        -- split; [discriminate|]. intros [_ H]. exfalso.
           assert (70 <= score); [|apply Hle in H0; congruence]. nia.
  - destruct (JsNumber.geb (assessRiskMitigation plan) (Num 70)); auto.
Qed.

Lemma risk_mitigation_threshold_witness :
  exists (earlier : list Finding.t) (last : Finding.t),
    validateRisks constructor "Migrate" [guarded_step] = earlier ++ [last] /\
    Finding.type last = passed.
Proof.
  destruct (risk_mitigation_threshold constructor "Migrate" [guarded_step])
    as [earlier [last [Hrun [_ [Hpassed _]]]]]; [vm_compute; reflexivity|].
  exists earlier, last. split; [exact Hrun|]. apply Hpassed.
  split; [discriminate|]. vm_compute. discriminate.
Defined.

(** ** The overview of the dependency evaluator *)

Lemma identifyComplexDependencies_none (g : graph) :
  identifyComplexDependencies g = [] <->
  forall k deps, graph_get g k = Some deps -> (length deps <= 2)%nat.
Proof.
  unfold identifyComplexDependencies. rewrite complex_fold. cbn [app].
  unfold Object_entries. split.
  - intros Hnone k deps Hget.
    destruct (Nat.leb_spec (length deps) 2) as [|Hlong]; [assumption|exfalso].
    assert (Hin : In (k, deps)
                    (List.filter (fun p => (2 <? length (snd p))%nat)
                       (map (fun k => (k, default [] (graph_get g k))) (Object_keys g)))).
    { apply filter_In. split; [|apply Nat.ltb_lt; exact Hlong].
      apply in_map_iff. exists k. rewrite Hget. split; [reflexivity|].
      apply list_elem_of_In, Object_keys_lookup. eexists. exact Hget. }
    destruct (List.filter _ _); [inversion Hin|discriminate].
  - intros Hshort. rewrite filter_none; [reflexivity|].
    intros [k deps] Hin. apply in_map_iff in Hin. destruct Hin as [k' [Heq Hin]].
    injection Heq as -> <-. cbn [snd].
    apply list_elem_of_In, Object_keys_lookup in Hin. destruct Hin as [deps Hdeps].
    rewrite Hdeps. cbn [default]. apply Nat.ltb_ge. eapply Hshort. exact Hdeps.
Qed.

(** X17: the last finding of the dependency evaluator is the overview; it
    is passed exactly when the graph has no cycle and stores no more than
    two dependencies under any id, and a warning otherwise. *)
Theorem validateDependencies_overview (task : string) (plan : list Step.t) :
  exists (earlier : list Finding.t) (overview : Finding.t),
    validateDependencies task plan = earlier ++ [overview] /\
    Finding.id overview = "dependency-overview" /\
    (Finding.type overview = passed <->
     ~ cyclic (buildDependencyGraph plan) /\
     forall k deps, graph_get (buildDependencyGraph plan) k = Some deps ->
                    (length deps <= 2)%nat) /\
    (Finding.type overview = passed \/ Finding.type overview = warning).
Proof.
  unfold validateDependencies. cbv zeta.
  match goal with
  | |- context [?a ++ ?b ++ [?l]] => exists (a ++ b), l
  end.
  split; [rewrite <- app_assoc; reflexivity|]. split; [reflexivity|].
  cbn [Finding.type].
  pose proof (identifyComplexDependencies_none (buildDependencyGraph plan)) as Hcomplex.
  pose proof (detectCircularDependencies_acyclic (buildDependencyGraph plan)) as Hnone.
  pose proof (detectCircularDependencies_finds_cycle (buildDependencyGraph plan)) as Hsome.
  destruct (identifyComplexDependencies (buildDependencyGraph plan)) as [|entry entries];
    destruct (detectCircularDependencies (buildDependencyGraph plan)) as [|chain chains];
    cbn [length Nat.eqb andb]; (split; [|auto]).
  - split; [|reflexivity]. intros _. split.
    + intros Hcyc. apply Hsome in Hcyc. congruence.
    + apply Hcomplex. reflexivity.
  - split; [discriminate|]. intros [Hacyclic _]. apply Hnone in Hacyclic. discriminate.
  - split; [discriminate|]. intros [_ Hshort]. apply Hcomplex in Hshort. discriminate.
  - split; [discriminate|]. intros [_ Hshort]. apply Hcomplex in Hshort. discriminate.
Qed.

(** ** What the maximum depth measures *)

Lemma depth_neighbors_spec (g : graph) (recur : Z -> Z -> option Z) (depth : Z)
    (visited : gset jskey) :
  (forall neighbor m r,
      recur neighbor m = Some r ->
      m <= r /\
      (forall rest, chain_from g (KeyNum neighbor) rest visited ->
                    depth + Z.of_nat (length rest) <= r) /\
      (r = m \/ exists rest, chain_from g (KeyNum neighbor) rest visited /\
                             r = depth + Z.of_nat (length rest))) ->
  forall neighbors m r,
    depth_neighbors recur neighbors m = Some r ->
    m <= r /\
    (forall neighbor rest,
        neighbor ∈ neighbors -> chain_from g (KeyNum neighbor) rest visited ->
        depth + Z.of_nat (length rest) <= r) /\
    (r = m \/ exists neighbor rest,
                neighbor ∈ neighbors /\ chain_from g (KeyNum neighbor) rest visited /\
                r = depth + Z.of_nat (length rest)).
Proof.
  intros Hrecur neighbors.
  induction neighbors as [|neighbor others IH]; intros m r Hrun;
    cbn [depth_neighbors] in Hrun.
  - injection Hrun as <-. split; [lia|]. split; [|left; reflexivity].
    intros x rest Hx. inversion Hx.
  - destruct (recur neighbor m) as [r1|] eqn:Hcall; [|discriminate].
    destruct (Hrecur _ _ _ Hcall) as [Hle1 [Hupper1 Hreached1]].
    destruct (IH _ _ Hrun) as [Hle [Hupper Hreached]].
    split; [lia|]. split.
    + intros x rest Hx Hchain. apply elem_of_cons in Hx. destruct Hx as [-> | Hx].
      * specialize (Hupper1 rest Hchain). lia.
      * exact (Hupper x rest Hx Hchain).
    + destruct Hreached as [-> | [x [rest [Hx [Hchain ->]]]]].
      * destruct Hreached1 as [-> | [rest [Hchain ->]]]; [left; reflexivity|].
        right. exists neighbor, rest. split; [left|]. auto.
      * right. exists x, rest. split; [right; exact Hx|]. auto.
Qed.

Lemma chain_from_tail (g : graph) (node : jskey) (x : Z) (rest : list Z)
    (visited : gset jskey) :
  chain_from g node (x :: rest) visited ->
  x ∈ neighbors_of g node /\ chain_from g (KeyNum x) rest ({[node]} ∪ visited).
Proof.
  intros [Hwalk [Hnodup Hfresh]]. cbn [map] in Hwalk, Hnodup, Hfresh.
  cbn [walk] in Hwalk. destruct Hwalk as [Hedge Hwalk]. split; [exact Hedge|].
  apply NoDup_cons in Hnodup. destruct Hnodup as [Hnode Hnodup].
  split; [exact Hwalk|]. split; [exact Hnodup|].
  intros y Hy Hin. apply elem_of_union in Hin. destruct Hin as [Hin|Hin].
  - apply elem_of_singleton in Hin. subst y. contradiction.
  - apply (Hfresh y); [right; exact Hy|exact Hin].
Qed.

Lemma chain_from_cons (g : graph) (node : jskey) (x : Z) (rest : list Z)
    (visited : gset jskey) :
  node ∉ visited -> x ∈ neighbors_of g node ->
  chain_from g (KeyNum x) rest ({[node]} ∪ visited) ->
  chain_from g node (x :: rest) visited.
Proof.
  intros Hnode Hedge [Hwalk [Hnodup Hfresh]]. cbn [map]. split; [|split].
  - cbn [walk]. split; [exact Hedge|exact Hwalk].
  - apply NoDup_cons. split; [|exact Hnodup].
    intros Hin. apply (Hfresh node Hin). apply elem_of_union. left.
    apply elem_of_singleton. reflexivity.
  - intros y Hy. apply elem_of_cons in Hy. destruct Hy as [-> | Hy]; [exact Hnode|].
    intros Hin. apply (Hfresh y Hy). apply elem_of_union. right. exact Hin.
Qed.

Lemma chain_from_single (g : graph) (node : jskey) (visited : gset jskey) :
  node ∉ visited -> chain_from g node [] visited.
Proof.
  intros Hnode. split; [exact I|]. split; [apply NoDup_singleton|].
  intros x Hx. apply list_elem_of_singleton in Hx. subst x. exact Hnode.
Qed.

Lemma calculateDepth_spec (g : graph) (fuel : nat) :
  forall (node : jskey) (depth : Z) (visited : gset jskey) (m r : Z),
    calculateDepth fuel g node depth visited m = Some r ->
    m <= r /\
    (forall rest, chain_from g node rest visited ->
                  depth + Z.of_nat (length rest) <= r) /\
    (r = m \/ exists rest, chain_from g node rest visited /\
                           r = depth + Z.of_nat (length rest)).
Proof.
  induction fuel as [|fuel IH]; intros node depth visited m r Hrun; [discriminate|].
  cbn [calculateDepth] in Hrun.
  destruct (bool_decide (node ∈ visited)) eqn:Hvisited.
  - apply bool_decide_eq_true in Hvisited. injection Hrun as <-.
    split; [lia|]. split; [|left; reflexivity].
    intros rest [_ [_ Hfresh]]. exfalso. apply (Hfresh node); [left|exact Hvisited].
  - apply bool_decide_eq_false in Hvisited.
    destruct (depth_neighbors_spec g
                (fun neighbor =>
                   calculateDepth fuel g (KeyNum neighbor) (depth + 1)
                     ({[node]} ∪ visited))
                (depth + 1) ({[node]} ∪ visited))
      with (neighbors := neighbors_of g node) (m := Z.max m depth) (r := r)
      as [Hle [Hupper Hreached]]; [|exact Hrun|].
    { intros neighbor m0 r0 H0. exact (IH _ _ _ _ _ H0). }
    split; [lia|]. split.
    + intros [|x rest] Hchain.
      * cbn [length]. lia.
      * apply chain_from_tail in Hchain. destruct Hchain as [Hx Hchain].
        specialize (Hupper x rest Hx Hchain). cbn [length]. lia.
    + destruct Hreached as [-> | [x [rest [Hx [Hchain ->]]]]].
      * destruct (Z.max_spec m depth) as [[_ ->] | [_ ->]].
        -- right. exists []. split; [apply chain_from_single; exact Hvisited|].
           cbn [length]. lia.
        -- left. reflexivity.
      * right. exists (x :: rest).
        split; [apply chain_from_cons; assumption|]. cbn [length]. lia.
Qed.

Lemma depth_roots_spec (g : graph) (fuel : nat) (keys : list Z) :
  forall m r,
    depth_roots fuel g keys m = Some r ->
    m <= r /\
    (forall k rest, k ∈ keys -> chain_from g (KeyStr k) rest ∅ ->
                    1 + Z.of_nat (length rest) <= r) /\
    (r = m \/ exists k rest, k ∈ keys /\ chain_from g (KeyStr k) rest ∅ /\
                             r = 1 + Z.of_nat (length rest)).
Proof.
  induction keys as [|k others IH]; intros m r Hrun; cbn [depth_roots] in Hrun.
  - injection Hrun as <-. split; [lia|]. split; [|left; reflexivity].
    intros x rest Hx. inversion Hx.
  - destruct (calculateDepth fuel g (KeyStr k) 1 ∅ m) as [r1|] eqn:Hcall;
      [|discriminate].
    destruct (calculateDepth_spec _ _ _ _ _ _ _ Hcall) as [Hle1 [Hupper1 Hreached1]].
    destruct (IH _ _ Hrun) as [Hle [Hupper Hreached]].
    split; [lia|]. split.
    + intros x rest Hx Hchain. apply elem_of_cons in Hx. destruct Hx as [-> | Hx].
      * specialize (Hupper1 rest Hchain). lia.
      * exact (Hupper x rest Hx Hchain).
    + destruct Hreached as [-> | [x [rest [Hx [Hchain ->]]]]].
      * destruct Hreached1 as [-> | [rest [Hchain ->]]]; [left; reflexivity|].
        right. exists k, rest. split; [left|]. auto.
      * right. exists x, rest. split; [right; exact Hx|]. auto.
Qed.

Lemma simple_chain_from (g : graph) (k : Z) (rest : list Z) :
  k ∈ Object_keys g ->
  chain_from g (KeyStr k) rest ∅ <-> simple_chain g (KeyStr k :: map KeyNum rest).
Proof.
  intros Hk. split.
  - intros [Hwalk [Hnodup _]]. exists k, rest. auto.
  - intros [k' [rest' [Heq [_ [Hwalk Hnodup]]]]].
    split; [exact Hwalk|]. split; [exact Hnodup|]. intros x _. apply not_elem_of_empty.
Qed.

(** X18: the maximum dependency depth is the number of elements of the
    longest chain that starts at a key of the graph, follows dependency
    edges and repeats no element, the start counting as a string and the
    steps after it as numbers; it is 0 for the graph without keys. *)
Theorem calculateMaxDependencyDepth_longest_chain (g : graph) :
  (forall chain, simple_chain g chain ->
                 Z.of_nat (length chain) <= calculateMaxDependencyDepth g) /\
  (g <> [] ->
   exists chain, simple_chain g chain /\
                 calculateMaxDependencyDepth g = Z.of_nat (length chain)) /\
  (g = [] -> calculateMaxDependencyDepth g = 0).
Proof.
  unfold calculateMaxDependencyDepth, calculateMaxDependencyDepth_fuel.
  destruct (depth_roots_total g (length g + 2) (Object_keys g) 0) as [r [Hr _]];
    [lia|].
  rewrite Hr. change (default 0 (Some r)) with r.
  destruct (depth_roots_spec _ _ _ _ _ Hr) as [Hle [Hupper Hreached]].
  split; [|split].
  - intros chain Hchain. pose proof Hchain as [k [rest [-> [Hk _]]]].
    apply simple_chain_from in Hchain; [|exact Hk].
    specialize (Hupper k rest Hk Hchain). cbn [length]. rewrite length_map. lia.
  - intros Hne. destruct g as [|[k0 v0] g']; [congruence|].
    assert (Hk0 : k0 ∈ Object_keys ((k0, v0) :: g')).
    { rewrite Object_keys_perm. left. }
    assert (Hone : 1 <= r).
    { specialize (Hupper k0 [] Hk0). cbn [length] in Hupper.
      apply Hupper. apply chain_from_single. apply not_elem_of_empty. }
    destruct Hreached as [-> | [k [rest [Hk [Hchain ->]]]]]; [lia|].
    exists (KeyStr k :: map KeyNum rest).
    split; [apply simple_chain_from; assumption|].
    cbn [length]. rewrite length_map. lia.
  - intros ->. cbn in Hr. congruence.
Qed.

Lemma calculateMaxDependencyDepth_longest_chain_witness :
  Z.of_nat (length [KeyStr 1; KeyNum 2; KeyNum 1; KeyNum 99])
  <= calculateMaxDependencyDepth
       (buildDependencyGraph [bare_step 1 [2; 99]; bare_step 2 [1]]).
Proof.
  apply (proj1 (calculateMaxDependencyDepth_longest_chain
                  (buildDependencyGraph [bare_step 1 [2; 99]; bare_step 2 [1]]))).
  exists 1, [2; 1; 99]. split; [reflexivity|]. split; [|split].
  - apply list_elem_of_In. vm_compute. auto.
  - cbn [walk property]. unfold edge.
    repeat split; apply list_elem_of_In; vm_compute; auto.
  - repeat (apply NoDup_cons_2; [rewrite ?elem_of_cons; intros H;
      repeat (destruct H as [H|H]; [discriminate|]); inversion H|]).
    apply NoDup_nil_2.
Defined.

(** ** The ids of the findings *)

Lemma to_uint_nonnil (n : nat) : Nat.to_uint n <> Decimal.Nil.
Proof.
  intros H. pose proof (DecimalNat.Unsigned.of_to n) as Hn. rewrite H in Hn.
  cbn in Hn. subst n. discriminate.
Qed.

Lemma of_nat_inj (a b : nat) : of_nat a = of_nat b -> a = b.
Proof.
  unfold of_nat. intros H. apply DecimalNat.Unsigned.to_uint_inj.
  pose proof (NilZero.usu _ (to_uint_nonnil a)) as Ha.
  pose proof (NilZero.usu _ (to_uint_nonnil b)) as Hb.
  rewrite H in Ha. congruence.
Qed.

Lemma append_inj_l (a x y : string) : a +:+ x = a +:+ y -> x = y.
Proof.
  induction a as [|c a IH]; [rewrite !append_nil_l; auto|].
  rewrite !append_cons. intros [= H]. exact (IH H).
Qed.

Lemma imap_ids (mk : nat -> Step.t -> Finding.t) (label : nat -> string)
    (plan : list Step.t) :
  (forall index step, Finding.id (mk index step) = label index) ->
  map Finding.id (imap mk plan) = map label (seq 0 (length plan)).
Proof.
  revert mk label. induction plan as [|step plan IH]; intros mk label Hid;
    [reflexivity|].
  cbn [imap map length seq]. rewrite Hid. f_equal.
  rewrite (IH (mk ∘ S) (label ∘ S)) by (intros index s; apply Hid).
  rewrite <- seq_shift, map_map. reflexivity.
Qed.

(** The ids the evaluators other than the feasibility one can give. *)
Lemma later_ids (task : string) (steps : list Step.t)
    (timeline_findings : list Finding.t) :
  validateTimeline task steps = Ok timeline_findings ->
  let ids := map Finding.id
               (validateResources task steps ++ timeline_findings
                ++ validateDependencies task steps
                ++ validateRisks constructor task steps) in
  NoDup ids /\
  forall id, id ∈ ids ->
             id ∈ ["resource-count"; "critical-resources"; "timeline-assessment";
                   "duration-balance"; "circular-dependencies";
                   "complex-dependencies"; "dependency-overview"; "high-risks";
                   "medium-risks"; "risk-mitigation"].
Proof.
  unfold validateTimeline.
  destruct (calculatePlanDuration steps) as [totalDuration|]; cbn [bind]; [|discriminate].
  destruct (identifyUnbalancedDurations steps) as [unbalancedSteps|]; cbn [bind];
    [|discriminate].
  intros [= <-]. unfold validateResources, validateDependencies, validateRisks.
  cbv zeta.
  repeat match goal with
         | |- context [if (0 <? ?n)%nat then [?v] else []] =>
             let b := fresh "b" in
             set (b := (0 <? n)%nat); clearbody b
         end.
  destruct b, b0, b1, b2, b3, b4; cbn [app map Finding.id];
    (split;
     [refine (bool_decide_unpack (NoDup _) _); vm_compute; exact I
     |intros id Hid; rewrite !elem_of_cons in Hid; rewrite !elem_of_cons; tauto]).
Qed.

(** X19: in a successful result no two findings carry the same id. *)
Theorem validatePlan_unique_ids (c : list string) (task : string)
    (steps : list Step.t) (validations : list Finding.t) (score : number)
    (summary : summary) (recommendations : list recommendation) :
  snd (validatePlan {| agent := constructor; console := c |} task (PlanArray steps))
  = Resolved (Success validations score summary recommendations) ->
  NoDup (map Finding.id validations).
Proof.
  intros Hrun.
  destruct (validatePlan_success_inv _ _ _ _ _ _ _ Hrun)
    as [timeline_findings [Htimeline [-> _]]].
  destruct (later_ids task steps timeline_findings Htimeline) as [Hnodup Hlater].
  rewrite map_app. apply NoDup_app. split; [|split; [|exact Hnodup]].
  - unfold validateFeasibility. cbv zeta. rewrite map_app.
    rewrite (imap_ids _ (fun index => "feasibility-" +:+ of_nat (index + 1)))
      by reflexivity.
    cbn [map Finding.id]. apply NoDup_app. split; [|split; [|apply NoDup_singleton]].
    + assert (Hinj : Inj (=) (=)
                         (fun index => "feasibility-" +:+ of_nat (index + 1))).
      { intros a b Hab. apply append_inj_l, of_nat_inj in Hab. lia. }
      apply (NoDup_fmap_2 _ _ (NoDup_seq 0 (length steps))).
    + intros id Hid Hoverall. apply list_elem_of_singleton in Hoverall. subst id.
      apply list_elem_of_In, in_map_iff in Hid. destruct Hid as [index [Hid _]].
      rewrite append_cons in Hid. discriminate.
  - intros id Hid Hin. apply Hlater in Hin.
    unfold validateFeasibility in Hid. cbv zeta in Hid. rewrite map_app in Hid.
    rewrite (imap_ids _ (fun index => "feasibility-" +:+ of_nat (index + 1))) in Hid
      by reflexivity.
    cbn [map Finding.id] in Hid. apply elem_of_app in Hid.
    destruct Hid as [Hid|Hid].
    + apply list_elem_of_In, in_map_iff in Hid. destruct Hid as [index [<- _]].
      rewrite append_cons in Hin. rewrite !elem_of_cons in Hin.
      repeat (destruct Hin as [Hin|Hin]; [discriminate|]). inversion Hin.
    + apply list_elem_of_singleton in Hid. subst id. rewrite !elem_of_cons in Hin.
      repeat (destruct Hin as [Hin|Hin]; [discriminate|]). inversion Hin.
Qed.

Lemma validatePlan_unique_ids_witness :
  exists validations score summary recommendations,
    snd (validatePlan {| agent := constructor; console := [] |} "Write the report"
           (PlanArray mutual_plan))
    = Resolved (Success validations score summary recommendations) /\
    NoDup (map Finding.id validations).
Proof.
  eexists _, _, _, _. split.
  - vm_compute. reflexivity.
  - refine (validatePlan_unique_ids [] "Write the report" mutual_plan _ _ _ _ _).
    vm_compute. reflexivity.
Defined.

(** ** How many chains are reported *)

(** A call records at most one chain, which runs from the start of the
    path through the node and on through numbers. *)
Lemma dfs_neighbors_records
    (recur : Z -> dfs_state -> option (bool * dfs_state))
    (node : jskey) (path : list jskey) :
  (forall neighbor st b st',
      recur neighbor st = Some (b, st') ->
      visited st ⊆ visited st' /\
      ((b = false /\ cycles st' = cycles st) \/
       (b = true /\ exists rest,
           cycles st' = cycles st
                        ++ [(path ++ [node]) ++ KeyNum neighbor :: map KeyNum rest]))) ->
  forall neighbors st b st',
    dfs_neighbors recur node path neighbors st = Some (b, st') ->
    visited st ⊆ visited st' /\
    ((b = false /\ cycles st' = cycles st) \/
     (b = true /\ exists rest,
         rest <> [] /\ cycles st' = cycles st ++ [path ++ node :: map KeyNum rest])).
Proof.
  intros Hrecur neighbors.
  induction neighbors as [|neighbor others IH]; intros st b st' Hrun;
    cbn [dfs_neighbors] in Hrun.
  - injection Hrun as <- <-. split; [reflexivity|]. left. split; reflexivity.
  - destruct (bool_decide (neighbor ∉ visited st)).
    + destruct (recur neighbor st) as [[b1 st1]|] eqn:Hcall; [|discriminate].
      destruct (Hrecur _ _ _ _ Hcall) as [Hgrow [[-> Hsame]|[-> [rest Hpush]]]].
      * destruct (IH _ _ _ Hrun) as [Hgrow' Hresult].
        split; [etransitivity; eassumption|]. rewrite <- Hsame. exact Hresult.
      * injection Hrun as <- <-. split; [exact Hgrow|]. right.
        split; [reflexivity|]. exists (neighbor :: rest). split; [discriminate|].
        rewrite Hpush, <- app_assoc. reflexivity.
    + destruct (bool_decide (neighbor ∈ recursionStack st)).
      * injection Hrun as <- <-. split; [reflexivity|]. right.
        split; [reflexivity|]. exists [neighbor]. split; [discriminate|reflexivity].
      * exact (IH _ _ _ Hrun).
Qed.

Lemma dfs_records (g : graph) (fuel : nat) :
  forall node path st b st',
    dfs fuel g node path st = Some (b, st') ->
    visited st ⊆ visited st' /\
    ((b = false /\ cycles st' = cycles st) \/
     (b = true /\ exists rest,
         rest <> [] /\ cycles st' = cycles st ++ [path ++ node :: map KeyNum rest])).
Proof.
  induction fuel as [|fuel IH]; intros node path st b st' Hrun; [discriminate|].
  cbn [dfs] in Hrun. destruct (bool_decide (property node ∈ visited st)).
  - injection Hrun as <- <-. split; [reflexivity|]. left. split; reflexivity.
  - destruct (dfs_neighbors_records
                (fun neighbor => dfs fuel g (KeyNum neighbor) (path ++ [node]))
                node path) with (neighbors := neighbors_of g node)
                                (st := mark node st) (b := b) (st' := st')
      as [Hgrow Hresult]; [|exact Hrun|].
    + intros neighbor st0 b0 st0' H0.
      destruct (IH _ _ _ _ _ H0) as [Hgrow0 [Hsame|[-> [rest [_ Hpush]]]]].
      * split; [exact Hgrow0|left; exact Hsame].
      * split; [exact Hgrow0|]. right. split; [reflexivity|]. exists rest. exact Hpush.
    + split; [|exact Hresult]. cbn [mark visited] in Hgrow.
      clear - Hgrow. set_solver.
Qed.

Lemma dfs_visits (g : graph) (fuel : nat) (node : jskey) (path : list jskey)
    (st st' : dfs_state) (b : bool) :
  dfs fuel g node path st = Some (b, st') -> property node ∈ visited st'.
Proof.
  destruct fuel as [|fuel]; [discriminate|]. cbn [dfs].
  destruct (bool_decide (property node ∈ visited st)) eqn:E.
  - apply bool_decide_eq_true in E. intros [= _ <-]. exact E.
  - intros Hrun.
    destruct (dfs_neighbors_records
                (fun neighbor => dfs fuel g (KeyNum neighbor) (path ++ [node]))
                node path) with (neighbors := neighbors_of g node)
                                (st := mark node st) (b := b) (st' := st')
      as [Hgrow _]; [|exact Hrun|].
    + intros neighbor st0 b0 st0' H0.
      destruct (dfs_records _ _ _ _ _ _ _ H0) as [Hgrow0 [Hsame|[-> [rest [_ Hpush]]]]].
      * split; [exact Hgrow0|left; exact Hsame].
      * split; [exact Hgrow0|]. right. split; [reflexivity|]. exists rest. exact Hpush.
    + apply Hgrow. cbn [mark visited]. clear. set_solver.
Qed.

Lemma dfs_roots_records (g : graph) (fuel : nat) (keys : list Z) :
  forall (st st' : dfs_state) (seen : list Z),
    dfs_roots fuel g keys st = Some st' ->
    (forall c, c ∈ cycles st ->
               exists k rest, c = KeyStr k :: map KeyNum rest /\ rest <> [] /\
                              k ∈ seen /\ k ∈ visited st) ->
    NoDup (head <$> cycles st) ->
    (forall c, c ∈ cycles st' ->
               exists k rest, c = KeyStr k :: map KeyNum rest /\ rest <> [] /\
                              k ∈ seen ++ keys) /\
    NoDup (head <$> cycles st').
Proof.
  induction keys as [|node others IH]; intros st st' seen Hrun Hchains Hnodup;
    cbn [dfs_roots] in Hrun.
  - injection Hrun as <-. split; [|exact Hnodup].
    intros c Hc. destruct (Hchains c Hc) as [k [rest [-> [Hrest [Hk _]]]]].
    exists k, rest. rewrite app_nil_r. auto.
  - assert (Hshift : forall k, k ∈ (seen ++ [node]) ++ others <-> k ∈ seen ++ node :: others).
    { intros k. rewrite <- app_assoc. reflexivity. }
    destruct (bool_decide (node ∉ visited st)) eqn:Hnew.
    + apply bool_decide_eq_true in Hnew.
      destruct (dfs fuel g (KeyStr node) [] st) as [[b st1]|] eqn:Hcall; [|discriminate].
      destruct (dfs_records _ _ _ _ _ _ _ Hcall) as [Hgrow Hresult].
      pose proof (dfs_visits _ _ _ _ _ _ _ Hcall) as Hvisited. cbn [property] in Hvisited.
      destruct (IH st1 st' (seen ++ [node]) Hrun) as [Hall Hnodup'].
      * intros c Hc. destruct Hresult as [[_ Hsame]|[_ [rest [Hrest Hpush]]]].
        -- rewrite Hsame in Hc. destruct (Hchains c Hc) as [k [r [-> [Hr [Hk Hv]]]]].
           exists k, r. split; [reflexivity|]. split; [exact Hr|].
           split; [apply elem_of_app; left; exact Hk|apply Hgrow; exact Hv].
        -- rewrite Hpush in Hc. apply elem_of_app in Hc. destruct Hc as [Hc|Hc].
           ++ destruct (Hchains c Hc) as [k [r [-> [Hr [Hk Hv]]]]].
              exists k, r. split; [reflexivity|]. split; [exact Hr|].
              split; [apply elem_of_app; left; exact Hk|apply Hgrow; exact Hv].
           ++ apply list_elem_of_singleton in Hc. subst c. exists node, rest.
              split; [reflexivity|]. split; [exact Hrest|].
              split; [apply elem_of_app; right; left|exact Hvisited].
      * destruct Hresult as [[_ Hsame]|[_ [rest [Hrest Hpush]]]].
        -- rewrite Hsame. exact Hnodup.
        -- rewrite Hpush, fmap_app. apply NoDup_app. split; [exact Hnodup|].
           split; [|apply NoDup_singleton].
           intros h Hh Hh'. cbn in Hh'. apply list_elem_of_singleton in Hh'. subst h.
           apply list_elem_of_fmap in Hh. destruct Hh as [c [Hhead Hc]].
           destruct (Hchains c Hc) as [k [r [-> [_ [_ Hv]]]]].
           cbn in Hhead. injection Hhead as <-. contradiction.
      * split; [|exact Hnodup'].
        intros c Hc. destruct (Hall c Hc) as [k [r [-> [Hr Hk]]]].
        exists k, r. rewrite <- Hshift. auto.
    + destruct (IH st st' (seen ++ [node]) Hrun) as [Hall Hnodup'].
      * intros c Hc. destruct (Hchains c Hc) as [k [r [-> [Hr [Hk Hv]]]]].
        exists k, r. split; [reflexivity|]. split; [exact Hr|].
        split; [apply elem_of_app; left; exact Hk|exact Hv].
      * exact Hnodup.
      * split; [|exact Hnodup'].
        intros c Hc. destruct (Hall c Hc) as [k [r [-> [Hr Hk]]]].
        exists k, r. rewrite <- Hshift. auto.
Qed.

(** X20: every reported chain starts at a key of the graph, spelled as a
    string, and continues through at least one number; no two chains start
    at the same key, so there are at most as many chains as keys, however
    many cycles the graph has. *)
Theorem detectCircularDependencies_chains (g : graph) :
  (forall chain, chain ∈ detectCircularDependencies g ->
                 exists k rest, chain = KeyStr k :: map KeyNum rest /\ rest <> [] /\
                                k ∈ Object_keys g) /\
  NoDup (head <$> detectCircularDependencies g) /\
  (length (detectCircularDependencies g) <= length g)%nat.
Proof.
  pose proof (detectCircularDependencies_total g) as Htotal.
  unfold detectCircularDependencies_fuel in Htotal.
  destruct (dfs_roots (S (length g)) g (Object_keys g)
              {| cycles := []; visited := ∅; recursionStack := ∅ |})
    as [st'|] eqn:Hrun; [|discriminate].
  cbn in Htotal. injection Htotal as Htotal. rewrite <- Htotal.
  destruct (dfs_roots_records g _ _ _ _ [] Hrun) as [Hall Hnodup].
  { intros c Hc. inversion Hc. }
  { constructor. }
  cbn [app] in Hall. split; [exact Hall|]. split; [exact Hnodup|].
  assert (Hlen : length g = length ((Some ∘ KeyStr) <$> Object_keys g)).
  { rewrite length_fmap, (Permutation_length (Object_keys_perm g)), length_map.
    reflexivity. }
  rewrite Hlen, <- (length_fmap head (cycles st')).
  apply submseteq_length, NoDup_submseteq; [exact Hnodup|].
  intros h Hh. apply list_elem_of_fmap in Hh. destruct Hh as [c [-> Hc]].
  destruct (Hall c Hc) as [k [rest [-> [_ Hk]]]]. cbn [head].
  apply (list_elem_of_fmap_2 (Some ∘ KeyStr)) in Hk. exact Hk.
Qed.

(** ** The printed total *)

Section NextDouble.

Local Open Scope Q_scope.


End NextDouble.




